(** * HTML translation pipeline: translate_html.py and translate_html_ru.py

    A shallow embedding of the two scripts.  Python strings are sequences of
    Unicode code points, so a string is a [list Z]; the regular expressions
    of the scripts are written out as the scanners they denote, and
    [re.sub] / [re.finditer] as one left-to-right, non-overlapping pass. *)

From Stdlib Require Import String Ascii ZArith Arith Bool Lia List.
From Stdlib Require Import Permutation.
From Stdlib Require DecimalString DecimalNat Decimal.
Import ListNotations.

Set Implicit Arguments.

(** ** Strings *)

Definition str := list Z.

(** An ASCII literal as a Python string. *)
Definition lit (s : string) : str :=
  map (fun a => Z.of_nat (nat_of_ascii a)) (list_ascii_of_string s).

Definition chr (a : ascii) : Z := Z.of_nat (nat_of_ascii a).

Fixpoint str_eqb (a b : str) : bool :=
  match a, b with
  | [], [] => true
  | x :: a', y :: b' => Z.eqb x y && str_eqb a' b'
  | _, _ => false
  end.

Definition in_range (lo hi c : Z) : bool := Z.leb lo c && Z.leb c hi.

(** [str.isspace] on one code point, which is also [\s] of a str pattern. *)
Definition is_space (c : Z) : bool :=
  in_range 9 13 c || in_range 28 32 c || Z.eqb c 133 || Z.eqb c 160
  || Z.eqb c 5760 || in_range 8192 8202 c || Z.eqb c 8232 || Z.eqb c 8233
  || Z.eqb c 8239 || Z.eqb c 8287 || Z.eqb c 12288.

Definition is_upper_az (c : Z) : bool := in_range 65 90 c.
Definition is_lower_az (c : Z) : bool := in_range 97 122 c.
Definition is_digit09 (c : Z) : bool := in_range 48 57 c.

(** The interpreter's Unicode tables for code points above 127: which are
    alphanumeric (for [\w], hence [\b]) and which are decimal digits (for
    [\d]).  They are data of the Python runtime, not of the scripts. *)
Record unicode_db := {
  uni_alnum : Z -> bool;
  uni_digit : Z -> bool
}.

Definition is_word (u : unicode_db) (c : Z) : bool :=
  if Z.ltb c 128
  then is_upper_az c || is_lower_az c || is_digit09 c || Z.eqb c 95
  else uni_alnum u c.

Definition is_digit (u : unicode_db) (c : Z) : bool :=
  if Z.ltb c 128 then is_digit09 c else uni_digit u c.

(** Simple lower-casing as [re.IGNORECASE] needs it for the ASCII letters of
    the patterns: A-Z, and the two code points whose lower case is ASCII. *)
Definition lower (c : Z) : Z :=
  if is_upper_az c then c + 32
  else if Z.eqb c 304 then 105
  else if Z.eqb c 8490 then 107
  else c.

(** A pattern letter [p] (lower case ASCII, or a symbol) against a subject
    code point under [re.IGNORECASE]; [i] and [s] also match dotless i
    (U+0131) and long s (U+017F). *)
Definition ci_eq (p c : Z) : bool :=
  Z.eqb (lower c) p
  || (Z.eqb p 105 && Z.eqb c 305)
  || (Z.eqb p 115 && Z.eqb c 383).

(** [[A-Za-z]] under [re.IGNORECASE]. *)
Definition ci_letter (c : Z) : bool :=
  is_lower_az (lower c) || Z.eqb c 305 || Z.eqb c 383.

(** [s.startswith(p)], returning what follows the prefix. *)
Fixpoint strip_prefix (p s : str) : option str :=
  match p with
  | [] => Some s
  | x :: p' =>
      match s with
      | y :: s' => if Z.eqb x y then strip_prefix p' s' else None
      | [] => None
      end
  end.

Fixpoint ci_strip_prefix (p s : str) : option str :=
  match p with
  | [] => Some s
  | x :: p' =>
      match s with
      | y :: s' => if ci_eq x y then ci_strip_prefix p' s' else None
      | [] => None
      end
  end.

Definition is_some {A} (o : option A) : bool :=
  match o with Some _ => true | None => false end.

(** Index of the first occurrence of [needle] ([str.find], without -1). *)
Fixpoint find (needle s : str) : option nat :=
  if is_some (strip_prefix needle s) then Some 0
  else match s with
       | [] => None
       | _ :: s' => option_map S (find needle s')
       end.

Fixpoint ci_find (needle s : str) : option nat :=
  if is_some (ci_strip_prefix needle s) then Some 0
  else match s with
       | [] => None
       | _ :: s' => option_map S (ci_find needle s')
       end.

(** [needle in s]. *)
Definition contains (needle s : str) : bool := is_some (find needle s).

Fixpoint take_while (p : Z -> bool) (s : str) : str :=
  match s with
  | c :: s' => if p c then c :: take_while p s' else []
  | [] => []
  end.

Fixpoint drop_while (p : Z -> bool) (s : str) : str :=
  match s with
  | c :: s' => if p c then drop_while p s' else s
  | [] => []
  end.

Definition lstrip (s : str) : str := drop_while is_space s.
Definition rstrip (s : str) : str := List.rev (drop_while is_space (List.rev s)).
Definition strip (s : str) : str := rstrip (lstrip s).

(** [s[a:b]] for [0 <= a] and [0 <= b]. *)
Definition slice (s : str) (a b : nat) : str := firstn (b - a) (skipn a s).

(** [str(n)] for a non-negative int. *)
Definition dec (n : nat) : str := lit (DecimalString.NilEmpty.string_of_uint (Nat.to_uint n)).

(** ** One pass of [re.sub] / [re.finditer]

    A pattern is given by its matcher: applied to the text that starts at
    the current position, it returns the length of the match there (never
    zero for the patterns of the scripts) and the groups.  The pass tries
    every position from the left and resumes after the end of a match.  The
    replacement callback may carry state (a counter, a dict). *)

Section Regex.
Variables G St : Type.
Variable matcher : str -> option (nat * G).

Fixpoint re_sub_from (repl : St -> str -> G -> str * St)
    (skip : nat) (s : str) (st : St) : str * St :=
  match s with
  | [] => ([], st)
  | c :: s' =>
      match skip with
      | S k => re_sub_from repl k s' st
      | O =>
          match matcher s with
          | Some (n, g) =>
              let (out, st1) := repl st (firstn n s) g in
              let (rest, st2) := re_sub_from repl (n - 1) s' st1 in
              (out ++ rest, st2)
          | None =>
              let (rest, st1) := re_sub_from repl 0 s' st in
              (c :: rest, st1)
          end
      end
  end.

Definition re_sub (repl : St -> str -> G -> str * St) (s : str) (st : St)
    : str * St :=
  re_sub_from repl 0 s st.

Fixpoint finditer_from (skip : nat) (s : str) : list (str * G) :=
  match s with
  | [] => []
  | c :: s' =>
      match skip with
      | S k => finditer_from k s'
      | O =>
          match matcher s with
          | Some (n, g) => (firstn n s, g) :: finditer_from (n - 1) s'
          | None => finditer_from 0 s'
          end
      end
  end.

Definition finditer (s : str) : list (str * G) := finditer_from 0 s.
End Regex.

(** [re.sub] with a callback that has no state. *)
Definition re_sub_pure {G} (matcher : str -> option (nat * G))
    (repl : str -> G -> str) (s : str) : str :=
  fst (re_sub matcher (fun (st : unit) m g => (repl m g, st)) s tt).

(** [s.replace(old, new)] for a non-empty [old]. *)
Definition replace (old new s : str) : str :=
  re_sub_pure
    (fun t => if is_some (strip_prefix old t) then Some (length old, tt) else None)
    (fun _ _ => new) s.

(** ** Dicts: insertion-ordered, as Python's *)

Fixpoint dict_get {V} (d : list (str * V)) (k : str) : option V :=
  match d with
  | [] => None
  | (k', v) :: d' => if str_eqb k' k then Some v else dict_get d' k
  end.

Fixpoint dict_set {V} (d : list (str * V)) (k : str) (v : V) : list (str * V) :=
  match d with
  | [] => [(k, v)]
  | (k', v') :: d' =>
      if str_eqb k' k then (k', v) :: d' else (k', v') :: dict_set d' k v
  end.

(** ** The translation backend

    [translate_batch] and [translate] of the external translator; [None]
    stands for a raised exception. *)
Record backend := {
  translate_batch : list str -> option (list str);
  translate : str -> option str
}.

(** What a run asked of the backend, in order. *)
Inductive call :=
  | BatchCall (texts : list str)
  | SingleCall (text : str).

Definition latin (c : Z) : bool :=
  is_upper_az c || is_lower_az c
  || in_range 192 214 c || in_range 216 246 c || in_range 248 255 c.

(** The search for a letter of A-Z, a-z, U+00C0-U+00D6, U+00D8-U+00F6 or
    U+00F8-U+00FF. *)
Definition has_latin (text : str) : bool := existsb latin text.

Definition not_angle (c : Z) : bool := negb (Z.eqb c 60 || Z.eqb c 62).

(** [>([^<>]+)<]; the group is the text between the brackets. *)
Definition text_re (s : str) : option (nat * str) :=
  match s with
  | c :: r =>
      if Z.eqb c 62 then
        let t := take_while not_angle r in
        match t, drop_while not_angle r with
        | _ :: _, d :: _ => if Z.eqb d 60 then Some (List.length t + 2, t) else None
        | _, _ => None
        end
      else None
  | [] => None
  end.

(** The margins that [^\s*] and [\s*$] match. *)
Definition leading_ws (s : str) : str := take_while is_space s.
Definition trailing_ws (s : str) : str :=
  List.rev (take_while is_space (List.rev s)).

(** ** The tail of the two language patterns *)
Section LangPattern.
Variable u : unicode_db.

(** What follows [[^>]*] in the language pattern: a word boundary, the
    name lang, [\s*=\s*], the quote [q], the code it, optionally a hyphen
    and letters when [subtag] is set, and the quote again.  [prev] is the code point before the
    boundary.  The result is the length of the part inside group 1 and the
    length of the whole tail. *)
Definition lang_tail (subtag : bool) (q : Z) (prev : Z) (s : str) : option (nat * nat) :=
  if is_word u prev then None
  else
    match ci_strip_prefix (lit "lang") s with
    | Some r =>
        let w1 := take_while is_space r in
        match drop_while is_space r with
        | e :: r2 =>
            if Z.eqb e 61 then
              let w2 := take_while is_space r2 in
              let g := 4 + List.length w1 + 1 + List.length w2 in
              match drop_while is_space r2 with
              | q1 :: r3 =>
                  if Z.eqb q1 q then
                    match ci_strip_prefix (lit "it") r3 with
                    | Some (c :: r4) =>
                        if Z.eqb c q then Some (g, g + 4)
                        else if subtag && Z.eqb c 45 then
                          match take_while ci_letter r4,
                                drop_while ci_letter r4 with
                          | (_ :: _) as sub, c2 :: _ =>
                              if Z.eqb c2 q
                              then Some (g, g + 4 + 1 + List.length sub)
                              else None
                          | _, _ => None
                          end
                        else None
                    | _ => None
                    end
                  else None
              | [] => None
              end
            else None
        | [] => None
        end
    | None => None
    end.

(** The greedy [[^>]*] before the tail: the longest run of code points
    other than the closing bracket after which the tail matches. *)
Fixpoint lang_run (subtag : bool) (q : Z) (prev : Z) (s : str) : option (nat * (nat * nat)) :=
  let here := option_map (fun t => (0, t)) (lang_tail subtag q prev s) in
  match s with
  | [] => here
  | c :: s' =>
      if Z.eqb c 62 then here
      else match lang_run subtag q c s' with
           | Some (k, t) => Some (S k, t)
           | None => here
           end
  end.
End LangPattern.

(** ** Files

    Both scripts read their input and write their output in text mode with
    the encoding UTF-8.  A file is taken by the code points it holds, line
    ends as they are stored.  Reading turns the line ends CR LF and CR into
    LF; writing turns every LF into the line separator of the platform. *)

Fixpoint read_text (raw : str) : str :=
  match raw with
  | [] => []
  | c :: r =>
      if Z.eqb c 13 then
        match r with
        | d :: r' => if Z.eqb d 10 then 10%Z :: read_text r' else 10%Z :: read_text r
        | [] => [10%Z]
        end
      else c :: read_text r
  end.

Definition write_text (linesep : str) (text : str) : str :=
  flat_map (fun c => if Z.eqb c 10 then linesep else [c]) text.

(** What a path names when a run starts: nothing, something that exists but
    cannot be read as text (a directory, bytes that are not UTF-8), or a
    file with its code points. *)
Inductive node :=
  | Missing
  | Unreadable
  | File (raw : str).

(** How a run ends: with an exit status, or with an exception that nothing
    catches. *)
Inductive ending :=
  | Exit (status : nat)
  | Raised.

(** What a run does: how it ends, the files it writes, in order, each with
    the code points stored, and what it asks of the backend.  The messages
    printed are left out. *)
Record run := {
  how : ending;
  written : list (str * str);
  asked : list call
}.

(** * translate_html.py *)
Module It.
Section WithUnicode.
Variable u : unicode_db.

Definition VISIBLE_ATTRS : list str :=
  [lit "alt"; lit "title"; lit "placeholder"; lit "aria-label"].

Definition _store (kind : str) (placeholders : list (str * str)) (content : str)
    : str * list (str * str) :=
  let key := lit "__PLACEHOLDER_" ++ kind ++ lit "_"
             ++ dec (List.length placeholders) ++ lit "__" in
  (key, dict_set placeholders key content).

(** [<!--[\s\S]*?-->] *)
Definition comment_re (s : str) : option (nat * unit) :=
  match strip_prefix (lit "<!--") s with
  | Some r =>
      match find (lit "-->") r with
      | Some j => Some (4 + j + 3, tt)
      | None => None
      end
  | None => None
  end.

(** [<name\b[\s\S]*?</name>] with [re.IGNORECASE] *)
Definition element_re (name : str) (s : str) : option (nat * unit) :=
  match ci_strip_prefix (lit "<" ++ name) s with
  | Some (c :: r) =>
      if is_word u c then None
      else match ci_find (lit "</" ++ name ++ lit ">") (c :: r) with
           | Some j => Some (1 + List.length name + j + (2 + List.length name + 1), tt)
           | None => None
           end
  | _ => None
  end.

Definition make_placeholders (html : str) : str * list (str * str) :=
  let (html1, p1) :=
    re_sub comment_re (fun st m _ => _store (lit "COMMENT") st m) html [] in
  let (html2, p2) :=
    re_sub (element_re (lit "script"))
           (fun st m _ => _store (lit "SCRIPT") st m) html1 p1 in
  re_sub (element_re (lit "style"))
         (fun st m _ => _store (lit "STYLE") st m) html2 p2.

Definition restore_placeholders (html : str) (placeholders : list (str * str))
    : str :=
  fold_left (fun h kv => replace (fst kv) (snd kv) h) placeholders html.

(** [placeholder_re.fullmatch], the pattern being
    [__PLACEHOLDER_[A-Z]+_\d+__]. *)
Definition placeholder_fullmatch (t : str) : bool :=
  match strip_prefix (lit "__PLACEHOLDER_") t with
  | Some r =>
      match take_while is_upper_az r, drop_while is_upper_az r with
      | _ :: _, c :: r2 =>
          if Z.eqb c 95 then
            match take_while (is_digit u) r2 with
            | _ :: _ => str_eqb (drop_while (is_digit u) r2) (lit "__")
            | [] => false
            end
          else false
      | _, _ => false
      end
  | None => false
  end.

Definition find_text_nodes (html : str) : list str :=
  flat_map
    (fun m : str * str =>
       let text := snd m in
       match strip text with
       | [] => []
       | _ :: _ =>
           if placeholder_fullmatch (strip text) then []
           else if negb (has_latin text) then []
           else [text]
       end)
    (finditer text_re html).

(** The attribute pattern, with [re.IGNORECASE]: the name, [\s*=\s*], then
    a value in double quotes without a double quote in it, or in single
    quotes without a single quote.  The groups kept are the length of the
    prefix group (name, spaces and equals sign), the quote and the value. *)
Definition attr_re (attr : str) (s : str) : option (nat * (nat * Z * str)) :=
  match ci_strip_prefix attr s with
  | Some r =>
      let w1 := take_while is_space r in
      match drop_while is_space r with
      | e :: r2 =>
          if Z.eqb e 61 then
            let w2 := take_while is_space r2 in
            match drop_while is_space r2 with
            | q :: r3 =>
                if Z.eqb q 34 || Z.eqb q 39 then
                  let v := take_while (fun c => negb (Z.eqb c q)) r3 in
                  match drop_while (fun c => negb (Z.eqb c q)) r3 with
                  | _ :: _ =>
                      let pre := List.length attr + List.length w1 + 1
                                 + List.length w2 in
                      Some (pre + 1 + List.length v + 1, (pre, q, v))
                  | [] => None
                  end
                else None
            | [] => None
            end
          else None
      | [] => None
      end
  | None => None
  end.

Definition find_attr_values (html : str) : list (str * Z * str) :=
  flat_map
    (fun attr =>
       flat_map
         (fun m : str * (nat * Z * str) =>
            let '(_, quote, value) := snd m in
            match value with
            | [] => []
            | _ :: _ =>
                if negb (placeholder_fullmatch (strip value)) && has_latin value
                then [(attr, quote, value)] else []
            end)
         (finditer (attr_re attr) html))
    VISIBLE_ATTRS.

(** The de-duplication loop of [batch_translate]: [seen] is the set,
    the result is [uniq]. *)
Fixpoint dedup (seen : list str) (strings : list str) : list str :=
  match strings with
  | [] => []
  | s :: rest =>
      if existsb (str_eqb s) seen then dedup seen rest
      else s :: dedup (s :: seen) rest
  end.

Definition CHUNK : nat := 40.

(** [[l[i:i+n] for i in range(0, len(l), n)]] *)
Fixpoint chunks_fuel (fuel n : nat) (l : list str) : list (list str) :=
  match fuel with
  | O => []
  | S f =>
      match l with
      | [] => []
      | _ :: _ => firstn n l :: chunks_fuel f n (skipn n l)
      end
  end.

Definition chunks (n : nat) (l : list str) : list (list str) :=
  chunks_fuel (List.length l) n l.

(** The fallback loop over one chunk: each item alone, the item itself
    when that fails too. *)
Definition translate_each (be : backend) (chunk : list str) : list str :=
  map (fun s => match translate be s with Some t => t | None => s end) chunk.

(** The body of the chunk loop: the translations of one chunk and the
    calls made for it. *)
Definition translate_chunk (be : backend) (chunk : list str)
    : list str * list call :=
  match translate_batch be chunk with
  | Some translations => (translations, [BatchCall chunk])
  | None => (translate_each be chunk, BatchCall chunk :: map SingleCall chunk)
  end.

Definition merge (mapping : list (str * str)) (chunk translations : list str)
    : list (str * str) :=
  fold_left (fun m ot => dict_set m (fst ot) (snd ot))
            (combine chunk translations) mapping.

Definition batch_translate_log (be : backend) (strings : list str)
    : list (str * str) * list call :=
  fold_left
    (fun (acc : list (str * str) * list call) chunk =>
       let (translations, calls) := translate_chunk be chunk in
       (merge (fst acc) chunk translations, snd acc ++ calls))
    (chunks CHUNK (dedup [] strings)) ([], []).

Definition batch_translate (be : backend) (strings : list str)
    : list (str * str) :=
  fst (batch_translate_log be strings).

(** The texts handed to [translate_batch] during a run. *)
Definition batch_inputs (calls : list call) : list str :=
  flat_map (fun c => match c with BatchCall l => l | SingleCall _ => [] end) calls.

Definition core_of (original : str) : str :=
  slice original (List.length (leading_ws original))
        (List.length original - List.length (trailing_ws original)).

Definition lookup (mapping : list (str * str)) (original core : str) : str :=
  match dict_get mapping original with
  | Some translated => translated
  | None => match dict_get mapping core with Some t => t | None => core end
  end.

Definition replace_between_tags (html : str) (mapping : list (str * str)) : str :=
  re_sub_pure text_re
    (fun m original =>
       match core_of original with
       | [] => m
       | _ :: _ =>
           [62%Z] ++ leading_ws original
           ++ lookup mapping original (core_of original)
           ++ trailing_ws original ++ [60%Z]
       end)
    html.

Definition make_attr_replacer (mapping : list (str * str)) (attr : str)
    (html : str) : str :=
  re_sub_pure (attr_re attr)
    (fun m (g : nat * Z * str) =>
       let '(pre, quote_char, val) := g in
       match val with
       | [] => m
       | _ :: _ =>
           firstn pre m ++ [quote_char] ++ leading_ws val
           ++ lookup mapping val (core_of val)
           ++ trailing_ws val ++ [quote_char]
       end)
    html.

Definition replace_attr_values (html : str) (mapping : list (str * str)) : str :=
  fold_left (fun h attr => make_attr_replacer mapping attr h) VISIBLE_ATTRS html.

(** The language pattern for the quote [q], with [re.IGNORECASE]; the
    group is the length of group 1. *)
Definition lang_re (q : Z) (s : str) : option (nat * nat) :=
  match ci_strip_prefix (lit "<html") s with
  | Some (c :: r) =>
      if is_word u c then None
      else match lang_run u true q 108 (c :: r) with
           | Some (k, (g, n)) => Some (5 + k + n, 5 + k + g)
           | None => None
           end
  | _ => None
  end.

(** The first template keeps its backslashes: in a replacement template a
    backslash before a quote is no escape, so both code points are copied. *)
Definition switch_lang_attr (html : str) : str :=
  let html1 :=
    re_sub_pure (lang_re 34)
      (fun m g => firstn g m ++ [92; 34; 116; 104; 92; 34]%Z) html in
  re_sub_pure (lang_re 39)
    (fun m g => firstn g m ++ [39; 116; 104; 39]%Z) html1.

(** [main] from the text read to the text written; [None] when the run
    ends before writing because nothing translatable was found. *)
Definition main (be : backend) (html : str) : option str :=
  let (protected_html, placeholders) := make_placeholders html in
  let text_nodes := find_text_nodes protected_html in
  let attr_texts := map (fun o : str * Z * str => snd o)
                        (find_attr_values protected_html) in
  let all_texts := text_nodes ++ attr_texts in
  match all_texts with
  | [] => None
  | _ :: _ =>
      let mapping := batch_translate be all_texts in
      let translated := replace_between_tags protected_html mapping in
      let translated := replace_attr_values translated mapping in
      let translated := switch_lang_attr translated in
      Some (restore_placeholders translated placeholders)
  end.
(** [main] as a whole.  [argv] is [sys.argv], [fs] tells what each path
    names when the run starts, [linesep] is [os.linesep].  The backup is
    written before anything else is done, and only when its path names
    nothing yet. *)
Definition main_io (linesep : str) (be : backend) (argv : list str)
    (fs : str -> node) : run :=
  let in_path :=
    match argv with _ :: p :: _ => p | _ => lit "/workspace/index.html" end in
  let out_path :=
    match argv with _ :: _ :: p :: _ => p | _ => in_path end in
  match fs in_path with
  | Missing => {| how := Exit 1; written := []; asked := [] |}
  | Unreadable => {| how := Raised; written := []; asked := [] |}
  | File raw =>
      let html := read_text raw in
      let backup_path := in_path ++ lit ".bak.it.html" in
      let backup :=
        match fs backup_path with
        | Missing => [(backup_path, write_text linesep html)]
        | _ => []
        end in
      let (protected_html, placeholders) := make_placeholders html in
      let text_nodes := find_text_nodes protected_html in
      let attr_texts := map (fun o : str * Z * str => snd o)
                            (find_attr_values protected_html) in
      let all_texts := text_nodes ++ attr_texts in
      match all_texts with
      | [] => {| how := Exit 0; written := backup; asked := [] |}
      | _ :: _ =>
          let (mapping, calls) := batch_translate_log be all_texts in
          let translated := replace_between_tags protected_html mapping in
          let translated := replace_attr_values translated mapping in
          let translated := switch_lang_attr translated in
          let translated := restore_placeholders translated placeholders in
          {| how := Exit 0;
             written := backup ++ [(out_path, write_text linesep translated)];
             asked := calls |}
      end
  end.
End WithUnicode.
End It.

(** The tables restricted to ASCII, enough for documents in ASCII. *)
Definition ascii_db : unicode_db :=
  {| uni_alnum := fun _ => false; uni_digit := fun _ => false |}.

Definition identity_backend : backend :=
  {| translate_batch := fun l => Some l; translate := fun s => Some s |}.

(** * translate_html_ru.py *)
Module Ru.
Definition has_cyrillic (text : str) : bool := existsb (in_range 1024 1279) text.

(** [tag.upper()] for the ASCII tag names the script uses. *)
Definition upper (tag : str) : str :=
  map (fun c => if is_lower_az c then (c - 32)%Z else c) tag.

Definition token (tag : str) (idx : nat) : str :=
  lit "@@" ++ upper tag ++ lit "_" ++ dec idx ++ lit "@@".

Definition not_gt (c : Z) : bool := negb (Z.eqb c 62).

(** The block pattern with [re.IGNORECASE]: the opening tag up to its
    first closing bracket, then lazily up to the first closing tag. *)
Definition block_re (tag : str) (s : str) : option (nat * unit) :=
  match ci_strip_prefix (lit "<" ++ tag) s with
  | Some r =>
      match drop_while not_gt r with
      | _ :: r2 =>
          match ci_find (lit "</" ++ tag ++ lit ">") r2 with
          | Some j =>
              Some (1 + List.length tag + List.length (take_while not_gt r) + 1
                    + j + (2 + List.length tag + 1), tt)
          | None => None
          end
      | [] => None
      end
  | None => None
  end.

Definition protect_blocks (content : str) (tag : str) : str * list str :=
  re_sub (block_re tag)
    (fun (saved : list str) m _ => (token tag (List.length saved), saved ++ [m]))
    content [].

Fixpoint restore_from (idx : nat) (content : str) (tag : str) (saved : list str)
    : str :=
  match saved with
  | [] => content
  | block :: rest =>
      restore_from (S idx) (replace (token tag idx) block content) tag rest
  end.

Definition restore_blocks (content : str) (tag : str) (saved : list str) : str :=
  restore_from 0 content tag saved.

(** One entry of [_pending]. *)
Record pending_item := {
  p_placeholder : str;
  p_prefix : str;
  p_stripped : str;
  p_suffix : str;
  p_original : str
}.

(** The state of a [BatchTranslator]; [tr] is [None] when the translator
    could not be created. *)
Record BatchTranslator := {
  cache : list (str * str);
  _pending : list pending_item;
  tr : option backend
}.

Definition new_translator (be : option backend) : BatchTranslator :=
  {| cache := []; _pending := []; tr := be |}.

Definition _translate_list (bt : BatchTranslator) (items : list str)
    : list str * list call :=
  match items with
  | [] => ([], [])
  | _ :: _ =>
      match tr bt with
      | None => (items, [])
      | Some be =>
          match translate_batch be items with
          | Some out => (out, [BatchCall items])
          | None =>
              (map (fun it => match translate be it with
                              | Some t => t
                              | None => it
                              end) items,
               BatchCall items :: map SingleCall items)
          end
      end
  end.

Definition cached (bt : BatchTranslator) (s v : str) : BatchTranslator :=
  {| cache := dict_set (cache bt) s v; _pending := _pending bt; tr := tr bt |}.

Definition url_like (stripped : str) : bool :=
  existsb (fun x => contains x stripped)
    [lit "http://"; lit "https://"; lit "www."; lit "@"; lit "{"; lit "}"].

Definition translate_preserving_ws (bt : BatchTranslator) (s : str)
    : str * BatchTranslator :=
  match dict_get (cache bt) s with
  | Some v => (v, bt)
  | None =>
      let stripped := strip s in
      match stripped with
      | [] => (s, cached bt s s)
      | _ :: _ =>
          if has_cyrillic stripped && negb (has_latin stripped)
          then (s, cached bt s s)
          else if url_like stripped then (s, cached bt s s)
          else
            let prefix := firstn (List.length s - List.length (lstrip s)) s in
            let suffix := skipn (List.length (rstrip s)) s in
            let placeholder := lit "@@T_" ++ dec (List.length (_pending bt))
                               ++ lit "@@" in
            (placeholder,
             {| cache := dict_set (cache bt) s placeholder;
                _pending := _pending bt
                            ++ [{| p_placeholder := placeholder;
                                   p_prefix := prefix;
                                   p_stripped := stripped;
                                   p_suffix := suffix;
                                   p_original := s |}];
                tr := tr bt |})
      end
  end.

Fixpoint chunks_fuel (fuel n : nat) (l : list str) : list (list str) :=
  match fuel with
  | O => []
  | S f =>
      match l with
      | [] => []
      | _ :: _ => firstn n l :: chunks_fuel f n (skipn n l)
      end
  end.

Definition chunks (n : nat) (l : list str) : list (list str) :=
  chunks_fuel (List.length l) n l.

(** The chunk loop of [process_batches]: all translations, and the calls. *)
Definition translate_all (bt : BatchTranslator) (batch_texts : list str)
    : list str * list call :=
  fold_left
    (fun (acc : list str * list call) chunk =>
       let (out, calls) := _translate_list bt chunk in
       (fst acc ++ out, snd acc ++ calls))
    (chunks 80 batch_texts) ([], []).

Definition process_batches (bt : BatchTranslator) (content : str)
    : str * BatchTranslator * list call :=
  match _pending bt with
  | [] => (content, bt, [])
  | _ :: _ =>
      let batch_texts := map p_stripped (_pending bt) in
      let (translated_all, calls) := translate_all bt batch_texts in
      let '(content1, cache1) :=
        fold_left
          (fun (acc : str * list (str * str)) (it : pending_item * str) =>
             let result := p_prefix (fst it) ++ snd it ++ p_suffix (fst it) in
             (replace (p_placeholder (fst it)) result (fst acc),
              dict_set (snd acc) (p_original (fst it)) result))
          (combine (_pending bt) translated_all) (content, cache bt) in
      (content1, {| cache := cache1; _pending := []; tr := tr bt |}, calls)
  end.

Definition attrs : list str :=
  [lit "alt"; lit "title"; lit "placeholder"; lit "aria-label";
   lit "aria-placeholder"; lit "data-title"].

Definition in_value (q : Z) (c : Z) : bool := negb (Z.eqb c q) && negb (Z.eqb c 10).

(** The attribute pattern for the quote [q], with [re.IGNORECASE]: the
    name, [\s*=\s*] and the quote (group 1), lazily any code points but a
    newline (group 2), the quote (group 3).  The groups kept are the
    length of group 1 and the value. *)
Definition attr_re (q : Z) (attr : str) (s : str) : option (nat * (nat * str)) :=
  match ci_strip_prefix attr s with
  | Some r =>
      let w1 := take_while is_space r in
      match drop_while is_space r with
      | e :: r2 =>
          if Z.eqb e 61 then
            let w2 := take_while is_space r2 in
            match drop_while is_space r2 with
            | q1 :: r3 =>
                if Z.eqb q1 q then
                  let v := take_while (in_value q) r3 in
                  match drop_while (in_value q) r3 with
                  | c :: _ =>
                      if Z.eqb c q then
                        let pre := List.length attr + List.length w1 + 1
                                   + List.length w2 + 1 in
                        Some (pre + List.length v + 1, (pre, v))
                      else None
                  | [] => None
                  end
                else None
            | [] => None
            end
          else None
      | [] => None
      end
  | None => None
  end.

(** [repl_dq] and [repl_sq]: the same body for either quote. *)
Definition repl_attr (q : Z) (bt : BatchTranslator) (m : str) (g : nat * str)
    : str * BatchTranslator :=
  let (pre, val) := g in
  if negb (has_latin val) then (m, bt)
  else
    let (translated, bt1) := translate_preserving_ws bt val in
    (firstn pre m ++ translated ++ [q], bt1).

Definition translate_attributes (content : str) (bt : BatchTranslator)
    : str * BatchTranslator * list call :=
  let (content1, bt1) :=
    fold_left
      (fun (acc : str * BatchTranslator) attr =>
         let (c1, b1) := re_sub (attr_re 34 attr) (repl_attr 34) (fst acc) (snd acc) in
         re_sub (attr_re 39 attr) (repl_attr 39) c1 b1)
      attrs (content, bt) in
  process_batches bt1 content1.

Definition repl_text (bt : BatchTranslator) (m : str) (inner : str)
    : str * BatchTranslator :=
  match inner with
  | [] => (m, bt)
  | _ :: _ =>
      if negb (has_latin inner) then (m, bt)
      else
        let (translated, bt1) := translate_preserving_ws bt inner in
        ([62%Z] ++ translated ++ [60%Z], bt1)
  end.

Definition translate_textnodes (content : str) (bt : BatchTranslator)
    : str * BatchTranslator * list call :=
  let (content1, bt1) := re_sub text_re repl_text content bt in
  process_batches bt1 content1.

Section WithUnicode.
Variable u : unicode_db.

(** The language pattern of [main] for the quote [q], with
    [re.IGNORECASE]; group 1 ends after the opening quote. *)
Definition lang_re (q : Z) (s : str) : option (nat * nat) :=
  match ci_strip_prefix (lit "<html") s with
  | Some r =>
      match lang_run u false q 108 r with
      | Some (k, (g, n)) => Some (5 + k + n, 5 + k + g + 1)
      | None => None
      end
  | None => None
  end.

Definition switch_lang (html : str) : str :=
  let html1 :=
    re_sub_pure (lang_re 34) (fun m g => firstn g m ++ lit "ru" ++ [34%Z]) html in
  re_sub_pure (lang_re 39) (fun m g => firstn g m ++ lit "ru" ++ [39%Z]) html1.

(** [main] from the text read to the text written, with the calls made
    to the backend. *)
Definition main (be : option backend) (html : str) : str * list call :=
  let html := switch_lang html in
  let (html, styles) := protect_blocks html (lit "style") in
  let (html, scripts) := protect_blocks html (lit "script") in
  let bt := new_translator be in
  let '(html, bt, calls1) := translate_attributes html bt in
  let '(html, bt, calls2) := translate_textnodes html bt in
  let html := restore_blocks html (lit "script") scripts in
  let html := restore_blocks html (lit "style") styles in
  (html, calls1 ++ calls2).
(** [main] as a whole.  [ru_path] is the path that pathlib derives for the
    output, [with_name(stem + ".ru" + suffix)]. *)
Definition main_io (linesep : str) (ru_path : str -> str) (be : option backend)
    (argv : list str) (fs : str -> node) : run :=
  match argv with
  | _ :: src_path :: _ =>
      match fs src_path with
      | Missing => {| how := Exit 1; written := []; asked := [] |}
      | Unreadable => {| how := Raised; written := []; asked := [] |}
      | File raw =>
          let (html, calls) := main be (read_text raw) in
          {| how := Exit 0;
             written := [(ru_path src_path, write_text linesep html)];
             asked := calls |}
      end
  | _ => {| how := Exit 2; written := []; asked := [] |}
  end.
End WithUnicode.
End Ru.

Unset Implicit Arguments.

(** * Vocabulary of the properties *)

(** The translation an item ends with when its batch failed. *)
Definition single_or_original (be : backend) (s : str) : str :=
  match translate be s with Some t => t | None => s end.

(** A backend whose batch call always fails and whose single-item call
    fails on everything but one word. *)
Definition failing_backend : backend :=
  {| translate_batch := fun _ => None;
     translate := fun s => if str_eqb s (lit "Ciao") then Some (lit "Privet") else None |}.


(** The states a [BatchTranslator] goes through: created, then any sequence
    of [translate_preserving_ws] and [process_batches]. *)
Inductive reachable (be : option backend) : Ru.BatchTranslator -> Prop :=
  | reach_new : reachable be (Ru.new_translator be)
  | reach_translate bt s :
      reachable be bt -> reachable be (snd (Ru.translate_preserving_ws bt s))
  | reach_process bt content :
      reachable be bt -> reachable be (snd (fst (Ru.process_batches bt content))).


(** Every pending segment is in the cache, and no segment is pending twice. *)
Definition pending_inv (bt : Ru.BatchTranslator) : Prop :=
  NoDup (map Ru.p_original (Ru._pending bt))
  /\ forall p, In p (Ru._pending bt) -> dict_get (Ru.cache bt) (Ru.p_original p) <> None.

(** A backend that knows one word. *)
Definition word_backend : backend :=
  let tr s := if str_eqb s (lit "Ciao") then lit "Privet" else s in
  {| translate_batch := fun l => Some (map tr l); translate := fun s => Some (tr s) |}.

Definition digits (d : str) : Prop := Forall (fun c => (48 <= c <= 57)%Z) d.

(** The body of a token up to its index. *)
Definition token_body (tag : str) : str := Ru.upper tag ++ lit "_".

(** A document cut at the protected blocks: single code points of the text
    between them, and the blocks. *)
Inductive item :=
  | Ch (c : Z)
  | Blk (b : str).

(** The document itself. *)
Fixpoint render_src (items : list item) : str :=
  match items with
  | [] => []
  | Ch c :: r => c :: render_src r
  | Blk b :: r => b ++ render_src r
  end.

(** The document with every block replaced by its token, numbered from [k]. *)
Fixpoint render_tok (tag : str) (k : nat) (items : list item) : str :=
  match items with
  | [] => []
  | Ch c :: r => c :: render_tok tag k r
  | Blk b :: r => Ru.token tag k ++ render_tok tag (S k) r
  end.

Fixpoint blocks (items : list item) : list str :=
  match items with
  | [] => []
  | Ch _ :: r => blocks r
  | Blk b :: r => b :: blocks r
  end.

(** The first block put back as text. *)
Fixpoint expand_first (items : list item) : list item :=
  match items with
  | [] => []
  | Ch c :: r => Ch c :: expand_first r
  | Blk b :: r => map Ch b ++ r
  end.

(** The cut that [protect_blocks] makes. *)
Fixpoint split_from (tag : str) (skip : nat) (s : str) : list item :=
  match s with
  | [] => []
  | c :: s' =>
      match skip with
      | S k => split_from tag k s'
      | O =>
          match Ru.block_re tag s with
          | Some (n, _) => Blk (firstn n s) :: split_from tag (n - 1) s'
          | None => Ch c :: split_from tag 0 s'
          end
      end
  end.

Definition split_blocks (tag : str) (s : str) : list item := split_from tag 0 s.

(** [w] occurs nowhere in [s]. *)
Definition occurs_not (w s : str) : Prop :=
  forall a b, s = a ++ b -> strip_prefix w b = None.

(** The two tags [main] protects. *)
Inductive kind := Style | Script.

Definition tag_of (k : kind) : str :=
  match k with Style => lit "style" | Script => lit "script" end.

(** A backend that answers every text with the same word. *)
Definition constant_backend : backend :=
  {| translate_batch := fun l => Some (map (fun _ => lit "X") l);
     translate := fun _ => Some (lit "X") |}.

Definition dq : str := [34%Z].


(** A backend that knows one phrase, exactly as written. *)
Definition phrase_backend : backend :=
  let tr s := if str_eqb s (lit "Hello World") then lit "Bonjour le monde" else s in
  {| translate_batch := fun l => Some (map tr l); translate := fun s => Some (tr s) |}.

(** The text has no space at either end. *)
Definition margin_free (t : str) : bool :=
  match leading_ws t, trailing_ws t with
  | [], [] => true
  | _, _ => false
  end.

(** No visible attribute of the text has a value of spaces alone. *)
Definition blank_free (html : str) : bool :=
  forallb
    (fun attr =>
       forallb
         (fun m : str * (nat * Z * str) =>
            match snd (snd m) with
            | [] => true
            | _ :: _ =>
                match It.core_of (snd (snd m)) with [] => false | _ :: _ => true end
            end)
         (finditer (It.attr_re attr) html))
    It.VISIBLE_ATTRS.

(** The segments [main] collects from the protected document. *)
Definition all_texts (u : unicode_db) (protected_html : str) : list str :=
  It.find_text_nodes u protected_html
  ++ map (fun o : str * Z * str => snd o) (It.find_attr_values u protected_html).

(** ** Placeholders of translate_html.py *)

(** The word every placeholder holds. *)
Definition word : str := lit "PLACEHOLDER".

Definition key (kind : str) (i : nat) : str :=
  lit "__PLACEHOLDER_" ++ kind ++ lit "_" ++ dec i ++ lit "__".

Definition kinds : list str := [lit "COMMENT"; lit "SCRIPT"; lit "STYLE"].

(** A protected document of translate_html.py: text, and placeholders with
    their kind, index and stored block. *)
Inductive pitem :=
  | PCh (c : Z)
  | PTk (kind : str) (i : nat) (b : str).

Fixpoint prender_tok (items : list pitem) : str :=
  match items with
  | [] => []
  | PCh c :: r => c :: prender_tok r
  | PTk kind i _ :: r => key kind i ++ prender_tok r
  end.

Fixpoint prender_src (items : list pitem) : str :=
  match items with
  | [] => []
  | PCh c :: r => c :: prender_src r
  | PTk _ _ b :: r => b ++ prender_src r
  end.

Fixpoint ptokens (items : list pitem) : list (str * nat * str) :=
  match items with
  | [] => []
  | PCh _ :: r => ptokens r
  | PTk kind i b :: r => (kind, i, b) :: ptokens r
  end.

(** The placeholder with index [i] put back as text. *)
Fixpoint pexpand (i : nat) (items : list pitem) : list pitem :=
  match items with
  | [] => []
  | PCh c :: r => PCh c :: pexpand i r
  | PTk kind j b :: r =>
      if Nat.eqb i j then map PCh b ++ pexpand i r
      else PTk kind j b :: pexpand i r
  end.

Definition entry (e : str * nat * str) : str * str :=
  (key (fst (fst e)) (snd (fst e)), snd e).

Definition index_of (e : str * nat * str) : nat := snd (fst e).

(** The cut a pass with the matcher [M] makes. *)
Fixpoint cut_from (M : str -> option (nat * unit)) (skip : nat) (s : str)
    : list item :=
  match s with
  | [] => []
  | c :: s' =>
      match skip with
      | S k => cut_from M k s'
      | O =>
          match M s with
          | Some (n, _) => Blk (firstn n s) :: cut_from M (n - 1) s'
          | None => Ch c :: cut_from M 0 s'
          end
      end
  end.

Definition cut (M : str -> option (nat * unit)) (s : str) : list item :=
  cut_from M 0 s.

(** The text after a pass that stores the blocks under the kind [K],
    numbered from [j]. *)
Fixpoint render_key (K : str) (j : nat) (items : list item) : str :=
  match items with
  | [] => []
  | Ch c :: r => c :: render_key K j r
  | Blk _ :: r => key K j ++ render_key K (S j) r
  end.

(** The entries such a pass adds. *)
Fixpoint stored (K : str) (j : nat) (ms : list str) : list (str * nat * str) :=
  match ms with
  | [] => []
  | m :: r => (K, j, m) :: stored K (S j) r
  end.

(** What the passes of [make_placeholders] need of a matcher: a match is
    not empty, lies within the text, begins with an opening and ends with a
    closing angle bracket. *)
Definition bracketed (M : str -> option (nat * unit)) : Prop :=
  forall s n g, M s = Some (n, g) ->
    1 <= n <= List.length s
    /\ hd 0%Z s = 60%Z
    /\ last (firstn n s) 0%Z = 62%Z.

(** [q] is [p] up to case. *)
Definition ci_same (p q : str) : Prop := Forall2 (fun x y => ci_eq x y = true) p q.

(** The entries stored so far: their kinds are known and they are numbered
    in order. *)
Definition wf_entries (ents : list (str * nat * str)) : Prop :=
  Forall (fun e => In (fst (fst e)) kinds) ents
  /\ map index_of ents = seq 0 (List.length ents).

(** The placeholders of a protected document are of the known kinds. *)
Definition wf_items (items : list pitem) : Prop :=
  Forall (fun e => In (fst (fst e)) kinds) (ptokens items).

(** No stored block holds the placeholder word. *)
Definition blocks_clean (placeholders : list (str * str)) : bool :=
  forallb (fun kv => negb (contains word (snd kv))) placeholders.

(** Equality of strings is decidable. *)
Definition str_eq_dec : forall a b : str, {a = b} + {a <> b} :=
  list_eq_dec Z.eq_dec.

(** The batches a run handed to [translate_batch], in order. *)
Definition batches (calls : list call) : list (list str) :=
  flat_map (fun c => match c with BatchCall l => [l] | SingleCall _ => [] end) calls.

(** The backend of a translator answers text by text with [f], whether asked
    for a batch or, the batch failing, for one text; a translator without
    a backend gives every text back. *)
Definition answers (bt : Ru.BatchTranslator) (f : str -> str) : Prop :=
  match Ru.tr bt with
  | None => forall s, f s = s
  | Some be =>
      forall items,
        translate_batch be items = Some (map f items)
        \/ (translate_batch be items = None
            /\ forall s, In s items -> single_or_original be s = f s)
  end.

(** The pattern with the matcher [M] matches nowhere in [s]. *)
Definition unmatched {G} (M : str -> option (nat * G)) (s : str) : Prop :=
  forall a b, s = a ++ b -> M b = None.

(** The code points a placeholder of translate_html.py is made of: the
    underscore, A-Z and the digits. *)
Definition key_char (c : Z) : bool :=
  Z.eqb c 95 || is_upper_az c || is_digit09 c.

(** What a pattern needs to be carried from the text after a pass back to
    the text before it: where it matches in the text after, it matches in
    the text before. *)
Definition carried (M : str -> option (nat * unit)) : Prop :=
  forall (K : str) (j : nat) (items : list item),
    In K kinds ->
    M (render_key K j items) <> None -> M (render_src items) <> None.

(** ** The text pass of the ru script *)

(** A segment of the kind the ru script queues when it comes upon it: it
    has a Latin letter and does not look like an address or a template. *)
Definition translatable (inner : str) : bool :=
  has_latin inner && negb (Ru.url_like (strip inner)).

(** What a queued segment ends as: its margins around the answer for its
    stripped text. *)
Definition node_final (f : str -> str) (inner : str) : str :=
  leading_ws inner ++ f (strip inner) ++ trailing_ws inner.

(** The text node with the text [inner] as the text pass leaves it. *)
Definition translated_node (f : str -> str) (inner : str) : str :=
  [62%Z] ++ (if translatable inner then node_final f inner else inner) ++ [60%Z].

(** The entry queued for the segment [s] as the segment number [i]. *)
Definition queued (i : nat) (s : str) : Ru.pending_item :=
  {| Ru.p_placeholder := lit "@@T_" ++ dec i ++ lit "@@";
     Ru.p_prefix := leading_ws s;
     Ru.p_stripped := strip s;
     Ru.p_suffix := trailing_ws s;
     Ru.p_original := s |}.

(** A document in the text pass: code points that stay as they are, and
    text nodes that are translated, each with the number of its segment. *)
Inductive titem :=
  | TCh (c : Z)
  | TNode (i : nat) (inner : str).

Fixpoint render_orig (items : list titem) : str :=
  match items with
  | [] => []
  | TCh c :: r => c :: render_orig r
  | TNode _ inner :: r => [62%Z] ++ inner ++ [60%Z] ++ render_orig r
  end.

(** The document when the placeholders below [k] have given way to the
    final texts and the others are still there. *)
Fixpoint render_nodes (f : str -> str) (k : nat) (items : list titem) : str :=
  match items with
  | [] => []
  | TCh c :: r => c :: render_nodes f k r
  | TNode i inner :: r =>
      [62%Z] ++ (if Nat.ltb i k then node_final f inner
                 else Ru.token (lit "T") i)
      ++ [60%Z] ++ render_nodes f k r
  end.

(** What holds of the translator all through the text pass: the pending
    entries are the entries of translatable segments, numbered in order, and
    the cache maps a translatable segment to the placeholder of its entry
    and any other segment to itself. *)
Definition text_inv (bt : Ru.BatchTranslator) : Prop :=
  (forall i p, nth_error (Ru._pending bt) i = Some p ->
               p = queued i (Ru.p_original p)
               /\ translatable (Ru.p_original p) = true)
  /\ (forall s v, dict_get (Ru.cache bt) s = Some v ->
        if translatable s
        then exists i p, nth_error (Ru._pending bt) i = Some p
                         /\ Ru.p_original p = s
                         /\ v = Ru.token (lit "T") i
        else v = s).

(** The nodes of the document are segments the translator has queued. *)
Definition nodes_in (bt : Ru.BatchTranslator) (items : list titem) : Prop :=
  forall i inner, In (TNode i inner) items ->
    exists p, nth_error (Ru._pending bt) i = Some p /\ Ru.p_original p = inner.

(** ** A run of the ru translator *)

(** A segment that [translate_preserving_ws] queues when it meets it for
    the first time: its stripped text is not empty, is not Cyrillic without
    a Latin letter, and does not look like an address or a template. *)
Definition sendable (s : str) : bool :=
  match strip s with
  | [] => false
  | _ :: _ =>
      negb (Ru.has_cyrillic (strip s) && negb (has_latin (strip s)))
      && negb (Ru.url_like (strip s))
  end.

(** A translator with its history: the segments that were handed to
    [translate_preserving_ws] since the translator was created, in order,
    and the calls that [process_batches] made to the backend. *)
Inductive ran (be : option backend)
    : Ru.BatchTranslator -> list str -> list call -> Prop :=
  | ran_new : ran be (Ru.new_translator be) [] []
  | ran_translate bt segs calls s :
      ran be bt segs calls ->
      ran be (snd (Ru.translate_preserving_ws bt s)) (segs ++ [s]) calls
  | ran_process bt segs calls content :
      ran be bt segs calls ->
      ran be (snd (fst (Ru.process_batches bt content))) segs
          (calls ++ snd (Ru.process_batches bt content)).

(** The values of the attribute and the texts of the nodes that a pass
    over [content] hands to the translator: those with a Latin letter. *)
Definition latin_nodes (content : str) : list str :=
  filter has_latin (map snd (finditer text_re content)).



(** ** A root tag with a language attribute *)

(** The attribute as it stands in the tag: the name, spaces, the equals
    sign, spaces, and the value between two quotes [q]. *)
Definition lang_attr (name w1 w2 : str) (q : Z) (value : str) : str :=
  name ++ w1 ++ [61%Z] ++ w2 ++ [q] ++ value ++ [q].

(** A region subtag of a language code, or none: a hyphen and letters. *)
Definition subtag_ok (sub : str) : Prop :=
  sub = []
  \/ exists letters, sub = 45%Z :: letters /\ letters <> []
                     /\ Forall (fun c => ci_letter c = true) letters.

(** A root tag with one language attribute whose code is it.  [opening] is
    the text that begins the tag, [before] what stands between it and the
    attribute, [after] what follows the attribute up to the closing bracket
    of the tag.  The name is at a word boundary, and the tag holds the name
    nowhere else. *)
Definition root_tag_ok (u : unicode_db) (opening before name w1 w2 : str)
    (q : Z) (code sub after : str) : Prop :=
  ci_same (lit "<html") opening
  /\ ci_same (lit "lang") name
  /\ ci_same (lit "it") code
  /\ (q = 34 \/ q = 39)%Z
  /\ Forall (fun c => is_space c = true) w1
  /\ Forall (fun c => is_space c = true) w2
  /\ subtag_ok sub
  /\ Forall (fun c => c <> 62%Z) before
  /\ Forall (fun c => c <> 62%Z) after
  /\ is_word u (last before 108%Z) = false
  /\ ci_find (lit "lang") (before ++ removelast name) = None
  /\ ci_find (lit "lang") (sub ++ [q] ++ after) = None.

(** The tag itself, closed by its bracket. *)
Definition root_tag (opening before attr after : str) : str :=
  opening ++ before ++ attr ++ after ++ [62%Z].

(** A text node that [find_text_nodes] collects: stripped, it is neither
    empty nor a placeholder alone, and it has a Latin letter. *)
Definition collected (u : unicode_db) (text : str) : bool :=
  match strip text with
  | [] => false
  | _ :: _ => negb (It.placeholder_fullmatch u (strip text)) && has_latin text
  end.

(** No value of a listed attribute of the ru script has a Latin letter in
    [content]: the attribute pass hands nothing to the translator. *)
Definition attrs_idle (content : str) : bool :=
  forallb
    (fun attr =>
       forallb
         (fun q =>
            forallb (fun m : str * (nat * str) => negb (has_latin (snd (snd m))))
                    (finditer (Ru.attr_re q attr) content))
         [34%Z; 39%Z])
    Ru.attrs.

(** * Properties *)

(** ** Strings and dicts *)

Lemma str_eqb_eq (a b : str) : str_eqb a b = true <-> a = b.
Proof.
  revert b; induction a as [|x a IH]; intros [|y b]; simpl; split;
    try congruence; try reflexivity.
  - intros H. apply andb_true_iff in H as [Hx Hr].
    apply Z.eqb_eq in Hx. apply IH in Hr. congruence.
  - intros H. injection H as -> ->. rewrite Z.eqb_refl. simpl. now apply IH.
Qed.

Lemma str_eqb_refl (a : str) : str_eqb a a = true.
Proof. now apply str_eqb_eq. Qed.

Lemma str_eqb_neq (a b : str) : str_eqb a b = false <-> a <> b.
Proof.
  split.
  - intros H E. apply str_eqb_eq in E. congruence.
  - intros H. destruct (str_eqb a b) eqn:E; [|reflexivity].
    apply str_eqb_eq in E. contradiction.
Qed.

Lemma existsb_str_eqb (s : str) (l : list str) :
  existsb (str_eqb s) l = true <-> In s l.
Proof.
  rewrite existsb_exists. split.
  - intros [x [Hin He]]. apply str_eqb_eq in He. now subst.
  - intros H. exists s. split; [assumption | apply str_eqb_refl].
Qed.

Lemma dict_get_set_same {V} (d : list (str * V)) k v :
  dict_get (dict_set d k v) k = Some v.
Proof.
  induction d as [|[k' v'] d IH]; simpl.
  - now rewrite str_eqb_refl.
  - destruct (str_eqb k' k) eqn:E; simpl; rewrite E; [reflexivity | exact IH].
Qed.

Lemma dict_get_set_other {V} (d : list (str * V)) k k2 v :
  k <> k2 -> dict_get (dict_set d k v) k2 = dict_get d k2.
Proof.
  intros Hne. induction d as [|[k' v'] d IH]; simpl.
  - apply str_eqb_neq in Hne. now rewrite Hne.
  - destruct (str_eqb k' k) eqn:E; simpl.
    + apply str_eqb_eq in E. subst k'.
      apply str_eqb_neq in Hne. now rewrite Hne.
    + now rewrite IH.
Qed.

Lemma firstn_exact (x p : str) : firstn (List.length x) (x ++ p) = x.
Proof.
  rewrite firstn_app, firstn_all, Nat.sub_diag. simpl. apply app_nil_r.
Qed.

Lemma skipn_exact (x p : str) : skipn (List.length x) (x ++ p) = p.
Proof. rewrite skipn_app, skipn_all, Nat.sub_diag. reflexivity. Qed.

(** ** De-duplication and chunking *)

Lemma dedup_spec (l seen : list str) :
  NoDup (It.dedup seen l)
  /\ (forall x, In x (It.dedup seen l) -> ~ In x seen)
  /\ (forall x, In x l -> ~ In x seen -> In x (It.dedup seen l)).
Proof.
  revert seen; induction l as [|s l IH]; intros seen; simpl.
  - repeat split; [constructor | intros x [] | intros x []].
  - destruct (existsb (str_eqb s) seen) eqn:E.
    + destruct (IH seen) as (Hnd & Hout & Hin).
      repeat split; [exact Hnd | exact Hout |].
      intros x [->|Hx] Hns.
      * apply existsb_str_eqb in E. contradiction.
      * now apply Hin.
    + assert (Hs : ~ In s seen).
      { intros H. apply existsb_str_eqb in H. congruence. }
      destruct (IH (s :: seen)) as (Hnd & Hout & Hin).
      repeat split.
      * constructor; [|exact Hnd].
        intros H. apply Hout in H. apply H. now left.
      * intros x [->|Hx]; [exact Hs|].
        intros H. apply Hout in Hx. apply Hx. now right.
      * intros x [->|Hx] Hns; [now left|].
        destruct (str_eq_dec s x) as [->|Hne]; [now left|].
        right. apply Hin; [exact Hx|].
        intros [H|H]; [contradiction | contradiction].
Qed.

Lemma chunks_fuel_concat (n fuel : nat) (l : list str) :
  1 <= n -> List.length l <= fuel -> concat (It.chunks_fuel fuel n l) = l.
Proof.
  intros Hn. revert l; induction fuel as [|f IH]; intros l Hl; simpl.
  - destruct l; [reflexivity | simpl in Hl; lia].
  - destruct l as [|x l]; [reflexivity|].
    cbn [concat]. rewrite IH.
    + apply firstn_skipn.
    + rewrite length_skipn. simpl in Hl.
      change (List.length (x :: l)) with (S (List.length l)). lia.
Qed.

Lemma chunks_concat (n : nat) (l : list str) :
  1 <= n -> concat (It.chunks n l) = l.
Proof. intros Hn. apply chunks_fuel_concat; [exact Hn | lia]. Qed.

Lemma batch_inputs_app (a b : list call) :
  It.batch_inputs (a ++ b) = It.batch_inputs a ++ It.batch_inputs b.
Proof. unfold It.batch_inputs. apply flat_map_app. Qed.

Lemma batch_inputs_singles (l : list str) :
  It.batch_inputs (map SingleCall l) = [].
Proof. induction l; simpl; auto. Qed.

Lemma translate_chunk_inputs (be : backend) (chunk : list str) :
  It.batch_inputs (snd (It.translate_chunk be chunk)) = chunk.
Proof.
  unfold It.translate_chunk. destruct (translate_batch be chunk); simpl.
  - apply app_nil_r.
  - fold (It.batch_inputs (map SingleCall chunk)).
    rewrite batch_inputs_singles. apply app_nil_r.
Qed.

Lemma batch_log_inputs (be : backend) (cs : list (list str)) acc :
  It.batch_inputs
    (snd (fold_left
            (fun (acc : list (str * str) * list call) chunk =>
               let (translations, calls) := It.translate_chunk be chunk in
               (It.merge (fst acc) chunk translations, snd acc ++ calls))
            cs acc))
  = It.batch_inputs (snd acc) ++ concat cs.
Proof.
  revert acc; induction cs as [|c cs IH]; intros acc; simpl.
  - now rewrite app_nil_r.
  - rewrite IH.
    pose proof (translate_chunk_inputs be c) as Hc.
    destruct (It.translate_chunk be c) as [t calls]. simpl in *.
    rewrite batch_inputs_app, Hc. now rewrite app_assoc.
Qed.

Lemma batch_inputs_uniq (be : backend) (strings : list str) :
  It.batch_inputs (snd (It.batch_translate_log be strings)) = It.dedup [] strings.
Proof.
  unfold It.batch_translate_log. rewrite batch_log_inputs. simpl.
  apply chunks_concat. unfold It.CHUNK. lia.
Qed.

Lemma merge_get_notin (chunk translations : list str) m s :
  ~ In s chunk -> dict_get (It.merge m chunk translations) s = dict_get m s.
Proof.
  unfold It.merge.
  revert translations m; induction chunk as [|x c IH]; intros t m Hs; simpl.
  - reflexivity.
  - destruct t as [|y t]; simpl; [reflexivity|].
    rewrite IH by (intros H; apply Hs; now right).
    apply dict_get_set_other. intros ->. apply Hs. now left.
Qed.

Lemma merge_get_in (f : str -> str) (chunk : list str) m s :
  In s chunk -> dict_get (It.merge m chunk (map f chunk)) s = Some (f s).
Proof.
  unfold It.merge.
  revert m; induction chunk as [|x c IH]; intros m Hs; simpl.
  - destruct Hs.
  - destruct (in_dec str_eq_dec s c) as [Hc|Hc].
    + now apply IH.
    + destruct Hs as [->|Hs]; [|contradiction].
      fold (It.merge (dict_set m s (f s)) c (map f c)).
      rewrite merge_get_notin by exact Hc.
      apply dict_get_set_same.
Qed.

Lemma fallback_fold (be : backend) (s : str) (cs : list (list str)) acc :
  (forall c, In c cs -> In s c -> translate_batch be c = None) ->
  In s (concat cs) \/ dict_get (fst acc) s = Some (single_or_original be s) ->
  dict_get
    (fst (fold_left
            (fun (acc : list (str * str) * list call) chunk =>
               let (translations, calls) := It.translate_chunk be chunk in
               (It.merge (fst acc) chunk translations, snd acc ++ calls))
            cs acc)) s
  = Some (single_or_original be s).
Proof.
  revert acc; induction cs as [|c cs IH]; intros acc Hfail Hs; simpl.
  - destruct Hs as [[]|Hs]. exact Hs.
  - apply IH.
    + intros c' Hc'. apply Hfail. now right.
    + destruct (in_dec str_eq_dec s c) as [Hc|Hc].
      * right. unfold It.translate_chunk.
        rewrite (Hfail c (or_introl eq_refl) Hc). simpl.
        unfold It.translate_each.
        apply (merge_get_in (single_or_original be)). exact Hc.
      * destruct Hs as [Hs|Hs].
        -- simpl in Hs. apply in_app_or in Hs as [Hs|Hs]; [contradiction|].
           now left.
        -- right. destruct (It.translate_chunk be c) as [t calls]. simpl.
           now rewrite merge_get_notin.
Qed.

(** ** C7: failure policy *)

(** C7: when the batch call fails for the batch that holds [s], the mapping
    built by [batch_translate] gives [s] the result of the single-item call,
    or [s] itself when that call fails too; the mapping is built whatever
    the backend does, and [s] has an entry in it.  After a failed batch call
    every item of the batch is asked for alone, in order.  The ru script
    does the same in [_translate_list]: one result per item, in order. *)
Theorem fallback_policy (be : backend) (strings : list str) (s : str) :
  In s strings ->
  (forall chunk, In s chunk -> translate_batch be chunk = None) ->
  dict_get (It.batch_translate be strings) s = Some (single_or_original be s)
  /\ (forall chunk,
        translate_batch be chunk = None ->
        It.translate_chunk be chunk
        = (map (single_or_original be) chunk,
           BatchCall chunk :: map SingleCall chunk))
  /\ (forall c p items,
        translate_batch be items = None ->
        fst (Ru._translate_list
               {| Ru.cache := c; Ru._pending := p; Ru.tr := Some be |} items)
        = map (single_or_original be) items).
Proof.
  intros Hs Hfail. split.
  - unfold It.batch_translate, It.batch_translate_log.
    apply fallback_fold.
    + intros c _. apply Hfail.
    + left. rewrite chunks_concat by (unfold It.CHUNK; lia).
      destruct (dedup_spec strings []) as (_ & _ & Hin).
      apply Hin; [exact Hs | intros []].
  - split.
    + intros chunk Hb. unfold It.translate_chunk. now rewrite Hb.
    + intros c p items Hb. unfold Ru._translate_list. simpl.
      destruct items as [|i items]; [reflexivity|].
      rewrite Hb. reflexivity.
Qed.

Lemma fallback_policy_witness :
  dict_get (It.batch_translate failing_backend [lit "Ciao"; lit "mondo"]) (lit "mondo")
  = Some (lit "mondo").
Proof.
  refine (proj1 (fallback_policy failing_backend [lit "Ciao"; lit "mondo"]
                                 (lit "mondo") _ _)).
  - simpl. auto.
  - intros chunk _. reflexivity.
Defined.

(** ** The substitution pass *)

Section RegexFacts.
Variables G St : Type.
Variable matcher : str -> option (nat * G).
Variable repl : St -> str -> G -> str * St.

Lemma re_sub_from_skip (k : nat) (s : str) (st : St) :
  re_sub_from matcher repl k s st = re_sub_from matcher repl 0 (skipn k s) st.
Proof.
  revert k st; induction s as [|c s IH]; intros k st.
  - now rewrite skipn_nil.
  - destruct k as [|k]; [reflexivity|]. simpl skipn.
    change (re_sub_from matcher repl (S k) (c :: s) st)
      with (re_sub_from matcher repl k s st).
    apply IH.
Qed.

Lemma re_sub_none (c : Z) (s : str) (st : St) :
  matcher (c :: s) = None ->
  re_sub matcher repl (c :: s) st
  = (c :: fst (re_sub matcher repl s st), snd (re_sub matcher repl s st)).
Proof.
  intros H. unfold re_sub. simpl. rewrite H.
  now destruct (re_sub_from matcher repl 0 s st).
Qed.

Lemma re_sub_some (c : Z) (s : str) (st : St) n g :
  matcher (c :: s) = Some (n, g) ->
  re_sub matcher repl (c :: s) st
  = let r1 := repl st (firstn n (c :: s)) g in
    let r2 := re_sub matcher repl (skipn (n - 1) s) (snd r1) in
    (fst r1 ++ fst r2, snd r2).
Proof.
  intros H. unfold re_sub. cbn [re_sub_from]. rewrite H.
  destruct (repl st (firstn n (c :: s)) g) as [out st1]. cbn [fst snd].
  rewrite re_sub_from_skip.
  now destruct (re_sub_from matcher repl 0 (skipn (n - 1) s) st1).
Qed.

Lemma finditer_from_skip (k : nat) (s : str) :
  finditer_from matcher k s = finditer_from matcher 0 (skipn k s).
Proof.
  revert k; induction s as [|c s IH]; intros k.
  - now rewrite skipn_nil.
  - destruct k as [|k]; [reflexivity|]. simpl skipn.
    change (finditer_from matcher (S k) (c :: s)) with (finditer_from matcher k s).
    apply IH.
Qed.

Lemma finditer_none (c : Z) (s : str) :
  matcher (c :: s) = None -> finditer matcher (c :: s) = finditer matcher s.
Proof. intros H. unfold finditer. simpl. now rewrite H. Qed.

Lemma finditer_some (c : Z) (s : str) n g :
  matcher (c :: s) = Some (n, g) ->
  finditer matcher (c :: s)
  = (firstn n (c :: s), g) :: finditer matcher (skipn (n - 1) s).
Proof.
  intros H. unfold finditer. cbn [finditer_from]. rewrite H.
  now rewrite finditer_from_skip.
Qed.
End RegexFacts.

Section PureFacts.
Variable G : Type.
Variable matcher : str -> option (nat * G).
Variable repl : str -> G -> str.

Lemma re_sub_pure_nil : re_sub_pure matcher repl [] = [].
Proof. reflexivity. Qed.

Lemma re_sub_pure_none (c : Z) (s : str) :
  matcher (c :: s) = None ->
  re_sub_pure matcher repl (c :: s) = c :: re_sub_pure matcher repl s.
Proof.
  intros H. unfold re_sub_pure. now rewrite re_sub_none.
Qed.

Lemma re_sub_pure_some (c : Z) (s : str) n g :
  matcher (c :: s) = Some (n, g) ->
  re_sub_pure matcher repl (c :: s)
  = repl (firstn n (c :: s)) g ++ re_sub_pure matcher repl (skipn (n - 1) s).
Proof.
  intros H. unfold re_sub_pure. now rewrite (re_sub_some _ _ _ _ _ _ _ _ _ H).
Qed.

(** A pass whose callback gives back every match as it is changes nothing. *)
Lemma re_sub_pure_id (s : str) :
  (forall t n g, matcher t = Some (n, g) -> 1 <= n) ->
  (forall t n g, matcher t = Some (n, g) -> repl (firstn n t) g = firstn n t) ->
  re_sub_pure matcher repl s = s.
Proof.
  intros Hpos Hid.
  remember (List.length s) as k eqn:Hk.
  revert s Hk; induction k as [k IH] using lt_wf_ind; intros s Hk.
  destruct s as [|c s]; [reflexivity|].
  destruct (matcher (c :: s)) as [[n g]|] eqn:Hm.
  - rewrite (re_sub_pure_some _ _ _ _ Hm), (Hid _ _ _ Hm).
    pose proof (Hpos _ _ _ Hm) as Hn.
    rewrite (IH (List.length (skipn (n - 1) s))); [| |reflexivity].
    + destruct n as [|n]; [lia|].
      replace (S n - 1) with n by lia. simpl.
      now rewrite firstn_skipn.
    + rewrite length_skipn. subst k. simpl. lia.
  - rewrite (re_sub_pure_none _ _ Hm). f_equal.
    apply (IH (List.length s)); [subst k; simpl; lia | reflexivity].
Qed.
End PureFacts.

Lemma strip_prefix_app (old rest : str) : strip_prefix old (old ++ rest) = Some rest.
Proof.
  induction old as [|x old IH]; simpl; [reflexivity|].
  now rewrite Z.eqb_refl.
Qed.

Lemma strip_prefix_some (p s r : str) : strip_prefix p s = Some r -> s = p ++ r.
Proof.
  revert s; induction p as [|x p IH]; intros s H; simpl in *.
  - congruence.
  - destruct s as [|y s]; [discriminate|].
    destruct (Z.eqb x y) eqn:E; [|discriminate].
    apply Z.eqb_eq in E. subst y. f_equal. now apply IH.
Qed.

Lemma replace_nil (old new : str) : replace old new [] = [].
Proof. reflexivity. Qed.

Lemma replace_here (old new rest : str) :
  old <> [] -> replace old new (old ++ rest) = new ++ replace old new rest.
Proof.
  intros Hne. destruct old as [|x old]; [contradiction|].
  unfold replace. cbn [app].
  rewrite (re_sub_pure_some _ _ _ x (old ++ rest) (List.length (x :: old)) tt).
  - f_equal. f_equal. simpl. rewrite Nat.sub_0_r.
    rewrite skipn_app, skipn_all, Nat.sub_diag. reflexivity.
  - change (x :: old ++ rest) with ((x :: old) ++ rest).
    now rewrite strip_prefix_app.
Qed.

Lemma replace_skip (old new : str) (c : Z) (s : str) :
  strip_prefix old (c :: s) = None ->
  replace old new (c :: s) = c :: replace old new s.
Proof.
  intros H. unfold replace. apply re_sub_pure_none. now rewrite H.
Qed.

(** ** The states of the ru translator *)



Lemma process_cache_get (its : list (Ru.pending_item * str)) content c s :
  ~ In s (map (fun it => Ru.p_original (fst it)) its) ->
  dict_get
    (snd (fold_left
            (fun (acc : str * list (str * str)) (it : Ru.pending_item * str) =>
               let result := Ru.p_prefix (fst it) ++ snd it ++ Ru.p_suffix (fst it) in
               (replace (Ru.p_placeholder (fst it)) result (fst acc),
                dict_set (snd acc) (Ru.p_original (fst it)) result))
            its (content, c))) s
  = dict_get c s.
Proof.
  revert content c; induction its as [|it its IH]; intros content c Hs; simpl.
  - reflexivity.
  - rewrite IH by (intros H; apply Hs; now right).
    apply dict_get_set_other. intros E. apply Hs. left. exact E.
Qed.



Lemma dict_get_set_some {V} (d : list (str * V)) k v k2 :
  dict_get d k2 <> None -> dict_get (dict_set d k v) k2 <> None.
Proof.
  intros H. destruct (str_eq_dec k k2) as [->|Hne].
  - rewrite dict_get_set_same. discriminate.
  - now rewrite dict_get_set_other.
Qed.

Lemma translate_preserving_pending (bt : Ru.BatchTranslator) (s : str) :
  pending_inv bt -> pending_inv (snd (Ru.translate_preserving_ws bt s)).
Proof.
  intros [Hn Hc]. unfold Ru.translate_preserving_ws.
  assert (Hcached : forall v, pending_inv (Ru.cached bt s v)).
  { intros v. split; [exact Hn|]. simpl. intros p Hp.
    now apply dict_get_set_some, Hc. }
  destruct (dict_get (Ru.cache bt) s) as [v|] eqn:Hg; [now split|].
  destruct (strip s) as [|c0 t0]; [apply Hcached|].
  destruct (Ru.has_cyrillic (c0 :: t0) && negb (has_latin (c0 :: t0)));
    [apply Hcached|].
  destruct (Ru.url_like (c0 :: t0)); [apply Hcached|].
  split; simpl.
  - rewrite map_app. simpl. apply NoDup_app; [exact Hn | repeat constructor; auto |].
    intros x Hx [<-|[]]. apply in_map_iff in Hx as [p [He Hp]].
    apply (Hc p Hp). now rewrite He.
  - intros p Hp. apply in_app_or in Hp as [Hp|[<-|[]]].
    + now apply dict_get_set_some, Hc.
    + simpl. rewrite dict_get_set_same. discriminate.
Qed.

Lemma reachable_pending (be : option backend) (bt : Ru.BatchTranslator) :
  reachable be bt -> pending_inv bt.
Proof.
  induction 1.
  - split; [apply NoDup_nil | intros p []].
  - now apply translate_preserving_pending.
  - unfold Ru.process_batches. destruct (Ru._pending bt) eqn:Hp.
    + exact IHreachable.
    + destruct (Ru.translate_all _ _) as [tall calls].
      destruct (fold_left _ _ _) as [c1 cache1].
      split; simpl; [apply NoDup_nil | intros q []].
Qed.

(** ** C10: segments that look like an address or a template *)




(** ** C1: de-duplication *)


(** ** Tokens of the ru protector *)

Lemma strip_prefix_app_l (a b s : str) :
  strip_prefix (a ++ b) s
  = match strip_prefix a s with Some r => strip_prefix b r | None => None end.
Proof.
  revert s; induction a as [|x a IH]; intros s; simpl; [reflexivity|].
  destruct s as [|y s]; [reflexivity|].
  destruct (Z.eqb x y); [apply IH | reflexivity].
Qed.

Lemma strip_prefix_same (a b c : str) :
  strip_prefix (a ++ b) (a ++ c) = strip_prefix b c.
Proof. now rewrite strip_prefix_app_l, strip_prefix_app. Qed.

Lemma lit_uint_digits (d : Decimal.uint) :
  digits (lit (DecimalString.NilEmpty.string_of_uint d)).
Proof.
  induction d; simpl; constructor; try exact IHd;
    split; intros H; vm_compute in H; discriminate H.
Qed.

Lemma dec_digits (n : nat) : digits (dec n).
Proof. apply lit_uint_digits. Qed.

Lemma lit_inj (a b : string) : lit a = lit b -> a = b.
Proof.
  revert b; induction a as [|x a IH]; intros [|y b] H; simpl in *;
    try discriminate; [reflexivity|].
  unfold lit in H. simpl in H. injection H as Hc Hr.
  apply Nat2Z.inj in Hc.
  rewrite <- (ascii_nat_embedding x), <- (ascii_nat_embedding y), Hc.
  f_equal. now apply IH.
Qed.

Lemma dec_inj (n m : nat) : dec n = dec m -> n = m.
Proof.
  unfold dec. intros H. apply lit_inj in H.
  apply DecimalNat.Unsigned.to_uint_inj.
  pose proof (DecimalString.NilEmpty.usu (Nat.to_uint n)) as Hn.
  pose proof (DecimalString.NilEmpty.usu (Nat.to_uint m)) as Hm.
  rewrite H in Hn. rewrite Hn in Hm. now injection Hm.
Qed.

(** Two runs of digits, each closed by the same code point that is no
    digit: one is a prefix of the other only when the digits are the same. *)
Lemma digits_prefix_eq (d : Z) (dk dj a b : str) :
  (d < 48 \/ 57 < d)%Z ->
  digits dk -> digits dj ->
  strip_prefix (dk ++ d :: a) (dj ++ d :: b) <> None -> dk = dj.
Proof.
  intros Hd Hk; revert dj; induction Hk as [|x dk Hx Hk IH]; intros dj Hj H.
  - destruct Hj as [|y dj Hy Hj]; [reflexivity|].
    exfalso. cbn [strip_prefix app] in H.
    destruct (Z.eqb_spec d y); [lia | now apply H].
  - destruct Hj as [|y dj Hy Hj]; cbn [strip_prefix app] in H.
    + exfalso. destruct (Z.eqb_spec x d); [lia | now apply H].
    + destruct (Z.eqb_spec x y); [|exfalso; now apply H].
      subst y. f_equal. now apply IH.
Qed.

Section Tokens.
Variable tag : str.
Hypothesis tag_clean : Forall (fun c => c <> 64%Z) (Ru.upper tag).

Lemma token_body_clean : Forall (fun c => c <> 64%Z) (token_body tag).
Proof.
  unfold token_body. apply Forall_app. split; [exact tag_clean|].
  constructor; [discriminate | constructor].
Qed.

Lemma token_shape (k : nat) :
  Ru.token tag k = 64%Z :: 64%Z :: token_body tag ++ dec k ++ [64%Z; 64%Z].
Proof.
  unfold Ru.token, token_body. change (lit "@@") with [64%Z; 64%Z].
  simpl. now rewrite <- !app_assoc.
Qed.

Lemma token_body_head : exists t ts, token_body tag = t :: ts /\ t <> 64%Z.
Proof.
  pose proof token_body_clean as H. unfold token_body in *.
  destruct (Ru.upper tag) as [|t ts]; simpl in *.
  - exists 95%Z, []. split; [reflexivity | discriminate].
  - exists t, (ts ++ lit "_"). split; [reflexivity|]. now inversion H.
Qed.

Lemma token_not_other (k j : nat) (rest : str) :
  k <> j -> strip_prefix (Ru.token tag k) (Ru.token tag j ++ rest) = None.
Proof.
  intros Hne. rewrite !token_shape.
  destruct (strip_prefix _ _) eqn:E; [|reflexivity]. exfalso.
  assert (H : strip_prefix (64%Z :: 64%Z :: token_body tag ++ dec k ++ [64%Z; 64%Z])
                ((64%Z :: 64%Z :: token_body tag ++ dec j ++ [64%Z; 64%Z]) ++ rest)
              <> None) by congruence.
  cbn [strip_prefix app] in H. rewrite !Z.eqb_refl in H.
  rewrite <- !app_assoc in H. rewrite strip_prefix_same in H.
  apply Hne. apply dec_inj.
  apply (digits_prefix_eq 64 (dec k) (dec j) [64%Z] (64%Z :: rest));
    [lia | apply dec_digits | apply dec_digits | exact H].
Qed.

(** After an at sign and anything but an at sign no token starts. *)
Lemma token_not_at_clean (k : nat) (c : Z) (rest : str) :
  c <> 64%Z -> strip_prefix (Ru.token tag k) (c :: rest) = None.
Proof.
  intros Hc. rewrite token_shape. cbn [strip_prefix].
  destruct (Z.eqb_spec 64 c); [congruence | reflexivity].
Qed.

Lemma token_needs_body (k : nat) (rest : str) :
  strip_prefix (Ru.token tag k) (64%Z :: 64%Z :: rest) <> None ->
  strip_prefix (token_body tag) rest <> None.
Proof.
  rewrite token_shape. cbn [strip_prefix]. rewrite !Z.eqb_refl.
  rewrite strip_prefix_app_l.
  destruct (strip_prefix (token_body tag) rest); [discriminate | congruence].
Qed.
End Tokens.

(** ** A protected document as text and blocks *)

Lemma contains_false_occurs_not (w s : str) :
  contains w s = false -> occurs_not w s.
Proof.
  unfold contains. induction s as [|c s IH]; intros H a b E.
  - destruct a; [|discriminate]. simpl in E. subst b.
    simpl in H. now destruct (strip_prefix w []).
  - cbn [find] in H.
    destruct (strip_prefix w (c :: s)) eqn:Ep; [discriminate|]. simpl in H.
    destruct a as [|x a]; simpl in E.
    + now subst b.
    + injection E as _ E. apply (IH) with (a := a); [|exact E].
      now destruct (find w s).
Qed.

Lemma occurs_not_here (w s : str) : occurs_not w s -> strip_prefix w s = None.
Proof. intros H. now apply (H [] s). Qed.

Lemma occurs_not_app (w a s : str) : occurs_not w (a ++ s) -> occurs_not w s.
Proof.
  intros H x y E. apply (H (a ++ x) y). rewrite E. now rewrite app_assoc.
Qed.

Lemma occurs_not_tail (w : str) (c : Z) (s : str) :
  occurs_not w (c :: s) -> occurs_not w s.
Proof. apply (occurs_not_app w [c] s). Qed.

Lemma render_tok_chars (tag : str) (k : nat) (b : str) (r : list item) :
  render_tok tag k (map Ch b ++ r) = b ++ render_tok tag k r.
Proof. induction b as [|c b IH]; simpl; [reflexivity | now rewrite IH]. Qed.

Lemma render_src_chars (b : str) (r : list item) :
  render_src (map Ch b ++ r) = b ++ render_src r.
Proof. induction b as [|c b IH]; simpl; [reflexivity | now rewrite IH]. Qed.

Lemma render_no_blocks (tag : str) (k : nat) (items : list item) :
  blocks items = [] -> render_tok tag k items = render_src items.
Proof.
  induction items as [|[c|b] r IH]; simpl; intros H;
    [reflexivity | now rewrite IH | discriminate].
Qed.

Lemma blocks_chars (b : str) (r : list item) : blocks (map Ch b ++ r) = blocks r.
Proof. induction b; simpl; auto. Qed.

Lemma expand_first_spec (items : list item) (b : str) (bs : list str) :
  blocks items = b :: bs ->
  blocks (expand_first items) = bs
  /\ render_src (expand_first items) = render_src items.
Proof.
  induction items as [|[c|b'] r IH]; simpl; intros H.
  - discriminate.
  - destruct (IH H) as [H1 H2]. split; [exact H1 | now rewrite H2].
  - injection H as Hb Hr. subst b' bs.
    now rewrite blocks_chars, render_src_chars.
Qed.

Section Restore.
Variable tag : str.
Hypothesis tag_clean : Forall (fun c => c <> 64%Z) (Ru.upper tag).

Let body := token_body tag.

(** A text without at signs that begins the protected document begins the
    document itself. *)
Lemma clean_prefix_src (w : str) (items : list item) (j : nat) :
  Forall (fun c => c <> 64%Z) w ->
  strip_prefix w (render_tok tag j items) <> None ->
  strip_prefix w (render_src items) <> None.
Proof.
  intros Hw; revert items j; induction Hw as [|x w Hx Hw IH]; intros items j H.
  - discriminate.
  - destruct items as [|[c|b] r]; cbn [render_tok render_src strip_prefix] in *.
    + exact H.
    + destruct (Z.eqb x c); [now apply (IH r j) | exact H].
    + exfalso. rewrite token_shape in H. cbn [app strip_prefix] in H.
      destruct (Z.eqb_spec x 64); [contradiction | now apply H].
Qed.

Lemma body_not_in_tok (items : list item) (j : nat) :
  occurs_not body (render_src items) ->
  strip_prefix body (render_tok tag j items) = None.
Proof.
  intros Ho. destruct (strip_prefix body (render_tok tag j items)) eqn:E;
    [|reflexivity].
  exfalso. apply (clean_prefix_src body items j).
  - apply token_body_clean, tag_clean.
  - congruence.
  - now apply occurs_not_here.
Qed.

Lemma token_not_after_at (k : nat) (c : Z) (rest : str) :
  c <> 64%Z -> strip_prefix (Ru.token tag k) (64%Z :: c :: rest) = None.
Proof.
  intros Hc. rewrite token_shape. cbn [strip_prefix]. rewrite Z.eqb_refl.
  destruct (Z.eqb_spec 64 c); [congruence | reflexivity].
Qed.

(** No token starts at a code point of the text. *)
Lemma no_token_in_text (k j : nat) (c : Z) (r : list item) :
  occurs_not body (render_src r) ->
  strip_prefix (Ru.token tag k) (c :: render_tok tag j r) = None.
Proof.
  intros Ho. destruct (Z.eq_dec c 64) as [->|Hc];
    [|now apply token_not_at_clean].
  destruct r as [|[c2|b] r2]; cbn [render_tok].
  - rewrite token_shape. reflexivity.
  - destruct (Z.eq_dec c2 64) as [->|Hc2]; [|now apply token_not_after_at].
    destruct (strip_prefix _ _) eqn:E; [|reflexivity]. exfalso.
    apply (token_needs_body tag k (render_tok tag j r2)); [congruence|].
    apply body_not_in_tok. cbn [render_src] in Ho.
    now apply occurs_not_tail in Ho.
  - destruct (strip_prefix _ _) eqn:E; [|reflexivity]. exfalso.
    rewrite (token_shape tag j) in E. cbn [app] in E.
    assert (Hn : strip_prefix (Ru.token tag k)
                   (64%Z :: 64%Z :: 64%Z
                    :: (token_body tag ++ dec j ++ [64%Z; 64%Z])
                       ++ render_tok tag (S j) r2) <> None) by congruence.
    apply token_needs_body in Hn. apply Hn.
    destruct (token_body_head tag tag_clean) as (t & ts & Hb & Ht).
    rewrite Hb. cbn [strip_prefix].
    destruct (Z.eqb_spec t 64); [contradiction | reflexivity].
Qed.

(** Nor between the closing at signs of a token and the text after it. *)
Lemma no_token_in_gap (k j : nat) (r : list item) :
  occurs_not body (render_src r) ->
  strip_prefix (Ru.token tag k) (64%Z :: 64%Z :: render_tok tag j r) = None.
Proof.
  intros Ho.
  destruct (strip_prefix (Ru.token tag k) (64%Z :: 64%Z :: render_tok tag j r))
    eqn:E; [|reflexivity].
  exfalso. apply (token_needs_body tag k (render_tok tag j r));
    [congruence | now apply body_not_in_tok].
Qed.

Lemma replace_clean (k : nat) (new u rest : str) :
  Forall (fun c => c <> 64%Z) u ->
  replace (Ru.token tag k) new (u ++ rest)
  = u ++ replace (Ru.token tag k) new rest.
Proof.
  induction 1 as [|c u Hc Hu IH]; [reflexivity|]. cbn [app].
  rewrite replace_skip by (now apply token_not_at_clean). now rewrite IH.
Qed.

(** Replacing the token [k] leaves a document without it as it is. *)
Lemma replace_no_token (k : nat) (new : str) (r : list item) (j : nat) :
  k < j -> occurs_not body (render_src r) ->
  replace (Ru.token tag k) new (render_tok tag j r) = render_tok tag j r.
Proof.
  revert j; induction r as [|[c|b] r IH]; intros j Hj Ho; cbn [render_tok].
  - reflexivity.
  - rewrite replace_skip by (apply no_token_in_text;
                             now apply occurs_not_tail in Ho).
    f_equal. apply IH; [exact Hj | now apply occurs_not_tail in Ho].
  - cbn [render_src] in Ho. apply occurs_not_app in Ho.
    pose proof (token_not_other tag k j (render_tok tag (S j) r)
                  ltac:(lia)) as H0.
    rewrite (token_shape tag j) in *. cbn [app] in *.
    rewrite (replace_skip _ _ _ _ H0).
    destruct (token_body_head tag tag_clean) as (t & ts & Hb & Ht).
    assert (Hu : Forall (fun c => c <> 64%Z) (token_body tag ++ dec j)).
    { apply Forall_app. split; [apply token_body_clean, tag_clean|].
      eapply Forall_impl; [|apply dec_digits]. simpl. intros a Ha. lia. }
    assert (H1 : strip_prefix (Ru.token tag k)
                   (64%Z :: (token_body tag ++ dec j ++ [64%Z; 64%Z])
                            ++ render_tok tag (S j) r) = None).
    { rewrite Hb. cbn [app]. now apply token_not_after_at. }
    rewrite (replace_skip _ _ _ _ H1).
    rewrite (app_assoc (token_body tag)), <- (app_assoc _ [64%Z; 64%Z]).
    rewrite replace_clean by exact Hu.
    cbn [app].
    rewrite (replace_skip _ _ _ _ (no_token_in_gap k (S j) r Ho)).
    rewrite (replace_skip _ _ _ _ (no_token_in_text k (S j) 64%Z r Ho)).
    rewrite IH by (try lia; exact Ho).
    reflexivity.
Qed.

Lemma token_nonempty (k : nat) : Ru.token tag k <> [].
Proof. rewrite token_shape. discriminate. Qed.

(** One step of [restore_blocks]: the first token gives way to its block. *)
Lemma replace_first_token (items : list item) (k : nat) (b : str) (bs : list str) :
  blocks items = b :: bs ->
  occurs_not body (render_src items) ->
  replace (Ru.token tag k) b (render_tok tag k items)
  = render_tok tag (S k) (expand_first items).
Proof.
  induction items as [|[c|b'] r IH]; intros Hb Ho; cbn [blocks] in Hb.
  - discriminate.
  - cbn [render_tok expand_first render_src] in *.
    apply occurs_not_tail in Ho.
    rewrite replace_skip by (now apply no_token_in_text).
    f_equal. now apply IH.
  - injection Hb as Hb' Hr. subst b'.
    cbn [render_tok expand_first render_src] in *.
    apply occurs_not_app in Ho.
    rewrite replace_here by apply token_nonempty.
    rewrite replace_no_token by (try lia; exact Ho).
    now rewrite render_tok_chars.
Qed.

(** [restore_blocks] on a protected document, whatever its text. *)
Lemma restore_render (n : nat) :
  forall (items : list item) (k : nat),
    List.length (blocks items) = n ->
    occurs_not body (render_src items) ->
    Ru.restore_from k (render_tok tag k items) tag (blocks items)
    = render_src items.
Proof.
  induction n as [|n IH]; intros items k Hn Ho.
  - destruct (blocks items) eqn:Hb; [|discriminate]. simpl.
    now apply render_no_blocks.
  - destruct (blocks items) as [|b bs] eqn:Hb; [discriminate|].
    cbn [Ru.restore_from].
    rewrite (replace_first_token items k b bs Hb Ho).
    destruct (expand_first_spec items b bs Hb) as [H1 H2].
    rewrite <- H1, <- H2. apply IH.
    + rewrite H1. simpl in Hn. lia.
    + now rewrite H2.
Qed.
End Restore.

(** ** What [protect_blocks] returns *)

Lemma block_re_pos (tag s : str) (n : nat) (g : unit) :
  Ru.block_re tag s = Some (n, g) -> 1 <= n.
Proof.
  unfold Ru.block_re.
  destruct (ci_strip_prefix _ s) as [r|]; [|discriminate].
  destruct (drop_while Ru.not_gt r) as [|x r2]; [discriminate|].
  destruct (ci_find _ r2); [|discriminate].
  intros H. injection H as <- _. lia.
Qed.

Lemma split_from_skip (tag : str) (k : nat) (s : str) :
  split_from tag k s = split_from tag 0 (skipn k s).
Proof.
  revert k; induction s as [|c s IH]; intros k.
  - now rewrite skipn_nil.
  - destruct k as [|k]; [reflexivity|]. simpl skipn.
    change (split_from tag (S k) (c :: s)) with (split_from tag k s).
    apply IH.
Qed.

Lemma split_blocks_none (tag : str) (c : Z) (s : str) :
  Ru.block_re tag (c :: s) = None ->
  split_blocks tag (c :: s) = Ch c :: split_blocks tag s.
Proof. intros H. unfold split_blocks. simpl. now rewrite H. Qed.

Lemma split_blocks_some (tag : str) (c : Z) (s : str) (n : nat) (g : unit) :
  Ru.block_re tag (c :: s) = Some (n, g) ->
  split_blocks tag (c :: s)
  = Blk (firstn n (c :: s)) :: split_blocks tag (skipn (n - 1) s).
Proof.
  intros H. unfold split_blocks. cbn [split_from]. rewrite H.
  now rewrite split_from_skip.
Qed.

Lemma split_blocks_src (tag : str) (s : str) :
  render_src (split_blocks tag s) = s.
Proof.
  remember (List.length s) as k eqn:Hk.
  revert s Hk; induction k as [k IH] using lt_wf_ind; intros s Hk.
  destruct s as [|c s]; [reflexivity|].
  destruct (Ru.block_re tag (c :: s)) as [[n g]|] eqn:Hm.
  - rewrite (split_blocks_some _ _ _ _ _ Hm). cbn [render_src].
    pose proof (block_re_pos _ _ _ _ Hm) as Hn.
    rewrite (IH (List.length (skipn (n - 1) s))); [| |reflexivity].
    + destruct n as [|n]; [lia|]. replace (S n - 1) with n by lia.
      simpl. now rewrite firstn_skipn.
    + rewrite length_skipn. subst k. simpl. lia.
  - rewrite (split_blocks_none _ _ _ Hm). cbn [render_src]. f_equal.
    apply (IH (List.length s)); [subst k; simpl; lia | reflexivity].
Qed.

Lemma protect_split (tag : str) (s : str) (saved : list str) :
  re_sub (Ru.block_re tag)
    (fun (saved : list str) m (_ : unit) =>
       (Ru.token tag (List.length saved), saved ++ [m]))
    s saved
  = (render_tok tag (List.length saved) (split_blocks tag s),
     saved ++ blocks (split_blocks tag s)).
Proof.
  remember (List.length s) as k eqn:Hk.
  revert s saved Hk; induction k as [k IH] using lt_wf_ind; intros s saved Hk.
  destruct s as [|c s]; [simpl; now rewrite app_nil_r|].
  destruct (Ru.block_re tag (c :: s)) as [[n g]|] eqn:Hm.
  - rewrite (re_sub_some _ _ _ _ _ _ _ _ _ Hm), (split_blocks_some _ _ _ _ _ Hm).
    cbn [fst snd render_tok blocks].
    pose proof (block_re_pos _ _ _ _ Hm) as Hn.
    rewrite (IH (List.length (skipn (n - 1) s)));
      [| rewrite length_skipn; subst k; simpl; lia | reflexivity].
    cbn [fst snd]. rewrite length_app. cbn [List.length].
    rewrite Nat.add_1_r. f_equal. now rewrite <- app_assoc.
  - rewrite (re_sub_none _ _ _ _ _ _ _ Hm), (split_blocks_none _ _ _ Hm).
    rewrite (IH (List.length s)); [| subst k; simpl; lia | reflexivity].
    reflexivity.
Qed.

Lemma protect_blocks_split (tag content : str) :
  Ru.protect_blocks content tag
  = (render_tok tag 0 (split_blocks tag content), blocks (split_blocks tag content)).
Proof. unfold Ru.protect_blocks. now rewrite protect_split. Qed.

Lemma tag_of_clean (k : kind) : Forall (fun c => c <> 64%Z) (Ru.upper (tag_of k)).
Proof. destruct k; repeat constructor; discriminate. Qed.

(** ** Placeholders of translate_html.py *)

Lemma dec_nonempty (n : nat) : dec n <> [].
Proof.
  unfold dec. intros H.
  destruct (Nat.to_uint n) eqn:E; try discriminate H.
  pose proof (DecimalNat.Unsigned.of_to n) as Hn. rewrite E in Hn.
  simpl in Hn. subst n. discriminate E.
Qed.

Lemma key_shape (kind : str) (i : nat) :
  key kind i
  = 95%Z :: 95%Z :: word ++ 95%Z :: kind ++ 95%Z :: dec i ++ [95%Z; 95%Z].
Proof.
  unfold key, word.
  change (lit "__PLACEHOLDER_") with (95%Z :: 95%Z :: lit "PLACEHOLDER" ++ [95%Z]).
  change (lit "_") with [95%Z]. change (lit "__") with [95%Z; 95%Z].
  cbn [app]. now rewrite <- !app_assoc.
Qed.

Lemma find_spec (needle s : str) (j : nat) :
  find needle s = Some j ->
  j <= List.length s /\ exists rest, skipn j s = needle ++ rest.
Proof.
  revert j; induction s as [|c s IH]; intros j; cbn [find].
  - destruct (strip_prefix needle []) as [l|] eqn:E; [|discriminate].
    intros H. injection H as <-. split; [lia|].
    exists l. simpl. now apply strip_prefix_some.
  - destruct (strip_prefix needle (c :: s)) as [l|] eqn:E; simpl.
    + intros H. injection H as <-. split; [lia|].
      exists l. simpl. now apply strip_prefix_some.
    + destruct (find needle s) as [j'|]; [|discriminate]. simpl.
      intros H. injection H as <-.
      destruct (IH j' eq_refl) as [Hl [rest Hr]].
      split; [simpl; lia | exists rest; exact Hr].
Qed.

Lemma ci_strip_prefix_spec (p s r : str) :
  ci_strip_prefix p s = Some r -> exists q, s = q ++ r /\ ci_same p q.
Proof.
  revert s; induction p as [|x p IH]; intros s H; simpl in H.
  - injection H as <-. exists []. split; [reflexivity | constructor].
  - destruct s as [|y s]; [discriminate|].
    destruct (ci_eq x y) eqn:E; [|discriminate].
    destruct (IH s H) as (q & -> & Hq).
    exists (y :: q). split; [reflexivity | now constructor].
Qed.

Lemma ci_find_spec (needle s : str) (j : nat) :
  ci_find needle s = Some j ->
  j <= List.length s
  /\ exists q rest, skipn j s = q ++ rest /\ ci_same needle q.
Proof.
  revert j; induction s as [|c s IH]; intros j; cbn [ci_find].
  - destruct (ci_strip_prefix needle []) as [l|] eqn:E; [|discriminate].
    intros H. injection H as <-. split; [lia|].
    destruct (ci_strip_prefix_spec _ _ _ E) as (q & Hq & Hs).
    now exists q, l.
  - destruct (ci_strip_prefix needle (c :: s)) as [l|] eqn:E; simpl.
    + intros H. injection H as <-. split; [lia|].
      destruct (ci_strip_prefix_spec _ _ _ E) as (q & Hq & Hs).
      now exists q, l.
    + destruct (ci_find needle s) as [j'|]; [|discriminate]. simpl.
      intros H. injection H as <-.
      destruct (IH j' eq_refl) as [Hl (q & rest & Hr & Hs)].
      split; [simpl; lia | now exists q, rest].
Qed.

Lemma ci_eq_symbol (p c : Z) :
  (p = 60 \/ p = 62)%Z -> ci_eq p c = true -> c = p.
Proof.
  intros Hp H.
  assert (Hl : lower c = p).
  { unfold ci_eq in H. destruct (Z.eqb_spec (lower c) p) as [E|_]; [exact E|].
    destruct Hp; subst p; discriminate H. }
  unfold lower, is_upper_az, in_range in Hl.
  destruct (Z.leb_spec 65 c), (Z.leb_spec c 90), (Z.eqb_spec c 304),
    (Z.eqb_spec c 8490); simpl in Hl; lia.
Qed.

Lemma ci_same_length (p q : str) : ci_same p q -> List.length q = List.length p.
Proof. intros H. symmetry. apply (Forall2_length H). Qed.

Lemma ci_same_last (p q : str) (x : Z) :
  ci_same (p ++ [x]) q -> (x = 60 \/ x = 62)%Z -> last q 0%Z = x.
Proof.
  intros H Hx. apply Forall2_app_inv_l in H as (q1 & q2 & H1 & H2 & ->).
  inversion H2 as [|a b l l' Hab Hl]; subst. inversion Hl; subst.
  rewrite last_last. now apply ci_eq_symbol.
Qed.

Lemma ci_same_head (x : Z) (p q : str) :
  ci_same (x :: p) q -> (x = 60 \/ x = 62)%Z -> hd 0%Z q = x.
Proof.
  intros H Hx. inversion H as [|a b l l' Hab Hl]; subst. simpl.
  now apply ci_eq_symbol.
Qed.

Lemma firstn_until (r : str) (j : nat) (q rest : str) :
  j <= List.length r -> skipn j r = q ++ rest ->
  firstn (j + List.length q) r = firstn j r ++ q
  /\ j + List.length q <= List.length r.
Proof.
  intros Hj Hs.
  pose proof (firstn_skipn j r) as Hr. rewrite Hs in Hr.
  assert (Hl : List.length (firstn j r) = j) by (now apply firstn_length_le).
  split.
  - rewrite <- Hr at 1. rewrite app_assoc.
    replace (j + List.length q) with (List.length (firstn j r ++ q))
      by (rewrite length_app; lia).
    apply firstn_exact.
  - rewrite <- Hr, !length_app. lia.
Qed.

Lemma last_app_nonempty (a b : str) (d : Z) : b <> [] -> last (a ++ b) d = last b d.
Proof.
  intros Hb. destruct (exists_last Hb) as (b' & x & ->).
  now rewrite app_assoc, !last_last.
Qed.

Lemma comment_re_bracketed : bracketed It.comment_re.
Proof.
  intros s n g. unfold It.comment_re.
  destruct (strip_prefix (lit "<!--") s) as [r|] eqn:Ep; [|discriminate].
  apply strip_prefix_some in Ep. subst s.
  destruct (find (lit "-->") r) as [j|] eqn:Ef; [|discriminate].
  intros H. injection H as <- _.
  destruct (find_spec _ _ _ Ef) as [Hj [rest Hr]].
  destruct (firstn_until r j (lit "-->") rest Hj Hr) as [Hf Hl].
  change (List.length (lit "-->")) with 3 in *.
  assert (Hh : firstn (4 + j + 3) (lit "<!--" ++ r)
               = lit "<!--" ++ firstn j r ++ lit "-->").
  { rewrite <- Hf. apply (firstn_app_2 (j + 3) (lit "<!--") r). }
  split; [|split; [reflexivity|]].
  - rewrite length_app. change (List.length (lit "<!--")) with 4. lia.
  - change (last (firstn (4 + j + 3) (lit "<!--" ++ r)) 0%Z = 62%Z).
    rewrite Hh, !app_assoc. now rewrite last_app_nonempty.
Qed.

Lemma element_re_bracketed (u : unicode_db) (name : str) :
  bracketed (It.element_re u name).
Proof.
  intros s n g. unfold It.element_re.
  destruct (ci_strip_prefix (lit "<" ++ name) s) as [[|c r]|] eqn:Ep;
    try discriminate.
  destruct (ci_strip_prefix_spec _ _ _ Ep) as (p & -> & Hp).
  destruct (is_word u c); [discriminate|].
  destruct (ci_find (lit "</" ++ name ++ lit ">") (c :: r)) as [j|] eqn:Ef;
    [|discriminate].
  intros H. injection H as Hn0 _.
  destruct (ci_find_spec _ _ _ Ef) as [Hj (q & rest & Hr & Hq)].
  destruct (firstn_until (c :: r) j q rest Hj Hr) as [Hf Hl].
  pose proof (ci_same_length _ _ Hp) as Lp.
  pose proof (ci_same_length _ _ Hq) as Lq.
  rewrite length_app in Lp. rewrite !length_app in Lq.
  change (List.length (lit "<")) with 1 in Lp.
  change (List.length (lit "</")) with 2 in Lq.
  change (List.length (lit ">")) with 1 in Lq.
  assert (Hn : n = List.length p + (j + List.length q)) by lia.
  rewrite Hn. split; [|split].
  - rewrite length_app. lia.
  - destruct p as [|x p]; [discriminate Lp|]. simpl.
    change (lit "<" ++ name) with (60%Z :: name) in Hp.
    apply (ci_same_head 60 name (x :: p) Hp). now left.
  - rewrite firstn_app_2, Hf, app_assoc.
    assert (Hqn : q <> []) by (destruct q; [discriminate Lq | discriminate]).
    rewrite last_app_nonempty by exact Hqn.
    rewrite app_assoc in Hq. apply (ci_same_last _ q 62 Hq). now right.
Qed.

(** ** A pass of [make_placeholders] *)

Lemma cut_from_skip (M : str -> option (nat * unit)) (k : nat) (s : str) :
  cut_from M k s = cut_from M 0 (skipn k s).
Proof.
  revert k; induction s as [|c s IH]; intros k.
  - now rewrite skipn_nil.
  - destruct k as [|k]; [reflexivity|]. simpl skipn.
    change (cut_from M (S k) (c :: s)) with (cut_from M k s). apply IH.
Qed.

Lemma cut_none (M : str -> option (nat * unit)) (c : Z) (s : str) :
  M (c :: s) = None -> cut M (c :: s) = Ch c :: cut M s.
Proof. intros H. unfold cut. simpl. now rewrite H. Qed.

Lemma cut_some (M : str -> option (nat * unit)) (c : Z) (s : str) n g :
  M (c :: s) = Some (S n, g) ->
  cut M (c :: s) = Blk (firstn (S n) (c :: s)) :: cut M (skipn (S n) (c :: s)).
Proof.
  intros H. unfold cut. cbn [cut_from]. rewrite H.
  rewrite cut_from_skip. simpl. now rewrite Nat.sub_0_r.
Qed.

Lemma cut_past_text (M : str -> option (nat * unit)) (t rest : str) :
  bracketed M -> Forall (fun c => c <> 60%Z) t ->
  cut M (t ++ rest) = map Ch t ++ cut M rest.
Proof.
  intros HM Ht. induction Ht as [|c t Hc Ht IH]; [reflexivity|].
  cbn [app map]. rewrite cut_none, IH; [reflexivity|].
  destruct (M (c :: t ++ rest)) as [[n g]|] eqn:E; [|reflexivity].
  destruct (HM _ _ _ E) as (_ & Hh & _). simpl in Hh. contradiction.
Qed.

Lemma render_key_chars (K : str) (j : nat) (t : str) (r : list item) :
  render_key K j (map Ch t ++ r) = t ++ render_key K j r.
Proof. induction t as [|c t IH]; simpl; [reflexivity | now rewrite IH]. Qed.

Lemma dict_set_fresh {V} (d : list (str * V)) (k : str) (v : V) :
  (forall kv, In kv d -> fst kv <> k) -> dict_set d k v = d ++ [(k, v)].
Proof.
  induction d as [|[k' v'] d IH]; intros H; simpl; [reflexivity|].
  destruct (str_eqb k' k) eqn:E.
  - apply str_eqb_eq in E. exfalso. apply (H (k', v')); [now left | exact E].
  - f_equal. apply IH. intros kv Hin. apply H. now right.
Qed.

Lemma kinds_clean (k : str) :
  In k kinds ->
  k <> [] /\ Forall (fun c => c <> 95%Z /\ c <> 60%Z /\ c <> 62%Z) k.
Proof.
  intros [<-|[<-|[<-|[]]]]; (split; [discriminate|]);
    repeat constructor; discriminate.
Qed.

Lemma key_differs (k k' : str) (i i' : nat) (rest : str) :
  In k kinds -> In k' kinds -> i <> i' ->
  strip_prefix (key k i) (key k' i' ++ rest) = None.
Proof.
  intros Hk Hk' Hi. rewrite !key_shape.
  repeat (progress (rewrite <- ?app_assoc; cbn [app])).
  cbn [strip_prefix]. rewrite !Z.eqb_refl. rewrite strip_prefix_same.
  cbn [strip_prefix]. rewrite Z.eqb_refl.
  destruct (strip_prefix _ _) eqn:E; [|reflexivity]. exfalso.
  assert (k = k').
  { destruct Hk as [<-|[<-|[<-|[]]]]; destruct Hk' as [<-|[<-|[<-|[]]]];
      try reflexivity; discriminate E. }
  subst k'. rewrite strip_prefix_same in E. cbn [app strip_prefix] in E.
  rewrite Z.eqb_refl in E.
  apply Hi. apply dec_inj.
  apply (digits_prefix_eq 95 (dec i) (dec i') [95%Z] (95%Z :: rest));
    [lia | apply dec_digits | apply dec_digits | congruence].
Qed.

Lemma key_index_inj (k k' : str) (i i' : nat) :
  In k kinds -> In k' kinds -> key k i = key k' i' -> i = i'.
Proof.
  intros Hk Hk' E. destruct (Nat.eq_dec i i') as [|Hne]; [assumption|].
  pose proof (key_differs k k' i i' [] Hk Hk' Hne) as H.
  rewrite <- E, strip_prefix_app in H. discriminate.
Qed.

Lemma wf_entries_snoc (ents : list (str * nat * str)) (K m : str) :
  In K kinds -> wf_entries ents ->
  wf_entries (ents ++ [(K, List.length ents, m)]).
Proof.
  intros HK [Hk Hi]. split.
  - apply Forall_app. split; [exact Hk|].
    constructor; [exact HK | constructor].
  - rewrite map_app, length_app, Hi. simpl.
    rewrite Nat.add_1_r, seq_S. reflexivity.
Qed.

Lemma store_fresh (ents : list (str * nat * str)) (K m : str) :
  In K kinds -> wf_entries ents ->
  It._store K (map entry ents) m
  = (key K (List.length ents), map entry (ents ++ [(K, List.length ents, m)])).
Proof.
  intros HK [Hk Hi]. unfold It._store. rewrite length_map.
  fold (key K (List.length ents)). f_equal.
  rewrite dict_set_fresh; [now rewrite map_app|].
  intros kv Hin E. apply in_map_iff in Hin as ([[k i] b] & <- & Hin).
  cbn in E. rewrite Forall_forall in Hk.
  apply key_index_inj in E; [| exact (Hk _ Hin) | exact HK].
  assert (Hlt : In i (seq 0 (List.length ents))).
  { rewrite <- Hi. apply in_map_iff. now exists (k, i, b). }
  apply in_seq in Hlt. lia.
Qed.

Lemma pass_cut (M : str -> option (nat * unit)) (K : str) :
  In K kinds ->
  (forall s n g, M s = Some (n, g) -> 1 <= n) ->
  forall (s : str) (ents : list (str * nat * str)),
    wf_entries ents ->
    re_sub M (fun st m (_ : unit) => It._store K st m) s (map entry ents)
    = (render_key K (List.length ents) (cut M s),
       map entry (ents ++ stored K (List.length ents) (blocks (cut M s)))).
Proof.
  intros HK Hpos s.
  remember (List.length s) as k eqn:Hk.
  revert s Hk; induction k as [k IH] using lt_wf_ind; intros s Hk ents Hw.
  destruct s as [|c s]; [simpl; now rewrite app_nil_r|].
  destruct (M (c :: s)) as [[n g]|] eqn:Hm.
  - pose proof (Hpos _ _ _ Hm) as Hn. destruct n as [|n]; [lia|].
    rewrite (re_sub_some _ _ _ _ _ _ _ _ _ Hm), (cut_some _ _ _ _ _ Hm).
    cbn zeta. rewrite (store_fresh ents K _ HK Hw). cbn [fst snd].
    replace (skipn (S n - 1) s) with (skipn (S n) (c :: s))
      by (simpl; now rewrite Nat.sub_0_r).
    rewrite (IH (List.length (skipn (S n) (c :: s))));
      [| rewrite length_skipn; subst k; simpl; lia | reflexivity
       | now apply wf_entries_snoc].
    cbn [fst snd render_key blocks stored]. rewrite length_app. cbn [List.length].
    rewrite Nat.add_1_r. f_equal. now rewrite <- app_assoc.
  - rewrite (re_sub_none _ _ _ _ _ _ _ Hm), (cut_none _ _ _ Hm).
    rewrite (IH (List.length s)); [| subst k; simpl; lia | reflexivity | exact Hw].
    reflexivity.
Qed.

Lemma key_chars (k : str) (i : nat) :
  In k kinds -> Forall (fun c => c <> 60%Z /\ c <> 62%Z) (key k i).
Proof.
  intros Hk. rewrite key_shape. destruct (kinds_clean k Hk) as [_ Hc].
  unfold word. cbn [app lit map list_ascii_of_string].
  repeat (apply Forall_cons; [split; discriminate|]).
  apply Forall_app. split.
  { eapply Forall_impl; [|exact Hc]. simpl. tauto. }
  apply Forall_cons; [split; discriminate|].
  apply Forall_app. split.
  { eapply Forall_impl; [|apply dec_digits]. simpl. intros a Ha. lia. }
  repeat constructor; discriminate.
Qed.

Lemma key_has_word (k : str) (i : nat) (rest : str) :
  ~ occurs_not word (key k i ++ rest).
Proof.
  intros H. rewrite key_shape in H.
  specialize (H [95%Z; 95%Z]
                ((word ++ 95%Z :: k ++ 95%Z :: dec i ++ [95%Z; 95%Z]) ++ rest)
                eq_refl).
  rewrite <- app_assoc, strip_prefix_app in H. discriminate H.
Qed.

Lemma last_in (l : str) (d : Z) : l <> [] -> In (last l d) l.
Proof.
  intros H. destruct (exists_last H) as (l' & x & ->).
  rewrite last_last. apply in_or_app. right. now left.
Qed.

Lemma in_firstn (n : nat) (l : str) (x : Z) : In x (firstn n l) -> In x l.
Proof.
  intros H. rewrite <- (firstn_skipn n l). apply in_or_app. now left.
Qed.

Lemma occurs_not_prefix (w a b : str) : occurs_not w (a ++ b) -> occurs_not w a.
Proof.
  intros H x y E. specialize (H x (y ++ b)).
  rewrite E, <- app_assoc in H. specialize (H eq_refl).
  destruct (strip_prefix w y) as [r|] eqn:Ey; [|reflexivity].
  apply strip_prefix_some in Ey. subst y.
  rewrite <- app_assoc, strip_prefix_app in H. discriminate.
Qed.

(** A match that holds no placeholder word and ends with a closing bracket
    lies in the text: it covers no placeholder, whole or in part. *)
Lemma match_in_text (items : list pitem) :
  wf_items items ->
  forall n,
    1 <= n <= List.length (prender_tok items) ->
    occurs_not word (firstn n (prender_tok items)) ->
    last (firstn n (prender_tok items)) 0%Z = 62%Z ->
    exists cs r, items = map PCh cs ++ r /\ List.length cs = n.
Proof.
  induction items as [|[c|k i b] r IH]; intros Hw n Hn Ho Hl.
  - simpl in Hn. lia.
  - destruct n as [|n]; [lia|]. cbn [prender_tok firstn] in *.
    destruct n as [|n].
    + exists [c], r. split; reflexivity.
    + destruct (IH Hw (S n)) as (cs & r' & -> & Hc).
      * simpl in Hn. lia.
      * now apply occurs_not_tail in Ho.
      * rewrite <- Hl. destruct (prender_tok r); [simpl in Hn; lia|].
        reflexivity.
      * exists (c :: cs), r'. split; [reflexivity | simpl; lia].
  - exfalso. cbn [prender_tok] in *.
    assert (Hk : In k kinds) by (now inversion Hw).
    destruct (Nat.le_gt_cases (List.length (key k i)) n) as [Hge|Hlt].
    + replace n with (List.length (key k i) + (n - List.length (key k i)))
        in Ho by lia.
      rewrite firstn_app_2 in Ho. now apply key_has_word in Ho.
    + rewrite firstn_app in Hl.
      replace (n - List.length (key k i)) with 0 in Hl by lia.
      rewrite firstn_O, app_nil_r in Hl.
      assert (Hne : firstn n (key k i) <> []).
      { destruct n; [lia|]. rewrite key_shape. discriminate. }
      pose proof (last_in _ 0%Z Hne) as Hin. rewrite Hl in Hin.
      apply in_firstn in Hin.
      pose proof (key_chars k i Hk) as Hc. rewrite Forall_forall in Hc.
      destruct (Hc _ Hin) as [_ H62]. now apply H62.
Qed.

Lemma ptokens_chars (cs : str) (r : list pitem) :
  ptokens (map PCh cs ++ r) = ptokens r.
Proof. induction cs; simpl; auto. Qed.

Lemma prender_tok_chars (cs : str) (r : list pitem) :
  prender_tok (map PCh cs ++ r) = cs ++ prender_tok r.
Proof. induction cs as [|c cs IH]; simpl; [reflexivity | now rewrite IH]. Qed.

Lemma prender_src_chars (cs : str) (r : list pitem) :
  prender_src (map PCh cs ++ r) = cs ++ prender_src r.
Proof. induction cs as [|c cs IH]; simpl; [reflexivity | now rewrite IH]. Qed.

(** A pass over a protected document whose matches hold no placeholder:
    the result is again a protected document of the same text, with the
    placeholders it had and those the pass stored. *)
Lemma pass_merge (M : str -> option (nat * unit)) (K : str) :
  bracketed M -> In K kinds ->
  forall (k : nat) (items : list pitem) (j : nat),
    List.length (prender_tok items) = k ->
    wf_items items ->
    Forall (occurs_not word) (blocks (cut M (prender_tok items))) ->
    exists items',
      prender_tok items' = render_key K j (cut M (prender_tok items))
      /\ prender_src items' = prender_src items
      /\ Permutation (ptokens items')
           (ptokens items ++ stored K j (blocks (cut M (prender_tok items)))).
Proof.
  intros HM HK. induction k as [k IH] using lt_wf_ind.
  intros items j Hk Hw Hf.
  destruct items as [|[c|kd i b] r].
  - exists []. simpl. split; [reflexivity | split; [reflexivity | constructor]].
  - destruct (M (prender_tok (PCh c :: r))) as [[n g]|] eqn:Hm.
    + destruct (HM _ _ _ Hm) as (Hn & _ & Hl).
      destruct n as [|n]; [lia|].
      pose proof (cut_some M c (prender_tok r) n g Hm) as Hcut.
      change (c :: prender_tok r) with (prender_tok (PCh c :: r)) in Hcut.
      rewrite Hcut in Hf |- *. cbn [blocks render_key stored] in Hf |- *.
      apply Forall_cons_iff in Hf. destruct Hf as [Hx Hf'].
      destruct (match_in_text (PCh c :: r) Hw (S n) Hn Hx Hl)
        as (cs & r2 & E & Hc).
      assert (Eh : prender_tok (PCh c :: r) = cs ++ prender_tok r2)
        by (rewrite E; apply prender_tok_chars).
      rewrite Eh, <- Hc, skipn_exact in Hf' |- *.
      assert (Hw2 : wf_items r2).
      { unfold wf_items in *. now rewrite E, ptokens_chars in Hw. }
      destruct (IH (List.length (prender_tok r2))) with (items := r2) (j := S j)
        as (r2' & H1 & H2 & H3); [| reflexivity | exact Hw2 | exact Hf' |].
      { subst k. rewrite Eh, length_app. lia. }
      exists (PTk K j cs :: r2'). cbn [prender_tok prender_src ptokens].
      split; [now rewrite H1 | split].
      * rewrite H2. change (c :: prender_src r) with (prender_src (PCh c :: r)).
        rewrite E. now rewrite prender_src_chars.
      * change (ptokens r) with (ptokens (PCh c :: r)).
        rewrite E, ptokens_chars, firstn_exact.
        apply Permutation_cons_app. exact H3.
    + pose proof (cut_none M c (prender_tok r) Hm) as Hcut.
      change (c :: prender_tok r) with (prender_tok (PCh c :: r)) in Hcut.
      rewrite Hcut in Hf |- *. cbn [blocks render_key] in Hf |- *.
      destruct (IH (List.length (prender_tok r))) with (items := r) (j := j)
        as (r' & H1 & H2 & H3); [| reflexivity | exact Hw | exact Hf |].
      { subst k. simpl. lia. }
      exists (PCh c :: r'). cbn [prender_tok prender_src ptokens].
      split; [now rewrite H1 | split; [now rewrite H2 | exact H3]].
  - cbn [prender_tok] in *.
    assert (Hkd : In kd kinds) by (now inversion Hw).
    assert (Hwr : wf_items r) by (now inversion Hw).
    assert (Hc : Forall (fun c => c <> 60%Z) (key kd i)).
    { eapply Forall_impl; [|apply (key_chars kd i Hkd)]. simpl. tauto. }
    rewrite (cut_past_text M _ _ HM Hc) in *.
    rewrite blocks_chars in *. rewrite render_key_chars.
    destruct (IH (List.length (prender_tok r))) with (items := r) (j := j)
      as (r' & H1 & H2 & H3); [| reflexivity | exact Hwr | exact Hf |].
    { subst k. rewrite length_app, key_shape. simpl. lia. }
    exists (PTk kd i b :: r'). cbn [prender_tok prender_src ptokens].
    split; [now rewrite H1 | split; [now rewrite H2 |]].
    simpl. now apply Permutation_cons.
Qed.

(** ** Putting the placeholders of translate_html.py back *)

Lemma word_clean : Forall (fun c => c <> 95%Z) word.
Proof.
  unfold word. cbn [lit map list_ascii_of_string].
  repeat (apply Forall_cons; [discriminate|]). apply Forall_nil.
Qed.

Lemma key_app_shape (K : str) (i : nat) (rest : str) :
  key K i ++ rest
  = 95%Z :: 95%Z :: word ++ 95%Z :: K ++ 95%Z :: dec i ++ 95%Z :: 95%Z :: rest.
Proof.
  rewrite key_shape. now repeat (progress (rewrite <- ?app_assoc; cbn [app])).
Qed.

Lemma key_nonempty (K : str) (i : nat) : key K i <> [].
Proof. rewrite key_shape. discriminate. Qed.

(** A text without underscores that begins the protected document begins
    the document itself. *)
Lemma pclean_prefix_src (w : str) (items : list pitem) :
  Forall (fun c => c <> 95%Z) w ->
  strip_prefix w (prender_tok items) <> None ->
  strip_prefix w (prender_src items) <> None.
Proof.
  intros Hw; revert items; induction Hw as [|x w Hx Hw IH]; intros items H.
  - discriminate.
  - destruct items as [|[c|kd i b] r]; cbn [prender_tok prender_src] in *.
    + exact H.
    + cbn [strip_prefix] in *.
      destruct (Z.eqb x c); [now apply (IH r) | exact H].
    + exfalso. rewrite key_app_shape in H. cbn [strip_prefix] in H.
      destruct (Z.eqb_spec x 95); [contradiction | now apply H].
Qed.

Lemma word_not_in_tok (items : list pitem) :
  occurs_not word (prender_src items) ->
  strip_prefix word (prender_tok items) = None.
Proof.
  intros Ho. destruct (strip_prefix word (prender_tok items)) eqn:E;
    [|reflexivity].
  exfalso. apply (pclean_prefix_src word items word_clean); [congruence|].
  now apply occurs_not_here.
Qed.

Lemma key_needs_word (K : str) (i : nat) (rest : str) :
  strip_prefix (key K i) (95%Z :: 95%Z :: rest) <> None ->
  strip_prefix word rest <> None.
Proof.
  rewrite key_shape. cbn [strip_prefix]. rewrite !Z.eqb_refl.
  rewrite strip_prefix_app_l.
  destruct (strip_prefix word rest); [discriminate | congruence].
Qed.

Lemma key_not_at_clean (K : str) (i : nat) (c : Z) (rest : str) :
  c <> 95%Z -> strip_prefix (key K i) (c :: rest) = None.
Proof.
  intros Hc. rewrite key_shape. cbn [strip_prefix].
  destruct (Z.eqb_spec 95 c); [congruence | reflexivity].
Qed.

Lemma key_not_after_us (K : str) (i : nat) (c : Z) (rest : str) :
  c <> 95%Z -> strip_prefix (key K i) (95%Z :: c :: rest) = None.
Proof.
  intros Hc. rewrite key_shape. cbn [strip_prefix]. rewrite Z.eqb_refl.
  destruct (Z.eqb_spec 95 c); [congruence | reflexivity].
Qed.

(** No placeholder starts at a code point of the text. *)
Lemma no_key_in_text (K : str) (i : nat) (c : Z) (r : list pitem) :
  occurs_not word (prender_src r) ->
  strip_prefix (key K i) (c :: prender_tok r) = None.
Proof.
  intros Ho. destruct (Z.eq_dec c 95) as [->|Hc];
    [|now apply key_not_at_clean].
  destruct r as [|[c2|kd j b] r2]; cbn [prender_tok].
  - rewrite key_shape. reflexivity.
  - destruct (Z.eq_dec c2 95) as [->|Hc2]; [|now apply key_not_after_us].
    destruct (strip_prefix (key K i) (95%Z :: 95%Z :: prender_tok r2)) eqn:E;
      [|reflexivity].
    exfalso. apply (key_needs_word K i (prender_tok r2)); [congruence|].
    apply word_not_in_tok. cbn [prender_src] in Ho.
    now apply occurs_not_tail in Ho.
  - rewrite key_app_shape.
    destruct (strip_prefix (key K i) _) eqn:E; [|reflexivity]. exfalso.
    revert E. rewrite key_shape. cbn [strip_prefix]. rewrite !Z.eqb_refl.
    unfold word at 1. cbn [lit map list_ascii_of_string app strip_prefix].
    discriminate.
Qed.

(** Nor between the closing underscores of a placeholder and the text
    after it. *)
Lemma no_key_in_gap (K : str) (i : nat) (r : list pitem) :
  occurs_not word (prender_src r) ->
  strip_prefix (key K i) (95%Z :: 95%Z :: prender_tok r) = None.
Proof.
  intros Ho.
  destruct (strip_prefix (key K i) (95%Z :: 95%Z :: prender_tok r)) eqn:E;
    [|reflexivity].
  exfalso. apply (key_needs_word K i (prender_tok r));
    [congruence | now apply word_not_in_tok].
Qed.

Lemma replace_pclean (K : str) (i : nat) (new t rest : str) :
  Forall (fun c => c <> 95%Z) t ->
  replace (key K i) new (t ++ rest) = t ++ replace (key K i) new rest.
Proof.
  induction 1 as [|c t Hc Ht IH]; [reflexivity|]. cbn [app].
  rewrite replace_skip by (now apply key_not_at_clean). now rewrite IH.
Qed.

Lemma replace_us_clean (K : str) (i : nat) (new t rest : str) :
  t <> [] -> Forall (fun c => c <> 95%Z) t ->
  replace (key K i) new (95%Z :: t ++ rest)
  = 95%Z :: t ++ replace (key K i) new rest.
Proof.
  intros Hne Ht. destruct t as [|c t]; [contradiction|].
  pose proof (Forall_inv Ht) as Hc. cbn [app].
  rewrite (replace_skip _ _ _ _ (key_not_after_us K i c (t ++ rest) Hc)).
  change (c :: t ++ rest) with ((c :: t) ++ rest).
  now rewrite (replace_pclean K i new (c :: t) rest Ht).
Qed.

(** Replacing one placeholder passes over another. *)
Lemma replace_over_key (K K' : str) (i j : nat) (new : str) (r : list pitem) :
  In K kinds -> In K' kinds -> i <> j ->
  occurs_not word (prender_src r) ->
  replace (key K i) new (key K' j ++ prender_tok r)
  = key K' j ++ replace (key K i) new (prender_tok r).
Proof.
  intros HK HK' Hij Ho.
  pose proof (key_differs K K' i j (prender_tok r) HK HK' Hij) as H0.
  rewrite (key_app_shape K' j) in H0 |- *.
  rewrite (replace_skip _ _ _ _ H0).
  destruct (kinds_clean K' HK') as [Hne Hcl].
  rewrite (replace_us_clean K i new word _ ltac:(discriminate) word_clean).
  rewrite (replace_us_clean K i new K' _ Hne).
  2:{ eapply Forall_impl; [|exact Hcl]. simpl. tauto. }
  rewrite (replace_us_clean K i new (dec j) _ (dec_nonempty j)).
  2:{ eapply Forall_impl; [|apply dec_digits]. simpl. intros a Ha. lia. }
  rewrite (replace_skip _ _ _ _ (no_key_in_gap K i r Ho)).
  rewrite (replace_skip _ _ _ _ (no_key_in_text K i 95%Z r Ho)).
  now rewrite key_app_shape.
Qed.

Lemma ptokens_pexpand (i : nat) (items : list pitem) :
  ptokens (pexpand i items)
  = filter (fun e => negb (Nat.eqb i (index_of e))) (ptokens items).
Proof.
  induction items as [|[c|kd j b] r IH]; cbn [pexpand ptokens filter].
  - reflexivity.
  - exact IH.
  - unfold index_of at 1. cbn [fst snd].
    destruct (Nat.eqb i j); cbn [negb].
    + now rewrite ptokens_chars.
    + cbn [ptokens]. now rewrite IH.
Qed.

Lemma prender_src_pexpand (i : nat) (items : list pitem) :
  prender_src (pexpand i items) = prender_src items.
Proof.
  induction items as [|[c|kd j b] r IH]; cbn [pexpand prender_src].
  - reflexivity.
  - now rewrite IH.
  - destruct (Nat.eqb i j).
    + now rewrite prender_src_chars, IH.
    + cbn [prender_src]. now rewrite IH.
Qed.

Lemma prender_no_tokens (items : list pitem) :
  ptokens items = [] -> prender_tok items = prender_src items.
Proof.
  induction items as [|[c|kd j b] r IH]; cbn [ptokens prender_tok prender_src];
    intros H; [reflexivity | now rewrite IH | discriminate].
Qed.

(** One step of [restore_placeholders]: the placeholder with the index [i]
    gives way to its block, wherever it stands. *)
Lemma replace_key (K : str) (i : nat) (b : str) (items : list pitem) :
  In K kinds -> wf_items items ->
  (forall K' b', In (K', i, b') (ptokens items) -> K' = K /\ b' = b) ->
  occurs_not word (prender_src items) ->
  replace (key K i) b (prender_tok items) = prender_tok (pexpand i items).
Proof.
  intros HK. induction items as [|[c|K' j b'] r IH]; intros Hw Hu Ho.
  - reflexivity.
  - cbn [prender_tok pexpand prender_src ptokens] in *.
    apply occurs_not_tail in Ho.
    rewrite (replace_skip _ _ _ _ (no_key_in_text K i c r Ho)).
    f_equal. now apply IH.
  - cbn [prender_tok pexpand prender_src ptokens] in *.
    apply occurs_not_app in Ho.
    unfold wf_items in Hw. cbn [ptokens] in Hw.
    pose proof (Forall_inv Hw) as HK'. cbn [fst] in HK'.
    pose proof (Forall_inv_tail Hw) as Hw'.
    assert (IH' : replace (key K i) b (prender_tok r) = prender_tok (pexpand i r)).
    { apply IH; [exact Hw' | | exact Ho].
      intros K2 b2 Hin. apply Hu. now right. }
    destruct (Nat.eqb_spec i j) as [<-|Hne].
    + destruct (Hu K' b' (or_introl eq_refl)) as [-> ->].
      rewrite (replace_here _ b _ (key_nonempty K i)).
      now rewrite prender_tok_chars, IH'.
    + rewrite (replace_over_key K K' i j b r HK HK' Hne Ho).
      cbn [prender_tok]. now rewrite IH'.
Qed.

Lemma filter_all {A} (f : A -> bool) (l : list A) :
  (forall x, In x l -> f x = true) -> filter f l = l.
Proof.
  induction l as [|a l IH]; intros H; cbn [filter]; [reflexivity|].
  rewrite (H a (or_introl eq_refl)). f_equal. apply IH.
  intros x Hx. apply H. now right.
Qed.

Lemma filter_perm {A} (f : A -> bool) (l l' : list A) :
  Permutation l l' -> Permutation (filter f l) (filter f l').
Proof.
  induction 1 as [|x l l' Hp IH|x y l|l l' l'' H1 IH1 H2 IH2]; cbn [filter].
  - constructor.
  - destruct (f x); [now constructor | exact IH].
  - destruct (f x), (f y); try apply Permutation_refl. apply perm_swap.
  - now transitivity (filter f l').
Qed.

(** [restore_placeholders] on a protected document: the stored blocks may
    stand in the document in any order. *)
Lemma restore_entries (ents : list (str * nat * str)) :
  forall items : list pitem,
    Forall (fun e => In (fst (fst e)) kinds) ents ->
    NoDup (map index_of ents) ->
    Permutation (ptokens items) ents ->
    occurs_not word (prender_src items) ->
    It.restore_placeholders (prender_tok items) (map entry ents)
    = prender_src items.
Proof.
  induction ents as [|[[K i] b] ents IH]; intros items Hk Hn Hp Ho.
  - apply Permutation_sym, Permutation_nil in Hp.
    now apply prender_no_tokens.
  - unfold It.restore_placeholders. cbn [map fold_left].
    change (entry (K, i, b)) with (key K i, b). cbn [fst snd].
    pose proof (Forall_inv Hk) as HK. cbn [fst] in HK.
    cbn [map] in Hn. unfold index_of at 1 in Hn. cbn [fst snd] in Hn.
    apply NoDup_cons_iff in Hn. destruct Hn as [Hni Hn].
    assert (Hu : forall K' b', In (K', i, b') (ptokens items) ->
                               K' = K /\ b' = b).
    { intros K' b' Hin. apply (Permutation_in _ Hp) in Hin.
      destruct Hin as [E|Hin]; [injection E as -> ->; now split|].
      exfalso. apply Hni. apply in_map_iff. now exists (K', i, b'). }
    rewrite (replace_key K i b items HK); [| | exact Hu | exact Ho].
    2:{ unfold wf_items. apply Permutation_sym in Hp.
        exact (Permutation_Forall Hp Hk). }
    rewrite <- (prender_src_pexpand i items).
    change (It.restore_placeholders (prender_tok (pexpand i items))
              (map entry ents) = prender_src (pexpand i items)).
    apply (IH (pexpand i items)).
    + exact (Forall_inv_tail Hk).
    + exact Hn.
    + rewrite ptokens_pexpand.
      pose proof (filter_perm (fun e => negb (Nat.eqb i (index_of e))) _ _ Hp)
        as Hp'.
      cbn [filter] in Hp'.
      change (index_of (K, i, b)) with i in Hp'.
      rewrite Nat.eqb_refl in Hp'. cbn [negb] in Hp'.
      rewrite (filter_all _ ents) in Hp'; [exact Hp'|].
      intros x Hx. destruct (Nat.eqb_spec i (index_of x)) as [E|]; [|reflexivity].
      exfalso. apply Hni. rewrite E. now apply in_map.
    + now rewrite prender_src_pexpand.
Qed.

(** ** The round trip of translate_html.py *)

Lemma wf_entries_stored (K : str) (ms : list str) :
  In K kinds ->
  forall ents, wf_entries ents ->
    wf_entries (ents ++ stored K (List.length ents) ms).
Proof.
  intros HK. induction ms as [|m ms IH]; intros ents Hw; cbn [stored].
  - now rewrite app_nil_r.
  - pose proof (IH _ (wf_entries_snoc ents K m HK Hw)) as H.
    rewrite length_app, Nat.add_1_r, <- app_assoc in H. exact H.
Qed.

Lemma stored_values (P : str -> Prop) (K : str) (ms : list str) (j : nat) :
  Forall (fun kv => P (snd kv)) (map entry (stored K j ms)) -> Forall P ms.
Proof.
  revert j; induction ms as [|m ms IH]; intros j H; cbn [stored map] in *.
  - constructor.
  - constructor; [exact (Forall_inv H) | exact (IH _ (Forall_inv_tail H))].
Qed.

Lemma blocks_clean_spec (placeholders : list (str * str)) :
  blocks_clean placeholders = true ->
  Forall (fun kv => occurs_not word (snd kv)) placeholders.
Proof.
  unfold blocks_clean. intros H. apply Forall_forall. intros kv Hin.
  rewrite forallb_forall in H. specialize (H kv Hin).
  apply contains_false_occurs_not. now destruct (contains word (snd kv)).
Qed.

Lemma prender_tok_text (doc : str) : prender_tok (map PCh doc) = doc.
Proof. induction doc as [|c doc IH]; simpl; [reflexivity | now rewrite IH]. Qed.

Lemma prender_src_text (doc : str) : prender_src (map PCh doc) = doc.
Proof. induction doc as [|c doc IH]; simpl; [reflexivity | now rewrite IH]. Qed.

Lemma ptokens_text (doc : str) : ptokens (map PCh doc) = [].
Proof. induction doc; simpl; auto. Qed.

Lemma wf_entries_nodup (ents : list (str * nat * str)) :
  wf_entries ents -> NoDup (map index_of ents).
Proof. intros [_ H]. rewrite H. apply seq_NoDup. Qed.

(** One pass of [make_placeholders] over a protected document whose
    matches hold no placeholder. *)
Lemma pass_items (M : str -> option (nat * unit)) (K : str) :
  bracketed M -> In K kinds ->
  forall (items : list pitem) (ents : list (str * nat * str)),
    wf_entries ents ->
    Permutation (ptokens items) ents ->
    Forall (occurs_not word) (blocks (cut M (prender_tok items))) ->
    exists items',
      re_sub M (fun st m (_ : unit) => It._store K st m) (prender_tok items)
             (map entry ents)
      = (prender_tok items',
         map entry (ents ++ stored K (List.length ents)
                                   (blocks (cut M (prender_tok items)))))
      /\ prender_src items' = prender_src items
      /\ Permutation (ptokens items')
           (ents ++ stored K (List.length ents)
                           (blocks (cut M (prender_tok items)))).
Proof.
  intros HM HK items ents Hw Hp Hf.
  assert (Hwi : wf_items items).
  { unfold wf_items. apply Permutation_sym in Hp.
    exact (Permutation_Forall Hp (proj1 Hw)). }
  destruct (pass_merge M K HM HK _ items (List.length ents) eq_refl Hwi Hf)
    as (items' & H1 & H2 & H3).
  exists items'. split; [|split].
  - rewrite H1. apply pass_cut; [exact HK | | exact Hw].
    intros s n g Hm. now destruct (HM _ _ _ Hm) as [[Hn _] _].
  - exact H2.
  - rewrite H3. now apply Permutation_app_tail.
Qed.

Lemma wf_items_perm (items : list pitem) (ents : list (str * nat * str)) :
  wf_entries ents -> Permutation (ptokens items) ents -> wf_items items.
Proof.
  intros Hw Hp. unfold wf_items. apply Permutation_sym in Hp.
  exact (Permutation_Forall Hp (proj1 Hw)).
Qed.

Lemma bracketed_pos (M : str -> option (nat * unit)) :
  bracketed M -> forall s n g, M s = Some (n, g) -> 1 <= n.
Proof. intros HM s n g Hm. now destruct (HM _ _ _ Hm) as [[Hn _] _]. Qed.

(** What [make_placeholders] returns when no stored block holds a
    placeholder: the document with a placeholder for each protected region,
    and the regions as they stood, stored under their placeholders. *)
Lemma make_placeholders_items (u : unicode_db) (doc : str) :
  blocks_clean (snd (It.make_placeholders u doc)) = true ->
  exists (items : list pitem) (ents : list (str * nat * str)),
    It.make_placeholders u doc = (prender_tok items, map entry ents)
    /\ prender_src items = doc
    /\ Permutation (ptokens items) ents
    /\ wf_entries ents.
Proof.
  intros Hb. apply blocks_clean_spec in Hb. revert Hb.
  assert (HKc : In (lit "COMMENT") kinds) by (simpl; tauto).
  assert (HKs : In (lit "SCRIPT") kinds) by (simpl; tauto).
  assert (HKy : In (lit "STYLE") kinds) by (simpl; tauto).
  pose proof comment_re_bracketed as B1.
  pose proof (element_re_bracketed u (lit "script")) as B2.
  pose proof (element_re_bracketed u (lit "style")) as B3.
  assert (W0 : wf_entries []) by (split; [constructor | reflexivity]).
  unfold It.make_placeholders.
  change (@nil (str * str)) with (map entry []).
  rewrite (pass_cut It.comment_re (lit "COMMENT") HKc (bracketed_pos _ B1) doc [] W0).
  cbn [app List.length].
  set (b1 := blocks (cut It.comment_re doc)).
  set (h1 := render_key (lit "COMMENT") 0 (cut It.comment_re doc)).
  set (e1 := stored (lit "COMMENT") 0 b1).
  assert (W1 : wf_entries e1)
    by exact (wf_entries_stored (lit "COMMENT") b1 HKc [] W0).
  rewrite (pass_cut (It.element_re u (lit "script")) (lit "SCRIPT") HKs
             (bracketed_pos _ B2) h1 e1 W1).
  set (b2 := blocks (cut (It.element_re u (lit "script")) h1)).
  set (h2 := render_key (lit "SCRIPT") (List.length e1)
               (cut (It.element_re u (lit "script")) h1)).
  set (e2 := e1 ++ stored (lit "SCRIPT") (List.length e1) b2).
  assert (W2 : wf_entries e2)
    by exact (wf_entries_stored (lit "SCRIPT") b2 HKs e1 W1).
  rewrite (pass_cut (It.element_re u (lit "style")) (lit "STYLE") HKy
             (bracketed_pos _ B3) h2 e2 W2).
  set (b3 := blocks (cut (It.element_re u (lit "style")) h2)).
  set (h3 := render_key (lit "STYLE") (List.length e2)
               (cut (It.element_re u (lit "style")) h2)).
  set (e3 := e2 ++ stored (lit "STYLE") (List.length e2) b3).
  assert (W3 : wf_entries e3)
    by exact (wf_entries_stored (lit "STYLE") b3 HKy e2 W2).
  cbn [fst snd]. intros Hb.
  assert (F : Forall (occurs_not word) b1 /\ Forall (occurs_not word) b2
              /\ Forall (occurs_not word) b3).
  { unfold e3, e2 in Hb. rewrite !map_app in Hb.
    apply Forall_app in Hb. destruct Hb as [Hb F3].
    apply Forall_app in Hb. destruct Hb as [F1 F2].
    split; [|split]; eapply stored_values; eassumption. }
  destruct F as (F1 & F2 & F3).
  (* the comments *)
  assert (T0 : prender_tok (map PCh doc) = doc) by apply prender_tok_text.
  destruct (pass_merge It.comment_re (lit "COMMENT") B1 HKc _ (map PCh doc) 0
              eq_refl) as (i1 & T1 & S1 & P1).
  { unfold wf_items. rewrite ptokens_text. constructor. }
  { rewrite T0. exact F1. }
  rewrite T0 in T1, P1. rewrite ptokens_text in P1. rewrite prender_src_text in S1.
  change (prender_tok i1 = h1) in T1. change (Permutation (ptokens i1) e1) in P1.
  (* the scripts *)
  destruct (pass_merge (It.element_re u (lit "script")) (lit "SCRIPT") B2 HKs
              _ i1 (List.length e1) eq_refl) as (i2 & T2 & S2 & P2).
  { exact (wf_items_perm i1 e1 W1 P1). }
  { rewrite T1. exact F2. }
  rewrite T1 in T2, P2.
  change (prender_tok i2 = h2) in T2.
  assert (P2' : Permutation (ptokens i2) e2).
  { rewrite P2. unfold e2. now apply Permutation_app_tail. }
  (* the styles *)
  destruct (pass_merge (It.element_re u (lit "style")) (lit "STYLE") B3 HKy
              _ i2 (List.length e2) eq_refl) as (i3 & T3 & S3 & P3).
  { exact (wf_items_perm i2 e2 W2 P2'). }
  { rewrite T2. exact F3. }
  rewrite T2 in T3, P3.
  change (prender_tok i3 = h3) in T3.
  assert (P3' : Permutation (ptokens i3) e3).
  { rewrite P3. unfold e3. now apply Permutation_app_tail. }
  exists i3, e3. rewrite T3.
  split; [reflexivity | split; [now rewrite S3, S2, S1 | split; assumption]].
Qed.

(** [make_placeholders] followed by [restore_placeholders], for a document
    without the placeholder word and stored blocks without placeholders. *)
Lemma make_placeholders_restore (u : unicode_db) (doc : str) :
  contains word doc = false ->
  blocks_clean (snd (It.make_placeholders u doc)) = true ->
  It.restore_placeholders (fst (It.make_placeholders u doc))
                          (snd (It.make_placeholders u doc))
  = doc.
Proof.
  intros Hd Hb.
  destruct (make_placeholders_items u doc Hb) as (items & ents & E & Hs & Hp & Hw).
  rewrite E. cbn [fst snd]. rewrite <- Hs.
  apply (restore_entries ents items (proj1 Hw) (wf_entries_nodup ents Hw) Hp).
  rewrite Hs. now apply contains_false_occurs_not.
Qed.

(** ** C3: protected content *)





(** ** C4: protect, then restore *)

(** C4, as stated, fails on a document that already holds the text of a
    token: the text is taken for the token and replaced by the block, in
    translate_html_ru.py and in translate_html.py alike. *)
Lemma token_text_collides :
  let doc := lit "@@STYLE_0@@<style>a</style>" in
  let doc' := lit "__PLACEHOLDER_COMMENT_0__<!--a-->" in
  Ru.restore_blocks (fst (Ru.protect_blocks doc (lit "style"))) (lit "style")
                    (snd (Ru.protect_blocks doc (lit "style")))
  = lit "<style>a</style><style>a</style>"
  /\ Ru.restore_blocks (fst (Ru.protect_blocks doc (lit "style"))) (lit "style")
                       (snd (Ru.protect_blocks doc (lit "style")))
     <> doc
  /\ It.restore_placeholders (fst (It.make_placeholders ascii_db doc'))
                             (snd (It.make_placeholders ascii_db doc'))
     = lit "<!--a--><!--a-->"
  /\ It.restore_placeholders (fst (It.make_placeholders ascii_db doc'))
                             (snd (It.make_placeholders ascii_db doc'))
     <> doc'.
Proof.
  split; [vm_compute; reflexivity|].
  split; [vm_compute; discriminate|].
  split; [vm_compute; reflexivity | vm_compute; discriminate].
Qed.

(** [restore_blocks] after [protect_blocks], for a document without the body
    of a token of the tag. *)
Lemma protect_blocks_restore (k : kind) (doc : str) :
  contains (token_body (tag_of k)) doc = false ->
  Ru.restore_blocks (fst (Ru.protect_blocks doc (tag_of k))) (tag_of k)
                    (snd (Ru.protect_blocks doc (tag_of k)))
  = doc.
Proof.
  intros Hc. rewrite protect_blocks_split. cbn [fst snd].
  rewrite <- (split_blocks_src (tag_of k) doc) at 3.
  unfold Ru.restore_blocks.
  apply (restore_render (tag_of k) (tag_of_clean k)
           (List.length (blocks (split_blocks (tag_of k) doc))));
    [reflexivity|].
  rewrite split_blocks_src. now apply contains_false_occurs_not.
Qed.

(** C4, amended: restoring right after protecting gives the document back
    exactly, in translate_html.py for every document that does not contain
    the word PLACEHOLDER and none of whose stored blocks holds a placeholder
    (no comment inside a script or style element, no script element inside a
    style element), and in translate_html_ru.py for every document that does
    not contain the body of a token of the tag. *)
Theorem restore_protect (u : unicode_db) (k : kind) (doc : str) :
  (contains word doc = false ->
   blocks_clean (snd (It.make_placeholders u doc)) = true ->
   It.restore_placeholders (fst (It.make_placeholders u doc))
                           (snd (It.make_placeholders u doc))
   = doc)
  /\ (contains (token_body (tag_of k)) doc = false ->
      Ru.restore_blocks (fst (Ru.protect_blocks doc (tag_of k))) (tag_of k)
                        (snd (Ru.protect_blocks doc (tag_of k)))
      = doc).
Proof.
  split; [apply make_placeholders_restore | apply protect_blocks_restore].
Qed.

Lemma restore_protect_witness :
  let doc := lit "<p>a@b</p><!--c<d--><script>if (a<b) {x='</p>'}</script><STYLE>p{}</STYLE>" in
  It.restore_placeholders (fst (It.make_placeholders ascii_db doc))
                          (snd (It.make_placeholders ascii_db doc))
  = doc
  /\ Ru.restore_blocks (fst (Ru.protect_blocks doc (lit "script"))) (lit "script")
                       (snd (Ru.protect_blocks doc (lit "script")))
     = doc.
Proof.
  intros doc. destruct (restore_protect ascii_db Script doc) as [H1 H2].
  split; [apply H1; vm_compute; reflexivity | apply H2; vm_compute; reflexivity].
Defined.

(** ** C5: tokens in translate_html.py *)

(** C5 does not hold of translate_html.py.  A comment next to text leaves
    its token inside the text node, the node is not a token alone, so it is
    collected and sent to the backend, and what the backend makes of it
    replaces the token: the comment is lost.  And a comment inside a script
    element is stored first and restored first, before the script that
    holds its token is put back: the token stays in the output. *)
Theorem token_sent_and_left :
  It.find_text_nodes ascii_db
    (fst (It.make_placeholders ascii_db (lit "<p>Ciao<!--c--></p>")))
  = [lit "Ciao__PLACEHOLDER_COMMENT_0__"]
  /\ It.batch_inputs
       (snd (It.batch_translate_log identity_backend
               (It.find_text_nodes ascii_db
                  (fst (It.make_placeholders ascii_db (lit "<p>Ciao<!--c--></p>"))))))
     = [lit "Ciao__PLACEHOLDER_COMMENT_0__"]
  /\ It.main ascii_db constant_backend (lit "<p>Ciao<!--c--></p>")
     = Some (lit "<p>X</p>")
  /\ It.main ascii_db identity_backend (lit "<p>Ciao</p><script><!--x--></script>")
     = Some (lit "<p>Ciao</p><script>__PLACEHOLDER_COMMENT_0__</script>").
Proof. repeat split; vm_compute; reflexivity. Qed.

(** ** C8: the language tag *)

Lemma ci_find_none_suffix (p s : str) :
  ci_find p s = None -> forall a b, s = a ++ b -> ci_strip_prefix p b = None.
Proof.
  induction s as [|c s IH]; intros H a b E.
  - destruct a; [|discriminate]. simpl in E. subst b.
    simpl in H. now destruct (ci_strip_prefix p []).
  - cbn [ci_find] in H.
    destruct (ci_strip_prefix p (c :: s)) eqn:Ep; [discriminate|]. simpl in H.
    destruct a as [|x a]; simpl in E.
    + now subst b.
    + injection E as _ E. apply IH with (a := a); [|exact E].
      now destruct (ci_find p s).
Qed.

Lemma re_sub_pure_unmatched (G : Type) (matcher : str -> option (nat * G))
    (repl : str -> G -> str) (s : str) :
  (forall a b, s = a ++ b -> matcher b = None) ->
  re_sub_pure matcher repl s = s.
Proof.
  induction s as [|c s IH]; intros H; [reflexivity|].
  rewrite re_sub_pure_none by (apply (H [] (c :: s)); reflexivity).
  f_equal. apply IH. intros a b E. apply (H (c :: a) b). now rewrite E.
Qed.

Lemma switch_lang_no_html (u : unicode_db) (s : str) :
  ci_find (lit "<html") s = None ->
  It.switch_lang_attr u s = s /\ Ru.switch_lang u s = s.
Proof.
  intros H. pose proof (ci_find_none_suffix _ _ H) as Hs.
  assert (Hi : forall q a b, s = a ++ b -> It.lang_re u q b = None).
  { intros q a b E. unfold It.lang_re. now rewrite (Hs a b E). }
  assert (Hr : forall q a b, s = a ++ b -> Ru.lang_re u q b = None).
  { intros q a b E. unfold Ru.lang_re. now rewrite (Hs a b E). }
  unfold It.switch_lang_attr, Ru.switch_lang. split.
  - rewrite (re_sub_pure_unmatched _ (It.lang_re u 34)) by apply Hi.
    apply re_sub_pure_unmatched, Hi.
  - rewrite (re_sub_pure_unmatched _ (Ru.lang_re u 34)) by apply Hr.
    apply re_sub_pure_unmatched, Hr.
Qed.

(** One step of a pass over a text whose head is known: the matcher is
    evaluated at the head, and the pass moves on by one code point or by
    the match. *)
Ltac pass_step :=
  match goal with
  | |- context [re_sub_pure ?m ?r (?c :: ?s)] =>
      lazymatch s with
      | context [re_sub_pure _ _ _] => fail
      | _ => idtac
      end;
      let v := eval vm_compute in (m (c :: s)) in
      lazymatch v with
      | None =>
          rewrite (re_sub_pure_none _ m r c s) by (vm_compute; reflexivity)
      | Some (?n, ?g) =>
          rewrite (re_sub_pure_some _ m r c s n g) by (vm_compute; reflexivity);
          cbn [firstn skipn Nat.sub app]
      end
  end.

(** A pass over a known head followed by a text in which nothing matches. *)
Ltac pass_over H :=
  repeat pass_step;
  match goal with
  | |- context [re_sub_pure ?m ?r ?s] =>
      rewrite (re_sub_pure_unmatched _ m r s H)
  end.

(** ** C6: margins *)

(** C6, as stated, fails for translate_html.py: the text node goes to the
    backend with its margins, so a backend that translates the core does not
    know it, and the answer is wrapped in the margins once more. *)
Lemma margins_sent_along :
  It.batch_inputs
    (snd (It.batch_translate_log phrase_backend
            (It.find_text_nodes ascii_db (lit "<p>  Hello World  </p>"))))
  = [lit "  Hello World  "]
  /\ It.main ascii_db phrase_backend (lit "<p>  Hello World  </p>")
     = Some (lit "<p>    Hello World    </p>").
Proof. split; vm_compute; reflexivity. Qed.

(** ** C9: attribute names are matched without a word boundary *)

Lemma ci_strip_prefix_skipn (p s r : str) :
  ci_strip_prefix p s = Some r ->
  r = skipn (List.length p) s /\ List.length p <= List.length s.
Proof.
  revert s; induction p as [|x p IH]; intros s H; simpl in *.
  - injection H as <-. split; [reflexivity | lia].
  - destruct s as [|y s]; [discriminate|].
    destruct (ci_eq x y); [|discriminate].
    destruct (IH s H) as [E L]. split; [exact E | simpl; lia].
Qed.


Lemma take_while_until (f : Z -> bool) (v : str) (c : Z) (rest : str) :
  Forall (fun x => f x = true) v -> f c = false ->
  take_while f (v ++ c :: rest) = v /\ drop_while f (v ++ c :: rest) = c :: rest.
Proof.
  intros Hv Hc. induction Hv as [|x v Hx Hv IH]; simpl.
  - now rewrite Hc.
  - rewrite Hx. destruct IH as [-> ->]. now split.
Qed.



Lemma ci_strip_prefix_longer (p x y : str) :
  List.length p <= List.length x ->
  ci_strip_prefix p x = None -> ci_strip_prefix p (x ++ y) = None.
Proof.
  revert x; induction p as [|c p IH]; intros x Hl H; simpl in *.
  - discriminate.
  - destruct x as [|d x]; simpl in *; [lia|].
    destruct (ci_eq c d); [apply IH; [lia | exact H] | reflexivity].
Qed.



Lemma re_sub_pure_past (G : Type) (matcher : str -> option (nat * G))
    (repl : str -> G -> str) (np rest : str) :
  (forall a b, np = a ++ b -> b <> [] -> matcher (b ++ rest) = None) ->
  re_sub_pure matcher repl (np ++ rest) = np ++ re_sub_pure matcher repl rest.
Proof.
  induction np as [|c np IH]; intros H; [reflexivity|]. cbn [app].
  rewrite re_sub_pure_none
    by (apply (H [] (c :: np)); [reflexivity | discriminate]).
  f_equal. apply IH. intros a b E Hb.
  apply (H (c :: a) b); [now rewrite E | exact Hb].
Qed.


Lemma re_sub_pure_here (G : Type) (matcher : str -> option (nat * G))
    (repl : str -> G -> str) (s : str) n g :
  matcher s = Some (S n, g) -> s <> [] ->
  re_sub_pure matcher repl s
  = repl (firstn (S n) s) g ++ re_sub_pure matcher repl (skipn (S n) s).
Proof.
  intros H Hs. destruct s as [|c s]; [contradiction|].
  rewrite (re_sub_pure_some _ _ _ _ _ _ _ H). simpl. now rewrite Nat.sub_0_r.
Qed.




(** ** C2: an identity backend *)

Lemma take_drop_while (f : Z -> bool) (l : str) :
  take_while f l ++ drop_while f l = l.
Proof.
  induction l as [|c l IH]; simpl; [reflexivity|].
  destruct (f c); simpl; [now rewrite IH | reflexivity].
Qed.

Lemma drop_while_head (f : Z -> bool) (l : str) (c : Z) (r : str) :
  drop_while f l = c :: r -> f c = false.
Proof.
  induction l as [|x l IH]; simpl; [discriminate|].
  destruct (f x) eqn:E; [exact IH|]. intros H. injection H as <- _. exact E.
Qed.

Lemma take_while_stops (f : Z -> bool) (a : str) (d : Z) (x : str) :
  f d = false -> take_while f ((a ++ [d]) ++ x) = take_while f (a ++ [d]).
Proof.
  intros Hd. induction a as [|c a IH]; simpl.
  - now rewrite Hd.
  - destruct (f c); [now rewrite IH | reflexivity].
Qed.

(** A text that is not all spaces is its two margins around its core. *)
Lemma margins_core (s : str) :
  It.core_of s <> [] -> leading_ws s ++ It.core_of s ++ trailing_ws s = s.
Proof.
  unfold It.core_of, slice, leading_ws, trailing_ws. intros Hc.
  pose proof (take_drop_while is_space s) as Hs.
  set (L := take_while is_space s) in *.
  destruct (drop_while is_space s) as [|d D'] eqn:HD.
  - exfalso. apply Hc. rewrite app_nil_r in Hs.
    rewrite (skipn_all2 (n := List.length L)) by (rewrite Hs; lia).
    now rewrite firstn_nil.
  - pose proof (drop_while_head _ _ _ _ HD) as Hd.
    assert (Ht : take_while is_space (List.rev s)
                 = take_while is_space (List.rev (d :: D'))).
    { rewrite <- Hs at 1. rewrite rev_app_distr. cbn [List.rev].
      now apply take_while_stops. }
    rewrite Ht in *.
    pose proof (take_drop_while is_space (List.rev (d :: D'))) as Hr.
    set (Tr := take_while is_space (List.rev (d :: D'))) in *.
    set (Dr := drop_while is_space (List.rev (d :: D'))) in *.
    assert (HDD : d :: D' = List.rev Dr ++ List.rev Tr).
    { rewrite <- rev_app_distr, Hr. now rewrite rev_involutive. }
    assert (Hsk : skipn (List.length L) s = d :: D').
    { rewrite <- Hs. apply skipn_exact. }
    rewrite Hsk in *.
    assert (Hlen : List.length s - List.length (List.rev Tr) - List.length L
                   = List.length (List.rev Dr)).
    { rewrite <- Hs. rewrite length_app, HDD, length_app. lia. }
    rewrite Hlen, HDD, firstn_exact. rewrite <- HDD. exact Hs.
Qed.

Lemma dedup_subset (l seen : list str) (x : str) :
  In x (It.dedup seen l) -> In x l.
Proof.
  revert seen; induction l as [|s l IH]; intros seen; simpl; [auto|].
  destruct (existsb (str_eqb s) seen).
  - intros H. right. now apply (IH seen).
  - intros [->|H]; [now left | right; now apply (IH (s :: seen))].
Qed.

(** With a backend that gives every batch back, the mapping sends every
    key to itself, and its keys are among the strings. *)
Lemma identity_mapping (be : backend) (strings : list str) :
  (forall l, translate_batch be l = Some l) ->
  forall k v, dict_get (It.batch_translate be strings) k = Some v ->
              v = k /\ In k strings.
Proof.
  intros Hid. unfold It.batch_translate, It.batch_translate_log.
  assert (Hgen : forall cs acc,
    (forall c x, In c cs -> In x c -> In x strings) ->
    (forall k v, dict_get (fst acc) k = Some v -> v = k /\ In k strings) ->
    forall k v,
      dict_get (fst (fold_left
        (fun (acc : list (str * str) * list call) chunk =>
           let (translations, calls) := It.translate_chunk be chunk in
           (It.merge (fst acc) chunk translations, snd acc ++ calls))
        cs acc)) k = Some v -> v = k /\ In k strings).
  { induction cs as [|c cs IH]; intros acc Hsub Hacc; [exact Hacc|].
    simpl. apply IH; [intros c' x Hc'; apply Hsub; now right|].
    unfold It.translate_chunk. rewrite Hid. cbn [fst snd].
    assert (Hc : forall x, In x c -> In x strings)
      by (intros x; apply Hsub; now left).
    clear IH Hsub. unfold It.merge. revert Hacc Hc. generalize (fst acc).
    induction c as [|x c IHc]; intros m Hm Hc; [exact Hm|].
    simpl. apply IHc; [|intros y Hy; apply Hc; now right].
    intros k v Hg. destruct (str_eq_dec x k) as [->|Hne].
    - rewrite dict_get_set_same in Hg. injection Hg as <-.
      split; [reflexivity | apply Hc; now left].
    - rewrite dict_get_set_other in Hg by exact Hne. now apply Hm. }
  apply Hgen.
  - intros c x Hc Hx. apply (dedup_subset strings []).
    rewrite <- (chunks_concat It.CHUNK) by (unfold It.CHUNK; lia).
    apply in_concat. now exists c.
  - intros k v H. discriminate.
Qed.

Lemma firstn_wrapped (a b : Z) (t rest : str) :
  firstn (List.length t + 2) (a :: t ++ b :: rest) = [a] ++ t ++ [b].
Proof.
  replace (List.length t + 2) with (S (List.length (t ++ [b])))
    by (rewrite length_app; simpl; lia).
  cbn [firstn app]. f_equal.
  change (t ++ b :: rest) with (t ++ [b] ++ rest).
  rewrite app_assoc. apply firstn_exact.
Qed.

Lemma text_re_shape (t : str) (n : nat) (g : str) :
  text_re t = Some (n, g) -> 1 <= n /\ firstn n t = [62%Z] ++ g ++ [60%Z].
Proof.
  unfold text_re. destruct t as [|c r]; [discriminate|].
  destruct (Z.eqb_spec c 62) as [->|_]; [|discriminate].
  pose proof (take_drop_while not_angle r) as Hr.
  destruct (take_while not_angle r) as [|x xs] eqn:Ht; [discriminate|].
  destruct (drop_while not_angle r) as [|d rest]; [discriminate|].
  destruct (Z.eqb_spec d 60) as [->|_]; [|discriminate].
  intros H. injection H as <- <-. split; [lia|].
  rewrite <- Hr. apply (firstn_wrapped 62%Z 60%Z (x :: xs) rest).
Qed.

Lemma ci_strip_prefix_split (p s r : str) :
  ci_strip_prefix p s = Some r ->
  s = firstn (List.length p) s ++ r
  /\ List.length (firstn (List.length p) s) = List.length p.
Proof.
  intros H. apply ci_strip_prefix_skipn in H as [-> Hl].
  split; [now rewrite firstn_skipn | apply firstn_length_le, Hl].
Qed.

Lemma attr_re_shape (attr t : str) (n pre : nat) (q : Z) (val : str) :
  It.attr_re attr t = Some (n, (pre, q, val)) ->
  1 <= n /\ firstn n t = firstn pre (firstn n t) ++ [q] ++ val ++ [q].
Proof.
  unfold It.attr_re.
  destruct (ci_strip_prefix attr t) as [r|] eqn:Ep; [|discriminate].
  apply ci_strip_prefix_split in Ep as [Et Hp].
  pose proof (take_drop_while is_space r) as Hr.
  destruct (drop_while is_space r) as [|e r2]; [discriminate|].
  destruct (Z.eqb_spec e 61) as [->|_]; [|discriminate].
  pose proof (take_drop_while is_space r2) as Hr2.
  destruct (drop_while is_space r2) as [|q1 r3]; [discriminate|].
  destruct (Z.eqb q1 34 || Z.eqb q1 39)%bool; [|discriminate].
  pose proof (take_drop_while (fun c => negb (Z.eqb c q1)) r3) as Hr3.
  destruct (drop_while (fun c => negb (Z.eqb c q1)) r3) as [|c r4] eqn:Hd;
    [discriminate|].
  apply drop_while_head in Hd. apply negb_false_iff, Z.eqb_eq in Hd. subst c.
  intros H. injection H as <- <- <- <-. split; [lia|].
  set (P := firstn (List.length attr) t) in *.
  set (W1 := take_while is_space r) in *.
  set (W2 := take_while is_space r2) in *.
  set (V := take_while (fun c => negb (Z.eqb c q1)) r3) in *.
  assert (Ht : t = ((P ++ W1 ++ [61%Z] ++ W2) ++ [q1] ++ V ++ [q1]) ++ r4).
  { rewrite Et at 1. rewrite <- Hr, <- Hr2, <- Hr3.
    rewrite <- !app_assoc. reflexivity. }
  assert (Hpre : List.length attr + List.length W1 + 1 + List.length W2
                 = List.length (P ++ W1 ++ [61%Z] ++ W2)).
  { rewrite !length_app, Hp. simpl. lia. }
  assert (Hn : List.length attr + List.length W1 + 1 + List.length W2 + 1
               + List.length V + 1
               = List.length ((P ++ W1 ++ [61%Z] ++ W2) ++ [q1] ++ V ++ [q1])).
  { rewrite length_app, <- Hpre, !length_app. simpl. lia. }
  rewrite Hn, Ht, firstn_exact, Hpre, firstn_exact. reflexivity.
Qed.

(** A pass whose callback gives back every match it meets on [s]. *)
Lemma re_sub_pure_id_on (G : Type) (matcher : str -> option (nat * G))
    (repl : str -> G -> str) (s : str) :
  (forall t n g, matcher t = Some (n, g) -> 1 <= n) ->
  (forall t n g, matcher t = Some (n, g) ->
                 In (firstn n t, g) (finditer matcher s) ->
                 repl (firstn n t) g = firstn n t) ->
  re_sub_pure matcher repl s = s.
Proof.
  intros Hpos.
  remember (List.length s) as k eqn:Hk.
  revert s Hk; induction k as [k IH] using lt_wf_ind; intros s Hk Hid.
  destruct s as [|c s]; [reflexivity|].
  destruct (matcher (c :: s)) as [[n g]|] eqn:Hm.
  - rewrite (re_sub_pure_some _ _ _ _ _ _ _ Hm).
    rewrite (finditer_some _ _ _ _ _ _ Hm) in Hid.
    rewrite (Hid _ _ _ Hm) by (now left).
    pose proof (Hpos _ _ _ Hm) as Hn.
    rewrite (IH (List.length (skipn (n - 1) s))); [| |reflexivity|].
    + destruct n as [|n]; [lia|]. replace (S n - 1) with n by lia.
      simpl. now rewrite firstn_skipn.
    + rewrite length_skipn. subst k. simpl. lia.
    + intros t n' g' Ht Hin. apply Hid; [exact Ht | now right].
  - rewrite (re_sub_pure_none _ _ _ _ _ Hm). f_equal.
    rewrite (finditer_none _ _ _ _ Hm) in Hid.
    apply (IH (List.length s)); [subst k; simpl; lia | reflexivity | exact Hid].
Qed.

Lemma lookup_identity (mapping : list (str * str)) (texts : list str) (s : str) :
  (forall k v, dict_get mapping k = Some v -> v = k /\ In k texts) ->
  forallb margin_free texts = true ->
  It.core_of s <> [] ->
  leading_ws s ++ It.lookup mapping s (It.core_of s) ++ trailing_ws s = s.
Proof.
  intros Hm Hf Hc. unfold It.lookup.
  destruct (dict_get mapping s) as [v|] eqn:E.
  - destruct (Hm _ _ E) as [-> Hin].
    rewrite forallb_forall in Hf. specialize (Hf _ Hin).
    unfold margin_free in Hf.
    destruct (leading_ws s); [|discriminate].
    destruct (trailing_ws s); [|discriminate].
    simpl. apply app_nil_r.
  - destruct (dict_get mapping (It.core_of s)) as [v|] eqn:E2.
    + destruct (Hm _ _ E2) as [-> _]. now apply margins_core.
    + now apply margins_core.
Qed.

Lemma text_pass_identity (mapping : list (str * str)) (texts : list str) (html : str) :
  (forall k v, dict_get mapping k = Some v -> v = k /\ In k texts) ->
  forallb margin_free texts = true ->
  It.replace_between_tags html mapping = html.
Proof.
  intros Hm Hf. unfold It.replace_between_tags. apply re_sub_pure_id.
  - intros t n g H. now apply text_re_shape in H.
  - intros t n g H. apply text_re_shape in H as [_ ->].
    destruct (It.core_of g) as [|c0 cs] eqn:Hc; [reflexivity|].
    rewrite <- Hc.
    assert (Hl := lookup_identity mapping texts g Hm Hf).
    rewrite Hc in Hl at 1. specialize (Hl ltac:(discriminate)).
    cbn [app]. f_equal.
    rewrite (app_assoc (leading_ws g)), (app_assoc _ (trailing_ws g)).
    rewrite <- (app_assoc (leading_ws g)). now rewrite Hl.
Qed.

Lemma attr_pass_identity (mapping : list (str * str)) (texts : list str)
    (attr html : str) :
  (forall k v, dict_get mapping k = Some v -> v = k /\ In k texts) ->
  forallb margin_free texts = true ->
  In attr It.VISIBLE_ATTRS ->
  blank_free html = true ->
  It.make_attr_replacer mapping attr html = html.
Proof.
  intros Hm Hf Hattr Hb. unfold It.make_attr_replacer.
  apply re_sub_pure_id_on.
  - intros t n [[pre q] val] H. now apply attr_re_shape in H.
  - intros t n [[pre q] val] H Hin.
    destruct val as [|v0 vs]; [reflexivity|].
    unfold blank_free in Hb. rewrite forallb_forall in Hb.
    specialize (Hb _ Hattr). rewrite forallb_forall in Hb.
    specialize (Hb _ Hin). cbn [snd] in Hb.
    apply attr_re_shape in H as [_ Hs].
    set (m := firstn n t) in *.
    transitivity (firstn pre m ++ [q] ++ (v0 :: vs) ++ [q]);
      [|symmetry; exact Hs].
    assert (Hl : leading_ws (v0 :: vs)
                 ++ It.lookup mapping (v0 :: vs) (It.core_of (v0 :: vs))
                 ++ trailing_ws (v0 :: vs) = v0 :: vs).
    { apply (lookup_identity mapping texts _ Hm Hf).
      intros E. rewrite E in Hb. discriminate. }
    f_equal. f_equal.
    rewrite (app_assoc (leading_ws (v0 :: vs))),
            (app_assoc _ (trailing_ws (v0 :: vs))).
    rewrite <- (app_assoc (leading_ws (v0 :: vs))). now rewrite Hl.
Qed.

(** The attribute pass keeps a value when the value is empty, where the
    text pass keeps a node when its core is empty: a value of spaces alone
    comes back with its spaces twice. *)
Lemma blank_value_doubled :
  It.main ascii_db identity_backend (lit "<p>Ciao</p><img alt=' '>")
  = Some (lit "<p>Ciao</p><img alt='  '>").
Proof. vm_compute. reflexivity. Qed.

(** In translate_html.py the placeholders are restored in the order they
    were stored, comments first: a comment inside a script element is not
    put back. *)
Lemma nested_comment_not_restored :
  let p := It.make_placeholders ascii_db (lit "<script><!--x--></script>") in
  It.restore_placeholders (fst p) (snd p)
  = lit "<script>__PLACEHOLDER_COMMENT_0__</script>".
Proof. vm_compute. reflexivity. Qed.

(** * Further properties of the two scripts *)

(** ** [batch_translate]: what the mapping holds *)

Lemma merge_fresh (chunk out : list str) :
  forall m : list (str * str),
    NoDup chunk ->
    (forall k, In k chunk -> ~ In k (map fst m)) ->
    It.merge m chunk out = m ++ combine chunk out.
Proof.
  unfold It.merge. revert out.
  induction chunk as [|c cs IH]; intros out m Hnd Hfresh.
  - simpl. now rewrite app_nil_r.
  - destruct out as [|o os]; [simpl; now rewrite app_nil_r|].
    cbn [combine fold_left fst snd].
    rewrite dict_set_fresh.
    + rewrite IH.
      * now rewrite <- app_assoc.
      * now inversion Hnd.
      * intros k Hk Hin. rewrite map_app, in_app_iff in Hin.
        destruct Hin as [Hin|[<-|[]]].
        -- apply (Hfresh k); [now right | exact Hin].
        -- inversion Hnd; contradiction.
    + intros kv Hin E. apply (Hfresh c); [now left|].
      rewrite <- E. now apply in_map.
Qed.

Lemma NoDup_app_disjoint {A} (a b : list A) (x : A) :
  NoDup (a ++ b) -> In x a -> ~ In x b.
Proof.
  induction a as [|y a IH]; intros Hnd Ha Hb; [destruct Ha|].
  cbn [app] in Hnd. inversion Hnd as [|? ? Hy Hnd']; subst.
  destruct Ha as [->|Ha]; [|now apply IH].
  apply Hy. apply in_or_app. now right.
Qed.

Lemma combine_map_r {A B} (f : A -> B) (l : list A) :
  combine l (map f l) = map (fun a => (a, f a)) l.
Proof. induction l as [|a l IH]; simpl; [reflexivity | now rewrite IH]. Qed.

Lemma map_fst_pairs {A B} (f : A -> B) (l : list A) :
  map fst (map (fun a => (a, f a)) l) = l.
Proof. induction l as [|a l IH]; simpl; [reflexivity | now rewrite IH]. Qed.

Lemma batch_fold_pointwise (be : backend) (f : str -> str) (cs : list (list str)) :
  forall acc : list (str * str) * list call,
    (forall c, In c cs -> translate_batch be c = Some (map f c)) ->
    NoDup (map fst (fst acc) ++ concat cs) ->
    fst (fold_left
           (fun (acc : list (str * str) * list call) chunk =>
              let (translations, calls) := It.translate_chunk be chunk in
              (It.merge (fst acc) chunk translations, snd acc ++ calls))
           cs acc)
    = fst acc ++ map (fun s => (s, f s)) (concat cs).
Proof.
  induction cs as [|c cs IH]; intros acc Hb Hnd; cbn [fold_left concat].
  - simpl. now rewrite app_nil_r.
  - unfold It.translate_chunk at 2. rewrite (Hb c (or_introl eq_refl)).
    cbn [concat] in Hnd. rewrite app_assoc in Hnd.
    pose proof (NoDup_app_remove_r _ _ Hnd) as Hnd1.
    assert (Hm : It.merge (fst acc) c (map f c)
                 = fst acc ++ map (fun s => (s, f s)) c).
    { rewrite merge_fresh, combine_map_r; [reflexivity | |].
      - exact (NoDup_app_remove_l _ _ Hnd1).
      - intros k Hk Hin.
        exact (NoDup_app_disjoint _ _ k Hnd1 Hin Hk). }
    rewrite IH.
    + cbn [fst]. rewrite Hm, map_app. now rewrite <- app_assoc.
    + intros c' Hc'. apply Hb. now right.
    + cbn [fst]. rewrite Hm, map_app, map_fst_pairs. exact Hnd.
Qed.

(** X1: when the backend answers every batch text by text, [f] being what
    it makes of a text, the mapping has exactly one entry for each distinct
    input string, in the order of first occurrence, and the entry is the
    answer for that string; chunking does not show. *)
Theorem batch_translate_pointwise (be : backend) (f : str -> str)
    (strings : list str) :
  (forall chunk, translate_batch be chunk = Some (map f chunk)) ->
  It.batch_translate be strings
  = map (fun s => (s, f s)) (It.dedup [] strings).
Proof.
  intros Hb. unfold It.batch_translate, It.batch_translate_log.
  rewrite (batch_fold_pointwise be f).
  - cbn [fst app]. rewrite chunks_concat by (unfold It.CHUNK; lia).
    reflexivity.
  - intros c _. apply Hb.
  - cbn [fst map app]. rewrite chunks_concat by (unfold It.CHUNK; lia).
    apply (dedup_spec strings []).
Qed.

Lemma batch_translate_pointwise_witness :
  It.batch_translate word_backend [lit "Ciao"; lit "mondo"; lit "Ciao"]
  = [(lit "Ciao", lit "Privet"); (lit "mondo", lit "mondo")].
Proof.
  refine (batch_translate_pointwise word_backend
            (fun s => if str_eqb s (lit "Ciao") then lit "Privet" else s)
            [lit "Ciao"; lit "mondo"; lit "Ciao"] _).
  intros chunk. reflexivity.
Defined.

Lemma dedup_nodup (l : list str) :
  forall seen, NoDup l -> (forall x, In x l -> ~ In x seen) -> It.dedup seen l = l.
Proof.
  induction l as [|s l IH]; intros seen Hnd Hs; [reflexivity|].
  cbn [It.dedup].
  destruct (existsb (str_eqb s) seen) eqn:E.
  - apply existsb_str_eqb in E. exfalso. apply (Hs s); [now left | exact E].
  - f_equal. inversion Hnd as [|? ? Hn Hnd']; subst. apply IH; [exact Hnd'|].
    intros x Hx [<-|Hin]; [contradiction|].
    apply (Hs x); [now right | exact Hin].
Qed.

Lemma chunks_fuel_nil (fuel n : nat) : It.chunks_fuel fuel n [] = [].
Proof. now destruct fuel. Qed.

Lemma chunks_single (n : nat) (l : list str) :
  1 <= List.length l <= n -> It.chunks n l = [l].
Proof.
  intros Hl. unfold It.chunks. destruct l as [|x l]; [simpl in Hl; lia|].
  cbn [List.length It.chunks_fuel].
  rewrite firstn_all2 by lia. rewrite skipn_all2 by lia.
  now rewrite chunks_fuel_nil.
Qed.

(** X2: one batch of distinct texts, answered with a list of another length:
    the mapping pairs texts and answers in order and stops at the shorter of
    the two, so a text beyond a short answer has no entry and the surplus
    of a long answer is dropped. *)
Theorem short_answer_truncates (be : backend) (strings out : list str) :
  NoDup strings ->
  1 <= List.length strings <= 40 ->
  translate_batch be strings = Some out ->
  It.batch_translate be strings = combine strings out
  /\ forall s, In s (skipn (List.length out) strings) ->
               dict_get (It.batch_translate be strings) s = None.
Proof.
  intros Hnd Hl Hb.
  assert (E : It.batch_translate be strings = combine strings out).
  { unfold It.batch_translate, It.batch_translate_log.
    rewrite (dedup_nodup strings [] Hnd) by (intros x _ []).
    rewrite (chunks_single It.CHUNK strings) by (unfold It.CHUNK; lia).
    cbn [fold_left]. unfold It.translate_chunk. rewrite Hb. cbn [fst snd].
    now rewrite merge_fresh by (try exact Hnd; intros k _ []). }
  split; [exact E|]. rewrite E. clear E Hb Hl.
  revert out Hnd. induction strings as [|x l IH]; intros out Hnd s Hs.
  - reflexivity.
  - destruct out as [|o os]; [reflexivity|].
    cbn [List.length skipn] in Hs. cbn [combine dict_get].
    inversion Hnd as [|? ? Hx Hnd']; subst.
    destruct (str_eqb x s) eqn:Ex.
    + apply str_eqb_eq in Ex. subst s. exfalso. apply Hx.
      revert Hs. generalize (List.length os). intros n Hs.
      rewrite <- (firstn_skipn n l). apply in_or_app. now right.
    + now apply IH.
Qed.

Lemma short_answer_truncates_witness :
  let be := {| translate_batch := fun l => Some (firstn 1 l);
               translate := fun s => Some s |} in
  It.batch_translate be [lit "uno"; lit "due"] = [(lit "uno", lit "uno")]
  /\ dict_get (It.batch_translate be [lit "uno"; lit "due"]) (lit "due") = None.
Proof.
  intros be.
  destruct (short_answer_truncates be [lit "uno"; lit "due"] [lit "uno"])
    as [H1 H2].
  - repeat constructor; simpl; intuition discriminate.
  - simpl. lia.
  - reflexivity.
  - split; [exact H1 | apply H2; simpl; now left].
Defined.

(** ** The size of the batches *)

Lemma chunks_fuel_bounds (n fuel : nat) (l : list str) :
  1 <= n ->
  Forall (fun b => 1 <= List.length b <= n) (It.chunks_fuel fuel n l).
Proof.
  intros Hn. revert l; induction fuel as [|f IH]; intros l; cbn [It.chunks_fuel].
  - constructor.
  - destruct l as [|x l]; [constructor|].
    constructor; [|apply IH].
    rewrite length_firstn. cbn [List.length]. lia.
Qed.

Lemma chunks_fuel_count (n fuel : nat) (l : list str) :
  1 <= n -> List.length l <= fuel ->
  List.length (It.chunks_fuel fuel n l) = (List.length l + (n - 1)) / n.
Proof.
  intros Hn. revert l; induction fuel as [|f IH]; intros l Hl.
  - destruct l; [|simpl in Hl; lia]. simpl.
    symmetry. apply Nat.div_small. lia.
  - destruct l as [|x l].
    + simpl. symmetry. apply Nat.div_small. lia.
    + cbn [It.chunks_fuel List.length]. rewrite IH.
      2:{ rewrite length_skipn. cbn [List.length] in *. lia. }
      rewrite length_skipn. cbn [List.length].
      destruct (Nat.le_gt_cases (S (List.length l)) n) as [Hs|Hs].
      * replace (S (List.length l) - n) with 0 by lia.
        rewrite (Nat.div_small (0 + (n - 1)) n) by lia.
        apply (Nat.div_unique _ n 1 (S (List.length l) - 1)); lia.
      * replace (S (List.length l) + (n - 1))
          with ((S (List.length l) - n + (n - 1)) + 1 * n) by lia.
        rewrite Nat.div_add by lia. lia.
Qed.

Lemma ru_chunks_fuel (fuel n : nat) (l : list str) :
  Ru.chunks_fuel fuel n l = It.chunks_fuel fuel n l.
Proof.
  revert l; induction fuel as [|f IH]; intros l; [reflexivity|].
  destruct l as [|x l]; [reflexivity|]. cbn [Ru.chunks_fuel It.chunks_fuel].
  now rewrite IH.
Qed.

Lemma batches_app (a b : list call) : batches (a ++ b) = batches a ++ batches b.
Proof. unfold batches. apply flat_map_app. Qed.

Lemma batches_singles (l : list str) : batches (map SingleCall l) = [].
Proof. induction l; simpl; auto. Qed.

Lemma batch_log_batches (be : backend) (cs : list (list str)) :
  forall acc : list (str * str) * list call,
    batches
      (snd (fold_left
              (fun (acc : list (str * str) * list call) chunk =>
                 let (translations, calls) := It.translate_chunk be chunk in
                 (It.merge (fst acc) chunk translations, snd acc ++ calls))
              cs acc))
    = batches (snd acc) ++ cs.
Proof.
  induction cs as [|c cs IH]; intros acc; cbn [fold_left].
  - now rewrite app_nil_r.
  - rewrite IH. unfold It.translate_chunk.
    destruct (translate_batch be c); cbn [snd]; rewrite batches_app;
      cbn [batches flat_map app]; fold (batches (map SingleCall c));
      rewrite ?batches_singles, <- ?app_assoc; reflexivity.
Qed.

(** X3: [batch_translate] hands the distinct input strings to the backend in
    batches of at least one and at most 40 texts, in order, each string in
    one batch; for N distinct strings that is N/40 batches, rounded up,
    whether or not a batch fails. *)
Theorem batch_sizes (be : backend) (strings : list str) :
  let bs := batches (snd (It.batch_translate_log be strings)) in
  concat bs = It.dedup [] strings
  /\ Forall (fun b => 1 <= List.length b <= 40) bs
  /\ List.length bs = (List.length (It.dedup [] strings) + 39) / 40.
Proof.
  cbn zeta. unfold It.batch_translate_log. rewrite batch_log_batches.
  cbn [snd batches flat_map app]. unfold It.chunks, It.CHUNK.
  split; [apply chunks_fuel_concat; lia|].
  split; [apply chunks_fuel_bounds; lia|].
  now rewrite chunks_fuel_count by lia.
Qed.

Lemma translate_all_batches (bt : Ru.BatchTranslator) (be : backend)
    (cs : list (list str)) :
  Ru.tr bt = Some be ->
  Forall (fun b => 1 <= List.length b) cs ->
  forall acc : list str * list call,
    batches
      (snd (fold_left
              (fun (acc : list str * list call) chunk =>
                 let (out, calls) := Ru._translate_list bt chunk in
                 (fst acc ++ out, snd acc ++ calls))
              cs acc))
    = batches (snd acc) ++ cs.
Proof.
  intros Htr. induction 1 as [|c cs Hc Hcs IH]; intros acc; cbn [fold_left].
  - now rewrite app_nil_r.
  - rewrite IH. unfold Ru._translate_list. rewrite Htr.
    destruct c as [|x c]; [simpl in Hc; lia|].
    destruct (translate_batch be (x :: c)); cbn [snd]; rewrite batches_app;
      cbn [batches flat_map app]; fold (batches (map SingleCall (x :: c)));
      rewrite ?batches_singles, <- ?app_assoc; reflexivity.
Qed.

(** X4: [process_batches] of a translator that has a backend hands the
    stripped texts of the pending segments to it in batches of at least one
    and at most 80 texts, in the order they were queued; for N pending
    segments that is N/80 batches, rounded up. *)
Theorem process_batch_sizes (bt : Ru.BatchTranslator) (be : backend)
    (content : str) :
  Ru.tr bt = Some be ->
  let bs := batches (snd (Ru.process_batches bt content)) in
  concat bs = map Ru.p_stripped (Ru._pending bt)
  /\ Forall (fun b => 1 <= List.length b <= 80) bs
  /\ List.length bs = (List.length (Ru._pending bt) + 79) / 80.
Proof.
  intros Htr. cbn zeta. unfold Ru.process_batches.
  destruct (Ru._pending bt) as [|p ps] eqn:Hp.
  - cbn [snd batches flat_map concat map List.length].
    split; [reflexivity | split; [constructor | reflexivity]].
  - rewrite <- Hp.
    pose proof (translate_all_batches bt be
                  (Ru.chunks 80 (map Ru.p_stripped (Ru._pending bt))) Htr) as H.
    unfold Ru.translate_all.
    destruct (fold_left _ (Ru.chunks 80 _) ([], [])) as [tall calls] eqn:E.
    destruct (fold_left _ (combine _ tall) _) as [c1 cache1].
    cbn [snd].
    assert (Hc : batches calls = Ru.chunks 80 (map Ru.p_stripped (Ru._pending bt))).
    { specialize (H ltac:(unfold Ru.chunks; rewrite ru_chunks_fuel;
                          eapply Forall_impl; [|apply chunks_fuel_bounds; lia];
                          simpl; intros; lia) ([], [])).
      rewrite E in H. exact H. }
    rewrite Hc. unfold Ru.chunks. rewrite ru_chunks_fuel.
    split; [apply chunks_fuel_concat; lia|].
    split; [apply chunks_fuel_bounds; lia|].
    rewrite chunks_fuel_count by lia. now rewrite length_map.
Qed.

Lemma process_batch_sizes_witness :
  let bt := snd (Ru.translate_preserving_ws
                   (Ru.new_translator (Some word_backend)) (lit " Ciao ")) in
  let bs := batches (snd (Ru.process_batches bt (lit "<p>@@T_0@@</p>"))) in
  concat bs = [lit "Ciao"] /\ List.length bs = 1.
Proof.
  intros bt bs.
  destruct (process_batch_sizes bt word_backend (lit "<p>@@T_0@@</p>") eq_refl)
    as (H1 & _ & H3).
  split; [exact H1 | exact H3].
Defined.

(** ** Margins, as [str.strip] cuts them *)

Lemma drop_while_app_l (f : Z -> bool) (a b : str) :
  drop_while f a <> [] -> drop_while f (a ++ b) = drop_while f a ++ b.
Proof.
  induction a as [|c a IH]; cbn [drop_while app]; [congruence|].
  destruct (f c); [exact IH | reflexivity].
Qed.

Lemma take_while_all (f : Z -> bool) (l : str) :
  Forall (fun c => f c = true) (take_while f l).
Proof.
  induction l as [|c l IH]; cbn [take_while]; [constructor|].
  destruct (f c) eqn:E; [now constructor | constructor].
Qed.

Lemma drop_while_idem (f : Z -> bool) (l : str) :
  drop_while f (drop_while f l) = drop_while f l.
Proof.
  induction l as [|c l IH]; cbn [drop_while]; [reflexivity|].
  destruct (f c) eqn:E; [exact IH | cbn [drop_while]; now rewrite E].
Qed.

Lemma drop_while_snoc (f : Z -> bool) (a : str) (d : Z) :
  f d = false -> exists x, drop_while f (a ++ [d]) = x ++ [d].
Proof.
  intros Hd. induction a as [|c a IH]; cbn [drop_while app].
  - rewrite Hd. now exists [].
  - destruct (f c); [exact IH | now exists (c :: a)].
Qed.

Lemma take_while_run (f : Z -> bool) (L : str) (c : Z) (r : str) :
  Forall (fun x => f x = true) L -> f c = false ->
  take_while f (L ++ c :: r) = L.
Proof.
  intros HL Hc. induction HL as [|x L Hx HL IH]; cbn [app take_while].
  - now rewrite Hc.
  - now rewrite Hx, IH.
Qed.

(** What [strip], [lstrip] and [rstrip] make of a text that is not all
    spaces: the text is its left margin, its core and its right margin. *)
Lemma strip_split (s : str) :
  strip s <> [] ->
  exists L T : str,
    s = L ++ strip s ++ T
    /\ lstrip s = strip s ++ T
    /\ rstrip s = L ++ strip s
    /\ Forall (fun c => is_space c = true) L
    /\ Forall (fun c => is_space c = true) T.
Proof.
  intros Hne. unfold strip, rstrip, lstrip in *.
  pose proof (take_drop_while is_space s) as Hs.
  set (L := take_while is_space s) in *.
  set (D := drop_while is_space s) in *.
  pose proof (take_drop_while is_space (List.rev D)) as Hr.
  set (Tr := take_while is_space (List.rev D)) in *.
  set (Dr := drop_while is_space (List.rev D)) in *.
  assert (HD : D = List.rev Dr ++ List.rev Tr).
  { rewrite <- rev_app_distr, Hr. now rewrite rev_involutive. }
  exists L, (List.rev Tr).
  split; [now rewrite <- HD|]. split; [exact HD|]. split.
  - rewrite <- Hs at 1. rewrite rev_app_distr.
    rewrite drop_while_app_l.
    + rewrite rev_app_distr. now rewrite rev_involutive.
    + intros E. apply Hne. fold Dr in E. fold Dr. now rewrite E.
  - split; [apply take_while_all|].
    apply Forall_rev. apply take_while_all.
Qed.

Lemma strip_idem (s : str) : strip (strip s) = strip s.
Proof.
  destruct (strip s) as [|c0 t0] eqn:E; [reflexivity|]. rewrite <- E.
  unfold strip at 1. 
  assert (Hl : lstrip (strip s) = strip s).
  { unfold strip, rstrip, lstrip in *.
    destruct (drop_while is_space s) as [|d D'] eqn:HD; [discriminate E|].
    pose proof (drop_while_head _ _ _ _ HD) as Hd.
    cbn [List.rev].
    destruct (drop_while_snoc is_space (List.rev D') d Hd) as [x Hx].
    rewrite Hx, rev_app_distr. cbn [List.rev app drop_while]. now rewrite Hd. }
  rewrite Hl. unfold strip, rstrip. rewrite rev_involutive.
  now rewrite drop_while_idem.
Qed.

Lemma latin_not_space (c : Z) : latin c = true -> is_space c = false.
Proof.
  unfold latin, is_space, is_upper_az, is_lower_az, in_range. intros H.
  repeat rewrite Bool.orb_true_iff in H. repeat rewrite Bool.andb_true_iff in H.
  repeat rewrite Z.leb_le in H.
  repeat (apply Bool.orb_false_iff; split);
    try (apply Bool.andb_false_iff; rewrite !Z.leb_gt; lia);
    apply Z.eqb_neq; lia.
Qed.

Lemma has_latin_spaces (L x : str) :
  Forall (fun c => is_space c = true) L ->
  has_latin (L ++ x) = has_latin x.
Proof.
  unfold has_latin. induction 1 as [|c L Hc HL IH]; [reflexivity|].
  cbn [app existsb]. rewrite IH.
  destruct (latin c) eqn:E; [|reflexivity].
  apply latin_not_space in E. congruence.
Qed.

Lemma has_latin_strip (s : str) : has_latin s = true -> has_latin (strip s) = true.
Proof.
  intros H. destruct (strip s) as [|c0 t0] eqn:E.
  - exfalso. unfold strip, rstrip, lstrip in E.
    assert (HD : drop_while is_space s = []).
    { destruct (drop_while is_space s) as [|d D'] eqn:HD; [reflexivity|].
      pose proof (drop_while_head _ _ _ _ HD) as Hd. cbn [List.rev] in E.
      destruct (drop_while_snoc is_space (List.rev D') d Hd) as [x Hx].
      rewrite Hx, rev_app_distr in E. discriminate E. }
    pose proof (take_drop_while is_space s) as Hs. rewrite HD, app_nil_r in Hs.
    pose proof (take_while_all is_space s) as Ha. rewrite Hs in Ha.
    rewrite <- (app_nil_r s), (has_latin_spaces s [] Ha) in H. discriminate.
  - rewrite <- E.
    destruct (strip_split s) as (L & T & Hs & _ & _ & HL & HT);
      [rewrite E; discriminate|].
    rewrite Hs, (has_latin_spaces L _ HL) in H.
    unfold has_latin in *. rewrite existsb_app in H.
    apply Bool.orb_true_iff in H. destruct H as [H|H]; [exact H|].
    exfalso. apply existsb_exists in H as (c & Hin & Hc).
    rewrite Forall_forall in HT. apply latin_not_space in Hc.
    rewrite (HT c Hin) in Hc. discriminate.
Qed.

(** ** [translate_preserving_ws] *)

(** X5: a second call with the same segment returns what the first call
    returned and leaves the translator as the first call left it: nothing is
    queued twice and nothing more is cached. *)
Theorem translate_preserving_again (bt : Ru.BatchTranslator) (s : str) :
  Ru.translate_preserving_ws (snd (Ru.translate_preserving_ws bt s)) s
  = Ru.translate_preserving_ws bt s.
Proof.
  unfold Ru.translate_preserving_ws at 2 3.
  destruct (dict_get (Ru.cache bt) s) as [v|] eqn:Hg.
  - cbn [snd]. unfold Ru.translate_preserving_ws. now rewrite Hg.
  - assert (Hc : forall v, Ru.translate_preserving_ws (Ru.cached bt s v) s
                           = (v, Ru.cached bt s v)).
    { intros v. unfold Ru.translate_preserving_ws, Ru.cached. cbn [Ru.cache].
      now rewrite dict_get_set_same. }
    destruct (strip s) as [|c0 t0]; [apply Hc|].
    destruct (Ru.has_cyrillic (c0 :: t0) && negb (has_latin (c0 :: t0)));
      [apply Hc|].
    destruct (Ru.url_like (c0 :: t0)); [apply Hc|].
    cbn [snd]. unfold Ru.translate_preserving_ws. cbn [Ru.cache].
    now rewrite dict_get_set_same.
Qed.

(** The margins [translate_preserving_ws] cuts off by lengths are the
    margins the patterns for leading and trailing spaces match. *)
Lemma margins_split (s : str) :
  strip s <> [] ->
  firstn (List.length s - List.length (lstrip s)) s = leading_ws s
  /\ skipn (List.length (rstrip s)) s = trailing_ws s
  /\ leading_ws s ++ strip s ++ trailing_ws s = s.
Proof.
  intros Hne.
  destruct (strip_split s Hne) as (L & T & Hs & HL & HR & HLs & HTs).
  assert (Elead : leading_ws s = L).
  { unfold leading_ws. rewrite Hs at 1.
    destruct (strip s) as [|c0 t0] eqn:E; [contradiction|].
    assert (Hc0 : is_space c0 = false).
    { unfold lstrip in HL.
      exact (drop_while_head is_space s c0 (t0 ++ T) HL). }
    cbn [app]. now apply take_while_run. }
  assert (Etrail : trailing_ws s = T).
  { unfold trailing_ws. rewrite Hs at 1. rewrite !rev_app_distr.
    destruct (List.rev (strip s)) as [|c1 t1] eqn:E.
    { exfalso. apply Hne. rewrite <- (rev_involutive (strip s)), E. reflexivity. }
    assert (Hc1 : is_space c1 = false).
    { unfold strip, rstrip in E. rewrite rev_involutive in E.
      now apply (drop_while_head is_space _ c1 t1 E). }
    apply Forall_rev in HTs. rewrite <- (rev_involutive T) at 2.
    f_equal. rewrite <- app_assoc. cbn [app]. now apply take_while_run. }
  rewrite HL, HR, Elead, Etrail. clear HL HR Elead Etrail HLs HTs Hne.
  revert Hs. generalize (strip s). intros X Hs.
  split; [|split; [|now rewrite <- Hs]].
  - rewrite Hs. rewrite !length_app.
    replace (List.length L + (List.length X + List.length T)
             - (List.length X + List.length T)) with (List.length L) by lia.
    now rewrite firstn_exact.
  - rewrite Hs. rewrite app_assoc. now rewrite skipn_exact.
Qed.

(** The branch of [translate_preserving_ws] that queues. *)
Lemma segment_queued (bt : Ru.BatchTranslator) (s : str) :
  dict_get (Ru.cache bt) s = None ->
  has_latin (strip s) = true ->
  Ru.url_like (strip s) = false ->
  Ru.translate_preserving_ws bt s
  = (lit "@@T_" ++ dec (List.length (Ru._pending bt)) ++ lit "@@",
     {| Ru.cache := dict_set (Ru.cache bt) s
                      (lit "@@T_" ++ dec (List.length (Ru._pending bt)) ++ lit "@@");
        Ru._pending := Ru._pending bt ++ [queued (List.length (Ru._pending bt)) s];
        Ru.tr := Ru.tr bt |}).
Proof.
  intros Hg Hl Hu.
  assert (Hne : strip s <> []) by (intros E; rewrite E in Hl; discriminate).
  destruct (margins_split s Hne) as (Hp & Hq & _).
  unfold Ru.translate_preserving_ws, queued. rewrite Hg, Hp, Hq.
  destruct (strip s) as [|c0 t0] eqn:E; [contradiction|].
  now rewrite Hl, Hu, Bool.andb_false_r.
Qed.

(** X6: a segment with a Latin letter, the only kind the two passes hand
    over, is queued unless it is in the cache or looks like an address or
    a template: it gets the placeholder with the next number, the cache
    maps it to that placeholder, and the entry queued holds its margins and
    its stripped text, which make up the segment.  Cyrillic letters in it
    make no difference. *)
Theorem latin_segment_queued (bt : Ru.BatchTranslator) (s : str) :
  has_latin s = true ->
  dict_get (Ru.cache bt) s = None ->
  Ru.url_like (strip s) = false ->
  let placeholder := lit "@@T_" ++ dec (List.length (Ru._pending bt)) ++ lit "@@" in
  Ru.translate_preserving_ws bt s
  = (placeholder,
     {| Ru.cache := dict_set (Ru.cache bt) s placeholder;
        Ru._pending :=
          Ru._pending bt
          ++ [{| Ru.p_placeholder := placeholder;
                 Ru.p_prefix := leading_ws s;
                 Ru.p_stripped := strip s;
                 Ru.p_suffix := trailing_ws s;
                 Ru.p_original := s |}];
        Ru.tr := Ru.tr bt |})
  /\ leading_ws s ++ strip s ++ trailing_ws s = s.
Proof.
  intros Hl Hg Hu. cbn zeta.
  pose proof (has_latin_strip s Hl) as Hls. split.
  - exact (segment_queued bt s Hg Hls Hu).
  - apply margins_split. intros E. rewrite E in Hls. discriminate.
Qed.

Lemma latin_segment_queued_witness :
  fst (Ru.translate_preserving_ws (Ru.new_translator None) (lit " Ciao " ++ [1084; 1080; 1088; 32]%Z))
  = lit "@@T_0@@".
Proof.
  destruct (latin_segment_queued (Ru.new_translator None) (lit " Ciao " ++ [1084; 1080; 1088; 32]%Z))
    as [H _]; [reflexivity | reflexivity | reflexivity |].
  rewrite H. reflexivity.
Defined.

Lemma queue_margins (s : str) :
  strip s <> [] ->
  firstn (List.length s - List.length (lstrip s)) s ++ strip s
  ++ skipn (List.length (rstrip s)) s
  = s.
Proof.
  intros Hne. destruct (strip_split s Hne) as (L & T & Hs & HL & HR & _ & _).
  rewrite HL, HR. clear HL HR Hne. revert Hs. generalize (strip s). intros X Hs.
  replace (firstn (List.length s - List.length (X ++ T)) s) with L.
  2:{ rewrite Hs. rewrite !length_app.
      replace (List.length L + (List.length X + List.length T)
               - (List.length X + List.length T)) with (List.length L)
        by lia.
      now rewrite firstn_exact. }
  replace (skipn (List.length (L ++ X)) s) with T.
  2:{ rewrite Hs. rewrite app_assoc. now rewrite skipn_exact. }
  now rewrite <- Hs.
Qed.

(** X7: in every state a translator goes through, the pending segments are
    numbered in the order they were queued, the segment at position [i]
    holding the placeholder with the number [i]; the margins and the
    stripped text of a pending segment make up the original segment, the
    stripped text is not empty and has no margins of its own, and the cache
    maps the original segment to its placeholder. *)
Theorem pending_numbered (be : option backend) (bt : Ru.BatchTranslator) :
  reachable be bt ->
  forall (i : nat) (p : Ru.pending_item),
    nth_error (Ru._pending bt) i = Some p ->
    Ru.p_placeholder p = lit "@@T_" ++ dec i ++ lit "@@"
    /\ Ru.p_prefix p ++ Ru.p_stripped p ++ Ru.p_suffix p = Ru.p_original p
    /\ Ru.p_stripped p <> []
    /\ strip (Ru.p_stripped p) = Ru.p_stripped p
    /\ dict_get (Ru.cache bt) (Ru.p_original p) = Some (Ru.p_placeholder p).
Proof.
  induction 1 as [|bt s Hr IH|bt content Hr IH]; intros i p Hp.
  - destruct i; discriminate Hp.
  - revert Hp. unfold Ru.translate_preserving_ws.
    destruct (dict_get (Ru.cache bt) s) as [v|] eqn:Hg; [apply IH|].
    assert (Hc : forall v,
               nth_error (Ru._pending (Ru.cached bt s v)) i = Some p ->
               Ru.p_placeholder p = lit "@@T_" ++ dec i ++ lit "@@"
               /\ Ru.p_prefix p ++ Ru.p_stripped p ++ Ru.p_suffix p
                  = Ru.p_original p
               /\ Ru.p_stripped p <> []
               /\ strip (Ru.p_stripped p) = Ru.p_stripped p
               /\ dict_get (Ru.cache (Ru.cached bt s v)) (Ru.p_original p)
                  = Some (Ru.p_placeholder p)).
    { intros v Hp. cbn [Ru.cached Ru._pending Ru.cache] in *.
      destruct (IH i p Hp) as (H1 & H2 & H3 & H4 & H5).
      repeat (split; [assumption|]).
      rewrite dict_get_set_other; [exact H5|]. intros E. congruence. }
    destruct (strip s) as [|c0 t0] eqn:Es; [apply Hc|].
    destruct (Ru.has_cyrillic (c0 :: t0) && negb (has_latin (c0 :: t0)));
      [apply Hc|].
    destruct (Ru.url_like (c0 :: t0)); [apply Hc|].
    cbn [snd Ru._pending Ru.cache]. intros Hp.
    destruct (Nat.lt_ge_cases i (List.length (Ru._pending bt))) as [Hi|Hi].
    + rewrite nth_error_app1 in Hp by exact Hi.
      destruct (IH i p Hp) as (H1 & H2 & H3 & H4 & H5).
      repeat (split; [assumption|]).
      rewrite dict_get_set_other; [exact H5|]. intros E. congruence.
    + rewrite nth_error_app2 in Hp by exact Hi.
      destruct (i - List.length (Ru._pending bt)) as [|k] eqn:Ek;
        [|destruct k; discriminate Hp].
      assert (i = List.length (Ru._pending bt)) by lia. subst i.
      cbn [nth_error] in Hp. injection Hp as <-.
      cbn [Ru.p_placeholder Ru.p_prefix Ru.p_stripped Ru.p_suffix Ru.p_original].
      split; [reflexivity|]. split.
      { rewrite <- Es. apply queue_margins. rewrite Es. discriminate. }
      split; [discriminate|]. split.
      { rewrite <- Es. apply strip_idem. }
      apply dict_get_set_same.
  - revert Hp. unfold Ru.process_batches.
    destruct (Ru._pending bt) as [|p0 ps] eqn:Hpend.
    + cbn [fst snd]. rewrite Hpend. destruct i; discriminate.
    + destruct (Ru.translate_all bt (map Ru.p_stripped (p0 :: ps))) as [tall calls].
      destruct (fold_left _ (combine (p0 :: ps) tall) (content, Ru.cache bt))
        as [content1 cache1].
      cbn [fst snd Ru._pending]. destruct i; discriminate.
Qed.

Lemma pending_numbered_witness :
  let bt := snd (Ru.translate_preserving_ws
                   (snd (Ru.translate_preserving_ws
                           (Ru.new_translator None) (lit " Ciao ")))
                   (lit "mondo  ")) in
  exists p, nth_error (Ru._pending bt) 1 = Some p
            /\ Ru.p_placeholder p = lit "@@T_1@@"
            /\ Ru.p_prefix p ++ Ru.p_stripped p ++ Ru.p_suffix p = lit "mondo  ".
Proof.
  intros bt.
  assert (Hr : reachable None bt) by (repeat constructor).
  eexists. split; [reflexivity|].
  destruct (pending_numbered None bt Hr 1 _ eq_refl) as (H1 & H2 & _).
  split; [exact H1 | exact H2].
Defined.

(** ** Documents without Latin letters *)

Lemma finditer_in (G : Type) (matcher : str -> option (nat * G)) :
  forall (s m : str) (g : G),
    In (m, g) (finditer matcher s) ->
    exists (a t : str) (n : nat),
      s = a ++ t /\ matcher t = Some (n, g) /\ m = firstn n t.
Proof.
  intros s. remember (List.length s) as k eqn:Hk.
  revert s Hk; induction k as [k IH] using lt_wf_ind; intros s Hk m g Hin.
  destruct s as [|c s]; [destruct Hin|].
  destruct (matcher (c :: s)) as [[n g0]|] eqn:Hm.
  - rewrite (finditer_some _ _ _ _ _ _ Hm) in Hin.
    destruct Hin as [E|Hin].
    + injection E as <- <-. exists [], (c :: s), n. now split.
    + apply (IH (List.length (skipn (n - 1) s))) in Hin;
        [| rewrite length_skipn; subst k; simpl; lia | reflexivity].
      destruct Hin as (a & t & n' & E & Ht & Hf).
      exists (c :: firstn (n - 1) s ++ a), t, n'. split; [|now split].
      cbn [app]. f_equal. rewrite <- app_assoc, <- E. now rewrite firstn_skipn.
  - rewrite (finditer_none _ _ _ _ Hm) in Hin.
    apply (IH (List.length s)) in Hin; [| subst k; simpl; lia | reflexivity].
    destruct Hin as (a & t & n' & E & Ht & Hf).
    exists (c :: a), t, n'. split; [now rewrite E | now split].
Qed.

(** A pass whose replacement gives every match back, on the texts of a
    class closed under taking the tail: nothing changes. *)
Lemma re_sub_fixed (G St : Type) (P : str -> Prop)
    (matcher : str -> option (nat * G)) (repl : St -> str -> G -> str * St) :
  (forall c s, P (c :: s) -> P s) ->
  (forall t n g, P t -> matcher t = Some (n, g) -> 1 <= n) ->
  (forall t n g st, P t -> matcher t = Some (n, g) ->
                    repl st (firstn n t) g = (firstn n t, st)) ->
  forall (s : str) (st : St), P s -> re_sub matcher repl s st = (s, st).
Proof.
  intros Htl Hpos Hid s.
  assert (Hsk : forall k t, P t -> P (skipn k t)).
  { induction k as [|k IHk]; intros t Ht; [exact Ht|].
    destruct t as [|c t]; [exact Ht|]. cbn [skipn]. apply IHk.
    exact (Htl c t Ht). }
  remember (List.length s) as k eqn:Hk.
  revert s Hk; induction k as [k IH] using lt_wf_ind; intros s Hk st Hs.
  destruct s as [|c s]; [reflexivity|].
  destruct (matcher (c :: s)) as [[n g]|] eqn:Hm.
  - rewrite (re_sub_some _ _ _ _ _ _ _ _ _ Hm). cbn zeta.
    rewrite (Hid _ _ _ st Hs Hm). cbn [fst snd].
    pose proof (Hpos _ _ _ Hs Hm) as Hn.
    rewrite (IH (List.length (skipn (n - 1) s)));
      [| rewrite length_skipn; subst k; simpl; lia | reflexivity
       | apply Hsk; exact (Htl c s Hs)].
    cbn [fst snd]. f_equal.
    destruct n as [|n]; [lia|]. replace (S n - 1) with n by lia.
    cbn [firstn app]. now rewrite firstn_skipn.
  - rewrite (re_sub_none _ _ _ _ _ _ _ Hm).
    rewrite (IH (List.length s)); [reflexivity | subst k; simpl; lia
                                   | reflexivity | exact (Htl c s Hs)].
Qed.

Lemma no_latin_tail (c : Z) (s : str) :
  has_latin (c :: s) = false -> has_latin s = false.
Proof.
  unfold has_latin. cbn [existsb]. intros H.
  now apply Bool.orb_false_iff in H.
Qed.

Lemma no_latin_suffix (a b : str) : has_latin (a ++ b) = false -> has_latin b = false.
Proof.
  induction a as [|c a IH]; intros H; [exact H|].
  apply IH. exact (no_latin_tail c (a ++ b) H).
Qed.

Lemma no_latin_prefix (a b : str) : has_latin (a ++ b) = false -> has_latin a = false.
Proof.
  unfold has_latin. rewrite existsb_app. intros H.
  now apply Bool.orb_false_iff in H.
Qed.

(** A letter of a pattern other than i, k and s matches only a Latin
    letter when case is ignored. *)
Lemma ci_eq_latin (p c : Z) :
  is_lower_az p = true -> p <> 105%Z -> p <> 107%Z -> p <> 115%Z ->
  ci_eq p c = true -> latin c = true.
Proof.
  unfold ci_eq, lower, latin, is_lower_az, is_upper_az, in_range.
  intros Hp H1 H2 H3 H.
  apply Bool.andb_true_iff in Hp. rewrite !Z.leb_le in Hp.
  destruct (Z.leb 65 c && Z.leb c 90) eqn:Eu; [reflexivity|].
  cbn [orb].
  repeat rewrite Bool.orb_true_iff in H.
  destruct H as [[H|H]|H].
  - destruct (Z.eqb_spec c 304); [apply Z.eqb_eq in H; lia|].
    destruct (Z.eqb_spec c 8490); [apply Z.eqb_eq in H; lia|].
    apply Z.eqb_eq in H. subst p.
    assert (El : (97 <=? c)%Z && (c <=? 122)%Z = true)
      by (apply Bool.andb_true_iff; rewrite !Z.leb_le; lia).
    now rewrite El.
  - apply Bool.andb_true_iff in H. destruct H as [H _].
    apply Z.eqb_eq in H. lia.
  - apply Bool.andb_true_iff in H. destruct H as [H _].
    apply Z.eqb_eq in H. lia.
Qed.

Lemma ci_prefix_needs_latin (a : str) (x : Z) (b s : str) :
  is_lower_az x = true -> x <> 105%Z -> x <> 107%Z -> x <> 115%Z ->
  has_latin s = false ->
  ci_strip_prefix (a ++ x :: b) s = None.
Proof.
  intros Hx H1 H2 H3. revert s; induction a as [|y a IH]; intros s Hs;
    cbn [app ci_strip_prefix]; destruct s as [|c s]; try reflexivity.
  - destruct (ci_eq x c) eqn:E; [|reflexivity].
    apply (ci_eq_latin x c Hx H1 H2 H3) in E.
    unfold has_latin in Hs. cbn [existsb] in Hs. rewrite E in Hs. discriminate.
  - destruct (ci_eq y c); [|reflexivity]. apply IH.
    exact (no_latin_tail c s Hs).
Qed.

Ltac needs_latin a x b :=
  match goal with
  | |- ci_strip_prefix ?p ?s = None =>
      change p with (a ++ x :: b);
      apply ci_prefix_needs_latin;
      [reflexivity | discriminate | discriminate | discriminate | assumption]
  end.

Lemma no_latin_html (s : str) :
  has_latin s = false -> ci_strip_prefix (lit "<html") s = None.
Proof. intros H. needs_latin [60%Z] 104%Z (lit "tml"). Qed.

Lemma no_latin_tag (k : kind) (s : str) :
  has_latin s = false -> ci_strip_prefix (lit "<" ++ tag_of k) s = None.
Proof.
  intros H. destruct k; cbn [tag_of].
  - needs_latin [60%Z; 115%Z] 116%Z (lit "yle").
  - needs_latin [60%Z; 115%Z] 99%Z (lit "ript").
Qed.

Lemma no_latin_attr (attr s : str) :
  In attr Ru.attrs -> has_latin s = false -> ci_strip_prefix attr s = None.
Proof.
  intros Hin H. unfold Ru.attrs in Hin. cbn [In] in Hin.
  destruct Hin as [<-|[<-|[<-|[<-|[<-|[<-|[]]]]]]].
  - needs_latin (@nil Z) 97%Z (lit "lt").
  - needs_latin (@nil Z) 116%Z (lit "itle").
  - needs_latin (@nil Z) 112%Z (lit "laceholder").
  - needs_latin (@nil Z) 97%Z (lit "ria-label").
  - needs_latin (@nil Z) 97%Z (lit "ria-placeholder").
  - needs_latin (@nil Z) 100%Z (lit "ata-title").
Qed.

Lemma re_sub_no_match (G St : Type) (P : str -> Prop)
    (matcher : str -> option (nat * G)) (repl : St -> str -> G -> str * St) :
  (forall c s, P (c :: s) -> P s) ->
  (forall t, P t -> matcher t = None) ->
  forall (s : str) (st : St), P s -> re_sub matcher repl s st = (s, st).
Proof.
  intros Htl Hno. apply re_sub_fixed; [exact Htl | |];
    intros t n g; intros; rewrite Hno in *; (discriminate || assumption).
Qed.

Lemma no_latin_protect (k : kind) (s : str) :
  has_latin s = false -> Ru.protect_blocks s (tag_of k) = (s, []).
Proof.
  intros H. unfold Ru.protect_blocks.
  apply (re_sub_no_match unit (list str) (fun t => has_latin t = false));
    [exact no_latin_tail | | exact H].
  intros t Ht. unfold Ru.block_re. now rewrite (no_latin_tag k t Ht).
Qed.

Lemma no_latin_attributes (s : str) (bt : Ru.BatchTranslator) :
  has_latin s = false -> Ru._pending bt = [] ->
  Ru.translate_attributes s bt = (s, bt, []).
Proof.
  intros H Hp. unfold Ru.translate_attributes.
  assert (Hf : forall l, (forall a, In a l -> In a Ru.attrs) ->
             fold_left
               (fun (acc : str * Ru.BatchTranslator) attr =>
                  let (c1, b1) := re_sub (Ru.attr_re 34 attr) (Ru.repl_attr 34)
                                         (fst acc) (snd acc) in
                  re_sub (Ru.attr_re 39 attr) (Ru.repl_attr 39) c1 b1)
               l (s, bt) = (s, bt)).
  { induction l as [|a l IH]; intros Hl; [reflexivity|]. cbn [fold_left fst snd].
    assert (Hq : forall q, re_sub (Ru.attr_re q a) (Ru.repl_attr q) s bt = (s, bt)).
    { intros q.
      apply (re_sub_no_match _ _ (fun t => has_latin t = false));
        [exact no_latin_tail | | exact H].
      intros t Ht. unfold Ru.attr_re.
      now rewrite (no_latin_attr a t (Hl a (or_introl eq_refl)) Ht). }
    rewrite !Hq. apply IH. intros b Hb. apply Hl. now right. }
  rewrite (Hf Ru.attrs (fun a Ha => Ha)).
  unfold Ru.process_batches. now rewrite Hp.
Qed.

Lemma no_latin_textnodes (s : str) (bt : Ru.BatchTranslator) :
  has_latin s = false -> Ru._pending bt = [] ->
  Ru.translate_textnodes s bt = (s, bt, []).
Proof.
  intros H Hp. unfold Ru.translate_textnodes.
  rewrite (re_sub_fixed _ _ (fun t => has_latin t = false) text_re Ru.repl_text
             no_latin_tail); [| | | exact H].
  - unfold Ru.process_batches. now rewrite Hp.
  - intros t n g _ Hm. now apply text_re_shape in Hm.
  - intros t n g st Ht Hm. pose proof (text_re_shape _ _ _ Hm) as [_ Hf].
    unfold Ru.repl_text. destruct g as [|g0 gs]; [reflexivity|].
    assert (Hg : has_latin (g0 :: gs) = false).
    { rewrite <- (firstn_skipn n t) in Ht. apply no_latin_prefix in Ht.
      rewrite Hf in Ht. apply (no_latin_suffix [62%Z]) in Ht.
      now apply no_latin_prefix in Ht. }
    now rewrite Hg.
Qed.

Lemma no_latin_switch (u : unicode_db) (s : str) :
  has_latin s = false ->
  It.switch_lang_attr u s = s /\ Ru.switch_lang u s = s.
Proof.
  intros H.
  assert (Hs : forall a b, s = a ++ b -> ci_strip_prefix (lit "<html") b = None).
  { intros a b E. apply no_latin_html. apply (no_latin_suffix a). now rewrite <- E. }
  assert (Hi : forall q a b, s = a ++ b -> It.lang_re u q b = None).
  { intros q a b E. unfold It.lang_re. now rewrite (Hs a b E). }
  assert (Hr : forall q a b, s = a ++ b -> Ru.lang_re u q b = None).
  { intros q a b E. unfold Ru.lang_re. now rewrite (Hs a b E). }
  unfold It.switch_lang_attr, Ru.switch_lang. split.
  - rewrite (re_sub_pure_unmatched _ (It.lang_re u 34)) by apply Hi.
    apply re_sub_pure_unmatched, Hi.
  - rewrite (re_sub_pure_unmatched _ (Ru.lang_re u 34)) by apply Hr.
    apply re_sub_pure_unmatched, Hr.
Qed.

(** Text mode, where it changes nothing: a file without CR, written with LF
    as the line separator. *)
Lemma read_text_plain (raw : str) :
  Forall (fun c => c <> 13%Z) raw -> read_text raw = raw.
Proof.
  induction 1 as [|c r Hc Hr IH]; [reflexivity|]. cbn [read_text].
  destruct (Z.eqb_spec c 13) as [->|_]; [contradiction|]. now rewrite IH.
Qed.

Lemma write_text_plain (text : str) : write_text [10%Z] text = text.
Proof.
  unfold write_text. induction text as [|c r IH]; [reflexivity|].
  cbn [flat_map]. rewrite IH. now destruct (Z.eqb_spec c 10) as [->|_].
Qed.

(** X8: for an input file whose text has no Latin letter the ru script
    asks nothing of the backend and its translation steps leave the text
    read as it is; the run writes that text to the derived path and ends
    with status 0.  The file written holds the input with its line ends as
    text mode makes them, so it holds the code points of the input when the
    input has no CR and the line separator is LF. *)
Theorem no_latin_untouched (u : unicode_db) (be : option backend)
    (linesep : str) (ru_path : str -> str) (prog src : str) (more : list str)
    (fs : str -> node) (raw : str) :
  fs src = File raw ->
  has_latin (read_text raw) = false ->
  Ru.main u be (read_text raw) = (read_text raw, [])
  /\ Ru.main_io u linesep ru_path be (prog :: src :: more) fs
     = {| how := Exit 0;
          written := [(ru_path src, write_text linesep (read_text raw))];
          asked := [] |}
  /\ (Forall (fun c => c <> 13%Z) raw ->
      write_text [10%Z] (read_text raw) = raw).
Proof.
  intros Hfs H.
  assert (Hm : Ru.main u be (read_text raw) = (read_text raw, [])).
  { unfold Ru.main.
    rewrite (proj2 (no_latin_switch u _ H)).
    change (lit "style") with (tag_of Style).
    change (lit "script") with (tag_of Script).
    rewrite (no_latin_protect Style _ H), (no_latin_protect Script _ H).
    rewrite (no_latin_attributes _ (Ru.new_translator be) H eq_refl).
    rewrite (no_latin_textnodes _ (Ru.new_translator be) H eq_refl).
    reflexivity. }
  split; [exact Hm|]. split.
  - unfold Ru.main_io. rewrite Hfs, Hm. reflexivity.
  - intros Hcr. rewrite write_text_plain. now apply read_text_plain.
Qed.

Lemma no_latin_untouched_witness :
  let raw := lit "<1 2='3'> 2 + 2 = 4 </1>" ++ [13; 10]%Z in
  let fs := fun p => if str_eqb p (lit "a.html") then File raw else Missing in
  Ru.main_io ascii_db [13; 10]%Z (fun p => p ++ lit ".ru") (Some word_backend)
             [lit "translate_html_ru.py"; lit "a.html"] fs
  = {| how := Exit 0;
       written := [(lit "a.html.ru", lit "<1 2='3'> 2 + 2 = 4 </1>" ++ [13; 10]%Z)];
       asked := [] |}.
Proof.
  intros raw fs.
  refine (proj1 (proj2 (no_latin_untouched ascii_db (Some word_backend)
                          [13; 10]%Z (fun p => p ++ lit ".ru")
                          (lit "translate_html_ru.py") (lit "a.html") [] fs raw
                          _ _))).
  - reflexivity.
  - reflexivity.
Defined.

Lemma flat_map_nil {A B} (f : A -> list B) (l : list A) :
  (forall x, In x l -> f x = []) -> flat_map f l = [].
Proof.
  induction l as [|a l IH]; intros H; cbn [flat_map]; [reflexivity|].
  rewrite (H a (or_introl eq_refl)), IH; [reflexivity|].
  intros x Hx. apply H. now right.
Qed.

Lemma finditer_no_match (G : Type) (matcher : str -> option (nat * G)) (s : str) :
  (forall a b, s = a ++ b -> matcher b = None) -> finditer matcher s = [].
Proof.
  intros H. destruct (finditer matcher s) as [|[m g] l] eqn:E; [reflexivity|].
  assert (Hin : In (m, g) (finditer matcher s)) by (rewrite E; now left).
  apply finditer_in in Hin as (a & t & n & Hs & Hm & _).
  rewrite (H a t Hs) in Hm. discriminate.
Qed.

Lemma no_latin_element (u : unicode_db) (k : kind) (t : str) :
  has_latin t = false -> It.element_re u (tag_of k) t = None.
Proof.
  intros H. unfold It.element_re. now rewrite (no_latin_tag k t H).
Qed.

Lemma no_latin_placeholders (u : unicode_db) (doc : str) :
  has_latin doc = false -> contains (lit "<!--") doc = false ->
  It.make_placeholders u doc = (doc, []).
Proof.
  intros H Hc. apply contains_false_occurs_not in Hc.
  unfold It.make_placeholders.
  rewrite (re_sub_no_match _ _ (fun t => occurs_not (lit "<!--") t)
             It.comment_re); [| | | exact Hc].
  - change (lit "script") with (tag_of Script).
    rewrite (re_sub_no_match _ _ (fun t => has_latin t = false)
               (It.element_re u (tag_of Script)));
      [| exact no_latin_tail | apply no_latin_element | exact H].
    change (lit "style") with (tag_of Style).
    apply (re_sub_no_match _ _ (fun t => has_latin t = false)
             (It.element_re u (tag_of Style)));
      [exact no_latin_tail | apply no_latin_element | exact H].
  - intros c s. apply occurs_not_tail.
  - intros t Ht. unfold It.comment_re. now rewrite (occurs_not_here _ _ Ht).
Qed.

Lemma no_latin_text_nodes (u : unicode_db) (doc : str) :
  has_latin doc = false -> It.find_text_nodes u doc = [].
Proof.
  intros H. unfold It.find_text_nodes. apply flat_map_nil.
  intros [m g] Hin. cbn [snd].
  apply finditer_in in Hin as (a & t & n & Hs & Hm & _).
  pose proof (text_re_shape _ _ _ Hm) as [_ Hf].
  assert (Hg : has_latin g = false).
  { rewrite Hs in H. apply no_latin_suffix in H.
    rewrite <- (firstn_skipn n t) in H. apply no_latin_prefix in H.
    rewrite Hf in H. apply (no_latin_suffix [62%Z]) in H.
    now apply no_latin_prefix in H. }
  rewrite Hg. cbn [negb].
  destruct (strip g); [reflexivity|].
  now destruct (It.placeholder_fullmatch u _).
Qed.

Lemma no_latin_attr_values (u : unicode_db) (doc : str) :
  has_latin doc = false -> It.find_attr_values u doc = [].
Proof.
  intros H. unfold It.find_attr_values. apply flat_map_nil.
  intros attr Hattr. rewrite finditer_no_match; [reflexivity|].
  intros a b E. unfold It.attr_re.
  rewrite (no_latin_attr attr b); [reflexivity | |].
  - unfold It.VISIBLE_ATTRS in Hattr. unfold Ru.attrs. cbn [In] in *. tauto.
  - apply (no_latin_suffix a). now rewrite <- E.
Qed.

(** X9: translate_html.py finds nothing to translate in an input file
    whose text has no Latin letter and no comment: nothing is protected, no
    text node and no attribute value is collected, and the run ends with
    status 0 before the backend is asked and before the output is written.
    The one file the run writes is the backup of the text read, and that
    only when the backup path names nothing yet.  (A comment would leave a
    placeholder, whose letters are Latin.) *)
Theorem no_latin_nothing_to_do (u : unicode_db) (be : backend)
    (linesep : str) (prog in_path : str) (more : list str)
    (fs : str -> node) (raw : str) :
  fs in_path = File raw ->
  has_latin (read_text raw) = false ->
  contains (lit "<!--") (read_text raw) = false ->
  It.make_placeholders u (read_text raw) = (read_text raw, [])
  /\ It.find_text_nodes u (read_text raw) = []
  /\ It.find_attr_values u (read_text raw) = []
  /\ It.main u be (read_text raw) = None
  /\ It.main_io u linesep be (prog :: in_path :: more) fs
     = {| how := Exit 0;
          written :=
            match fs (in_path ++ lit ".bak.it.html") with
            | Missing => [(in_path ++ lit ".bak.it.html",
                           write_text linesep (read_text raw))]
            | _ => []
            end;
          asked := [] |}.
Proof.
  intros Hfs H Hc.
  pose proof (no_latin_placeholders u _ H Hc) as Hp.
  pose proof (no_latin_text_nodes u _ H) as Ht.
  pose proof (no_latin_attr_values u _ H) as Ha.
  repeat (split; [assumption|]). split.
  - unfold It.main. rewrite Hp, Ht, Ha. reflexivity.
  - unfold It.main_io. rewrite Hfs, Hp, Ht, Ha. reflexivity.
Qed.

Lemma no_latin_nothing_to_do_witness :
  let raw := lit "<1 2='3'> 2 + 2 = 4 </1>" ++ [13; 10]%Z in
  let fs := fun p => if str_eqb p (lit "a.html") then File raw else Missing in
  It.main_io ascii_db [10%Z] identity_backend
             [lit "translate_html.py"; lit "a.html"; lit "b.html"] fs
  = {| how := Exit 0;
       written := [(lit "a.html.bak.it.html",
                    lit "<1 2='3'> 2 + 2 = 4 </1>" ++ [10%Z])];
       asked := [] |}.
Proof.
  intros raw fs.
  refine (proj2 (proj2 (proj2 (proj2
            (no_latin_nothing_to_do ascii_db identity_backend [10%Z]
               (lit "translate_html.py") (lit "a.html") [lit "b.html"] fs raw
               _ _ _))))).
  - reflexivity.
  - reflexivity.
  - reflexivity.
Defined.

(** ** The store of [make_placeholders] *)

Lemma cut_blocks_bracketed (M : str -> option (nat * unit)) :
  bracketed M ->
  forall s, Forall (fun b => hd 0%Z b = 60%Z /\ last b 0%Z = 62%Z)
                   (blocks (cut M s)).
Proof.
  intros HM s. remember (List.length s) as k eqn:Hk.
  revert s Hk; induction k as [k IH] using lt_wf_ind; intros s Hk.
  destruct s as [|c s]; [constructor|].
  destruct (M (c :: s)) as [[n g]|] eqn:Hm.
  - destruct (HM _ _ _ Hm) as (Hn & Hh & Hl).
    destruct n as [|n]; [lia|].
    rewrite (cut_some _ _ _ _ _ Hm). cbn [blocks].
    constructor; [split; [exact Hh | exact Hl]|].
    apply (IH (List.length (skipn (S n) (c :: s))));
      [rewrite length_skipn; subst k; simpl; lia | reflexivity].
  - rewrite (cut_none _ _ _ Hm). cbn [blocks].
    apply (IH (List.length s)); [subst k; simpl; lia | reflexivity].
Qed.

Lemma stored_forall (P : str -> Prop) (K : str) (ms : list str) (j : nat) :
  Forall P ms -> Forall (fun e => P (snd e)) (stored K j ms).
Proof.
  intros H. revert j. induction H as [|m ms Hm H IH]; intros j; cbn [stored];
    constructor; [exact Hm | apply IH].
Qed.

Lemma NoDup_map_by {A B C} (f : A -> B) (g : A -> C) (l : list A) :
  (forall x y, In x l -> In y l -> g x = g y -> f x = f y) ->
  NoDup (map f l) -> NoDup (map g l).
Proof.
  induction l as [|a l IH]; intros Hfg Hnd; cbn [map] in *; [constructor|].
  inversion Hnd as [|? ? Ha Hnd']; subst. constructor.
  - intros Hin. apply in_map_iff in Hin as (y & Hy & Hin).
    apply Ha. rewrite (Hfg a y (or_introl eq_refl) (or_intror Hin) (eq_sym Hy)).
    now apply in_map.
  - apply IH; [|exact Hnd'].
    intros x y Hx Hy. apply Hfg; now right.
Qed.

(** The store of [make_placeholders], whatever the document: numbered
    entries of the three kinds, each holding a whole match. *)
Lemma make_placeholders_entries (u : unicode_db) (doc : str) :
  exists ents : list (str * nat * str),
    snd (It.make_placeholders u doc) = map entry ents
    /\ wf_entries ents
    /\ Forall (fun e => hd 0%Z (snd e) = 60%Z /\ last (snd e) 0%Z = 62%Z) ents.
Proof.
  assert (HKc : In (lit "COMMENT") kinds) by (simpl; tauto).
  assert (HKs : In (lit "SCRIPT") kinds) by (simpl; tauto).
  assert (HKy : In (lit "STYLE") kinds) by (simpl; tauto).
  pose proof comment_re_bracketed as B1.
  pose proof (element_re_bracketed u (lit "script")) as B2.
  pose proof (element_re_bracketed u (lit "style")) as B3.
  assert (W0 : wf_entries []) by (split; [constructor | reflexivity]).
  unfold It.make_placeholders.
  change (@nil (str * str)) with (map entry []).
  rewrite (pass_cut It.comment_re (lit "COMMENT") HKc (bracketed_pos _ B1) doc [] W0).
  cbn [app List.length].
  set (h1 := render_key (lit "COMMENT") 0 (cut It.comment_re doc)).
  set (e1 := stored (lit "COMMENT") 0 (blocks (cut It.comment_re doc))).
  assert (W1 : wf_entries e1)
    by exact (wf_entries_stored (lit "COMMENT") _ HKc [] W0).
  assert (S1 : Forall (fun e => hd 0%Z (snd e) = 60%Z /\ last (snd e) 0%Z = 62%Z) e1)
    by (apply (stored_forall (fun b => hd 0%Z b = 60%Z /\ last b 0%Z = 62%Z)), cut_blocks_bracketed, B1).
  rewrite (pass_cut (It.element_re u (lit "script")) (lit "SCRIPT") HKs
             (bracketed_pos _ B2) h1 e1 W1).
  set (h2 := render_key (lit "SCRIPT") (List.length e1)
               (cut (It.element_re u (lit "script")) h1)).
  set (e2 := e1 ++ stored (lit "SCRIPT") (List.length e1)
                     (blocks (cut (It.element_re u (lit "script")) h1))).
  assert (W2 : wf_entries e2)
    by exact (wf_entries_stored (lit "SCRIPT") _ HKs e1 W1).
  assert (S2 : Forall (fun e => hd 0%Z (snd e) = 60%Z /\ last (snd e) 0%Z = 62%Z) e2)
    by (apply Forall_app; split;
        [exact S1 | apply (stored_forall (fun b => hd 0%Z b = 60%Z /\ last b 0%Z = 62%Z)), cut_blocks_bracketed, B2]).
  rewrite (pass_cut (It.element_re u (lit "style")) (lit "STYLE") HKy
             (bracketed_pos _ B3) h2 e2 W2).
  cbn [snd]. eexists. split; [reflexivity|]. split.
  - exact (wf_entries_stored (lit "STYLE") _ HKy e2 W2).
  - apply Forall_app; split;
      [exact S2 | apply (stored_forall (fun b => hd 0%Z b = 60%Z /\ last b 0%Z = 62%Z)), cut_blocks_bracketed, B3].
Qed.

(** X10: the placeholders [make_placeholders] stores, whatever the document:
    the entry at position [i] has the key of one of the three kinds with the
    number [i], so no two keys are equal and no stored block is overwritten;
    and every stored block is a whole match, from an opening to a closing
    angle bracket. *)
Theorem store_numbered (u : unicode_db) (doc : str) :
  NoDup (map fst (snd (It.make_placeholders u doc)))
  /\ forall (i : nat) (kv : str * str),
       nth_error (snd (It.make_placeholders u doc)) i = Some kv ->
       (exists K, In K kinds /\ fst kv = key K i)
       /\ hd 0%Z (snd kv) = 60%Z
       /\ last (snd kv) 0%Z = 62%Z.
Proof.
  destruct (make_placeholders_entries u doc) as (ents & -> & [Hk Hi] & Hs).
  split.
  - rewrite map_map.
    apply (NoDup_map_by index_of (fun e => fst (entry e)) ents).
    + intros [[K i] b] [[K' i'] b'] Hx Hy E. cbn in E |- *.
      rewrite Forall_forall in Hk.
      exact (key_index_inj K K' i i' (Hk _ Hx) (Hk _ Hy) E).
    + rewrite Hi. apply seq_NoDup.
  - intros i kv Hn. rewrite nth_error_map in Hn.
    destruct (nth_error ents i) as [[[K j] b]|] eqn:E; [|discriminate].
    injection Hn as <-.
    assert (Hj : j = i).
    { pose proof (map_nth_error index_of _ _ E) as H1. rewrite Hi in H1.
      cbn in H1. pose proof (nth_error_In _ _ H1) as Hin.
      apply nth_error_nth with (d := 0) in H1.
      rewrite seq_nth in H1; [simpl in H1; lia|].
      apply nth_error_Some. rewrite E. discriminate. }
    subst j. pose proof (nth_error_In _ _ E) as Hin.
    rewrite Forall_forall in Hk, Hs. split; [|exact (Hs _ Hin)].
    exists K. split; [exact (Hk _ Hin) | reflexivity].
Qed.

(** ** What [find_text_nodes] and [find_attr_values] collect *)

Lemma drop_while_run (f : Z -> bool) (L : str) (c : Z) (r : str) :
  Forall (fun x => f x = true) L -> f c = false ->
  drop_while f (L ++ c :: r) = c :: r.
Proof.
  intros HL Hc. induction HL as [|x L Hx HL IH]; cbn [app drop_while].
  - now rewrite Hc.
  - now rewrite Hx, IH.
Qed.

(** The pattern of the collector recognises every key [_store] makes. *)
Lemma key_fullmatch (u : unicode_db) (K : str) (i : nat) :
  In K kinds -> It.placeholder_fullmatch u (key K i) = true.
Proof.
  intros HK. unfold It.placeholder_fullmatch, key.
  rewrite strip_prefix_app.
  assert (HU : Forall (fun c => is_upper_az c = true) K /\ K <> []).
  { destruct HK as [<-|[<-|[<-|[]]]]; (split; [|discriminate]);
      repeat (apply Forall_cons; [reflexivity|]); apply Forall_nil. }
  destruct HU as [HU HKne].
  change (lit "_") with [95%Z]. cbn [app].
  rewrite (take_while_run is_upper_az K 95 _ HU eq_refl).
  rewrite (drop_while_run is_upper_az K 95 _ HU eq_refl).
  destruct K as [|k0 K']; [contradiction|].
  cbn [Z.eqb Pos.eqb]. change (lit "__") with [95%Z; 95%Z].
  assert (HD : Forall (fun c => is_digit u c = true) (dec i)).
  { eapply Forall_impl; [|apply dec_digits]. cbn beta. intros c Hc.
    unfold is_digit, is_digit09, in_range.
    replace (Z.ltb c 128) with true by (symmetry; apply Z.ltb_lt; lia).
    apply Bool.andb_true_iff. rewrite !Z.leb_le. lia. }
  assert (H95 : is_digit u 95 = false) by reflexivity.
  rewrite (take_while_run (is_digit u) (dec i) 95 _ HD H95).
  rewrite (drop_while_run (is_digit u) (dec i) 95 _ HD H95).
  destruct (dec i) eqn:E; [now apply dec_nonempty in E | reflexivity].
Qed.

Lemma text_re_group (t : str) (n : nat) (g : str) :
  text_re t = Some (n, g) ->
  g <> [] /\ Forall (fun c => not_angle c = true) g.
Proof.
  unfold text_re. destruct t as [|c r]; [discriminate|].
  destruct (Z.eqb c 62); [|discriminate].
  pose proof (take_while_all not_angle r) as Ha.
  destruct (take_while not_angle r) as [|x xs]; [discriminate|].
  destruct (drop_while not_angle r) as [|d rest]; [discriminate|].
  destruct (Z.eqb d 60); [|discriminate].
  intros H. injection H as _ <-. split; [discriminate | exact Ha].
Qed.

Lemma text_re_at (t b : str) :
  t <> [] -> Forall (fun c => not_angle c = true) t ->
  text_re (62%Z :: t ++ 60%Z :: b) = Some (List.length t + 2, t).
Proof.
  intros Hne Ht. unfold text_re. cbn [Z.eqb Pos.eqb].
  rewrite (take_while_run not_angle t 60 b Ht eq_refl).
  rewrite (drop_while_run not_angle t 60 b Ht eq_refl).
  destruct t; [contradiction | reflexivity].
Qed.

Lemma app_eq_prefix (x : Z) (a r p r' : str) :
  a ++ x :: r = p ++ r' -> ~ In x p -> exists a', a = p ++ a'.
Proof.
  revert a; induction p as [|y p IH]; intros a E Hx; [now exists a|].
  destruct a as [|z a]; cbn [app] in E.
  - injection E as -> _. exfalso. apply Hx. now left.
  - injection E as -> E. destruct (IH a E) as [a' ->].
    + intros H. apply Hx. now right.
    + now exists a'.
Qed.

(** Every stretch of text between a closing and an opening bracket is a
    match of the pass. *)
Lemma finditer_text_complete (t : str) :
  t <> [] -> Forall (fun c => not_angle c = true) t ->
  forall (html a b : str),
    html = a ++ [62%Z] ++ t ++ [60%Z] ++ b ->
    In ([62%Z] ++ t ++ [60%Z], t) (finditer text_re html).
Proof.
  intros Hne Ht html. remember (List.length html) as k eqn:Hk.
  revert html Hk; induction k as [k IH] using lt_wf_ind; intros html Hk a b E.
  destruct html as [|c s]; [destruct a; discriminate E|].
  destruct a as [|x a].
  - cbn [app] in E. rewrite E.
    rewrite (finditer_some _ _ _ _ _ _ (text_re_at t b Hne Ht)). left.
    f_equal.
    change (62%Z :: t ++ 60%Z :: b) with ([62%Z] ++ t ++ [60%Z] ++ b).
    rewrite (app_assoc t), (app_assoc [62%Z]).
    replace (List.length t + 2) with (List.length ([62%Z] ++ t ++ [60%Z]))
      by (rewrite !length_app; simpl; lia).
    apply firstn_exact.
  - cbn [app] in E. injection E as -> E.
    destruct (text_re (x :: s)) as [[n g]|] eqn:Hm.
    + rewrite (finditer_some _ _ _ _ _ _ Hm). right.
      pose proof (text_re_shape _ _ _ Hm) as [Hn Hf].
      destruct (text_re_group _ _ _ Hm) as [_ Hg].
      destruct n as [|n]; [lia|]. replace (S n - 1) with n by lia.
      cbn [firstn app] in Hf. injection Hf as _ Hf.
      assert (Hs : s = (g ++ [60%Z]) ++ skipn n s)
        by (rewrite <- Hf; symmetry; apply firstn_skipn).
      destruct (app_eq_prefix 62 a (t ++ [60%Z] ++ b) (g ++ [60%Z]) (skipn n s))
        as [a' Ha].
      { rewrite <- Hs. symmetry. exact E. }
      { intros Hin. apply in_app_or in Hin as [Hin|[Hin|[]]]; [|discriminate].
        rewrite Forall_forall in Hg. specialize (Hg _ Hin). discriminate. }
      apply (IH (List.length (skipn n s))) with (a := a') (b := b);
        [rewrite length_skipn; subst k; simpl; lia | reflexivity |].
      rewrite Ha in E. rewrite Hs in E at 1.
      rewrite <- (app_assoc (g ++ [60%Z]) a') in E.
      now apply app_inv_head in E.
    + rewrite (finditer_none _ _ _ _ Hm).
      apply (IH (List.length s)) with (a := a) (b := b);
        [subst k; simpl; lia | reflexivity | exact E].
Qed.

Lemma text_nodes_sound (u : unicode_db) (html t : str) :
  In t (It.find_text_nodes u html) ->
  (exists a b, html = a ++ [62%Z] ++ t ++ [60%Z] ++ b)
  /\ Forall (fun c => not_angle c = true) t
  /\ strip t <> []
  /\ It.placeholder_fullmatch u (strip t) = false
  /\ has_latin t = true.
Proof.
  unfold It.find_text_nodes. intros H.
  apply in_flat_map in H as ([m g] & Hin & Ht). cbn [snd] in Ht.
  destruct (strip g) as [|c0 t0] eqn:Es; [destruct Ht|].
  destruct (It.placeholder_fullmatch u (c0 :: t0)) eqn:Ep; [destruct Ht|].
  destruct (has_latin g) eqn:El; [|destruct Ht].
  destruct Ht as [<-|[]].
  apply finditer_in in Hin as (a & t' & n & Hs & Hm & _).
  pose proof (text_re_shape _ _ _ Hm) as [_ Hf].
  destruct (text_re_group _ _ _ Hm) as [_ Hg].
  split; [|split; [exact Hg | split; [rewrite Es; discriminate|]]].
  - exists a, (skipn n t'). rewrite Hs. f_equal.
    rewrite <- (firstn_skipn n t') at 1. rewrite Hf.
    now rewrite <- !app_assoc.
  - rewrite Es. now split.
Qed.

(** X11: [find_text_nodes] collects exactly the stretches of text that stand
    between a closing and an opening angle bracket, hold no angle bracket,
    have a Latin letter, and are not a placeholder alone once stripped. *)
Theorem text_nodes_exactly (u : unicode_db) (html t : str) :
  In t (It.find_text_nodes u html)
  <-> (exists a b, html = a ++ [62%Z] ++ t ++ [60%Z] ++ b)
      /\ Forall (fun c => not_angle c = true) t
      /\ strip t <> []
      /\ It.placeholder_fullmatch u (strip t) = false
      /\ has_latin t = true.
Proof.
  split; [apply text_nodes_sound|].
  intros ((a & b & E) & Ht & Hs & Hp & Hl).
  assert (Hne : t <> []) by (intros ->; now apply Hs).
  unfold It.find_text_nodes. apply in_flat_map.
  exists ([62%Z] ++ t ++ [60%Z], t). split.
  - exact (finditer_text_complete t Hne Ht html a b E).
  - cbn [snd]. destruct (strip t) as [|c0 t0]; [contradiction|].
    rewrite Hp, Hl. now left.
Qed.

(** X12: a text node that is, margins apart, one of the placeholders
    [make_placeholders] makes is never collected, so it is not sent to the
    backend by way of [find_text_nodes]. *)
Theorem bare_placeholder_skipped (u : unicode_db) (K : str) (i : nat)
    (html t : str) :
  In K kinds -> strip t = key K i -> ~ In t (It.find_text_nodes u html).
Proof.
  intros HK Hs Hin.
  apply text_nodes_sound in Hin as (_ & _ & _ & Hp & _).
  rewrite Hs, (key_fullmatch u K i HK) in Hp. discriminate.
Qed.

Lemma bare_placeholder_skipped_witness :
  ~ In (lit " __PLACEHOLDER_COMMENT_0__ ")
       (It.find_text_nodes ascii_db
          (fst (It.make_placeholders ascii_db (lit "<p>Ciao</p><b> <!--c--> </b>")))).
Proof.
  apply (bare_placeholder_skipped ascii_db (lit "COMMENT") 0).
  - simpl. tauto.
  - reflexivity.
Defined.

Lemma ci_strip_prefix_firstn (p s r : str) (k : nat) :
  ci_strip_prefix p s = Some r -> List.length p <= k ->
  ci_strip_prefix p (firstn k s) <> None.
Proof.
  revert s k; induction p as [|x p IH]; intros s k H Hk; cbn [ci_strip_prefix].
  - discriminate.
  - cbn [ci_strip_prefix] in H. destruct s as [|y s]; [discriminate|].
    destruct k as [|k]; [simpl in Hk; lia|]. cbn [firstn].
    destruct (ci_eq x y); [|discriminate].
    apply (IH s k H). simpl in Hk. lia.
Qed.

Lemma attr_re_group (attr t : str) (n pre : nat) (q : Z) (val : str) :
  It.attr_re attr t = Some (n, (pre, q, val)) ->
  (q = 34%Z \/ q = 39%Z) /\ ~ In q val /\ List.length attr <= pre
  /\ ci_strip_prefix attr t <> None.
Proof.
  unfold It.attr_re.
  destruct (ci_strip_prefix attr t) as [r|]; [|discriminate].
  destruct (drop_while is_space r) as [|e r2]; [discriminate|].
  destruct (Z.eqb e 61); [|discriminate].
  destruct (drop_while is_space r2) as [|q0 r3]; [discriminate|].
  destruct (Z.eqb q0 34 || Z.eqb q0 39) eqn:Eq; [|discriminate].
  pose proof (take_while_all (fun c => negb (Z.eqb c q0)) r3) as Hv.
  destruct (drop_while (fun c => negb (Z.eqb c q0)) r3); [discriminate|].
  intros H. injection H as _ <- <- <-.
  split; [|split; [|split; [lia | discriminate]]].
  - apply Bool.orb_true_iff in Eq. rewrite !Z.eqb_eq in Eq. exact Eq.
  - intros Hin. rewrite Forall_forall in Hv. specialize (Hv _ Hin).
    cbn beta in Hv. rewrite Z.eqb_refl in Hv. discriminate.
Qed.

(** X13: every occurrence [find_attr_values] returns is an attribute of the
    list, written in the document as the name in any case, an equals sign
    with optional spaces around it, and the value between two equal quotes;
    the value is not empty, does not hold its own quote, has a Latin letter
    and is not a placeholder alone. *)
Theorem attr_values_sound (u : unicode_db) (html attr : str) (q : Z) (v : str) :
  In (attr, q, v) (It.find_attr_values u html) ->
  In attr It.VISIBLE_ATTRS
  /\ (q = 34%Z \/ q = 39%Z)
  /\ v <> [] /\ ~ In q v
  /\ has_latin v = true
  /\ It.placeholder_fullmatch u (strip v) = false
  /\ exists a p b, html = a ++ p ++ [q] ++ v ++ [q] ++ b
                   /\ ci_strip_prefix attr p <> None.
Proof.
  unfold It.find_attr_values. intros H.
  apply in_flat_map in H as (attr' & Hattr & H).
  apply in_flat_map in H as ([m [[pre q'] v']] & Hin & H). cbn [snd] in H.
  destruct v' as [|v0 vs]; [destruct H|].
  destruct (It.placeholder_fullmatch u (strip (v0 :: vs))) eqn:Ep;
    [destruct H|].
  destruct (has_latin (v0 :: vs)) eqn:El; [|destruct H].
  destruct H as [E|[]]. injection E as -> -> <-.
  apply finditer_in in Hin as (a & t & n & Hs & Hm & _).
  pose proof (attr_re_shape _ _ _ _ _ _ Hm) as [_ Hf].
  destruct (attr_re_group _ _ _ _ _ _ Hm) as (Hq & Hv & Hpre & Hp).
  split; [exact Hattr|]. split; [exact Hq|]. split; [discriminate|].
  split; [exact Hv|]. split; [exact El|]. split; [exact Ep|].
  exists a, (firstn pre (firstn n t)), (skipn n t). split.
  - rewrite Hs. f_equal. rewrite <- (firstn_skipn n t) at 1.
    rewrite Hf at 1. now rewrite <- !app_assoc.
  - destruct (ci_strip_prefix attr t) as [r|] eqn:Er; [|contradiction].
    assert (Hn : pre <= n).
    { apply (f_equal (@List.length Z)) in Hf.
      rewrite !length_app, !length_firstn in Hf. simpl in Hf. lia. }
    rewrite firstn_firstn. replace (Nat.min pre n) with pre by lia.
    exact (ci_strip_prefix_firstn attr t r pre Er Hpre).
Qed.

Lemma attr_values_sound_witness :
  let html := lit "<input PLACEHOLDER = " ++ dq ++ lit "Nome" ++ dq ++ lit ">" in
  In (lit "placeholder", 34%Z, lit "Nome") (It.find_attr_values ascii_db html)
  /\ exists a p b, html = a ++ p ++ [34%Z] ++ lit "Nome" ++ [34%Z] ++ b
                   /\ ci_strip_prefix (lit "placeholder") p <> None.
Proof.
  intros html.
  assert (Hin : In (lit "placeholder", 34%Z, lit "Nome")
                   (It.find_attr_values ascii_db html))
    by (vm_compute; left; reflexivity).
  split; [exact Hin|].
  exact (proj2 (proj2 (proj2 (proj2 (proj2 (proj2
           (attr_values_sound ascii_db html (lit "placeholder") 34%Z
                              (lit "Nome") Hin))))))).
Defined.

(** ** Both kinds of block of the ru script, one inside the other *)

Lemma occurs_not_contains (w s : str) : occurs_not w s -> contains w s = false.
Proof.
  unfold contains. induction s as [|c s IH]; intros H; cbn [find].
  - now rewrite (H [] [] eq_refl).
  - rewrite (H [] (c :: s) eq_refl). cbn [is_some].
    rewrite <- (Bool.negb_involutive (is_some (option_map S (find w s)))).
    specialize (IH (occurs_not_tail w c s H)).
    now destruct (find w s).
Qed.

Lemma occurs_not_cons (w : str) (c : Z) (s : str) :
  strip_prefix w (c :: s) = None -> occurs_not w s -> occurs_not w (c :: s).
Proof.
  intros Hh Hs a b E. destruct a as [|x a]; cbn [app] in E.
  - now subst b.
  - injection E as _ E. exact (Hs a b E).
Qed.

Lemma occurs_not_run (h : Z) (w D s : str) :
  Forall (fun c => c <> h) D -> occurs_not (h :: w) s ->
  occurs_not (h :: w) (D ++ s).
Proof.
  intros HD Hs. induction HD as [|d D Hd HD IH]; [exact Hs|].
  cbn [app]. apply occurs_not_cons; [|exact IH].
  cbn [strip_prefix]. destruct (Z.eqb_spec h d); [congruence | reflexivity].
Qed.

(** The body of a script token does not come about when style elements
    give way to their tokens. *)
Lemma script_body_not_in_style (items : list item) :
  forall j,
    occurs_not (token_body (lit "script")) (render_src items) ->
    occurs_not (token_body (lit "script")) (render_tok (lit "style") j items).
Proof.
  induction items as [|[c|b] r IH]; intros j Ho; cbn [render_tok render_src] in *.
  - exact Ho.
  - apply occurs_not_cons.
    + destruct (strip_prefix (token_body (lit "script"))
                  (c :: render_tok (lit "style") j r)) eqn:E; [|reflexivity].
      exfalso.
      apply (clean_prefix_src (lit "style") (token_body (lit "script"))
               (Ch c :: r) j).
      * exact (token_body_clean (lit "script") (tag_of_clean Script)).
      * cbn [render_tok]. congruence.
      * cbn [render_src]. now apply occurs_not_here.
    + apply IH. exact (occurs_not_tail _ c _ Ho).
  - apply occurs_not_app in Ho.
    rewrite (token_shape (lit "style") j).
    change (token_body (lit "style")) with (lit "STYLE_").
    change (token_body (lit "script")) with (83%Z :: lit "CRIPT_") in *.
    cbn [app lit map list_ascii_of_string nat_of_ascii Z.of_nat].
    repeat (apply occurs_not_cons; [reflexivity|]).
    rewrite <- app_assoc.
    apply occurs_not_run.
    { eapply Forall_impl; [|apply dec_digits]. cbn beta. intros a Ha. lia. }
    cbn [app]. repeat (apply occurs_not_cons; [reflexivity|]).
    now apply IH.
Qed.

(** X14: the two protections of the ru script, as [main] nests them: style
    elements are protected first and script elements second, scripts are
    restored first and styles second, and the document comes back exactly,
    also when a script element holds a style element or the reverse,
    provided the document holds the body of no token (neither the text
    STYLE_ nor the text SCRIPT_). *)
Theorem protect_both_restore (doc : str) :
  contains (token_body (lit "style")) doc = false ->
  contains (token_body (lit "script")) doc = false ->
  let p1 := Ru.protect_blocks doc (lit "style") in
  let p2 := Ru.protect_blocks (fst p1) (lit "script") in
  Ru.restore_blocks (Ru.restore_blocks (fst p2) (lit "script") (snd p2))
                    (lit "style") (snd p1)
  = doc.
Proof.
  intros Hy Hs. cbn zeta.
  assert (H1 : contains (token_body (tag_of Script))
                        (fst (Ru.protect_blocks doc (tag_of Style))) = false).
  { rewrite protect_blocks_split. cbn [fst].
    apply occurs_not_contains.
    apply (script_body_not_in_style (split_blocks (tag_of Style) doc) 0).
    rewrite split_blocks_src. now apply contains_false_occurs_not. }
  change (lit "script") with (tag_of Script).
  change (lit "style") with (tag_of Style).
  rewrite (protect_blocks_restore Script _ H1).
  exact (protect_blocks_restore Style doc Hy).
Qed.

Lemma protect_both_restore_witness :
  let doc := lit "<script>document.write('<style>p{}</style>')</script><style>b{}</style>" in
  let p1 := Ru.protect_blocks doc (lit "style") in
  let p2 := Ru.protect_blocks (fst p1) (lit "script") in
  fst p2 = lit "@@SCRIPT_0@@@@STYLE_1@@"
  /\ Ru.restore_blocks (Ru.restore_blocks (fst p2) (lit "script") (snd p2))
                       (lit "style") (snd p1)
     = doc.
Proof.
  intros doc p1 p2. split; [vm_compute; reflexivity|].
  apply (protect_both_restore doc); vm_compute; reflexivity.
Defined.

(** ** [process_batches]: what the cache holds afterwards *)

Lemma translate_list_pointwise (bt : Ru.BatchTranslator) (f : str -> str)
    (items : list str) :
  answers bt f -> fst (Ru._translate_list bt items) = map f items.
Proof.
  unfold answers, Ru._translate_list. intros Ha.
  destruct items as [|i items]; [reflexivity|].
  destruct (Ru.tr bt) as [be|].
  - destruct (Ha (i :: items)) as [E|[E Hs]]; rewrite E; cbn [fst];
      [reflexivity|].
    apply map_ext_in. intros s Hin. exact (Hs s Hin).
  - cbn [fst]. rewrite <- (map_id (i :: items)) at 1.
    apply map_ext. intros s. now rewrite Ha.
Qed.

Lemma translate_all_pointwise (bt : Ru.BatchTranslator) (f : str -> str)
    (texts : list str) :
  answers bt f -> fst (Ru.translate_all bt texts) = map f texts.
Proof.
  intros Ha. unfold Ru.translate_all.
  assert (H : forall cs (acc : list str * list call),
             fst (fold_left
                    (fun (acc : list str * list call) chunk =>
                       let (out, calls) := Ru._translate_list bt chunk in
                       (fst acc ++ out, snd acc ++ calls))
                    cs acc)
             = fst acc ++ map f (concat cs)).
  { induction cs as [|c cs IH]; intros acc; cbn [fold_left concat].
    - simpl. now rewrite app_nil_r.
    - rewrite IH. pose proof (translate_list_pointwise bt f c Ha) as Hc.
      destruct (Ru._translate_list bt c) as [out calls]. cbn [fst] in *.
      rewrite Hc, map_app. now rewrite app_assoc. }
  rewrite H. cbn [fst app]. unfold Ru.chunks.
  rewrite ru_chunks_fuel, chunks_fuel_concat by lia. reflexivity.
Qed.

Lemma process_cache_final (f : str -> str) (ps : list Ru.pending_item) :
  forall (content : str) (c : list (str * str)) (p : Ru.pending_item),
    NoDup (map Ru.p_original ps) -> In p ps ->
    dict_get
      (snd (fold_left
              (fun (acc : str * list (str * str)) (it : Ru.pending_item * str) =>
                 let result := Ru.p_prefix (fst it) ++ snd it ++ Ru.p_suffix (fst it) in
                 (replace (Ru.p_placeholder (fst it)) result (fst acc),
                  dict_set (snd acc) (Ru.p_original (fst it)) result))
              (combine ps (map f (map Ru.p_stripped ps))) (content, c)))
      (Ru.p_original p)
    = Some (Ru.p_prefix p ++ f (Ru.p_stripped p) ++ Ru.p_suffix p).
Proof.
  induction ps as [|q ps IH]; intros content c p Hnd Hin; [destruct Hin|].
  cbn [map combine fold_left fst snd] in *.
  inversion Hnd as [|? ? Hq Hnd']; subst.
  destruct Hin as [<-|Hin]; [|now apply IH].
  rewrite process_cache_get.
  - apply dict_get_set_same.
  - intros H. apply in_map_iff in H as [[p' t] [He H]]. cbn [fst] in He.
    apply in_combine_l in H. apply Hq. rewrite <- He. now apply in_map.
Qed.

(** X15: once [process_batches] has run, a segment that was pending is in
    the cache with its final text, its margins around what the backend made
    of its stripped text, and nothing is pending; a later call of
    [translate_preserving_ws] with the same segment, in the same pass or in
    the next, returns that text and leaves the translator alone, so the
    backend is not asked about the segment again. *)
Theorem processed_segment_reused (be : option backend) (bt : Ru.BatchTranslator)
    (f : str -> str) (content : str) (p : Ru.pending_item) :
  reachable be bt -> answers bt f -> In p (Ru._pending bt) ->
  let bt' := snd (fst (Ru.process_batches bt content)) in
  Ru._pending bt' = []
  /\ Ru.translate_preserving_ws bt' (Ru.p_original p)
     = (Ru.p_prefix p ++ f (Ru.p_stripped p) ++ Ru.p_suffix p, bt').
Proof.
  intros Hr Ha Hin. cbn zeta.
  destruct (reachable_pending be bt Hr) as [Hnd _].
  unfold Ru.process_batches.
  destruct (Ru._pending bt) as [|p0 ps] eqn:Hp; [destruct Hin|].
  pose proof (translate_all_pointwise bt f (map Ru.p_stripped (p0 :: ps)) Ha) as Ht.
  destruct (Ru.translate_all bt (map Ru.p_stripped (p0 :: ps))) as [tall calls].
  cbn [fst] in Ht. subst tall.
  pose proof (process_cache_final f (p0 :: ps) content (Ru.cache bt) p Hnd Hin) as Hc.
  destruct (fold_left _ (combine (p0 :: ps) _) (content, Ru.cache bt))
    as [content1 cache1].
  cbn [fst snd] in *. split; [reflexivity|].
  unfold Ru.translate_preserving_ws. cbn [Ru.cache]. now rewrite Hc.
Qed.

Lemma processed_segment_reused_witness :
  let bt := snd (Ru.translate_preserving_ws
                   (Ru.new_translator (Some word_backend)) (lit " Ciao ")) in
  let bt' := snd (fst (Ru.process_batches bt (lit "<p>@@T_0@@</p>"))) in
  Ru.translate_preserving_ws bt' (lit " Ciao ") = (lit " Privet ", bt').
Proof.
  intros bt bt'.
  assert (Hr : reachable (Some word_backend) bt) by (repeat constructor).
  exact (proj2 (processed_segment_reused (Some word_backend) bt
                  (fun s => if str_eqb s (lit "Ciao") then lit "Privet" else s)
                  (lit "<p>@@T_0@@</p>")
                  {| Ru.p_placeholder := lit "@@T_0@@"; Ru.p_prefix := lit " ";
                     Ru.p_stripped := lit "Ciao"; Ru.p_suffix := lit " ";
                     Ru.p_original := lit " Ciao " |}
                  Hr (fun items => or_introl eq_refl) (or_introl eq_refl))).
Defined.

(** ** The protected document holds nothing left to protect *)

Lemma key_chars_class (K : str) (i : nat) :
  In K kinds -> Forall (fun c => key_char c = true) (key K i).
Proof.
  intros HK. rewrite key_shape.
  assert (HU : Forall (fun c => key_char c = true) K).
  { destruct HK as [<-|[<-|[<-|[]]]];
      repeat (apply Forall_cons; [reflexivity|]); apply Forall_nil. }
  unfold word. cbn [app lit map list_ascii_of_string].
  repeat (apply Forall_cons; [reflexivity|]).
  apply Forall_app. split; [exact HU|].
  apply Forall_cons; [reflexivity|].
  apply Forall_app. split.
  - eapply Forall_impl; [|apply dec_digits]. cbn beta. intros c Hc.
    unfold key_char, is_digit09, in_range.
    replace (Z.leb 48 c && Z.leb c 57) with true; [apply Bool.orb_true_r|].
    symmetry. apply Bool.andb_true_iff. rewrite !Z.leb_le. lia.
  - repeat (apply Forall_cons; [reflexivity|]). apply Forall_nil.
Qed.

Lemma cut_src (M : str -> option (nat * unit)) :
  (forall s n g, M s = Some (n, g) -> 1 <= n) ->
  forall s, render_src (cut M s) = s.
Proof.
  intros Hpos s. remember (List.length s) as k eqn:Hk.
  revert s Hk; induction k as [k IH] using lt_wf_ind; intros s Hk.
  destruct s as [|c s]; [reflexivity|].
  destruct (M (c :: s)) as [[n g]|] eqn:Hm.
  - pose proof (Hpos _ _ _ Hm) as Hn. destruct n as [|n]; [lia|].
    rewrite (cut_some _ _ _ _ _ Hm). cbn [render_src].
    rewrite (IH (List.length (skipn (S n) (c :: s))));
      [| rewrite length_skipn; subst k; simpl; lia | reflexivity].
    apply firstn_skipn.
  - rewrite (cut_none _ _ _ Hm). cbn [render_src].
    now rewrite (IH (List.length s)) by (subst k; simpl; lia || reflexivity).
Qed.

(** Where the pass left a code point of the text, the pattern did not
    match. *)
Lemma cut_unmatched (M : str -> option (nat * unit)) :
  (forall s n g, M s = Some (n, g) -> 1 <= n) ->
  forall (s : str) (i1 : list item) (c : Z) (r : list item),
    cut M s = i1 ++ Ch c :: r -> M (render_src (Ch c :: r)) = None.
Proof.
  intros Hpos s. remember (List.length s) as k eqn:Hk.
  revert s Hk; induction k as [k IH] using lt_wf_ind; intros s Hk i1 c r E.
  destruct s as [|x s]; [destruct i1; discriminate E|].
  destruct (M (x :: s)) as [[n g]|] eqn:Hm.
  - pose proof (Hpos _ _ _ Hm) as Hn. destruct n as [|n]; [lia|].
    rewrite (cut_some _ _ _ _ _ Hm) in E.
    destruct i1 as [|y i1]; [discriminate E|].
    cbn [app] in E. injection E as _ E.
    apply (IH (List.length (skipn (S n) (x :: s)))) with (3 := E);
      [rewrite length_skipn; subst k; simpl; lia | reflexivity].
  - rewrite (cut_none _ _ _ Hm) in E.
    destruct i1 as [|y i1]; cbn [app] in E.
    + injection E as -> <-. cbn [render_src]. now rewrite (cut_src M Hpos).
    + injection E as _ E.
      apply (IH (List.length s)) with (3 := E);
        [subst k; simpl; lia | reflexivity].
Qed.

Lemma render_src_app (a b : list item) :
  render_src (a ++ b) = render_src a ++ render_src b.
Proof.
  induction a as [|[c|m] a IH]; cbn [app render_src];
    [reflexivity | now rewrite IH | now rewrite IH, app_assoc].
Qed.

(** A place in the text after a pass is in a placeholder or at a code point
    of the text before. *)
Lemma output_suffix (K : str) :
  In K kinds ->
  forall (items : list item) (j : nat) (a b : str),
    render_key K j items = a ++ b ->
    b = []
    \/ (exists c b', b = c :: b' /\ key_char c = true)
    \/ (exists i1 c r j',
          items = i1 ++ Ch c :: r /\ b = render_key K j' (Ch c :: r)).
Proof.
  intros HK. induction items as [|[c|m] r IH]; intros j a b E;
    cbn [render_key] in E.
  - left. symmetry in E. now apply app_eq_nil in E.
  - destruct a as [|x a]; cbn [app] in E.
    + right. right. exists [], c, r, j. now split.
    + injection E as _ E. destruct (IH j a b E) as [H|[H|H]]; [now left | now right; left|].
      destruct H as (i1 & c' & r' & j' & -> & ->).
      right. right. exists (Ch c :: i1), c', r', j'. now split.
  - apply app_eq_app in E as [l [[E1 E2]|[E1 E2]]].
    + destruct l as [|c l].
      * cbn [app] in E2. subst b.
        destruct (IH (S j) [] _ eq_refl) as [H|[H|H]];
          [now left | now right; left|].
        destruct H as (i1 & c' & r' & j' & -> & E).
        right. right. exists (Blk m :: i1), c', r', j'. now split.
      * right. left. exists c, (l ++ render_key K (S j) r). split; [exact E2|].
        pose proof (key_chars_class K j HK) as Hc. rewrite E1 in Hc.
        apply Forall_app in Hc. destruct Hc as [_ Hc].
        exact (Forall_inv Hc).
    + destruct (IH (S j) l b E2) as [H|[H|H]]; [now left | now right; left|].
      destruct H as (i1 & c' & r' & j' & -> & E).
      right. right. exists (Blk m :: i1), c', r', j'. now split.
Qed.

Lemma strip_prefix_output (K : str) (w : str) :
  Forall (fun x => x <> 95%Z) w ->
  forall (items : list item) (j : nat) (r' : str),
    strip_prefix w (render_key K j items) = Some r' ->
    exists i3 j', r' = render_key K j' i3
                  /\ strip_prefix w (render_src items) = Some (render_src i3).
Proof.
  induction 1 as [|x w Hx Hw IH]; intros items j r' H.
  - cbn [strip_prefix] in *. injection H as <-. now exists items, j.
  - destruct items as [|[c|m] r]; cbn [render_key render_src strip_prefix] in *.
    + discriminate.
    + destruct (Z.eqb x c); [exact (IH r j r' H) | discriminate].
    + exfalso. rewrite key_app_shape in H. cbn [strip_prefix] in H.
      destruct (Z.eqb_spec x 95); [contradiction | discriminate].
Qed.

Lemma ci_strip_prefix_output (K : str) (w : str) :
  Forall (fun x => ci_eq x 95 = false) w ->
  forall (items : list item) (j : nat) (r' : str),
    ci_strip_prefix w (render_key K j items) = Some r' ->
    exists i3 j', r' = render_key K j' i3
                  /\ ci_strip_prefix w (render_src items) = Some (render_src i3).
Proof.
  induction 1 as [|x w Hx Hw IH]; intros items j r' H.
  - cbn [ci_strip_prefix] in *. injection H as <-. now exists items, j.
  - destruct items as [|[c|m] r];
      cbn [render_key render_src ci_strip_prefix] in *.
    + discriminate.
    + destruct (ci_eq x c); [exact (IH r j r' H) | discriminate].
    + exfalso. rewrite key_app_shape in H. cbn [ci_strip_prefix] in H.
      rewrite Hx in H. discriminate.
Qed.

Lemma find_occurs (w a b : str) :
  strip_prefix w b <> None -> find w (a ++ b) <> None.
Proof.
  intros Hb Hf.
  assert (Hc : contains w (a ++ b) = false) by (unfold contains; now rewrite Hf).
  apply contains_false_occurs_not in Hc. exact (Hb (Hc a b eq_refl)).
Qed.

Lemma ci_find_occurs (w a b : str) :
  ci_strip_prefix w b <> None -> ci_find w (a ++ b) <> None.
Proof.
  intros Hb Hf. exact (Hb (ci_find_none_suffix w (a ++ b) Hf a b eq_refl)).
Qed.

Lemma find_output (K : str) (x : Z) (w : str) :
  In K kinds ->
  Forall (fun y => y <> 95%Z) (x :: w) -> key_char x = false ->
  forall (items : list item) (j : nat),
    find (x :: w) (render_key K j items) <> None ->
    find (x :: w) (render_src items) <> None.
Proof.
  intros HK Hw Hx items j Hf.
  destruct (find (x :: w) (render_key K j items)) as [n|] eqn:E; [|contradiction].
  apply find_spec in E as (_ & rest & E).
  assert (Hs : strip_prefix (x :: w) (skipn n (render_key K j items)) <> None).
  { rewrite E, strip_prefix_app. discriminate. }
  destruct (output_suffix K HK items j (firstn n (render_key K j items))
              (skipn n (render_key K j items))
              (eq_sym (firstn_skipn n _))) as [H|[H|H]].
  - rewrite H in Hs. now cbn in Hs.
  - destruct H as (c & b' & Hb & Hc). rewrite Hb in Hs. cbn [strip_prefix] in Hs.
    destruct (Z.eqb_spec x c); [subst; congruence | contradiction].
  - destruct H as (i1 & c & r & j' & -> & Hb). rewrite Hb in Hs.
    destruct (strip_prefix (x :: w) (render_key K j' (Ch c :: r))) as [r'|] eqn:Ep;
      [|contradiction].
    destruct (strip_prefix_output K (x :: w) Hw _ _ _ Ep) as (i3 & j3 & _ & Hp).
    rewrite render_src_app. apply find_occurs. rewrite Hp. discriminate.
Qed.

Lemma ci_find_output (K : str) (x : Z) (w : str) :
  In K kinds ->
  Forall (fun y => ci_eq y 95 = false) (x :: w) ->
  (forall c, key_char c = true -> ci_eq x c = false) ->
  forall (items : list item) (j : nat),
    ci_find (x :: w) (render_key K j items) <> None ->
    ci_find (x :: w) (render_src items) <> None.
Proof.
  intros HK Hw Hx items j Hf.
  destruct (ci_find (x :: w) (render_key K j items)) as [n|] eqn:E;
    [|contradiction].
  assert (Hs : ci_strip_prefix (x :: w) (skipn n (render_key K j items)) <> None).
  { clear - E. revert n E. induction (render_key K j items) as [|c s IH];
      intros n E; cbn [ci_find] in E.
    - destruct (ci_strip_prefix (x :: w) []) eqn:Ep; [|discriminate E].
      cbn in Ep. discriminate.
    - destruct (ci_strip_prefix (x :: w) (c :: s)) eqn:Ep.
      + cbn [is_some] in E. injection E as <-. cbn [skipn]. rewrite Ep. discriminate.
      + cbn [is_some] in E. destruct (ci_find (x :: w) s) as [m|]; [|discriminate E].
        cbn in E. injection E as <-. cbn [skipn]. now apply IH. }
  destruct (output_suffix K HK items j (firstn n (render_key K j items))
              (skipn n (render_key K j items))
              (eq_sym (firstn_skipn n _))) as [H|[H|H]].
  - rewrite H in Hs. now cbn in Hs.
  - destruct H as (c & b' & Hb & Hc). rewrite Hb in Hs.
    cbn [ci_strip_prefix] in Hs. now rewrite (Hx c Hc) in Hs.
  - destruct H as (i1 & c & r & j' & -> & Hb). rewrite Hb in Hs.
    destruct (ci_strip_prefix (x :: w) (render_key K j' (Ch c :: r))) as [r'|] eqn:Ep;
      [|contradiction].
    destruct (ci_strip_prefix_output K (x :: w) Hw _ _ _ Ep) as (i3 & j3 & _ & Hp).
    rewrite render_src_app. apply ci_find_occurs. rewrite Hp. discriminate.
Qed.

Lemma comment_re_carried : carried It.comment_re.
Proof.
  intros K j items HK H. unfold It.comment_re in *.
  destruct (strip_prefix (lit "<!--") (render_key K j items)) as [r'|] eqn:Ep;
    [|contradiction].
  destruct (strip_prefix_output K (lit "<!--")
              ltac:(repeat (apply Forall_cons; [discriminate|]); apply Forall_nil)
              _ _ _ Ep) as (i3 & j3 & -> & Hp).
  rewrite Hp.
  pose proof (find_output K 45%Z [45%Z; 62%Z] HK
                ltac:(repeat (apply Forall_cons; [discriminate|]); apply Forall_nil)
                eq_refl i3 j3) as Hf.
  change (45%Z :: [45%Z; 62%Z]) with (lit "-->") in Hf.
  destruct (find (lit "-->") (render_key K j3 i3)); [|contradiction].
  destruct (find (lit "-->") (render_src i3)); [discriminate|].
  exfalso. apply Hf; [discriminate | reflexivity].
Qed.

Lemma ci_eq_lt_key (c : Z) : key_char c = true -> ci_eq 60 c = false.
Proof.
  unfold key_char, ci_eq, lower, is_upper_az, is_digit09, in_range. intros H.
  cbn [Z.eqb Pos.eqb andb orb].
  rewrite !Bool.orb_false_r.
  destruct (Z.leb 65 c && Z.leb c 90) eqn:Eu.
  - apply Bool.andb_true_iff in Eu. rewrite !Z.leb_le in Eu.
    apply Z.eqb_neq. lia.
  - destruct (Z.eqb_spec c 304); [reflexivity|].
    destruct (Z.eqb_spec c 8490); [reflexivity|].
    apply Z.eqb_neq. rewrite Bool.orb_false_r in H.
    apply Bool.orb_true_iff in H. destruct H as [H|H].
    + apply Z.eqb_eq in H. lia.
    + apply Bool.andb_true_iff in H. rewrite !Z.leb_le in H. lia.
Qed.

Lemma element_re_carried (u : unicode_db) (k : kind) :
  carried (It.element_re u (tag_of k)).
Proof.
  intros K j items HK H. unfold It.element_re in *.
  destruct (ci_strip_prefix (lit "<" ++ tag_of k) (render_key K j items))
    as [[|c r]|] eqn:Ep; try contradiction.
  assert (Hw : Forall (fun x => ci_eq x 95 = false) (lit "<" ++ tag_of k))
    by (destruct k; repeat (apply Forall_cons; [reflexivity|]); apply Forall_nil).
  destruct (ci_strip_prefix_output K _ Hw _ _ _ Ep) as (i3 & j3 & E3 & Hp).
  rewrite Hp.
  destruct (is_word u c) eqn:Ec; [contradiction|].
  destruct i3 as [|[c'|m] i3']; cbn [render_key render_src] in *.
  - discriminate E3.
  - injection E3 as <- ->. rewrite Ec.
    assert (Hw2 : Forall (fun x => ci_eq x 95 = false)
                         (lit "</" ++ tag_of k ++ lit ">"))
      by (destruct k; repeat (apply Forall_cons; [reflexivity|]); apply Forall_nil).
    pose proof (fun x w (E : lit "</" ++ tag_of k ++ lit ">" = x :: w)
                    (Hx : forall c0, key_char c0 = true -> ci_eq x c0 = false) =>
                  ci_find_output K x w HK
                    ltac:(rewrite <- E; exact Hw2) Hx (Ch c :: i3') j3) as Hf.
    specialize (Hf 60%Z (lit "/" ++ tag_of k ++ lit ">") eq_refl ci_eq_lt_key).
    change (60%Z :: lit "/" ++ tag_of k ++ lit ">")
      with (lit "</" ++ tag_of k ++ lit ">") in Hf.
    cbn [render_key render_src] in Hf.
    destruct (ci_find (lit "</" ++ tag_of k ++ lit ">") (c :: render_key K j3 i3'));
      [|contradiction].
    destruct (ci_find (lit "</" ++ tag_of k ++ lit ">") (c :: render_src i3'));
      [discriminate|].
    exfalso. apply Hf; [discriminate | reflexivity].
  - exfalso. rewrite key_app_shape in E3. injection E3 as -> _.
    unfold is_word in Ec. cbn in Ec. discriminate.
Qed.

Lemma unmatched_tail {G} (M : str -> option (nat * G)) (c : Z) (s : str) :
  unmatched M (c :: s) -> unmatched M s.
Proof. intros H a b E. apply (H (c :: a) b). now rewrite E. Qed.

Lemma bracketed_nil (M : str -> option (nat * unit)) : bracketed M -> M [] = None.
Proof.
  intros HM. destruct (M []) as [[n g]|] eqn:E; [|reflexivity].
  destruct (HM _ _ _ E) as [[H1 H2] _]. simpl in H2. lia.
Qed.

Lemma bracketed_key_char (M : str -> option (nat * unit)) (c : Z) (b : str) :
  bracketed M -> key_char c = true -> M (c :: b) = None.
Proof.
  intros HM Hc. destruct (M (c :: b)) as [[n g]|] eqn:E; [|reflexivity].
  destruct (HM _ _ _ E) as (_ & Hh & _). cbn [hd] in Hh. subst c. discriminate.
Qed.

(** After its own pass a pattern matches nowhere. *)
Lemma pass_own (M : str -> option (nat * unit)) (K : str) :
  In K kinds -> bracketed M -> carried M ->
  forall (s : str) (j : nat), unmatched M (render_key K j (cut M s)).
Proof.
  intros HK HM HC s j a b E.
  destruct (output_suffix K HK _ _ _ _ E) as [->|[H|H]].
  - now apply bracketed_nil.
  - destruct H as (c & b' & -> & Hc). now apply bracketed_key_char.
  - destruct H as (i1 & c & r & j' & Hi & ->).
    pose proof (cut_unmatched M (bracketed_pos M HM) s i1 c r Hi) as Hn.
    destruct (M (render_key K j' (Ch c :: r))) eqn:Em; [|reflexivity].
    exfalso. apply (HC K j' (Ch c :: r) HK); [rewrite Em; discriminate | exact Hn].
Qed.

(** A pattern that matches nowhere before the pass of another pattern
    matches nowhere after it. *)
Lemma pass_other (M M' : str -> option (nat * unit)) (K : str) :
  In K kinds -> bracketed M -> bracketed M' -> carried M' ->
  forall (s : str) (j : nat),
    unmatched M' s -> unmatched M' (render_key K j (cut M s)).
Proof.
  intros HK HM HM' HC s j Hu a b E.
  destruct (output_suffix K HK _ _ _ _ E) as [->|[H|H]].
  - now apply bracketed_nil.
  - destruct H as (c & b' & -> & Hc). now apply bracketed_key_char.
  - destruct H as (i1 & c & r & j' & Hi & ->).
    assert (Hn : M' (render_src (Ch c :: r)) = None).
    { apply (Hu (render_src i1)).
      rewrite <- render_src_app, <- Hi. symmetry.
      apply cut_src, bracketed_pos, HM. }
    destruct (M' (render_key K j' (Ch c :: r))) eqn:Em; [|reflexivity].
    exfalso. apply (HC K j' (Ch c :: r) HK); [rewrite Em; discriminate | exact Hn].
Qed.

(** X16: in the document [make_placeholders] returns, none of the three
    patterns matches anywhere: no comment, no script element and no style
    element is left; protecting it again changes nothing and stores
    nothing. *)
Theorem protection_complete (u : unicode_db) (doc : str) :
  let h := fst (It.make_placeholders u doc) in
  unmatched It.comment_re h
  /\ unmatched (It.element_re u (lit "script")) h
  /\ unmatched (It.element_re u (lit "style")) h
  /\ It.make_placeholders u h = (h, []).
Proof.
  cbn zeta.
  assert (HKc : In (lit "COMMENT") kinds) by (simpl; tauto).
  assert (HKs : In (lit "SCRIPT") kinds) by (simpl; tauto).
  assert (HKy : In (lit "STYLE") kinds) by (simpl; tauto).
  pose proof comment_re_bracketed as B1.
  pose proof (element_re_bracketed u (lit "script")) as B2.
  pose proof (element_re_bracketed u (lit "style")) as B3.
  pose proof comment_re_carried as C1.
  pose proof (element_re_carried u Script) as C2.
  pose proof (element_re_carried u Style) as C3.
  cbn [tag_of] in C2, C3.
  assert (W0 : wf_entries []) by (split; [constructor | reflexivity]).
  assert (E : exists h1 h2 j1 j2 j3,
             fst (It.make_placeholders u doc)
             = render_key (lit "STYLE") j3 (cut (It.element_re u (lit "style")) h2)
             /\ h2 = render_key (lit "SCRIPT") j2
                       (cut (It.element_re u (lit "script")) h1)
             /\ h1 = render_key (lit "COMMENT") j1 (cut It.comment_re doc)).
  { unfold It.make_placeholders.
    change (@nil (str * str)) with (map entry []).
    rewrite (pass_cut It.comment_re (lit "COMMENT") HKc (bracketed_pos _ B1) doc [] W0).
    pose proof (wf_entries_stored (lit "COMMENT")
                  (blocks (cut It.comment_re doc)) HKc [] W0) as W1.
    rewrite (pass_cut (It.element_re u (lit "script")) (lit "SCRIPT") HKs
               (bracketed_pos _ B2) _ _ W1).
    pose proof (wf_entries_stored (lit "SCRIPT")
                  (blocks (cut (It.element_re u (lit "script"))
                     (render_key (lit "COMMENT") (List.length (@nil (str * nat * str)))
                        (cut It.comment_re doc)))) HKs _ W1) as W2.
    rewrite (pass_cut (It.element_re u (lit "style")) (lit "STYLE") HKy
               (bracketed_pos _ B3) _ _ W2).
    cbn [fst]. do 5 eexists. split; [reflexivity | split; reflexivity]. }
  destruct E as (h1 & h2 & j1 & j2 & j3 & -> & E2 & E1).
  pose proof (pass_own It.comment_re (lit "COMMENT") HKc B1 C1 doc j1) as U1c.
  rewrite <- E1 in U1c.
  pose proof (pass_own _ (lit "SCRIPT") HKs B2 C2 h1 j2) as U2s.
  pose proof (pass_other _ It.comment_re (lit "SCRIPT") HKs B2 B1 C1 h1 j2 U1c) as U2c.
  rewrite <- E2 in U2s, U2c.
  pose proof (pass_own _ (lit "STYLE") HKy B3 C3 h2 j3) as U3y.
  pose proof (pass_other _ It.comment_re (lit "STYLE") HKy B3 B1 C1 h2 j3 U2c) as U3c.
  pose proof (pass_other _ (It.element_re u (lit "script")) (lit "STYLE")
                HKy B3 B2 C2 h2 j3 U2s) as U3s.
  set (h3 := render_key (lit "STYLE") j3 (cut (It.element_re u (lit "style")) h2)) in *.
  repeat (split; [assumption|]).
  unfold It.make_placeholders.
  rewrite (re_sub_no_match _ _ (unmatched It.comment_re) It.comment_re);
    [| apply unmatched_tail | intros t Ht; exact (Ht [] t eq_refl) | exact U3c].
  rewrite (re_sub_no_match _ _ (unmatched (It.element_re u (lit "script"))));
    [| apply unmatched_tail | intros t Ht; exact (Ht [] t eq_refl) | exact U3s].
  apply (re_sub_no_match _ _ (unmatched (It.element_re u (lit "style"))));
    [apply unmatched_tail | intros t Ht; exact (Ht [] t eq_refl) | exact U3y].
Qed.

(** ** The text pass of the ru script *)

Lemma orig_prefix (f : str -> str) (k : nat) (w : str) :
  Forall (fun x => x <> 62%Z) w ->
  forall items : list titem,
    strip_prefix w (render_nodes f k items) <> None ->
    strip_prefix w (render_orig items) <> None.
Proof.
  induction 1 as [|x w Hx Hw IH]; intros items H; [discriminate|].
  destruct items as [|[c|i inner] r];
    cbn [render_nodes render_orig app strip_prefix] in *.
  - exact H.
  - destruct (Z.eqb x c); [now apply IH | exact H].
  - destruct (Z.eqb_spec x 62); [contradiction | exact H].
Qed.

Lemma token_T_shape (k : nat) :
  Ru.token (lit "T") k = lit "@@T_" ++ dec k ++ lit "@@".
Proof. reflexivity. Qed.

Lemma token_T_needs (k : nat) (s : str) :
  strip_prefix (Ru.token (lit "T") k) s <> None ->
  strip_prefix (lit "@@T_") s <> None.
Proof.
  rewrite token_T_shape, strip_prefix_app_l.
  destruct (strip_prefix (lit "@@T_") s); [discriminate | congruence].
Qed.

(** Replacing one placeholder passes over another one and the bracket
    after it. *)
Lemma replace_over_token (k i : nat) (new rest : str) :
  k <> i ->
  replace (Ru.token (lit "T") k) new (Ru.token (lit "T") i ++ 60%Z :: rest)
  = Ru.token (lit "T") i ++ 60%Z :: replace (Ru.token (lit "T") k) new rest.
Proof.
  intros Hne.
  pose proof (token_not_other (lit "T") k i (60%Z :: rest) Hne) as H0.
  rewrite (token_shape (lit "T") i) in H0 |- *.
  change (token_body (lit "T")) with [84%Z; 95%Z] in *.
  cbn [app] in *. rewrite <- !app_assoc in *. cbn [app] in *.
  rewrite (replace_skip _ _ _ _ H0).
  rewrite (replace_skip _ _ _ _ (token_not_after_at (lit "T") k 84 _ ltac:(discriminate))).
  change (84%Z :: 95%Z :: dec i ++ 64%Z :: 64%Z :: 60%Z :: rest)
    with ((84%Z :: 95%Z :: dec i) ++ 64%Z :: 64%Z :: 60%Z :: rest).
  rewrite (replace_clean (lit "T") k new (84%Z :: 95%Z :: dec i)).
  2:{ repeat (apply Forall_cons; [discriminate|]).
      eapply Forall_impl; [|apply dec_digits]. cbn beta. intros a Ha. lia. }
  assert (H1 : strip_prefix (Ru.token (lit "T") k) (64%Z :: 64%Z :: 60%Z :: rest) = None)
    by (rewrite token_shape; reflexivity).
  assert (H2 : strip_prefix (Ru.token (lit "T") k) (64%Z :: 60%Z :: rest) = None)
    by (rewrite token_shape; reflexivity).
  rewrite (replace_skip _ _ _ _ H1), (replace_skip _ _ _ _ H2).
  rewrite (replace_skip _ _ _ _ (token_not_at_clean (lit "T") k 60 rest ltac:(discriminate))).
  reflexivity.
Qed.

(** One step of [process_batches]: the placeholder with the number [k]
    gives way to the final text of its segment, wherever it stands. *)
Lemma replace_node_step (f : str -> str) (k : nat) (new : str)
    (items : list titem) :
  occurs_not (lit "@@T_") (render_orig items) ->
  (forall i inner, In (TNode i inner) items ->
                   Forall (fun c => c <> 64%Z) (node_final f inner)) ->
  (forall inner, In (TNode k inner) items -> node_final f inner = new) ->
  replace (Ru.token (lit "T") k) new (render_nodes f k items)
  = render_nodes f (S k) items.
Proof.
  induction items as [|[c|i inner] r IH]; intros Ho Hc Hk.
  - reflexivity.
  - cbn [render_nodes render_orig] in *.
    assert (Hs : strip_prefix (Ru.token (lit "T") k) (c :: render_nodes f k r) = None).
    { destruct (strip_prefix (Ru.token (lit "T") k) (c :: render_nodes f k r)) eqn:E;
        [|reflexivity].
      exfalso.
      apply (orig_prefix f k (lit "@@T_")
               ltac:(repeat (apply Forall_cons; [discriminate|]); apply Forall_nil)
               (TCh c :: r)).
      - apply (token_T_needs k). cbn [render_nodes]. rewrite E. discriminate.
      - cbn [render_orig]. now apply occurs_not_here. }
    rewrite (replace_skip _ _ _ _ Hs). f_equal.
    apply IH.
    + exact (occurs_not_tail _ c _ Ho).
    + intros i inner Hin. apply (Hc i inner). now right.
    + intros inner Hin. apply Hk. now right.
  - cbn [render_nodes render_orig app] in *.
    assert (Ho' : occurs_not (lit "@@T_") (render_orig r)).
    { apply occurs_not_tail in Ho. apply occurs_not_app in Ho.
      exact (occurs_not_tail _ 60%Z _ Ho). }
    assert (IH' : replace (Ru.token (lit "T") k) new (render_nodes f k r)
                  = render_nodes f (S k) r).
    { apply IH; [exact Ho' | |].
      - intros i' inner' Hin. apply (Hc i' inner'). now right.
      - intros inner' Hin. apply Hk. now right. }
    rewrite (replace_skip _ _ _ _
               (token_not_at_clean (lit "T") k 62 _ ltac:(discriminate))).
    f_equal.
    pose proof (token_not_at_clean (lit "T") k 60 (render_nodes f k r)
                  ltac:(discriminate)) as H60.
    destruct (Nat.ltb_spec i k) as [Hlt|Hge].
    + replace (Nat.ltb i (S k)) with true by (symmetry; apply Nat.ltb_lt; lia).
      rewrite (replace_clean (lit "T") k new (node_final f inner))
        by (apply (Hc i inner); now left).
      f_equal. rewrite (replace_skip _ _ _ _ H60). now rewrite IH'.
    + destruct (Nat.eq_dec i k) as [->|Hne].
      * replace (Nat.ltb k (S k)) with true by (symmetry; apply Nat.ltb_lt; lia).
        rewrite (replace_here _ new _ (token_nonempty (lit "T") k)).
        rewrite (Hk inner (or_introl eq_refl)). f_equal.
        rewrite (replace_skip _ _ _ _ H60). now rewrite IH'.
      * replace (Nat.ltb i (S k)) with false by (symmetry; apply Nat.ltb_ge; lia).
        rewrite (replace_over_token k i new _ (not_eq_sym Hne)).
        now rewrite IH'.
Qed.

Lemma render_nodes_app (f : str -> str) (k : nat) (a b : list titem) :
  render_nodes f k (a ++ b) = render_nodes f k a ++ render_nodes f k b.
Proof.
  induction a as [|[c|i inner] a IH]; cbn [app render_nodes];
    [reflexivity | now rewrite IH | rewrite IH].
  now rewrite <- !app_assoc.
Qed.

Lemma render_orig_app (a b : list titem) :
  render_orig (a ++ b) = render_orig a ++ render_orig b.
Proof.
  induction a as [|[c|i inner] a IH]; cbn [app render_orig];
    [reflexivity | now rewrite IH | rewrite IH].
  now rewrite <- !app_assoc.
Qed.

Lemma render_nodes_text (f : str -> str) (k : nat) (m : str) :
  render_nodes f k (map TCh m) = m.
Proof. induction m as [|c m IH]; cbn [map render_nodes]; [reflexivity | now rewrite IH]. Qed.

Lemma render_orig_text (m : str) : render_orig (map TCh m) = m.
Proof. induction m as [|c m IH]; cbn [map render_orig]; [reflexivity | now rewrite IH]. Qed.

Lemma no_node_in_text (m : str) (i : nat) (inner : str) :
  ~ In (TNode i inner) (map TCh m).
Proof. intros H. apply in_map_iff in H as (c & E & _). discriminate E. Qed.

Ltac conj_exact :=
  repeat match goal with |- _ /\ _ => split end; try assumption; try reflexivity.

(** One text node in the pass: what [repl_text] returns and what becomes
    of the translator. *)
Lemma repl_text_step (f : str -> str) (bt : Ru.BatchTranslator) (m inner : str) :
  text_inv bt -> m = [62%Z] ++ inner ++ [60%Z] ->
  exists (head : list titem) (more : list Ru.pending_item),
    fst (Ru.repl_text bt m inner) = render_nodes f 0 head
    /\ render_orig head = m
    /\ (forall N, (forall i x, In (TNode i x) head -> i < N) ->
                  translated_node f inner = render_nodes f N head)
    /\ text_inv (snd (Ru.repl_text bt m inner))
    /\ Ru._pending (snd (Ru.repl_text bt m inner)) = Ru._pending bt ++ more
    /\ nodes_in (snd (Ru.repl_text bt m inner)) head
    /\ Ru.tr (snd (Ru.repl_text bt m inner)) = Ru.tr bt.
Proof.
  intros Hinv Hm. pose proof Hinv as [Ha Hb].
  assert (Hskip : translatable inner = false ->
            exists (head : list titem) (more : list Ru.pending_item),
              m = render_nodes f 0 head
              /\ render_orig head = m
              /\ (forall N, (forall i x, In (TNode i x) head -> i < N) ->
                            translated_node f inner = render_nodes f N head)
              /\ Ru._pending bt = Ru._pending bt ++ more
              /\ nodes_in bt head).
  { intros Ht. exists (map TCh m), [].
    rewrite render_nodes_text, render_orig_text, app_nil_r.
    split; [reflexivity|]. split; [reflexivity|]. split; [|split; [reflexivity|]].
    - intros N _. unfold translated_node. rewrite Ht, render_nodes_text.
      now symmetry.
    - intros i x Hin. now apply no_node_in_text in Hin. }
  unfold Ru.repl_text.
  destruct inner as [|c0 t0] eqn:Ei.
  { destruct (Hskip eq_refl) as (head & more & H1 & H2 & H3 & H4 & H5).
    exists head, more. cbn [fst snd]. conj_exact. }
  rewrite <- Ei in *. clear Ei c0 t0.
  destruct (has_latin inner) eqn:El; cbn [negb].
  2:{ destruct (Hskip ltac:(unfold translatable; now rewrite El))
        as (head & more & H1 & H2 & H3 & H4 & H5).
      exists head, more. cbn [fst snd]. conj_exact. }
  pose proof (has_latin_strip inner El) as Hls.
  destruct (dict_get (Ru.cache bt) inner) as [v|] eqn:Hg.
  - (* in the cache *)
    unfold Ru.translate_preserving_ws. rewrite Hg. cbn [fst snd].
    specialize (Hb inner v Hg).
    destruct (translatable inner) eqn:Et.
    + destruct Hb as (i & p & Hn & Ho & ->).
      exists [TNode i inner], []. rewrite app_nil_r.
      cbn [render_nodes render_orig]. rewrite !app_nil_r.
      split; [reflexivity|]. split; [now symmetry|]. split.
      { intros N HN. unfold translated_node. rewrite Et.
        replace (Nat.ltb i N) with true; [reflexivity|].
        symmetry. apply Nat.ltb_lt. apply (HN i inner). now left. }
      split; [exact Hinv|]. split; [reflexivity|]. split; [|reflexivity].
      intros i' x [E|[]]. injection E as <- <-. now exists p.
    + subst v. destruct (Hskip eq_refl) as (head & more & H1 & H2 & H3 & H4 & H5).
      exists head, more. rewrite <- Hm. conj_exact.
  - destruct (Ru.url_like (strip inner)) eqn:Eu.
    + (* passed over, and cached as itself *)
      assert (Et : translatable inner = false)
        by (unfold translatable; now rewrite El, Eu).
      assert (Hr : Ru.translate_preserving_ws bt inner
                   = (inner, Ru.cached bt inner inner)).
      { unfold Ru.translate_preserving_ws. rewrite Hg.
        destruct (strip inner) as [|c1 t1]; [reflexivity|].
        now rewrite Hls, Eu, Bool.andb_false_r. }
      rewrite Hr. cbn [fst snd Ru.cached Ru._pending Ru.tr].
      destruct (Hskip Et) as (head & more & H1 & H2 & H3 & H4 & H5).
      exists head, more. rewrite <- Hm.
      split; [exact H1|]. split; [exact H2|]. split; [exact H3|].
      split; [|conj_exact].
      split; [exact Ha|].
      intros s v Hs. unfold Ru.cached in Hs. cbn [Ru.cache Ru._pending] in *.
      destruct (str_eq_dec inner s) as [<-|Hne].
      * rewrite dict_get_set_same in Hs. injection Hs as <-. now rewrite Et.
      * rewrite dict_get_set_other in Hs by exact Hne. exact (Hb s v Hs).
    + (* queued *)
      assert (Et : translatable inner = true)
        by (unfold translatable; now rewrite El, Eu).
      rewrite (segment_queued bt inner Hg Hls Eu). cbn [fst snd Ru._pending Ru.tr].
      set (n := List.length (Ru._pending bt)).
      exists [TNode n inner], [queued n inner].
      cbn [render_nodes render_orig]. rewrite !app_nil_r.
      split; [reflexivity|]. split; [now symmetry|]. split.
      { intros N HN. unfold translated_node. rewrite Et.
        replace (Nat.ltb n N) with true; [reflexivity|].
        symmetry. apply Nat.ltb_lt. apply (HN n inner). now left. }
      assert (Hnew : nth_error (Ru._pending bt ++ [queued n inner]) n
                     = Some (queued n inner)).
      { rewrite nth_error_app2 by (unfold n; lia).
        unfold n. now rewrite Nat.sub_diag. }
      split; [|split; [reflexivity | split; [|reflexivity]]].
      * split; cbn [Ru._pending Ru.cache].
        -- intros i p Hn.
           destruct (Nat.lt_ge_cases i n) as [Hi|Hi].
           ++ rewrite nth_error_app1 in Hn by exact Hi. exact (Ha i p Hn).
           ++ rewrite nth_error_app2 in Hn by exact Hi.
              change (List.length (Ru._pending bt)) with n in Hn.
              destruct (i - n) as [|d] eqn:Ed;
                [|exfalso; destruct d; simpl in Hn; discriminate Hn].
              assert (i = n) by (unfold n in *; lia). subst i.
              cbn [nth_error] in Hn. injection Hn as <-. now split.
        -- intros s v Hs. destruct (str_eq_dec inner s) as [<-|Hne].
           ++ rewrite dict_get_set_same in Hs. injection Hs as <-. rewrite Et.
              exists n, (queued n inner). now repeat split.
           ++ rewrite dict_get_set_other in Hs by exact Hne.
              specialize (Hb s v Hs). destruct (translatable s); [|exact Hb].
              destruct Hb as (i & p & Hn & Ho & Hv). exists i, p.
              split; [|now split].
              rewrite nth_error_app1; [exact Hn|].
              apply nth_error_Some. rewrite Hn. discriminate.
      * intros i x [E|[]]. injection E as <- <-.
        exists (queued n inner). now split.
Qed.

Lemma nodes_in_more (bt bt' : Ru.BatchTranslator) (more : list Ru.pending_item)
    (items : list titem) :
  Ru._pending bt' = Ru._pending bt ++ more ->
  nodes_in bt items -> nodes_in bt' items.
Proof.
  intros E H i inner Hin. destruct (H i inner Hin) as (p & Hn & Ho).
  exists p. split; [|exact Ho]. rewrite E, nth_error_app1; [exact Hn|].
  apply nth_error_Some. rewrite Hn. discriminate.
Qed.

(** The pass of [translate_textnodes] over the text nodes, before the
    batches are processed. *)
Lemma text_pass (f : str -> str) :
  forall (s : str) (bt : Ru.BatchTranslator),
    text_inv bt ->
    exists (items : list titem) (more : list Ru.pending_item),
      fst (re_sub text_re Ru.repl_text s bt) = render_nodes f 0 items
      /\ render_orig items = s
      /\ (forall N, (forall i x, In (TNode i x) items -> i < N) ->
            re_sub_pure text_re (fun _ inner => translated_node f inner) s
            = render_nodes f N items)
      /\ text_inv (snd (re_sub text_re Ru.repl_text s bt))
      /\ Ru._pending (snd (re_sub text_re Ru.repl_text s bt))
         = Ru._pending bt ++ more
      /\ nodes_in (snd (re_sub text_re Ru.repl_text s bt)) items
      /\ Ru.tr (snd (re_sub text_re Ru.repl_text s bt)) = Ru.tr bt.
Proof.
  intros s. remember (List.length s) as k eqn:Hk.
  revert s Hk; induction k as [k IH] using lt_wf_ind; intros s Hk bt Hinv.
  destruct s as [|c s].
  - exists [], []. cbn [re_sub re_sub_from fst snd render_nodes render_orig].
    rewrite app_nil_r. conj_exact. intros i x [].
  - destruct (text_re (c :: s)) as [[n inner]|] eqn:Hm.
    + pose proof (text_re_shape _ _ _ Hm) as [Hn Hf].
      rewrite (re_sub_some _ _ _ _ _ _ _ _ _ Hm). cbn zeta.
      rewrite (re_sub_pure_some _ _ _ _ _ _ _ Hm).
      destruct (repl_text_step f bt (firstn n (c :: s)) inner Hinv Hf)
        as (head & more1 & H1 & H2 & H3 & H4 & H5 & H6 & H7).
      destruct (IH (List.length (skipn (n - 1) s))
                   ltac:(rewrite length_skipn; subst k; simpl; lia)
                   (skipn (n - 1) s) eq_refl
                   (snd (Ru.repl_text bt (firstn n (c :: s)) inner)) H4)
        as (items & more2 & G1 & G2 & G3 & G4 & G5 & G6 & G7).
      exists (head ++ items), (more1 ++ more2). cbn [fst snd].
      split; [now rewrite render_nodes_app, H1, G1|]. split.
      { rewrite render_orig_app, H2, G2.
        destruct n as [|n]; [lia|]. replace (S n - 1) with n by lia.
        cbn [firstn app]. now rewrite firstn_skipn. }
      split.
      { intros N HN. rewrite render_nodes_app.
        rewrite <- H3 by (intros i x Hin; apply (HN i x), in_or_app; now left).
        rewrite <- G3 by (intros i x Hin; apply (HN i x), in_or_app; now right).
        reflexivity. }
      split; [exact G4|]. split; [now rewrite G5, H5, app_assoc|].
      split; [|now rewrite G7].
      intros i x Hin. apply in_app_or in Hin as [Hin|Hin].
      * exact (nodes_in_more _ _ more2 head G5 H6 i x Hin).
      * exact (G6 i x Hin).
    + rewrite (re_sub_none _ _ _ _ _ _ _ Hm).
      rewrite (re_sub_pure_none _ _ _ _ _ Hm).
      destruct (IH (List.length s) ltac:(subst k; simpl; lia) s eq_refl bt Hinv)
        as (items & more & G1 & G2 & G3 & G4 & G5 & G6 & G7).
      exists (TCh c :: items), more. cbn [fst snd render_nodes render_orig].
      split; [now rewrite G1|]. split; [now rewrite G2|]. split.
      { intros N HN. rewrite <- G3; [reflexivity|].
        intros i x Hin. apply (HN i x). now right. }
      conj_exact.
      intros i x [E|Hin]; [discriminate E | exact (G6 i x Hin)].
Qed.

Lemma spaces_clean (w : str) :
  Forall (fun c => is_space c = true) w -> Forall (fun c => c <> 64%Z) w.
Proof.
  intros H. eapply Forall_impl; [|exact H]. cbn beta. intros c Hc ->.
  discriminate Hc.
Qed.

Lemma no_at_sign (t : str) :
  Ru.url_like t = false -> Forall (fun c => c <> 64%Z) t.
Proof.
  unfold Ru.url_like. cbn [existsb]. intros H.
  repeat (apply Bool.orb_false_iff in H; destruct H as [? H]).
  match goal with Hc : contains (lit "@") t = false |- _ =>
    apply contains_false_occurs_not in Hc; rename Hc into Ho end.
  clear - Ho. induction t as [|c t IH]; [constructor|]. constructor.
  - intros ->. specialize (Ho [] (64%Z :: t) eq_refl). discriminate Ho.
  - apply IH. exact (occurs_not_tail _ c t Ho).
Qed.

Lemma node_final_clean (f : str -> str) (inner : str) :
  (forall s, Forall (fun c => c <> 64%Z) s -> Forall (fun c => c <> 64%Z) (f s)) ->
  translatable inner = true ->
  Forall (fun c => c <> 64%Z) (node_final f inner).
Proof.
  intros Hf Ht. unfold node_final, leading_ws, trailing_ws.
  apply Forall_app. split; [apply spaces_clean, take_while_all|].
  apply Forall_app. split.
  - apply Hf, no_at_sign. unfold translatable in Ht.
    apply Bool.andb_true_iff in Ht. destruct Ht as [_ Ht].
    now destruct (Ru.url_like (strip inner)).
  - apply spaces_clean, Forall_rev, take_while_all.
Qed.

(** The loop of [process_batches] over the pending entries from the number
    [k] on. *)
Lemma process_fold (f : str -> str) (items : list titem) :
  occurs_not (lit "@@T_") (render_orig items) ->
  (forall i inner, In (TNode i inner) items ->
                   Forall (fun c => c <> 64%Z) (node_final f inner)) ->
  forall (ps : list Ru.pending_item) (k : nat) (c : list (str * str)),
    (forall j p, nth_error ps j = Some p ->
                 p = queued (k + j) (Ru.p_original p)
                 /\ forall inner, In (TNode (k + j) inner) items ->
                                  inner = Ru.p_original p) ->
    fst (fold_left
           (fun (acc : str * list (str * str)) (it : Ru.pending_item * str) =>
              let result := Ru.p_prefix (fst it) ++ snd it ++ Ru.p_suffix (fst it) in
              (replace (Ru.p_placeholder (fst it)) result (fst acc),
               dict_set (snd acc) (Ru.p_original (fst it)) result))
           (combine ps (map f (map Ru.p_stripped ps)))
           (render_nodes f k items, c))
    = render_nodes f (k + List.length ps) items.
Proof.
  intros Ho Hf. induction ps as [|p ps IH]; intros k c Hps.
  - cbn [map combine fold_left fst List.length]. now rewrite Nat.add_0_r.
  - cbn [map combine fold_left fst snd List.length].
    destruct (Hps 0 p eq_refl) as [Hp Hin]. rewrite Nat.add_0_r in Hp, Hin.
    assert (Hstep : replace (Ru.p_placeholder p)
                      (Ru.p_prefix p ++ f (Ru.p_stripped p) ++ Ru.p_suffix p)
                      (render_nodes f k items)
                    = render_nodes f (S k) items).
    { rewrite Hp at 1 2 3 4. cbn [queued Ru.p_placeholder Ru.p_prefix
                                   Ru.p_stripped Ru.p_suffix].
      rewrite <- token_T_shape.
      apply (replace_node_step f k _ items Ho Hf).
      intros inner Hi. now rewrite (Hin inner Hi). }
    rewrite Hstep, IH.
    + f_equal. lia.
    + intros j q Hq. specialize (Hps (S j) q Hq).
      now replace (k + S j) with (S k + j) in Hps by lia.
Qed.

(** X17: what [translate_textnodes] makes of a document, for a new
    translator whose backend answers text by text with [f] (no backend:
    every text is answered by itself): every text node that has a Latin
    letter and does not look like an address or a template becomes its
    margins around the answer for its stripped text, also when the same
    text stands in several nodes, and everything else stays as it is;
    nothing is left pending.  The document must not hold the text of the
    beginning of a placeholder, and the backend must put no at sign into a
    text that has none. *)
Theorem textnodes_translated (be : option backend) (f : str -> str)
    (content : str) :
  answers (Ru.new_translator be) f ->
  (forall s, Forall (fun c => c <> 64%Z) s -> Forall (fun c => c <> 64%Z) (f s)) ->
  contains (lit "@@T_") content = false ->
  fst (fst (Ru.translate_textnodes content (Ru.new_translator be)))
  = re_sub_pure text_re (fun _ inner => translated_node f inner) content
  /\ Ru._pending (snd (fst (Ru.translate_textnodes content (Ru.new_translator be))))
     = [].
Proof.
  intros Ha Hf Ho. apply contains_false_occurs_not in Ho.
  unfold Ru.translate_textnodes.
  assert (Hinv : text_inv (Ru.new_translator be)).
  { split.
    - intros i p H. destruct i; discriminate H.
    - intros s v H. discriminate H. }
  destruct (text_pass f content (Ru.new_translator be) Hinv)
    as (items & more & G1 & G2 & G3 & G4 & G5 & G6 & G7).
  destruct (re_sub text_re Ru.repl_text content (Ru.new_translator be))
    as [content1 bt1].
  cbn [fst snd] in *. subst content1.
  assert (HN : forall i x, In (TNode i x) items -> i < List.length (Ru._pending bt1)).
  { intros i x Hin. destruct (G6 i x Hin) as (p & Hn & _).
    apply nth_error_Some. rewrite Hn. discriminate. }
  rewrite (G3 _ HN).
  assert (Ha1 : answers bt1 f) by (unfold answers in *; now rewrite G7).
  unfold Ru.process_batches.
  destruct (Ru._pending bt1) as [|p0 ps] eqn:Hp.
  - cbn [fst snd]. split; [reflexivity | exact Hp].
  - pose proof (translate_all_pointwise bt1 f (map Ru.p_stripped (p0 :: ps)) Ha1)
      as Ht.
    destruct (Ru.translate_all bt1 (map Ru.p_stripped (p0 :: ps))) as [tall calls].
    cbn [fst] in Ht. subst tall.
    rewrite <- G2 in Ho.
    assert (Hclean : forall i inner, In (TNode i inner) items ->
                       Forall (fun c => c <> 64%Z) (node_final f inner)).
    { intros i inner Hin. apply node_final_clean; [exact Hf|].
      destruct (G6 i inner Hin) as (p & Hn & <-).
      destruct G4 as [Hq _]. exact (proj2 (Hq i p Hn)). }
    pose proof (process_fold f items Ho Hclean (p0 :: ps) 0 (Ru.cache bt1)) as Hfold.
    destruct (fold_left _ (combine (p0 :: ps) _) (render_nodes f 0 items, Ru.cache bt1))
      as [content2 cache2].
    cbn [fst snd Ru._pending] in *. split; [|reflexivity].
    apply Hfold. intros j p Hj. rewrite <- Hp in Hj.
    destruct G4 as [Hq _]. split; [exact (proj1 (Hq j p Hj))|].
    intros inner Hin. destruct (G6 j inner Hin) as (p' & Hn & Ho').
    rewrite Hp in Hj, Hn. rewrite Hj in Hn. now injection Hn as <-.
Qed.

Lemma textnodes_translated_witness :
  fst (fst (Ru.translate_textnodes
              (lit "<p> Ciao </p><b>12</b><i> Ciao </i><a>www.x.it</a>")
              (Ru.new_translator (Some word_backend))))
  = lit "<p> Privet </p><b>12</b><i> Privet </i><a>www.x.it</a>".
Proof.
  refine (eq_trans
            (proj1 (textnodes_translated (Some word_backend)
                      (fun s => if str_eqb s (lit "Ciao") then lit "Privet" else s)
                      (lit "<p> Ciao </p><b>12</b><i> Ciao </i><a>www.x.it</a>")
                      _ _ _)) _).
  - intros items. left. reflexivity.
  - intros s Hs. destruct (str_eqb s (lit "Ciao")); [|exact Hs].
    repeat (apply Forall_cons; [discriminate|]). apply Forall_nil.
  - vm_compute. reflexivity.
  - vm_compute. reflexivity.
Defined.

(** ** Restoring, where there is nothing to restore *)

Lemma replace_absent (p q new s : str) :
  occurs_not p s -> replace (p ++ q) new s = s.
Proof.
  induction s as [|c s IH]; intros Ho; [apply replace_nil|].
  rewrite replace_skip.
  - f_equal. apply IH. exact (occurs_not_tail p c s Ho).
  - rewrite strip_prefix_app_l. now rewrite (occurs_not_here p _ Ho).
Qed.

(** X18: restoring leaves a text without placeholders as it is, whatever
    was stored: [restore_placeholders] with the store of any document leaves
    a text that does not hold the beginning of a placeholder unchanged, and
    [restore_blocks] leaves a text without two at signs in a row unchanged,
    whatever the tag and the saved blocks. *)
Theorem restore_leaves_plain_text (u : unicode_db) (doc html : str)
    (tag : str) (saved : list str) (content : str) :
  (contains (lit "__PLACEHOLDER_") html = false ->
   It.restore_placeholders html (snd (It.make_placeholders u doc)) = html)
  /\ (contains (lit "@@") content = false ->
      Ru.restore_blocks content tag saved = content).
Proof.
  split; intros Hc; apply contains_false_occurs_not in Hc.
  - destruct (make_placeholders_entries u doc) as (ents & -> & _ & _).
    unfold It.restore_placeholders.
    induction ents as [|[[K i] b] ents IH]; [reflexivity|].
    cbn [map fold_left]. change (entry (K, i, b)) with (key K i, b).
    cbn [fst snd]. unfold key at 1.
    now rewrite (replace_absent (lit "__PLACEHOLDER_") _ b html Hc).
  - unfold Ru.restore_blocks. generalize 0.
    induction saved as [|b saved IH]; intros idx; [reflexivity|].
    cbn [Ru.restore_from]. unfold Ru.token.
    rewrite (replace_absent (lit "@@") _ b content Hc). apply IH.
Qed.

Lemma restore_leaves_plain_text_witness :
  It.restore_placeholders (lit "<p>a_b</p>")
    (snd (It.make_placeholders ascii_db (lit "<!--x--><p>Ciao</p>")))
  = lit "<p>a_b</p>"
  /\ Ru.restore_blocks (lit "<p>a@b</p>") (lit "style") [lit "<style>p{}</style>"]
     = lit "<p>a@b</p>".
Proof.
  destruct (restore_leaves_plain_text ascii_db (lit "<!--x--><p>Ciao</p>")
              (lit "<p>a_b</p>") (lit "style") [lit "<style>p{}</style>"]
              (lit "<p>a@b</p>")) as [H1 H2].
  split; [apply H1; reflexivity | apply H2; reflexivity].
Defined.

(** ** The core of a text node *)

Lemma spaces_margins (s : str) :
  strip s = [] -> leading_ws s = s /\ trailing_ws s = s.
Proof.
  intros E. unfold strip, rstrip, lstrip in E.
  assert (HD : drop_while is_space s = []).
  { destruct (drop_while is_space s) as [|d D'] eqn:HD; [reflexivity|].
    pose proof (drop_while_head _ _ _ _ HD) as Hd. cbn [List.rev] in E.
    destruct (drop_while_snoc is_space (List.rev D') d Hd) as [x Hx].
    rewrite Hx, rev_app_distr in E. discriminate E. }
  pose proof (take_drop_while is_space s) as Hs. rewrite HD, app_nil_r in Hs.
  split; [exact Hs|].
  unfold trailing_ws.
  assert (Ha : Forall (fun c => is_space c = true) (List.rev s)).
  { apply Forall_rev. rewrite <- Hs. apply take_while_all. }
  rewrite <- (rev_involutive s) at 2. f_equal.
  clear - Ha. induction Ha as [|c l Hc Hl IH]; cbn [take_while]; [reflexivity|].
  now rewrite Hc, IH.
Qed.

(** X19: the core [replace_between_tags] and [replace_attr_values] cut out
    of a text by the lengths of the two whitespace matches is the text
    stripped, as [str.strip] gives it and as the ru script computes it; for
    a text of whitespace alone it is empty. *)
Theorem core_is_stripped (s : str) : It.core_of s = strip s.
Proof.
  unfold It.core_of, slice.
  destruct (strip s) as [|c0 t0] eqn:E.
  - destruct (spaces_margins s E) as [-> ->].
    replace (List.length s - List.length s - List.length s) with 0 by lia.
    reflexivity.
  - rewrite <- E. assert (Hne : strip s <> []) by (rewrite E; discriminate).
    destruct (margins_split s Hne) as (_ & _ & Hs).
    clear E. revert Hs.
    generalize (leading_ws s), (trailing_ws s), (strip s). intros L T X Hs.
    rewrite <- Hs at 1 2. rewrite !length_app, skipn_exact.
    replace (List.length L + (List.length X + List.length T) - List.length T
             - List.length L) with (List.length X) by lia.
    apply firstn_exact.
Qed.

(** * The claims over a whole run *)

(** ** A translator and its history *)

Lemma ran_reachable (be : option backend) (bt : Ru.BatchTranslator)
    (segs : list str) (calls : list call) :
  ran be bt segs calls -> reachable be bt.
Proof. induction 1; now constructor. Qed.

Lemma dedup_snoc (l seen : list str) (s : str) :
  It.dedup seen (l ++ [s])
  = It.dedup seen l ++ (if existsb (str_eqb s) (seen ++ l) then [] else [s]).
Proof.
  revert seen; induction l as [|x l IH]; intros seen; cbn [app It.dedup].
  - rewrite app_nil_r. now destruct (existsb (str_eqb s) seen).
  - destruct (existsb (str_eqb x) seen) eqn:Ex.
    + rewrite IH. f_equal. rewrite !existsb_app. cbn [existsb].
      destruct (str_eqb s x) eqn:Esx; [|reflexivity].
      apply str_eqb_eq in Esx. subst x. now rewrite Ex.
    + cbn [app]. rewrite IH. f_equal. f_equal. rewrite !existsb_app. cbn [existsb].
      now destruct (str_eqb s x), (existsb (str_eqb s) seen),
                   (existsb (str_eqb s) l).
Qed.

Lemma batch_inputs_batches (calls : list call) :
  It.batch_inputs calls = concat (batches calls).
Proof.
  induction calls as [|[l|s] calls IH]; simpl; [reflexivity| |exact IH].
  now rewrite IH.
Qed.

(** [process_batches] hands the stripped texts of the pending segments to
    the backend, all of them and nothing else. *)
Lemma process_batch_inputs (bt : Ru.BatchTranslator) (be : backend) (content : str) :
  Ru.tr bt = Some be ->
  It.batch_inputs (snd (Ru.process_batches bt content))
  = map Ru.p_stripped (Ru._pending bt).
Proof.
  intros Htr. rewrite batch_inputs_batches. unfold Ru.process_batches.
  destruct (Ru._pending bt) as [|p ps] eqn:Hp; [reflexivity|].
  rewrite <- Hp.
  pose proof (translate_all_batches bt be
                (Ru.chunks 80 (map Ru.p_stripped (Ru._pending bt))) Htr) as H.
  unfold Ru.translate_all.
  destruct (fold_left _ (Ru.chunks 80 _) ([], [])) as [tall calls] eqn:E.
  destruct (fold_left _ (combine _ tall) _) as [c1 cache1].
  cbn [snd].
  specialize (H ltac:(unfold Ru.chunks; rewrite ru_chunks_fuel;
                      eapply Forall_impl; [|apply chunks_fuel_bounds; lia];
                      simpl; intros; lia) ([], [])).
  rewrite E in H.
  assert (Hc : batches calls = Ru.chunks 80 (map Ru.p_stripped (Ru._pending bt)))
    by exact H.
  rewrite Hc. unfold Ru.chunks. rewrite ru_chunks_fuel. apply chunks_fuel_concat; lia.
Qed.

Lemma process_pending_nil (bt : Ru.BatchTranslator) (content : str) :
  Ru._pending (snd (fst (Ru.process_batches bt content))) = [].
Proof.
  unfold Ru.process_batches. destruct (Ru._pending bt) as [|p ps] eqn:Hp.
  - exact Hp.
  - destruct (Ru.translate_all bt _) as [tall calls].
    now destruct (fold_left _ (combine _ tall) _).
Qed.

Lemma process_tr (bt : Ru.BatchTranslator) (content : str) :
  Ru.tr (snd (fst (Ru.process_batches bt content))) = Ru.tr bt.
Proof.
  unfold Ru.process_batches. destruct (Ru._pending bt) as [|p ps]; [reflexivity|].
  destruct (Ru.translate_all bt _) as [tall calls].
  now destruct (fold_left _ (combine _ tall) _).
Qed.

Lemma dict_set_keys {V} (d : list (str * V)) (k x : str) (v : V) :
  dict_get (dict_set d k v) x <> None <-> x = k \/ dict_get d x <> None.
Proof.
  destruct (str_eq_dec k x) as [->|Hne].
  - rewrite dict_get_set_same. split; [now left | discriminate].
  - rewrite dict_get_set_other by exact Hne. split; [now right|].
    intros [->|H]; [contradiction | exact H].
Qed.

(** The keys of the cache after [process_batches]: those before, since
    every pending segment is in the cache already. *)
Lemma process_cache_keys (bt : Ru.BatchTranslator) (content x : str) :
  pending_inv bt ->
  dict_get (Ru.cache (snd (fst (Ru.process_batches bt content)))) x <> None
  <-> dict_get (Ru.cache bt) x <> None.
Proof.
  intros [_ Hin]. unfold Ru.process_batches.
  destruct (Ru._pending bt) as [|p ps] eqn:Hp; [reflexivity|]. rewrite <- Hp in *.
  destruct (Ru.translate_all bt _) as [tall calls].
  assert (Hgen : forall (its : list (Ru.pending_item * str)) c0 c,
    (forall it, In it its -> dict_get c (Ru.p_original (fst it)) <> None) ->
    dict_get
      (snd (fold_left
              (fun (acc : str * list (str * str)) (it : Ru.pending_item * str) =>
                 let result := Ru.p_prefix (fst it) ++ snd it ++ Ru.p_suffix (fst it) in
                 (replace (Ru.p_placeholder (fst it)) result (fst acc),
                  dict_set (snd acc) (Ru.p_original (fst it)) result))
              its (c0, c))) x <> None
    <-> dict_get c x <> None).
  { induction its as [|it its IH]; intros c0 c Hc; [reflexivity|].
    cbn [fold_left fst snd]. rewrite IH.
    - rewrite dict_set_keys. split; [|now right].
      intros [->|H]; [apply Hc; now left | exact H].
    - intros it' Hit'. rewrite dict_set_keys. right. apply Hc. now right. }
  specialize (Hgen (combine (Ru._pending bt) tall) content (Ru.cache bt)).
  destruct (fold_left _ (combine _ tall) _) as [c1 cache1]. cbn [fst snd] in *.
  apply Hgen. intros [p' t'] Hit. apply in_combine_l in Hit. now apply Hin.
Qed.

(** One call of [translate_preserving_ws]: the segment is in the cache
    afterwards, and it is queued when it was not there and is sendable. *)
Lemma translate_preserving_step (bt : Ru.BatchTranslator) (s : str) :
  Ru.tr (snd (Ru.translate_preserving_ws bt s)) = Ru.tr bt
  /\ (forall x, dict_get (Ru.cache (snd (Ru.translate_preserving_ws bt s))) x <> None
                <-> x = s \/ dict_get (Ru.cache bt) x <> None)
  /\ map Ru.p_stripped (Ru._pending (snd (Ru.translate_preserving_ws bt s)))
     = map Ru.p_stripped (Ru._pending bt)
       ++ match dict_get (Ru.cache bt) s with
          | Some _ => []
          | None => if sendable s then [strip s] else []
          end.
Proof.
  unfold Ru.translate_preserving_ws, sendable.
  destruct (dict_get (Ru.cache bt) s) as [v|] eqn:Hg.
  - cbn [snd]. split; [reflexivity|]. split; [|now rewrite app_nil_r].
    intros x. split; [now right|]. intros [->|H]; [now rewrite Hg | exact H].
  - destruct (strip s) as [|c0 t0] eqn:Hs.
    + cbn [snd Ru.cached Ru.tr Ru.cache Ru._pending].
      split; [reflexivity|]. split; [intros x; apply dict_set_keys | now rewrite app_nil_r].
    + destruct (Ru.has_cyrillic (c0 :: t0) && negb (has_latin (c0 :: t0))).
      * cbn [snd Ru.cached Ru.tr Ru.cache Ru._pending negb andb].
        split; [reflexivity|]. split; [intros x; apply dict_set_keys | now rewrite app_nil_r].
      * destruct (Ru.url_like (c0 :: t0)).
        -- cbn [snd Ru.cached Ru.tr Ru.cache Ru._pending negb andb].
           split; [reflexivity|].
           split; [intros x; apply dict_set_keys | now rewrite app_nil_r].
        -- cbn [snd Ru.tr Ru.cache Ru._pending negb andb].
           split; [reflexivity|]. split; [intros x; apply dict_set_keys|].
           now rewrite map_app.
Qed.

(** What holds of a translator with its history: what was sent and what is
    pending are the stripped texts of the distinct sendable segments, in
    the order in which they were met first; the cache holds the segments
    met so far. *)
Lemma ran_inputs (be : backend) (bt : Ru.BatchTranslator)
    (segs : list str) (calls : list call) :
  ran (Some be) bt segs calls ->
  It.batch_inputs calls ++ map Ru.p_stripped (Ru._pending bt)
  = map strip (filter sendable (It.dedup [] segs))
  /\ (forall x, dict_get (Ru.cache bt) x <> None <-> In x segs)
  /\ Ru.tr bt = Some be.
Proof.
  induction 1 as [|bt segs calls s Hr (IHa & IHk & IHt)
                  |bt segs calls content Hr (IHa & IHk & IHt)].
  - repeat split; try reflexivity; [intros H; now apply H | intros []].
  - destruct (translate_preserving_step bt s) as (Ht & Hk & Hp).
    split; [|split; [|now rewrite Ht]].
    + rewrite Hp, app_assoc, IHa, dedup_snoc. cbn [app].
      rewrite filter_app, map_app. f_equal.
      destruct (dict_get (Ru.cache bt) s) as [v|] eqn:Hg.
      * assert (Hin : In s segs) by (apply IHk; now rewrite Hg).
        apply existsb_str_eqb in Hin. now rewrite Hin.
      * assert (Hn : existsb (str_eqb s) segs = false).
        { destruct (existsb (str_eqb s) segs) eqn:E; [|reflexivity].
          apply existsb_str_eqb, IHk in E. now rewrite Hg in E. }
        rewrite Hn. cbn [filter]. now destruct (sendable s).
    + intros x. rewrite Hk, in_app_iff, IHk. cbn [In]. intuition congruence.
  - pose proof (reachable_pending _ _ (ran_reachable _ _ _ _ Hr)) as Hpi.
    split; [|split].
    + rewrite process_pending_nil, app_nil_r, batch_inputs_app.
      now rewrite (process_batch_inputs bt be content IHt).
    + intros x. now rewrite (process_cache_keys bt content x Hpi).
    + now rewrite process_tr.
Qed.

(** ** The passes of the ru script as a run of its translator *)

Lemma re_sub_state (G St : Type) (P : St -> Prop)
    (matcher : str -> option (nat * G)) (repl : St -> str -> G -> str * St) :
  (forall st m g, P st -> P (snd (repl st m g))) ->
  forall (s : str) (st : St), P st -> P (snd (re_sub matcher repl s st)).
Proof.
  intros Hstep s.
  remember (List.length s) as k eqn:Hk.
  revert s Hk; induction k as [k IH] using lt_wf_ind; intros s Hk st Hst.
  destruct s as [|c s]; [exact Hst|].
  destruct (matcher (c :: s)) as [[n g]|] eqn:Hm.
  - rewrite (re_sub_some _ _ _ _ _ _ _ _ _ Hm). cbn zeta. cbn [snd].
    apply (IH (List.length (skipn (n - 1) s)));
      [rewrite length_skipn; subst k; simpl; lia | reflexivity |].
    now apply Hstep.
  - rewrite (re_sub_none _ _ _ _ _ _ _ Hm). cbn [snd].
    apply (IH (List.length s)); [subst k; simpl; lia | reflexivity | exact Hst].
Qed.

(** The attribute pass hands values with a Latin letter to the translator. *)
Lemma repl_attr_ran (be : option backend) (segs : list str) (calls : list call)
    (q : Z) (bt : Ru.BatchTranslator) (m : str) (g : nat * str) :
  (exists more, ran be bt (segs ++ more) calls
                /\ Forall (fun s => has_latin s = true) more) ->
  exists more, ran be (snd (Ru.repl_attr q bt m g)) (segs ++ more) calls
               /\ Forall (fun s => has_latin s = true) more.
Proof.
  intros (more & Hr & Hl). unfold Ru.repl_attr. destruct g as [pre val].
  destruct (has_latin val) eqn:E; cbn [negb].
  - pose proof (ran_translate be bt _ calls val Hr) as Hr'.
    destruct (Ru.translate_preserving_ws bt val) as [t bt1]. cbn [snd] in *.
    exists (more ++ [val]). rewrite app_assoc. split; [exact Hr'|].
    apply Forall_app. split; [exact Hl | now constructor].
  - exists more. now split.
Qed.

Lemma attributes_ran (be : option backend) (bt : Ru.BatchTranslator)
    (segs : list str) (calls : list call) (content : str) :
  ran be bt segs calls ->
  exists more,
    ran be (snd (fst (Ru.translate_attributes content bt))) (segs ++ more)
        (calls ++ snd (Ru.translate_attributes content bt))
    /\ Forall (fun s => has_latin s = true) more.
Proof.
  intros Hr. unfold Ru.translate_attributes.
  set (P := fun b : Ru.BatchTranslator =>
              exists more, ran be b (segs ++ more) calls
                           /\ Forall (fun s => has_latin s = true) more).
  assert (Hfold : forall (l : list str) (acc : str * Ru.BatchTranslator),
    P (snd acc) ->
    P (snd (fold_left
              (fun (acc : str * Ru.BatchTranslator) attr =>
                 let (c1, b1) := re_sub (Ru.attr_re 34 attr) (Ru.repl_attr 34)
                                        (fst acc) (snd acc) in
                 re_sub (Ru.attr_re 39 attr) (Ru.repl_attr 39) c1 b1)
              l acc))).
  { induction l as [|a l IH]; intros acc Hacc; [exact Hacc|].
    cbn [fold_left]. apply IH.
    pose proof (re_sub_state _ _ P (Ru.attr_re 34 a) (Ru.repl_attr 34)
                  (fun st m g => repl_attr_ran be segs calls 34 st m g)
                  (fst acc) (snd acc) Hacc) as H1.
    destruct (re_sub (Ru.attr_re 34 a) (Ru.repl_attr 34) (fst acc) (snd acc))
      as [c1 b1]. cbn [snd] in H1.
    exact (re_sub_state _ _ P (Ru.attr_re 39 a) (Ru.repl_attr 39)
             (fun st m g => repl_attr_ran be segs calls 39 st m g) c1 b1 H1). }
  specialize (Hfold Ru.attrs (content, bt)).
  destruct (fold_left _ Ru.attrs (content, bt)) as [content1 bt1].
  cbn [snd] in Hfold.
  destruct Hfold as (more & Hr1 & Hl).
  - exists []. rewrite app_nil_r. split; [exact Hr | constructor].
  - exists more. split; [|exact Hl].
    exact (ran_process be bt1 _ calls content1 Hr1).
Qed.

(** The text pass hands the nodes with a Latin letter to the translator,
    in the order of the document. *)
Lemma text_nodes_ran (be : option backend) (calls : list call) (content : str) :
  forall (bt : Ru.BatchTranslator) (segs : list str),
    ran be bt segs calls ->
    ran be (snd (re_sub text_re Ru.repl_text content bt))
        (segs ++ latin_nodes content) calls.
Proof.
  remember (List.length content) as k eqn:Hk.
  revert content Hk; induction k as [k IH] using lt_wf_ind;
    intros content Hk bt segs Hr.
  destruct content as [|c s].
  - cbn. now rewrite app_nil_r.
  - unfold latin_nodes.
    destruct (text_re (c :: s)) as [[n g]|] eqn:Hm.
    + rewrite (re_sub_some _ _ _ _ _ _ _ _ _ Hm), (finditer_some _ _ _ _ _ _ Hm).
      cbn zeta. cbn [snd map filter].
      assert (Hstep : ran be (snd (Ru.repl_text bt (firstn n (c :: s)) g))
                          (segs ++ (if has_latin g then [g] else [])) calls).
      { unfold Ru.repl_text. destruct g as [|g0 gs].
        - cbn. now rewrite app_nil_r.
        - destruct (has_latin (g0 :: gs)) eqn:E; cbn [negb].
          + pose proof (ran_translate be bt segs calls (g0 :: gs) Hr) as Hr'.
            now destruct (Ru.translate_preserving_ws bt (g0 :: gs)).
          + cbn [snd]. now rewrite app_nil_r. }
      pose proof (IH (List.length (skipn (n - 1) s))
                    ltac:(rewrite length_skipn; subst k; simpl; lia)
                    (skipn (n - 1) s) eq_refl _ _ Hstep) as H.
      unfold latin_nodes in H. rewrite <- app_assoc in H.
      now destruct (has_latin g).
    + rewrite (re_sub_none _ _ _ _ _ _ _ Hm), (finditer_none _ _ _ _ Hm).
      cbn [snd].
      exact (IH (List.length s) ltac:(subst k; simpl; lia) s eq_refl _ _ Hr).
Qed.

Lemma textnodes_ran (be : option backend) (bt : Ru.BatchTranslator)
    (segs : list str) (calls : list call) (content : str) :
  ran be bt segs calls ->
  ran be (snd (fst (Ru.translate_textnodes content bt)))
      (segs ++ latin_nodes content)
      (calls ++ snd (Ru.translate_textnodes content bt)).
Proof.
  intros Hr. unfold Ru.translate_textnodes.
  pose proof (text_nodes_ran be calls content bt segs Hr) as H.
  destruct (re_sub text_re Ru.repl_text content bt) as [content1 bt1].
  cbn [snd] in H. exact (ran_process be bt1 _ calls content1 H).
Qed.

(** A run of the ru script is a run of its translator: the attribute pass
    and then the text pass, each ended by [process_batches]. *)
Lemma main_ran (u : unicode_db) (be : option backend) (doc : str) :
  exists (bt : Ru.BatchTranslator) (values : list str) (content : str),
    ran be bt (values ++ latin_nodes content) (snd (Ru.main u be doc))
    /\ Ru._pending bt = []
    /\ Forall (fun s => has_latin s = true) values.
Proof.
  unfold Ru.main.
  destruct (Ru.protect_blocks (Ru.switch_lang u doc) (lit "style")) as [h1 styles].
  destruct (Ru.protect_blocks h1 (lit "script")) as [h2 scripts].
  destruct (attributes_ran be (Ru.new_translator be) [] [] h2 (ran_new be))
    as (values & Hr1 & Hl).
  destruct (Ru.translate_attributes h2 (Ru.new_translator be))
    as [[h3 bt1] calls1] eqn:E1.
  cbn [fst snd app] in Hr1.
  pose proof (textnodes_ran be bt1 values calls1 h3 Hr1) as Hr2.
  assert (Hp : Ru._pending (snd (fst (Ru.translate_textnodes h3 bt1))) = []).
  { unfold Ru.translate_textnodes.
    destruct (re_sub text_re Ru.repl_text h3 bt1) as [c b].
    apply process_pending_nil. }
  destruct (Ru.translate_textnodes h3 bt1) as [[h4 bt2] calls2].
  cbn [fst snd] in *.
  exists bt2, values, h3. now repeat split.
Qed.







(** ** C10: segments that look like an address or a template, in a run *)

Lemma ru_attr_re_shape (q : Z) (attr t : str) (n pre : nat) (val : str) :
  Ru.attr_re q attr t = Some (n, (pre, val)) ->
  1 <= n /\ firstn n t = firstn pre (firstn n t) ++ val ++ [q].
Proof.
  unfold Ru.attr_re.
  destruct (ci_strip_prefix attr t) as [r|] eqn:Ep; [|discriminate].
  apply ci_strip_prefix_split in Ep as [Et Hp].
  pose proof (take_drop_while is_space r) as Hr.
  destruct (drop_while is_space r) as [|e r2]; [discriminate|].
  destruct (Z.eqb_spec e 61) as [->|_]; [|discriminate].
  pose proof (take_drop_while is_space r2) as Hr2.
  destruct (drop_while is_space r2) as [|q1 r3]; [discriminate|].
  destruct (Z.eqb_spec q1 q) as [->|_]; [|discriminate].
  pose proof (take_drop_while (Ru.in_value q) r3) as Hr3.
  destruct (drop_while (Ru.in_value q) r3) as [|c r4] eqn:Hd; [discriminate|].
  destruct (Z.eqb_spec c q) as [->|_]; [|discriminate].
  intros H. injection H as <- <- <-. split; [lia|].
  set (P := firstn (List.length attr) t) in *.
  set (W1 := take_while is_space r) in *.
  set (W2 := take_while is_space r2) in *.
  set (V := take_while (Ru.in_value q) r3) in *.
  assert (Ht : t = ((P ++ W1 ++ [61%Z] ++ W2 ++ [q]) ++ V ++ [q]) ++ r4).
  { rewrite Et at 1. rewrite <- Hr, <- Hr2, <- Hr3.
    rewrite <- !app_assoc. reflexivity. }
  assert (Hpre : List.length attr + List.length W1 + 1 + List.length W2 + 1
                 = List.length (P ++ W1 ++ [61%Z] ++ W2 ++ [q])).
  { rewrite !length_app, Hp. simpl. lia. }
  assert (Hn : List.length attr + List.length W1 + 1 + List.length W2 + 1
               + List.length V + 1
               = List.length ((P ++ W1 ++ [61%Z] ++ W2 ++ [q]) ++ V ++ [q])).
  { rewrite length_app, <- Hpre, !length_app. simpl. lia. }
  rewrite Hn, Ht, firstn_exact, Hpre, firstn_exact. reflexivity.
Qed.



(** A pass that gives back every match it finds in [s], while it keeps
    what [Q] says of its state. *)
Lemma re_sub_kept (G St : Type) (Q : St -> Prop)
    (matcher : str -> option (nat * G)) (repl : St -> str -> G -> str * St)
    (s : str) :
  (forall t n g, matcher t = Some (n, g) -> 1 <= n) ->
  (forall t n g st, matcher t = Some (n, g) ->
                    In (firstn n t, g) (finditer matcher s) -> Q st ->
                    fst (repl st (firstn n t) g) = firstn n t
                    /\ Q (snd (repl st (firstn n t) g))) ->
  forall st, Q st ->
    fst (re_sub matcher repl s st) = s /\ Q (snd (re_sub matcher repl s st)).
Proof.
  intros Hpos.
  remember (List.length s) as k eqn:Hk.
  revert s Hk; induction k as [k IH] using lt_wf_ind; intros s Hk Hid st Hst.
  destruct s as [|c s]; [now split|].
  destruct (matcher (c :: s)) as [[n g]|] eqn:Hm.
  - rewrite (re_sub_some _ _ _ _ _ _ _ _ _ Hm). cbn zeta. cbn [fst snd].
    rewrite (finditer_some _ _ _ _ _ _ Hm) in Hid.
    destruct (Hid _ _ _ st Hm (or_introl eq_refl) Hst) as [Hf Hq].
    pose proof (Hpos _ _ _ Hm) as Hn.
    destruct (IH (List.length (skipn (n - 1) s))
                ltac:(rewrite length_skipn; subst k; simpl; lia)
                (skipn (n - 1) s) eq_refl
                (fun t n' g' st' Ht Hin => Hid t n' g' st' Ht (or_intror Hin))
                _ Hq) as [Hf2 Hq2].
    split; [|exact Hq2]. rewrite Hf, Hf2.
    destruct n as [|n]; [lia|]. replace (S n - 1) with n by lia.
    cbn [firstn app]. now rewrite firstn_skipn.
  - rewrite (re_sub_none _ _ _ _ _ _ _ Hm). cbn [fst snd].
    rewrite (finditer_none _ _ _ _ Hm) in Hid.
    destruct (IH (List.length s) ltac:(subst k; simpl; lia) s eq_refl Hid st Hst)
      as [Hf Hq].
    split; [now rewrite Hf | exact Hq].
Qed.







(** ** C8: the language tag, in general *)

Lemma ci_strip_prefix_same (p x r : str) :
  ci_same p x -> ci_strip_prefix p (x ++ r) = Some r.
Proof.
  induction 1 as [|a b p x Hab Hpx IH]; [reflexivity|].
  cbn [app ci_strip_prefix]. now rewrite Hab.
Qed.

Lemma ci_eq_l (c : Z) : ci_eq 108 c = true -> c = 108%Z \/ c = 76%Z.
Proof.
  unfold ci_eq. rewrite !andb_false_l, !orb_false_r.
  intros H. apply Z.eqb_eq in H. unfold lower, is_upper_az, in_range in H.
  destruct (Z.leb_spec 65 c), (Z.leb_spec c 90), (Z.eqb_spec c 304),
    (Z.eqb_spec c 8490); simpl in H; lia.
Qed.

(** A code point that a test [P] accepts is no letter l when [P] rejects
    both forms of that letter. *)
Lemma not_l (P : Z -> bool) (c : Z) :
  P 108%Z = false -> P 76%Z = false -> P c = true -> ci_eq 108 c = false.
Proof.
  intros H1 H2 Hc. destruct (ci_eq 108 c) eqn:E; [|reflexivity].
  apply ci_eq_l in E as [-> | ->]; congruence.
Qed.

Lemma ci_find_past (h : Z) (p x y : str) :
  Forall (fun c => ci_eq h c = false) x ->
  ci_find (h :: p) y = None -> ci_find (h :: p) (x ++ y) = None.
Proof.
  intros Hx Hy. induction Hx as [|c x Hc Hx IH]; [exact Hy|].
  cbn [app ci_find ci_strip_prefix]. rewrite Hc. cbn [is_some]. now rewrite IH.
Qed.

(** A pattern none of whose letters matches [d] is not found across [d]. *)
Lemma ci_strip_prefix_stop (p y : str) (d : Z) (r : str) :
  Forall (fun x => ci_eq x d = false) p ->
  ci_strip_prefix p y = None -> p <> [] ->
  ci_strip_prefix p (y ++ d :: r) = None.
Proof.
  intros Hp. revert y. induction Hp as [|x p Hx Hp IH]; intros y Hy Hne;
    [contradiction|].
  destruct y as [|c y]; cbn [app ci_strip_prefix] in *.
  - now rewrite Hx.
  - destruct (ci_eq x c); [|reflexivity].
    destruct p as [|x' p']; [discriminate|]. apply IH; [exact Hy | discriminate].
Qed.

Lemma last_cons_default (a : Z) (x : str) (d : Z) : last (a :: x) d = last x a.
Proof.
  revert a d; induction x as [|b x IH]; intros a d; [reflexivity|].
  change (last (a :: b :: x) d) with (last (b :: x) d).
  rewrite (IH b d), (IH b a). reflexivity.
Qed.

Section LangFacts.
Variable u : unicode_db.

Lemma lang_tail_no_name (st : bool) (q prev : Z) (s : str) :
  ci_strip_prefix (lit "lang") s = None -> lang_tail u st q prev s = None.
Proof.
  intros H. unfold lang_tail. rewrite H. now destruct (is_word u prev).
Qed.

(** The tail of the pattern at the attribute. *)
Lemma lang_tail_here (st : bool) (q prev : Z) (name w1 w2 code sub rest : str) :
  is_word u prev = false ->
  ci_same (lit "lang") name -> ci_same (lit "it") code ->
  (q = 34 \/ q = 39)%Z ->
  Forall (fun c => is_space c = true) w1 ->
  Forall (fun c => is_space c = true) w2 ->
  subtag_ok sub -> (st = true \/ sub = []) ->
  lang_tail u st q prev (lang_attr name w1 w2 q (code ++ sub) ++ rest)
  = Some (4 + List.length w1 + 1 + List.length w2,
          4 + List.length w1 + 1 + List.length w2 + 4 + List.length sub).
Proof.
  intros Hprev Hname Hcode Hq H1 H2 Hsub Hst. unfold lang_tail, lang_attr.
  rewrite Hprev. rewrite <- !app_assoc. cbn [app].
  rewrite (ci_strip_prefix_same _ _ _ Hname).
  destruct (take_while_until is_space w1 61%Z
              (w2 ++ q :: code ++ sub ++ q :: rest) H1 eq_refl) as [Ht1 Hd1].
  rewrite Ht1, Hd1. cbn [Z.eqb Pos.eqb].
  assert (Hqs : is_space q = false) by (destruct Hq; subst q; reflexivity).
  destruct (take_while_until is_space w2 q
              (code ++ sub ++ q :: rest) H2 Hqs) as [Ht2 Hd2].
  rewrite Ht2, Hd2, Z.eqb_refl.
  rewrite (ci_strip_prefix_same _ _ _ Hcode).
  destruct Hsub as [-> | (letters & -> & Hne & Hl)].
  - cbn [app]. rewrite Z.eqb_refl. cbn [List.length]. f_equal. f_equal. lia.
  - destruct Hst as [-> | Hst]; [|discriminate]. cbn [app].
    assert (H45 : Z.eqb 45 q = false) by (destruct Hq; subst q; reflexivity).
    rewrite H45. cbn [andb Z.eqb Pos.eqb].
    assert (Hql : ci_letter q = false) by (destruct Hq; subst q; reflexivity).
    destruct (take_while_until ci_letter letters q rest Hl Hql) as [Ht3 Hd3].
    rewrite Ht3, Hd3. destruct letters as [|l0 ls]; [contradiction|].
    rewrite Z.eqb_refl. cbn [List.length]. f_equal. f_equal. lia.
Qed.

(** With another quote the tail does not match at the attribute, whatever
    its value. *)
Lemma lang_tail_other_quote (st : bool) (q q' prev : Z)
    (name w1 w2 value rest : str) :
  ci_same (lit "lang") name ->
  (q = 34 \/ q = 39)%Z ->
  Forall (fun c => is_space c = true) w1 ->
  Forall (fun c => is_space c = true) w2 ->
  q' <> q ->
  lang_tail u st q' prev (lang_attr name w1 w2 q value ++ rest) = None.
Proof.
  intros Hname Hq H1 H2 Hoth. unfold lang_tail, lang_attr.
  destruct (is_word u prev); [reflexivity|]. rewrite <- !app_assoc. cbn [app].
  rewrite (ci_strip_prefix_same _ _ _ Hname).
  destruct (take_while_until is_space w1 61%Z
              (w2 ++ q :: value ++ q :: rest) H1 eq_refl) as [Ht1 Hd1].
  rewrite Ht1, Hd1. cbn [Z.eqb Pos.eqb].
  assert (Hqs : is_space q = false) by (destruct Hq; subst q; reflexivity).
  destruct (take_while_until is_space w2 q (value ++ q :: rest) H2 Hqs)
    as [Ht2 Hd2].
  rewrite Ht2, Hd2.
  destruct (Z.eqb_spec q q') as [<-|Hne]; [contradiction | reflexivity].
Qed.

(** Nor does the tail without a subtag, at a value that has one. *)
Lemma lang_tail_subtag (q prev : Z) (name w1 w2 code sub rest : str) :
  ci_same (lit "lang") name -> ci_same (lit "it") code ->
  (q = 34 \/ q = 39)%Z ->
  Forall (fun c => is_space c = true) w1 ->
  Forall (fun c => is_space c = true) w2 ->
  subtag_ok sub -> sub <> [] ->
  lang_tail u false q prev (lang_attr name w1 w2 q (code ++ sub) ++ rest) = None.
Proof.
  intros Hname Hcode Hq H1 H2 Hsub Hs. unfold lang_tail, lang_attr.
  destruct (is_word u prev); [reflexivity|]. rewrite <- !app_assoc. cbn [app].
  rewrite (ci_strip_prefix_same _ _ _ Hname).
  destruct (take_while_until is_space w1 61%Z
              (w2 ++ q :: code ++ sub ++ q :: rest) H1 eq_refl) as [Ht1 Hd1].
  rewrite Ht1, Hd1. cbn [Z.eqb Pos.eqb].
  assert (Hqs : is_space q = false) by (destruct Hq; subst q; reflexivity).
  destruct (take_while_until is_space w2 q
              (code ++ sub ++ q :: rest) H2 Hqs) as [Ht2 Hd2].
  rewrite Ht2, Hd2, Z.eqb_refl.
  rewrite (ci_strip_prefix_same _ _ _ Hcode).
  destruct Hsub as [-> | (letters & -> & Hne & Hl)]; [contradiction|].
  cbn [app andb].
  assert (H45 : Z.eqb 45 q = false) by (destruct Hq; subst q; reflexivity).
  now rewrite H45.
Qed.

(** The greedy run before the tail: nothing matches up to the closing
    bracket when the tail matches nowhere. *)
Lemma lang_run_none (st : bool) (q : Z) (post : str) :
  forall (y : str) (prev : Z),
    Forall (fun c => c <> 62%Z) y ->
    (forall y1 c y2, prev :: y = y1 ++ c :: y2 ->
                     lang_tail u st q c (y2 ++ 62%Z :: post) = None) ->
    lang_run u st q prev (y ++ 62%Z :: post) = None.
Proof.
  induction y as [|d y IH]; intros prev Hy H.
  - pose proof (H [] prev [] eq_refl) as H0. cbn [app] in H0.
    cbn [app lang_run]. rewrite Z.eqb_refl. now rewrite H0.
  - pose proof (H [] prev (d :: y) eq_refl) as H0. cbn [app] in H0.
    cbn [app lang_run]. inversion Hy as [|? ? Hd Hy']; subst.
    destruct (Z.eqb_spec d 62) as [->|_]; [contradiction|].
    rewrite IH; [| exact Hy'
                 | intros y1 c y2 E; apply (H (prev :: y1) c y2);
                   cbn [app]; now rewrite E].
    now rewrite H0.
Qed.

(** The run ends where the tail matches, when the tail matches nowhere
    later in the tag. *)
Lemma lang_run_at (st : bool) (q : Z) (post : str) (t : nat * nat) :
  forall (x y : str) (prev : Z),
    Forall (fun c => c <> 62%Z) x ->
    Forall (fun c => c <> 62%Z) y ->
    y <> [] ->
    lang_tail u st q (last x prev) (y ++ 62%Z :: post) = Some t ->
    (forall y1 c y2, y = y1 ++ c :: y2 ->
                     lang_tail u st q c (y2 ++ 62%Z :: post) = None) ->
    lang_run u st q prev (x ++ y ++ 62%Z :: post) = Some (List.length x, t).
Proof.
  induction x as [|a x IH]; intros y prev Hx Hy Hne Ht Hlater.
  - cbn [app List.length last] in *. destruct y as [|d y]; [contradiction|].
    cbn [app lang_run]. inversion Hy as [|? ? Hd Hy']; subst.
    destruct (Z.eqb_spec d 62) as [->|_]; [contradiction|].
    rewrite (lang_run_none st q post y d Hy' Hlater).
    cbn [app] in Ht. now rewrite Ht.
  - cbn [app lang_run List.length]. inversion Hx as [|? ? Ha Hx']; subst.
    destruct (Z.eqb_spec a 62) as [->|_]; [contradiction|].
    rewrite (IH y a Hx' Hy Hne); [reflexivity | | exact Hlater].
    now rewrite <- (last_cons_default a x prev).
Qed.
End LangFacts.

Lemma ci_strip_prefix_within (p y : str) (d : Z) (r r' : str) :
  Forall (fun x => ci_eq x d = false) p ->
  ci_strip_prefix p (y ++ d :: r) = Some r' ->
  exists y0 y', y = y0 ++ y' /\ r' = y' ++ d :: r.
Proof.
  intros Hp. revert y. induction Hp as [|x p Hx Hp IH]; intros y H.
  - cbn in H. injection H as <-. now exists [], y.
  - destruct y as [|c y]; cbn [app ci_strip_prefix] in H.
    + now rewrite Hx in H.
    + destruct (ci_eq x c); [|discriminate].
      destruct (IH y H) as (y0 & y' & -> & ->). now exists (c :: y0), y'.
Qed.

Lemma ci_letter_not_gt (p c : Z) :
  p <> 62%Z -> ci_eq p c = true -> c <> 62%Z.
Proof.
  intros Hp H ->. unfold ci_eq in H. change (lower 62) with 62%Z in H.
  change (Z.eqb 62 305) with false in H. change (Z.eqb 62 383) with false in H.
  rewrite !andb_false_r, !orb_false_r in H. apply Z.eqb_eq in H. congruence.
Qed.

Lemma ci_same_not_gt (p x : str) :
  Forall (fun c => c <> 62%Z) p -> ci_same p x ->
  Forall (fun c => c <> 62%Z) x.
Proof.
  intros Hp Hs. revert Hp. induction Hs as [|a b p x Hab Hs IH]; intros Hp;
    [constructor|].
  inversion Hp as [|? ? H1 Hp']; subst.
  constructor; [now apply (ci_letter_not_gt a) | now apply IH].
Qed.

Section RootTag.
Variable u : unicode_db.
Variables opening before name w1 w2 : str.
Variable q : Z.
Variables v1 v2 after pre post : str.
Hypothesis Hopen : ci_same (lit "<html") opening.
Hypothesis Hname : ci_same (lit "lang") name.
Hypothesis Hq : (q = 34 \/ q = 39)%Z.
Hypothesis Hw1 : Forall (fun c => is_space c = true) w1.
Hypothesis Hw2 : Forall (fun c => is_space c = true) w2.
Hypothesis HA : Forall (fun c => c <> 62%Z) before.
Hypothesis HB : Forall (fun c => c <> 62%Z) after.
Hypothesis Hnb : ci_find (lit "lang") (before ++ removelast name) = None.
Hypothesis Hv1 : Forall (fun c => ci_eq 108 c = false /\ c <> 62%Z) v1.
Hypothesis Hv2 : Forall (fun c => c <> 62%Z) v2.
Hypothesis Hna : ci_find (lit "lang") (v2 ++ [q] ++ after) = None.
Hypothesis Hpre : ci_find (lit "<html") (pre ++ removelast opening) = None.
Hypothesis Hpost : ci_find (lit "<html") (after ++ [62%Z] ++ post) = None.

Lemma name_letters :
  exists n0 n1 n2 n3,
    name = [n0; n1; n2; n3]
    /\ ci_eq 108 n0 = true /\ ci_eq 97 n1 = true
    /\ ci_eq 110 n2 = true /\ ci_eq 103 n3 = true.
Proof.
  change (lit "lang") with [108; 97; 110; 103]%Z in Hname.
  inversion Hname as [|? n0 ? t0 E0 H0]; subst.
  inversion H0 as [|? n1 ? t1 E1 H1]; subst.
  inversion H1 as [|? n2 ? t2 E2 H2]; subst.
  inversion H2 as [|? n3 ? t3 E3 H3]; subst.
  inversion H3; subst. now exists n0, n1, n2, n3.
Qed.

Lemma space_not_gt (w : str) :
  Forall (fun c => is_space c = true) w -> Forall (fun c => c <> 62%Z) w.
Proof.
  intros H. eapply Forall_impl; [|exact H]. intros c Hc ->. discriminate.
Qed.

Lemma space_not_l (w : str) :
  Forall (fun c => is_space c = true) w ->
  Forall (fun c => ci_eq 108 c = false) w.
Proof.
  intros H. eapply Forall_impl; [|exact H]. intros c Hc.
  now apply (not_l is_space).
Qed.

Lemma attr_no_gt : Forall (fun c => c <> 62%Z) (lang_attr name w1 w2 q (v1 ++ v2)).
Proof.
  unfold lang_attr. repeat (apply Forall_app; split).
  - apply (ci_same_not_gt (lit "lang")); [|exact Hname].
    repeat constructor; try discriminate.
  - now apply space_not_gt.
  - constructor; [discriminate | constructor].
  - now apply space_not_gt.
  - constructor; [destruct Hq; subst q; discriminate | constructor].
  - eapply Forall_impl; [|exact Hv1]. now intros c [_ Hc].
  - exact Hv2.
  - constructor; [destruct Hq; subst q; discriminate | constructor].
Qed.

(** The name is found nowhere in the tag after the place of the attribute. *)
Lemma no_name_later (y1 : str) (c : Z) (y2 : str) :
  lang_attr name w1 w2 q (v1 ++ v2) ++ after = y1 ++ c :: y2 ->
  ci_strip_prefix (lit "lang") (y2 ++ 62%Z :: post) = None.
Proof.
  intros E.
  destruct name_letters as (n0 & n1 & n2 & n3 & En & E0 & E1 & E2 & E3).
  assert (Htl : ci_find (lit "lang")
                  (([n1; n2; n3] ++ w1 ++ [61%Z] ++ w2 ++ [q] ++ v1)
                   ++ v2 ++ [q] ++ after) = None).
  { apply ci_find_past; [|exact Hna].
    repeat (apply Forall_app; split).
    - repeat constructor.
      + now apply (not_l (ci_eq 97)).
      + now apply (not_l (ci_eq 110)).
      + now apply (not_l (ci_eq 103)).
    - now apply space_not_l.
    - now repeat constructor.
    - now apply space_not_l.
    - constructor; [destruct Hq; subst q; reflexivity | constructor].
    - eapply Forall_impl; [|exact Hv1]. now intros x [Hx _]. }
  assert (Hsuf : exists z, ([n1; n2; n3] ++ w1 ++ [61%Z] ++ w2 ++ [q] ++ v1)
                           ++ v2 ++ [q] ++ after = z ++ y2).
  { unfold lang_attr in E. rewrite En in E. rewrite <- !app_assoc in E.
    cbn [app] in E. destruct y1 as [|a y1]; cbn [app] in E.
    - injection E as _ E. exists []. rewrite <- E.
      rewrite <- !app_assoc. reflexivity.
    - injection E as _ E. exists (y1 ++ [c]).
      replace ((y1 ++ [c]) ++ y2) with (y1 ++ c :: y2)
        by (now rewrite <- app_assoc).
      rewrite <- E. rewrite <- !app_assoc. reflexivity. }
  destruct Hsuf as (z & Hz).
  apply ci_strip_prefix_stop;
    [now repeat constructor
    | exact (ci_find_none_suffix _ _ Htl z y2 Hz) | discriminate].
Qed.

(** Nor before it. *)
Lemma no_name_before (x y rest : str) :
  before = x ++ y -> y <> [] ->
  ci_strip_prefix (lit "lang")
    (y ++ lang_attr name w1 w2 q (v1 ++ v2) ++ rest) = None.
Proof.
  intros E Hy.
  destruct name_letters as (n0 & n1 & n2 & n3 & En & _).
  assert (H : ci_strip_prefix (lit "lang") (y ++ removelast name) = None).
  { apply (ci_find_none_suffix _ _ Hnb x). rewrite E. now rewrite app_assoc. }
  unfold lang_attr. rewrite En in *. cbn [removelast] in H.
  rewrite <- !app_assoc. cbn [app].
  change (y ++ n0 :: n1 :: n2 :: n3 :: w1 ++ 61%Z :: w2 ++ q :: v1 ++ v2 ++ q :: rest)
    with (y ++ [n0; n1; n2] ++ n3 :: w1 ++ 61%Z :: w2 ++ q :: v1 ++ v2 ++ q :: rest).
  rewrite app_assoc. apply ci_strip_prefix_longer; [|exact H].
  rewrite length_app. destruct y; [contradiction | simpl; lia].
Qed.

(** Where the tail of the pattern does not match at the attribute, it
    matches nowhere in the tag. *)
Lemma tail_nowhere (st : bool) (q' : Z) :
  (forall prev rest,
     lang_tail u st q' prev (lang_attr name w1 w2 q (v1 ++ v2) ++ rest) = None) ->
  forall z1 z2 prev,
    before ++ lang_attr name w1 w2 q (v1 ++ v2) ++ after = z1 ++ z2 ->
    lang_tail u st q' prev (z2 ++ 62%Z :: post) = None.
Proof.
  intros Hat z1 z2 prev E.
  apply app_eq_app in E as [l [[E1 E2] | [E1 E2]]].
  - (* z2 begins in the text before the attribute *)
    subst z2. destruct l as [|a l].
    + cbn [app]. rewrite <- app_assoc. apply Hat.
    + apply lang_tail_no_name. rewrite <- !app_assoc.
      apply (no_name_before z1 (a :: l)); [exact E1 | discriminate].
  - destruct l as [|a l].
    + cbn [app] in E2. subst z2. rewrite <- app_assoc. apply Hat.
    + apply lang_tail_no_name.
      apply (no_name_later (removelast (a :: l)) (last (a :: l) a) z2).
      rewrite E2.
      rewrite (app_removelast_last a (l := a :: l)) at 1 by discriminate.
      now rewrite <- app_assoc.
Qed.

Lemma opening_letters :
  exists o1 o2 o3 o4,
    opening = [60%Z; o1; o2; o3; o4]
    /\ ci_eq 104 o1 = true /\ ci_eq 116 o2 = true
    /\ ci_eq 109 o3 = true /\ ci_eq 108 o4 = true.
Proof.
  change (lit "<html") with [60; 104; 116; 109; 108]%Z in Hopen.
  inversion Hopen as [|? o0 ? t0 E0 H0]; subst.
  inversion H0 as [|? o1 ? t1 E1 H1]; subst.
  inversion H1 as [|? o2 ? t2 E2 H2]; subst.
  inversion H2 as [|? o3 ? t3 E3 H3]; subst.
  inversion H3 as [|? o4 ? t4 E4 H4]; subst.
  inversion H4; subst.
  apply ci_eq_symbol in E0; [subst o0 | now left].
  now exists o1, o2, o3, o4.
Qed.

(** Where the tail does not match at the attribute, the pattern matches
    nowhere in the document. *)
Lemma lang_nowhere (st : bool) (q' : Z) :
  (forall prev rest,
     lang_tail u st q' prev (lang_attr name w1 w2 q (v1 ++ v2) ++ rest) = None) ->
  forall a b r,
    pre ++ root_tag opening before (lang_attr name w1 w2 q (v1 ++ v2)) after ++ post
    = a ++ b ->
    ci_strip_prefix (lit "<html") b = Some r ->
    lang_run u st q' 108 r = None.
Proof.
  intros Hat a b r E Hb.
  set (T := lang_attr name w1 w2 q (v1 ++ v2)) in *.
  assert (Hin : forall y0 y', before ++ T ++ after = y0 ++ y' ->
                  forall prev, lang_run u st q' prev (y' ++ 62%Z :: post) = None).
  { intros y0 y' Ey prev. apply lang_run_none.
    - assert (Hw : Forall (fun c => c <> 62%Z) (before ++ T ++ after)).
      { apply Forall_app. split; [exact HA|]. apply Forall_app.
        split; [apply attr_no_gt | exact HB]. }
      rewrite Ey in Hw. now apply Forall_app in Hw.
    - intros y1 c y2 E2. destruct y1 as [|p y1]; cbn [app] in E2.
      + injection E2 as _ <-. apply (tail_nowhere st q' Hat y0 y'). exact Ey.
      + injection E2 as _ ->.
        apply (tail_nowhere st q' Hat (y0 ++ y1 ++ [c]) y2).
        fold T. rewrite Ey. now rewrite <- !app_assoc. }
  assert (Hsuffix : forall l b', before ++ T ++ after = l ++ b' ->
            ci_strip_prefix (lit "<html") (b' ++ 62%Z :: post) = Some r ->
            lang_run u st q' 108 r = None).
  { intros l b' El Hs.
    apply ci_strip_prefix_within in Hs as (y0 & y' & -> & ->);
      [|now repeat constructor].
    apply (Hin (l ++ y0) y'). now rewrite El, app_assoc. }
  assert (EW : before ++ T ++ after ++ [62%Z] ++ post
               = (before ++ T ++ after) ++ 62%Z :: post)
    by (now rewrite <- !app_assoc).
  assert (Hat_tag : ci_strip_prefix (lit "<html")
                      (opening ++ (before ++ T ++ after) ++ 62%Z :: post) = Some r ->
                    lang_run u st q' 108 r = None).
  { intros Hs. rewrite (ci_strip_prefix_same _ _ _ Hopen) in Hs.
    injection Hs as <-. now apply (Hin [] (before ++ T ++ after)). }
  unfold root_tag in E. fold T in E. rewrite <- !app_assoc in E.
  rewrite EW in E.
  apply app_eq_app in E as [l [[E1 E2] | [E1 E2]]].
  - (* [b] begins before the tag, or with it *)
    subst b. destruct l as [|x l]; [now apply Hat_tag|]. exfalso.
    destruct opening_letters as (o1 & o2 & o3 & o4 & Eo & _).
    assert (H : ci_strip_prefix (lit "<html") ((x :: l) ++ removelast opening) = None).
    { apply (ci_find_none_suffix _ _ Hpre a). rewrite E1.
      now rewrite app_assoc. }
    rewrite Eo in *. cbn [removelast] in H.
    change ([60%Z; o1; o2; o3; o4] ++ (before ++ T ++ after) ++ 62%Z :: post)
      with ([60%Z; o1; o2; o3] ++ o4 :: (before ++ T ++ after) ++ 62%Z :: post) in Hb.
    rewrite app_assoc in Hb.
    rewrite ci_strip_prefix_longer in Hb; [discriminate | | exact H].
    rewrite length_app. simpl. lia.
  - apply app_eq_app in E2 as [l2 [[E3 E4] | [E3 E4]]].
    + (* [b] begins in the opening *)
      subst b. destruct l2 as [|x l2]; [now apply (Hsuffix [] (before ++ T ++ after))|].
      destruct l as [|y l].
      * cbn [app] in E3. rewrite <- E3 in Hb. now apply Hat_tag.
      * exfalso.
        destruct opening_letters as (o1 & o2 & o3 & o4 & Eo & Eh & Et & Em & El).
        change (lit "<html") with [60; 104; 116; 109; 108]%Z in Hb.
        cbn [app ci_strip_prefix] in Hb.
        destruct (ci_eq 60 x) eqn:Ex; [|discriminate].
        apply ci_eq_symbol in Ex; [subst x | now left].
        rewrite Eo in E3. cbn [app] in E3. injection E3 as _ E3.
        assert (Hx : In 60%Z [o1; o2; o3; o4]) by (rewrite E3; apply in_elt).
        cbn [In] in Hx.
        destruct Hx as [Hx|[Hx|[Hx|[Hx|[]]]]]; rewrite Hx in *; discriminate.
    + (* [b] begins after the opening *)
      apply app_eq_app in E4 as [l3 [[E5 E6] | [E5 E6]]].
      * subst b. now apply (Hsuffix l2 l3).
      * exfalso.
        assert (H : ci_strip_prefix (lit "<html") b = None).
        { destruct l3 as [|z l3].
          - cbn [app] in E6. apply (ci_find_none_suffix _ _ Hpost after).
            now rewrite <- E6.
          - cbn [app] in E6. injection E6 as _ E6.
            apply (ci_find_none_suffix _ _ Hpost (after ++ [62%Z] ++ l3)).
            rewrite E6. now rewrite <- !app_assoc. }
        congruence.
Qed.

Lemma before_tag_none (a b rest : str) :
  pre = a ++ b -> b <> [] ->
  ci_strip_prefix (lit "<html") (b ++ opening ++ rest) = None.
Proof.
  intros E Hb.
  destruct opening_letters as (o1 & o2 & o3 & o4 & Eo & _).
  assert (H : ci_strip_prefix (lit "<html") (b ++ removelast opening) = None).
  { apply (ci_find_none_suffix _ _ Hpre a). rewrite E. now rewrite app_assoc. }
  rewrite Eo in *. cbn [removelast] in H.
  change ([60%Z; o1; o2; o3; o4] ++ rest)
    with ([60%Z; o1; o2; o3] ++ o4 :: rest).
  rewrite app_assoc. apply ci_strip_prefix_longer; [|exact H].
  rewrite length_app. destruct b; [contradiction | simpl; lia].
Qed.

Lemma after_tag_none (a b : str) :
  after ++ [62%Z] ++ post = a ++ b -> ci_strip_prefix (lit "<html") b = None.
Proof. intros E. exact (ci_find_none_suffix _ _ Hpost a b E). Qed.

(** The run up to the attribute, when the tail matches there. *)
Lemma lang_run_tag (st : bool) (t : nat * nat) :
  (forall rest, lang_tail u st q (last before 108%Z)
                  (lang_attr name w1 w2 q (v1 ++ v2) ++ rest) = Some t) ->
  lang_run u st q 108
    (before ++ lang_attr name w1 w2 q (v1 ++ v2) ++ after ++ [62%Z] ++ post)
  = Some (List.length before, t).
Proof.
  intros Ht.
  replace (before ++ lang_attr name w1 w2 q (v1 ++ v2) ++ after ++ [62%Z] ++ post)
    with (before ++ (lang_attr name w1 w2 q (v1 ++ v2) ++ after) ++ 62%Z :: post)
    by (now rewrite <- !app_assoc).
  apply lang_run_at.
  - exact HA.
  - apply Forall_app. split; [apply attr_no_gt | exact HB].
  - destruct name_letters as (n0 & n1 & n2 & n3 & En & _).
    unfold lang_attr. rewrite En. discriminate.
  - rewrite <- app_assoc. apply Ht.
  - intros y1 c y2 E. apply lang_tail_no_name. now apply (no_name_later y1 c y2).
Qed.

Lemma attr_length (value : str) :
  List.length (lang_attr name w1 w2 q value)
  = List.length (name ++ w1 ++ [61%Z] ++ w2) + 1 + List.length value + 1.
Proof. unfold lang_attr. rewrite !length_app. simpl. lia. Qed.

Lemma name_length : List.length name = 4.
Proof. now rewrite (ci_same_length _ _ Hname). Qed.

Lemma opening_length : List.length opening = 5.
Proof. now rewrite (ci_same_length _ _ Hopen). Qed.

(** The pass of translate_html.py with the quote of the attribute. *)
Lemma lang_pass_it (new : str) :
  is_word u (hd 0%Z before) = false ->
  (forall rest, lang_tail u true q (last before 108%Z)
                  (lang_attr name w1 w2 q (v1 ++ v2) ++ rest)
                = Some (List.length (name ++ w1 ++ [61%Z] ++ w2),
                        List.length (lang_attr name w1 w2 q (v1 ++ v2)))) ->
  re_sub_pure (It.lang_re u q) (fun m g => firstn g m ++ new)
    (pre ++ root_tag opening before (lang_attr name w1 w2 q (v1 ++ v2)) after ++ post)
  = pre ++ opening ++ before ++ (name ++ w1 ++ [61%Z] ++ w2) ++ new
    ++ after ++ [62%Z] ++ post.
Proof.
  intros Hhd Ht. unfold root_tag. rewrite <- !app_assoc.
  set (T := lang_attr name w1 w2 q (v1 ++ v2)) in *.
  rewrite re_sub_pure_past.
  2:{ intros a b E Hb. unfold It.lang_re.
      now rewrite (before_tag_none a b _ E Hb). }
  f_equal.
  assert (Hm : It.lang_re u q (opening ++ before ++ T ++ after ++ [62%Z] ++ post)
               = Some (S (4 + List.length before + List.length T),
                       5 + List.length before
                       + List.length (name ++ w1 ++ [61%Z] ++ w2))).
  { unfold It.lang_re. rewrite (ci_strip_prefix_same _ _ _ Hopen).
    pose proof (lang_run_tag true _ Ht) as Hr. fold T in Hr.
    destruct before as [|c r] eqn:Eb.
    - specialize (Ht []). unfold lang_tail in Ht. cbn [last] in Ht.
      change (is_word u 108) with true in Ht. discriminate.
    - cbn [hd] in Hhd. cbn [app]. rewrite Hhd. cbn [app] in Hr. rewrite Hr.
      reflexivity. }
  rewrite (re_sub_pure_here _ _ _ _ _ _ Hm).
  2:{ destruct opening_letters as (o1 & o2 & o3 & o4 & Eo & _). rewrite Eo.
      discriminate. }
  assert (Hn : S (4 + List.length before + List.length T)
               = List.length (opening ++ before ++ T)).
  { rewrite !length_app, opening_length. lia. }
  replace (opening ++ before ++ T ++ after ++ [62%Z] ++ post)
    with ((opening ++ before ++ T) ++ after ++ [62%Z] ++ post)
    by (now rewrite <- !app_assoc).
  rewrite Hn, firstn_exact, skipn_exact.
  rewrite (re_sub_pure_unmatched _ _ _ (after ++ [62%Z] ++ post)).
  2:{ intros a b E. unfold It.lang_re. now rewrite (after_tag_none a b E). }
  assert (Hg : 5 + List.length before + List.length (name ++ w1 ++ [61%Z] ++ w2)
               = List.length (opening ++ before ++ name ++ w1 ++ [61%Z] ++ w2)).
  { rewrite (length_app opening), (length_app before), opening_length. lia. }
  rewrite Hg. unfold T, lang_attr.
  replace (opening ++ before ++ name ++ w1 ++ [61%Z] ++ w2 ++ [q] ++ (v1 ++ v2) ++ [q])
    with ((opening ++ before ++ name ++ w1 ++ [61%Z] ++ w2)
          ++ [q] ++ (v1 ++ v2) ++ [q])
    by (now rewrite <- !app_assoc).
  rewrite firstn_exact. now rewrite <- !app_assoc.
Qed.

(** The pass of the ru script with the quote of the attribute. *)
Lemma lang_pass_ru (new : str) :
  (forall rest, lang_tail u false q (last before 108%Z)
                  (lang_attr name w1 w2 q (v1 ++ v2) ++ rest)
                = Some (List.length (name ++ w1 ++ [61%Z] ++ w2),
                        List.length (lang_attr name w1 w2 q (v1 ++ v2)))) ->
  re_sub_pure (Ru.lang_re u q) (fun m g => firstn g m ++ new)
    (pre ++ root_tag opening before (lang_attr name w1 w2 q (v1 ++ v2)) after ++ post)
  = pre ++ opening ++ before ++ (name ++ w1 ++ [61%Z] ++ w2 ++ [q]) ++ new
    ++ after ++ [62%Z] ++ post.
Proof.
  intros Ht. unfold root_tag. rewrite <- !app_assoc.
  set (T := lang_attr name w1 w2 q (v1 ++ v2)) in *.
  rewrite re_sub_pure_past.
  2:{ intros a b E Hb. unfold Ru.lang_re.
      now rewrite (before_tag_none a b _ E Hb). }
  f_equal.
  assert (Hm : Ru.lang_re u q (opening ++ before ++ T ++ after ++ [62%Z] ++ post)
               = Some (S (4 + List.length before + List.length T),
                       5 + List.length before
                       + List.length (name ++ w1 ++ [61%Z] ++ w2) + 1)).
  { unfold Ru.lang_re. rewrite (ci_strip_prefix_same _ _ _ Hopen).
    pose proof (lang_run_tag false _ Ht) as Hr. fold T in Hr. now rewrite Hr. }
  rewrite (re_sub_pure_here _ _ _ _ _ _ Hm).
  2:{ destruct opening_letters as (o1 & o2 & o3 & o4 & Eo & _). rewrite Eo.
      discriminate. }
  assert (Hn : S (4 + List.length before + List.length T)
               = List.length (opening ++ before ++ T)).
  { rewrite !length_app, opening_length. lia. }
  replace (opening ++ before ++ T ++ after ++ [62%Z] ++ post)
    with ((opening ++ before ++ T) ++ after ++ [62%Z] ++ post)
    by (now rewrite <- !app_assoc).
  rewrite Hn, firstn_exact, skipn_exact.
  rewrite (re_sub_pure_unmatched _ _ _ (after ++ [62%Z] ++ post)).
  2:{ intros a b E. unfold Ru.lang_re. now rewrite (after_tag_none a b E). }
  assert (Hg : 5 + List.length before
               + List.length (name ++ w1 ++ [61%Z] ++ w2) + 1
               = List.length (opening ++ before ++ name ++ w1 ++ [61%Z] ++ w2 ++ [q])).
  { rewrite (length_app opening), (length_app before), opening_length.
    rewrite !length_app. simpl. lia. }
  rewrite Hg. unfold T, lang_attr.
  replace (opening ++ before ++ name ++ w1 ++ [61%Z] ++ w2 ++ [q] ++ (v1 ++ v2) ++ [q])
    with ((opening ++ before ++ name ++ w1 ++ [61%Z] ++ w2 ++ [q])
          ++ (v1 ++ v2) ++ [q])
    by (now rewrite <- !app_assoc).
  rewrite firstn_exact. now rewrite <- !app_assoc.
Qed.

(** The passes that find nothing. *)
Lemma lang_pass_none_it (q' : Z) (repl : str -> nat -> str) :
  (forall prev rest,
     lang_tail u true q' prev (lang_attr name w1 w2 q (v1 ++ v2) ++ rest) = None) ->
  re_sub_pure (It.lang_re u q') repl
    (pre ++ root_tag opening before (lang_attr name w1 w2 q (v1 ++ v2)) after ++ post)
  = pre ++ root_tag opening before (lang_attr name w1 w2 q (v1 ++ v2)) after ++ post.
Proof.
  intros Hat. apply re_sub_pure_unmatched. intros a b E. unfold It.lang_re.
  destruct (ci_strip_prefix (lit "<html") b) as [r|] eqn:Hb; [|reflexivity].
  pose proof (lang_nowhere true q' Hat a b r E Hb) as Hn.
  destruct r as [|c r]; [reflexivity|].
  destruct (is_word u c); [reflexivity|]. now rewrite Hn.
Qed.

Lemma lang_pass_none_ru (q' : Z) (repl : str -> nat -> str) :
  (forall prev rest,
     lang_tail u false q' prev (lang_attr name w1 w2 q (v1 ++ v2) ++ rest) = None) ->
  re_sub_pure (Ru.lang_re u q') repl
    (pre ++ root_tag opening before (lang_attr name w1 w2 q (v1 ++ v2)) after ++ post)
  = pre ++ root_tag opening before (lang_attr name w1 w2 q (v1 ++ v2)) after ++ post.
Proof.
  intros Hat. apply re_sub_pure_unmatched. intros a b E. unfold Ru.lang_re.
  destruct (ci_strip_prefix (lit "<html") b) as [r|] eqn:Hb; [|reflexivity].
  now rewrite (lang_nowhere false q' Hat a b r E Hb).
Qed.
End RootTag.

Lemma code_letters (code : str) :
  ci_same (lit "it") code ->
  List.length code = 2
  /\ Forall (fun c => ci_eq 108 c = false /\ c <> 62%Z) code.
Proof.
  intros H. split; [now rewrite (ci_same_length _ _ H)|].
  change (lit "it") with [105; 116]%Z in H.
  inversion H as [|? c0 ? t0 E0 H0]; subst.
  inversion H0 as [|? c1 ? t1 E1 H1]; subst. inversion H1; subst.
  repeat constructor.
  - now apply (not_l (ci_eq 105)).
  - now apply (ci_letter_not_gt 105).
  - now apply (not_l (ci_eq 116)).
  - now apply (ci_letter_not_gt 116).
Qed.

Lemma subtag_no_gt (sub : str) : subtag_ok sub -> Forall (fun c => c <> 62%Z) sub.
Proof.
  intros [-> | (letters & -> & _ & Hl)]; constructor; [discriminate|].
  eapply Forall_impl; [|exact Hl]. intros c Hc ->. discriminate.
Qed.

(** The rewriting of translate_html.py at a root tag with the value in
    single quotes. *)
Lemma it_lang_rewrite (u : unicode_db)
    (pre opening before name w1 w2 code sub after post : str) :
  root_tag_ok u opening before name w1 w2 39%Z code sub after ->
  ci_find (lit "<html") (pre ++ removelast opening) = None ->
  ci_find (lit "<html") (after ++ [62%Z] ++ post) = None ->
  is_word u (hd 0%Z before) = false ->
  It.switch_lang_attr u
    (pre ++ root_tag opening before (lang_attr name w1 w2 39%Z (code ++ sub)) after
     ++ post)
  = pre ++ root_tag opening before (lang_attr name w1 w2 39%Z (lit "th")) after
    ++ post.
Proof.
  intros (Hopen & Hname & Hcode & Hq & Hw1 & Hw2 & Hsub & HA & HB & Hlast
          & Hnb & Hna) Hpre Hpost Hhd.
  destruct (code_letters code Hcode) as [Hclen Hv1].
  pose proof (subtag_no_gt sub Hsub) as Hv2.
  assert (Hlen : forall rest,
              lang_tail u true 39%Z (last before 108%Z)
                (lang_attr name w1 w2 39%Z (code ++ sub) ++ rest)
              = Some (List.length (name ++ w1 ++ [61%Z] ++ w2),
                      List.length (lang_attr name w1 w2 39%Z (code ++ sub)))).
  { intros rest.
    rewrite (lang_tail_here u true 39%Z _ name w1 w2 code sub rest Hlast Hname
               Hcode Hq Hw1 Hw2 Hsub (or_introl eq_refl)).
    unfold lang_attr. rewrite !length_app, (ci_same_length _ _ Hname), Hclen.
    simpl. f_equal. f_equal; lia. }
  unfold It.switch_lang_attr.
  rewrite (lang_pass_none_it u opening before name w1 w2 39%Z code sub after
             pre post Hopen Hname Hq Hw1 Hw2 HA HB Hnb Hv1 Hv2 Hna Hpre Hpost
             34%Z).
  2:{ intros prev rest. apply lang_tail_other_quote; try assumption.
      discriminate. }
  rewrite (lang_pass_it u opening before name w1 w2 39%Z code sub after
             pre post Hopen Hname Hq Hw1 Hw2 HA HB Hnb Hv1 Hv2 Hna Hpre Hpost
             [39; 116; 104; 39]%Z Hhd Hlen).
  unfold root_tag, lang_attr. now rewrite <- !app_assoc.
Qed.

(** C8, as stated, fails.  In translate_html.py the template for the
    double-quoted form keeps its backslashes, so the rewritten tag holds
    them; in the ru script a value with a region subtag is not rewritten;
    and in both scripts the pattern takes the last attribute of the tag
    whose name ends in lang at a word boundary, so that with an xml:lang
    after it the lang attribute itself is left as it is. *)
Lemma lang_not_rewritten :
  It.switch_lang_attr ascii_db (lit "<html lang=" ++ dq ++ lit "it-IT" ++ dq ++ lit ">")
  = lit "<html lang=\" ++ dq ++ lit "th\" ++ dq ++ lit ">"
  /\ Ru.switch_lang ascii_db (lit "<html lang='it-IT'>") = lit "<html lang='it-IT'>"
  /\ It.switch_lang_attr ascii_db (lit "<html lang='it' xml:lang='it'>")
     = lit "<html lang='it' xml:lang='th'>"
  /\ Ru.switch_lang ascii_db (lit "<html lang='it' xml:lang='it'>")
     = lit "<html lang='it' xml:lang='ru'>".
Proof. repeat split; vm_compute; reflexivity. Qed.

(** C8, amended.  For a root tag that holds the name lang once, at a word
    boundary, with a value it in single quotes, with or without a region
    subtag, translate_html.py rewrites the value to th; for such a tag with
    the value it in double or single quotes the ru script rewrites the
    value to ru, and it leaves the whole document as it is when the value
    has a region subtag.  The match is without regard to case, the spaces
    around the equals sign and the other attributes of the tag are kept,
    and what stands before the tag and after it is left as it is, whatever
    it holds, as long as it holds no other html tag.  A text without an
    html tag is not changed at all. *)
Theorem lang_rewritten (u : unicode_db)
    (pre opening before name w1 w2 : str) (q : Z)
    (code sub after post body : str) :
  root_tag_ok u opening before name w1 w2 q code sub after ->
  ci_find (lit "<html") (pre ++ removelast opening) = None ->
  ci_find (lit "<html") (after ++ [62%Z] ++ post) = None ->
  ci_find (lit "<html") body = None ->
  (q = 39%Z -> is_word u (hd 0%Z before) = false ->
   It.switch_lang_attr u
     (pre ++ root_tag opening before (lang_attr name w1 w2 q (code ++ sub)) after
      ++ post)
   = pre ++ root_tag opening before (lang_attr name w1 w2 q (lit "th")) after
     ++ post)
  /\ (sub = [] ->
      Ru.switch_lang u
        (pre ++ root_tag opening before (lang_attr name w1 w2 q (code ++ sub)) after
         ++ post)
      = pre ++ root_tag opening before (lang_attr name w1 w2 q (lit "ru")) after
        ++ post)
  /\ (sub <> [] ->
      Ru.switch_lang u
        (pre ++ root_tag opening before (lang_attr name w1 w2 q (code ++ sub)) after
         ++ post)
      = pre ++ root_tag opening before (lang_attr name w1 w2 q (code ++ sub)) after
        ++ post)
  /\ It.switch_lang_attr u body = body
  /\ Ru.switch_lang u body = body.
Proof.
  intros (Hopen & Hname & Hcode & Hq & Hw1 & Hw2 & Hsub & HA & HB & Hlast
          & Hnb & Hna) Hpre Hpost Hbody.
  destruct (code_letters code Hcode) as [Hclen Hv1].
  pose proof (subtag_no_gt sub Hsub) as Hv2.
  assert (Hlen : forall st : bool, st = true \/ sub = [] ->
            forall rest,
              lang_tail u st q (last before 108%Z)
                (lang_attr name w1 w2 q (code ++ sub) ++ rest)
              = Some (List.length (name ++ w1 ++ [61%Z] ++ w2),
                      List.length (lang_attr name w1 w2 q (code ++ sub)))).
  { intros st Hst rest.
    rewrite (lang_tail_here u st q _ name w1 w2 code sub rest Hlast Hname Hcode
               Hq Hw1 Hw2 Hsub Hst).
    unfold lang_attr. rewrite !length_app, (ci_same_length _ _ Hname), Hclen.
    simpl. f_equal. f_equal; lia. }
  split; [|split; [|split; [|exact (switch_lang_no_html u body Hbody)]]].
  - (* translate_html.py, single quotes *)
    intros -> Hhd. apply it_lang_rewrite; try assumption.
    repeat split; assumption.
  - (* the ru script, the value without a subtag *)
    intros ->. unfold Ru.switch_lang.
    assert (Hru : Forall (fun c => ci_eq 108 c = false /\ c <> 62%Z) (lit "ru")).
    { repeat constructor; discriminate. }
    assert (Hshape : forall q0 : Z,
      pre ++ opening ++ before ++ (name ++ w1 ++ [61%Z] ++ w2 ++ [q0])
      ++ (lit "ru" ++ [q0]) ++ after ++ [62%Z] ++ post
      = pre ++ root_tag opening before (lang_attr name w1 w2 q0 (lit "ru" ++ []))
                        after ++ post).
    { intros q0. unfold root_tag, lang_attr. rewrite app_nil_r.
      now rewrite <- !app_assoc. }
    destruct Hq as [-> | ->].
    + rewrite (lang_pass_ru u opening before name w1 w2 34%Z code [] after
                 pre post Hopen Hname (or_introl eq_refl) Hw1 Hw2 HA HB Hnb Hv1
                 Hv2 Hna Hpre Hpost (lit "ru" ++ [34%Z])
                 (Hlen false (or_intror eq_refl))).
      rewrite Hshape.
      rewrite (lang_pass_none_ru u opening before name w1 w2 34%Z (lit "ru") []
                 after pre post Hopen Hname (or_introl eq_refl) Hw1 Hw2 HA HB Hnb
                 Hru Hv2 Hna Hpre Hpost 39%Z).
      * now rewrite app_nil_r.
      * intros prev rest. apply lang_tail_other_quote; try assumption;
          [now left | discriminate].
    + rewrite (lang_pass_none_ru u opening before name w1 w2 39%Z code []
                 after pre post Hopen Hname (or_intror eq_refl) Hw1 Hw2 HA HB Hnb
                 Hv1 Hv2 Hna Hpre Hpost 34%Z).
      2:{ intros prev rest. apply lang_tail_other_quote; try assumption;
            [now right | discriminate]. }
      rewrite (lang_pass_ru u opening before name w1 w2 39%Z code [] after
                 pre post Hopen Hname (or_intror eq_refl) Hw1 Hw2 HA HB Hnb Hv1
                 Hv2 Hna Hpre Hpost (lit "ru" ++ [39%Z])
                 (Hlen false (or_intror eq_refl))).
      rewrite Hshape. now rewrite app_nil_r.
  - (* the ru script, the value with a subtag *)
    intros Hs. unfold Ru.switch_lang.
    assert (Hnone : forall q', 
      re_sub_pure (Ru.lang_re u q')
        (fun m g => firstn g m ++ lit "ru" ++ [q'])
        (pre ++ root_tag opening before (lang_attr name w1 w2 q (code ++ sub)) after
         ++ post)
      = pre ++ root_tag opening before (lang_attr name w1 w2 q (code ++ sub)) after
        ++ post).
    { intros q'.
      apply (lang_pass_none_ru u opening before name w1 w2 q code sub
               after pre post Hopen Hname Hq Hw1 Hw2 HA HB Hnb
               Hv1 Hv2 Hna Hpre Hpost q').
      intros prev rest. destruct (Z.eq_dec q' q) as [->|Hne].
      - now apply lang_tail_subtag.
      - now apply lang_tail_other_quote. }
    now rewrite !Hnone.
Qed.

Lemma lang_rewritten_witness :
  It.switch_lang_attr ascii_db
    (lit "<!DOCTYPE html>"
     ++ root_tag (lit "<HTML") (lit " class=" ++ dq ++ lit "x" ++ dq ++ lit " ")
                 (lang_attr (lit "Lang") (lit " ") [] 39%Z (lit "it" ++ lit "-IT"))
                 (lit " dir='ltr'")
     ++ lit "<p lang='it'>Ciao</p></html>")
  = lit "<!DOCTYPE html><HTML class=" ++ dq ++ lit "x" ++ dq
    ++ lit " Lang ='th' dir='ltr'><p lang='it'>Ciao</p></html>".
Proof.
  refine (proj1 (lang_rewritten ascii_db (lit "<!DOCTYPE html>") (lit "<HTML")
                   (lit " class=" ++ dq ++ lit "x" ++ dq ++ lit " ")
                   (lit "Lang") (lit " ") [] 39%Z (lit "it") (lit "-IT")
                   (lit " dir='ltr'") (lit "<p lang='it'>Ciao</p></html>") []
                   _ _ _ _) eq_refl eq_refl).
  - repeat split; try (repeat constructor; fail); try (vm_compute; reflexivity).
    + right. exists (lit "IT"). split; [reflexivity|].
      split; [discriminate | repeat constructor].
    + vm_compute. repeat constructor; discriminate.
    + vm_compute. repeat constructor; discriminate.
  - vm_compute. reflexivity.
  - vm_compute. reflexivity.
  - vm_compute. reflexivity.
Defined.

(** ** C2: an identity backend, from the file read to the file written *)

Lemma occurs_not_join (w x y : str) (c : Z) :
  ~ In c w -> occurs_not w x -> occurs_not w y -> occurs_not w (x ++ c :: y).
Proof.
  intros Hc Hx Hy a b E.
  assert (Hstop : forall w' l, ~ In c w' -> strip_prefix w' l = None ->
                    strip_prefix w' (l ++ c :: y) = None).
  { induction w' as [|h w' IH]; intros l Hn Hl; [discriminate|].
    destruct l as [|d l]; cbn [app strip_prefix] in *.
    - destruct (Z.eqb_spec h c) as [->|_]; [|reflexivity].
      exfalso. apply Hn. now left.
    - destruct (Z.eqb h d); [|reflexivity].
      apply IH; [|exact Hl]. intros Hin. apply Hn. now right. }
  apply app_eq_app in E as [l [[E1 E2]|[E1 E2]]].
  - subst b. apply Hstop; [exact Hc|]. exact (Hx a l E1).
  - destruct l as [|d l]; cbn [app] in E2.
    + subst b. apply (Hstop w [] Hc). exact (Hx x [] (eq_sym (app_nil_r x))).
    + injection E2 as _ E2. exact (Hy l b E2).
Qed.

Lemma word_char_key_char (u : unicode_db) (c : Z) :
  is_word u c = false -> key_char c = false.
Proof.
  unfold is_word, key_char, is_upper_az, is_lower_az, is_digit09, in_range.
  destruct (Z.ltb_spec c 128) as [Hlt|Hge]; intros H.
  - destruct (Z.eqb_spec c 95); [rewrite !Bool.orb_true_r in H; discriminate|].
    apply Bool.orb_false_iff in H as [H _].
    apply Bool.orb_false_iff in H as [H Hd].
    apply Bool.orb_false_iff in H as [Hu _].
    cbn [orb]. now rewrite Hu, Hd.
  - destruct (Z.eqb_spec c 95); [lia|]. cbn [orb].
    apply Bool.orb_false_iff. split; apply Bool.andb_false_iff; right; lia.
Qed.

Lemma prender_tok_app (a b : list pitem) :
  prender_tok (a ++ b) = prender_tok a ++ prender_tok b.
Proof.
  induction a as [|[c|K i blk] a IH]; cbn [app prender_tok];
    [reflexivity| |]; now rewrite IH, ?app_assoc.
Qed.

Lemma prender_src_app (a b : list pitem) :
  prender_src (a ++ b) = prender_src a ++ prender_src b.
Proof.
  induction a as [|[c|K i blk] a IH]; cbn [app prender_src];
    [reflexivity| |]; now rewrite IH, ?app_assoc.
Qed.

Lemma ptokens_app (a b : list pitem) :
  ptokens (a ++ b) = ptokens a ++ ptokens b.
Proof.
  induction a as [|[c|K i blk] a IH]; cbn [app ptokens];
    [reflexivity| |]; now rewrite IH.
Qed.

(** A protected document is cut where its text is cut, when the cut does
    not fall inside a placeholder: the text before the cut is empty or ends
    with a code point no placeholder holds. *)
Lemma prender_tok_split (items : list pitem) :
  wf_items items ->
  forall x y,
    prender_tok items = x ++ y ->
    x = [] \/ key_char (last x 0%Z) = false ->
    exists i1 i2, items = i1 ++ i2 /\ prender_tok i1 = x /\ prender_tok i2 = y.
Proof.
  induction items as [|[c|K i blk] r IH]; intros Hw x y E Hx.
  - symmetry in E. apply app_eq_nil in E as [-> ->]. now exists [], [].
  - destruct x as [|c' x]; cbn [app prender_tok] in E.
    + exists [], (PCh c :: r). now subst y.
    + injection E as <- E.
      destruct (IH Hw x y E) as (i1 & i2 & -> & <- & <-).
      * destruct x as [|d x]; [now left|]. right.
        destruct Hx as [Hx|Hx]; [discriminate|exact Hx].
      * now exists (PCh c :: i1), i2.
  - assert (HK : In K kinds) by (inversion Hw; assumption).
    assert (Hw' : wf_items r) by (inversion Hw; assumption).
    destruct x as [|c' x];
      [exists [], (PTk K i blk :: r); cbn [app] in E; now rewrite <- E|].
    destruct Hx as [Hx|Hx]; [discriminate|].
    cbn [prender_tok] in E.
    apply app_eq_app in E as [l [[E1 E2]|[E1 E2]]].
    + destruct l as [|d l].
      * rewrite app_nil_r in E1. cbn [app] in E2.
        exists [PTk K i blk], r. cbn [app prender_tok].
        rewrite app_nil_r. now split; [|split].
      * exfalso. pose proof (key_chars_class K i HK) as Hc.
        rewrite E1 in Hc. apply Forall_app in Hc as [Hc _].
        rewrite Forall_forall in Hc.
        rewrite (Hc (last (c' :: x) 0%Z)) in Hx; [discriminate|].
        apply last_in. discriminate.
    + destruct (IH Hw' l y E2) as (i1 & i2 & -> & <- & <-).
      * destruct l as [|d l]; [now left|]. right.
        assert (Hl : d :: l <> []) by discriminate.
        rewrite E1 in Hx. now rewrite last_app_nonempty in Hx.
      * exists (PTk K i blk :: i1), i2. cbn [app prender_tok].
        now rewrite E1.
Qed.

(** A protected text without underscores holds no placeholder. *)
Lemma prender_tok_plain (items : list pitem) :
  Forall (fun c => c <> 95%Z) (prender_tok items) ->
  items = map PCh (prender_tok items).
Proof.
  induction items as [|[c|K i blk] r IH]; cbn [prender_tok map]; intros H.
  - reflexivity.
  - inversion H; subst. now rewrite <- IH.
  - exfalso. rewrite key_app_shape in H. inversion H; subst. congruence.
Qed.

Lemma ci_eq_plain (p c : Z) : ci_eq p c = true -> p <> 95%Z -> c <> 95%Z.
Proof.
  intros H Hp ->. unfold ci_eq in H.
  change (lower 95) with 95%Z in H.
  change (Z.eqb 95 305) with false in H. change (Z.eqb 95 383) with false in H.
  rewrite !Bool.andb_false_r, !Bool.orb_false_r in H.
  apply Z.eqb_eq in H. congruence.
Qed.

Lemma ci_same_plain (p q : str) :
  ci_same p q -> Forall (fun c => c <> 95%Z) p -> Forall (fun c => c <> 95%Z) q.
Proof.
  induction 1 as [|x y p q Hxy _ IH]; intros Hp; constructor;
    inversion Hp; subst.
  - now apply (ci_eq_plain x).
  - now apply IH.
Qed.

Lemma spaces_plain (w : str) :
  Forall (fun c => is_space c = true) w -> Forall (fun c => c <> 95%Z) w.
Proof.
  intros H. eapply Forall_impl; [|exact H]. intros c Hc ->. discriminate.
Qed.

Lemma subtag_plain (sub : str) : subtag_ok sub -> Forall (fun c => c <> 95%Z) sub.
Proof.
  intros [-> | (letters & -> & _ & Hl)]; constructor; [discriminate|].
  eapply Forall_impl; [|exact Hl]. intros c Hc ->. discriminate.
Qed.

Lemma lang_attr_plain (name w1 w2 value : str) :
  ci_same (lit "lang") name ->
  Forall (fun c => is_space c = true) w1 ->
  Forall (fun c => is_space c = true) w2 ->
  Forall (fun c => c <> 95%Z) value ->
  Forall (fun c => c <> 95%Z) (lang_attr name w1 w2 39%Z value).
Proof.
  intros Hn H1 H2 Hv. unfold lang_attr.
  repeat (apply Forall_app; split);
    try (now apply spaces_plain); try assumption;
    try (repeat constructor; discriminate).
  apply (ci_same_plain _ _ Hn). repeat constructor; discriminate.
Qed.

Lemma last_default (l : str) (d d' : Z) : l <> [] -> last l d = last l d'.
Proof.
  intros H. destruct (exists_last H) as (l' & x & ->). now rewrite !last_last.
Qed.

Lemma lang_attr_last (name w1 w2 : str) (q : Z) (value : str) :
  last (lang_attr name w1 w2 q value) 0%Z = q.
Proof.
  unfold lang_attr. rewrite !app_assoc. apply last_last.
Qed.

(** With a backend that gives every batch back, the two reinsertion passes
    change nothing in a document whose segments have no margins. *)
Lemma identity_passes (u : unicode_db) (be : backend) (html : str) :
  (forall l, translate_batch be l = Some l) ->
  forallb margin_free (all_texts u (fst (It.make_placeholders u html))) = true ->
  blank_free (fst (It.make_placeholders u html)) = true ->
  all_texts u (fst (It.make_placeholders u html)) <> [] ->
  It.main u be html
  = Some (It.restore_placeholders
            (It.switch_lang_attr u (fst (It.make_placeholders u html)))
            (snd (It.make_placeholders u html))).
Proof.
  intros Hid Hf Hb Hne. unfold It.main.
  destruct (It.make_placeholders u html) as [p ph]. cbn [fst snd] in *.
  unfold all_texts in *.
  set (texts := It.find_text_nodes u p
                ++ map (fun o : str * Z * str => snd o) (It.find_attr_values u p)) in *.
  destruct texts as [|t0 ts] eqn:Ht; [congruence|]. rewrite <- Ht in *.
  pose proof (identity_mapping be texts Hid) as Hm.
  rewrite (text_pass_identity _ texts p Hm Hf).
  unfold It.replace_attr_values, It.VISIBLE_ATTRS. cbn [fold_left].
  rewrite !(attr_pass_identity _ texts _ p Hm Hf) by (simpl; auto).
  reflexivity.
Qed.

(** What the run writes is what [It.main] returns for the text read, after
    the backup. *)
Lemma main_io_written (u : unicode_db) (linesep : str) (be : backend)
    (prog in_path : str) (more : list str) (fs : str -> node) (raw out : str) :
  fs in_path = File raw ->
  It.main u be (read_text raw) = Some out ->
  how (It.main_io u linesep be (prog :: in_path :: more) fs) = Exit 0
  /\ written (It.main_io u linesep be (prog :: in_path :: more) fs)
     = match fs (in_path ++ lit ".bak.it.html") with
       | Missing => [(in_path ++ lit ".bak.it.html",
                      write_text linesep (read_text raw))]
       | _ => []
       end
       ++ [(match more with p :: _ => p | [] => in_path end,
            write_text linesep out)].
Proof.
  intros Hfs. unfold It.main, It.main_io. rewrite Hfs.
  destruct (It.make_placeholders u (read_text raw)) as [p ph].
  destruct (It.find_text_nodes u p
            ++ map (fun o : str * Z * str => snd o) (It.find_attr_values u p))
    as [|t0 ts]; [discriminate|].
  unfold It.batch_translate.
  destruct (It.batch_translate_log be (t0 :: ts)) as [mapping calls].
  cbn [fst]. intros [= <-]. cbn [how written].
  split; [reflexivity|]. now destruct more.
Qed.

(** The language attribute of a protected document stands in the document
    itself, between what the texts before and after it stand for; and the
    protected document with another value restores to the document with
    that value. *)
Lemma protected_lang_rewrite (u : unicode_db)
    (html pre opening before name w1 w2 code sub after post : str) :
  contains word html = false ->
  blocks_clean (snd (It.make_placeholders u html)) = true ->
  root_tag_ok u opening before name w1 w2 39%Z code sub after ->
  fst (It.make_placeholders u html)
  = pre ++ root_tag opening before (lang_attr name w1 w2 39%Z (code ++ sub)) after
    ++ post ->
  exists ix iy : list pitem,
    prender_tok ix = pre ++ opening ++ before
    /\ prender_tok iy = after ++ [62%Z] ++ post
    /\ Permutation (map entry (ptokens ix ++ ptokens iy))
                   (snd (It.make_placeholders u html))
    /\ html = prender_src ix ++ lang_attr name w1 w2 39%Z (code ++ sub)
              ++ prender_src iy
    /\ It.restore_placeholders
         (pre ++ root_tag opening before (lang_attr name w1 w2 39%Z (lit "th")) after
          ++ post)
         (snd (It.make_placeholders u html))
       = prender_src ix ++ lang_attr name w1 w2 39%Z (lit "th") ++ prender_src iy.
Proof.
  intros Hd Hb (Hopen & Hname & Hcode & Hq & Hw1 & Hw2 & Hsub & HA & HB & Hlast
                & Hnb & Hna) HP.
  destruct (make_placeholders_items u html Hb)
    as (items & ents & E & Hs & Hp & Hw).
  rewrite E in *. cbn [fst snd] in *.
  pose proof (wf_items_perm items ents Hw Hp) as Hwi.
  set (attr := lang_attr name w1 w2 39%Z (code ++ sub)) in *.
  set (attr' := lang_attr name w1 w2 39%Z (lit "th")).
  assert (Hbne : before <> []).
  { intros ->. cbn [last] in Hlast. discriminate Hlast. }
  (* the cut before the attribute *)
  destruct (prender_tok_split items Hwi (pre ++ opening ++ before)
              (attr ++ after ++ [62%Z] ++ post)) as (ix & i2 & Ei & Hx & H2).
  { rewrite HP. unfold root_tag. now rewrite <- !app_assoc. }
  { right. rewrite app_assoc, last_app_nonempty by exact Hbne.
    apply (word_char_key_char u).
    now rewrite (last_default before 0%Z 108%Z Hbne). }
  (* the cut after it *)
  assert (Hwi2 : wf_items i2).
  { unfold wf_items in *. rewrite Ei, ptokens_app in Hwi.
    now apply Forall_app in Hwi. }
  destruct (prender_tok_split i2 Hwi2 attr (after ++ [62%Z] ++ post) H2)
    as (ia & iy & Ei2 & Ha & Hy).
  { right. unfold attr. now rewrite lang_attr_last. }
  assert (Hplain : Forall (fun c => c <> 95%Z) attr).
  { apply lang_attr_plain; try assumption. apply Forall_app. split.
    - apply (ci_same_plain _ _ Hcode). repeat constructor; discriminate.
    - now apply subtag_plain. }
  assert (Eia : ia = map PCh attr).
  { rewrite <- Ha in Hplain. rewrite (prender_tok_plain ia Hplain). now rewrite Ha. }
  subst ia. subst i2. subst items.
  rewrite !prender_src_app, prender_src_text in Hs.
  rewrite !ptokens_app, ptokens_text in Hp. cbn [app] in Hp.
  exists ix, iy. split; [exact Hx|]. split; [exact Hy|].
  split; [now apply Permutation_map|]. split; [now symmetry|].
  set (items' := ix ++ map PCh attr' ++ iy).
  assert (Et : pre ++ root_tag opening before attr' after ++ post
               = prender_tok items').
  { unfold items'. rewrite !prender_tok_app, prender_tok_text, Hx, Hy.
    unfold root_tag. now rewrite <- !app_assoc. }
  assert (Es : prender_src ix ++ attr' ++ prender_src iy = prender_src items').
  { unfold items'. now rewrite !prender_src_app, prender_src_text. }
  rewrite Et, Es.
  apply (restore_entries ents items' (proj1 Hw) (wf_entries_nodup ents Hw)).
  { unfold items'. rewrite !ptokens_app, ptokens_text. exact Hp. }
  rewrite <- Es.
  (* the word does not come about with the new value *)
  apply contains_false_occurs_not in Hd. rewrite <- Hs in Hd.
  unfold attr, attr', lang_attr in *.
  set (N := name ++ w1 ++ [61%Z] ++ w2) in *.
  assert (Hnq : ~ In 39%Z word).
  { unfold word. cbn. intuition discriminate. }
  replace (prender_src ix ++ (name ++ w1 ++ [61%Z] ++ w2 ++ [39%Z] ++ lit "th" ++ [39%Z])
           ++ prender_src iy)
    with ((prender_src ix ++ N) ++ 39%Z :: (lit "th" ++ 39%Z :: prender_src iy)).
  2:{ unfold N. now repeat (rewrite <- ?app_assoc; cbn [app]). }
  replace (prender_src ix ++ (name ++ w1 ++ [61%Z] ++ w2 ++ [39%Z] ++ (code ++ sub) ++ [39%Z])
           ++ prender_src iy)
    with ((prender_src ix ++ N) ++ ((39%Z :: code ++ sub) ++ [39%Z]) ++ prender_src iy)
    in Hd.
  2:{ unfold N. now repeat (rewrite <- ?app_assoc; cbn [app]). }
  apply occurs_not_join; [exact Hnq | now apply occurs_not_prefix in Hd |].
  apply occurs_not_join; [exact Hnq | |].
  - apply contains_false_occurs_not. reflexivity.
  - apply occurs_not_app in Hd. now apply occurs_not_app in Hd.
Qed.

(** C2, as stated, fails for translate_html.py.  The whole text node goes
    to the backend, and what an identity backend gives back still has the
    margins that the reinsertion adds again.  And the file is read and
    written as text: a line that ends with a carriage return and a line
    feed is written with the line separator of the platform, here a line
    feed alone. *)
Lemma identity_doubles_margins :
  It.main ascii_db identity_backend (lit "<p> Ciao </p>")
  = Some (lit "<p>  Ciao  </p>")
  /\ written
       (It.main_io ascii_db [10%Z] identity_backend
          [lit "translate_html.py"; lit "a.html"]
          (fun p => if str_eqb p (lit "a.html")
                    then File (lit "<p>Ciao</p>" ++ [13; 10]%Z) else Unreadable))
     = [(lit "a.html", lit "<p>Ciao</p>" ++ [10%Z])].
Proof. split; vm_compute; reflexivity. Qed.

(** C2, amended.  The backend gives every batch back as it is; the document
    read does not hold the word PLACEHOLDER, none of its stored blocks holds
    a placeholder, its translatable segments have no space at either end,
    its visible attributes have no value of spaces alone, and there is a
    segment to translate.  Then translate_html.py writes, after the backup,
    the document read with nothing changed but the language attribute:
    unchanged where no language pattern matches the protected document;
    and where the protected document has a root tag with a language
    attribute in single quotes whose code is it, the document read is the
    text before the attribute, the attribute and the text after it, each
    placeholder standing for its stored block, and the document written is
    the same with the value th.  What reaches the file is the text with
    each line feed written as the line separator; a file without carriage
    returns, written with the line feed as separator, comes back byte for
    byte. *)
Theorem identity_roundtrip (u : unicode_db) (be : backend)
    (linesep prog in_path : str) (more : list str) (fs : str -> node)
    (raw : str) :
  let html := read_text raw in
  let protected_html := fst (It.make_placeholders u html) in
  let placeholders := snd (It.make_placeholders u html) in
  let run := It.main_io u linesep be (prog :: in_path :: more) fs in
  let out_path := match more with p :: _ => p | [] => in_path end in
  let backup :=
    match fs (in_path ++ lit ".bak.it.html") with
    | Missing => [(in_path ++ lit ".bak.it.html", write_text linesep html)]
    | _ => []
    end in
  fs in_path = File raw ->
  (forall l, translate_batch be l = Some l) ->
  all_texts u protected_html <> [] ->
  forallb margin_free (all_texts u protected_html) = true ->
  blank_free protected_html = true ->
  contains word html = false ->
  blocks_clean placeholders = true ->
  (It.main u be html
   = Some (It.restore_placeholders (It.switch_lang_attr u protected_html)
                                   placeholders)
   /\ how run = Exit 0)
  /\ (It.switch_lang_attr u protected_html = protected_html ->
      It.main u be html = Some html
      /\ written run = backup ++ [(out_path, write_text linesep html)]
      /\ (Forall (fun c => c <> 13%Z) raw -> linesep = [10%Z] ->
          written run
          = match fs (in_path ++ lit ".bak.it.html") with
            | Missing => [(in_path ++ lit ".bak.it.html", raw)]
            | _ => []
            end ++ [(out_path, raw)]))
  /\ (forall pre opening before name w1 w2 code sub after post,
        root_tag_ok u opening before name w1 w2 39%Z code sub after ->
        ci_find (lit "<html") (pre ++ removelast opening) = None ->
        ci_find (lit "<html") (after ++ [62%Z] ++ post) = None ->
        is_word u (hd 0%Z before) = false ->
        protected_html
        = pre ++ root_tag opening before
                          (lang_attr name w1 w2 39%Z (code ++ sub)) after
          ++ post ->
        exists ix iy : list pitem,
          prender_tok ix = pre ++ opening ++ before
          /\ prender_tok iy = after ++ [62%Z] ++ post
          /\ Permutation (map entry (ptokens ix ++ ptokens iy)) placeholders
          /\ html = prender_src ix
                    ++ lang_attr name w1 w2 39%Z (code ++ sub)
                    ++ prender_src iy
          /\ It.main u be html
             = Some (prender_src ix ++ lang_attr name w1 w2 39%Z (lit "th")
                     ++ prender_src iy)
          /\ written run
             = backup
               ++ [(out_path,
                    write_text linesep
                      (prender_src ix ++ lang_attr name w1 w2 39%Z (lit "th")
                       ++ prender_src iy))]).
Proof.
  intros html protected_html placeholders run out_path backup
         Hfs Hid Hne Hf Hb Hd Hc.
  pose proof (identity_passes u be html Hid Hf Hb Hne) as Hmain.
  fold protected_html placeholders in Hmain.
  split; [|split].
  - split; [exact Hmain|].
    exact (proj1 (main_io_written u linesep be prog in_path more fs raw _
                    Hfs Hmain)).
  - intros Hsame. rewrite Hsame in Hmain.
    unfold protected_html, placeholders in Hmain.
    rewrite (make_placeholders_restore u html Hd Hc) in Hmain.
    pose proof (proj2 (main_io_written u linesep be prog in_path more fs raw _
                         Hfs Hmain)) as Hwr.
    split; [exact Hmain|]. split; [exact Hwr|].
    intros Hcr ->. unfold run. rewrite Hwr.
    fold html. rewrite !write_text_plain. unfold html.
    now rewrite (read_text_plain raw Hcr).
  - intros pre opening before name w1 w2 code sub after post Hok Hpre Hpost
           Hhd HP.
    destruct (protected_lang_rewrite u html pre opening before name w1 w2
                code sub after post Hd Hc Hok HP)
      as (ix & iy & Hx & Hy & Hperm & Hsrc & Hres).
    exists ix, iy. do 4 (split; [assumption|]).
    rewrite HP, (it_lang_rewrite u pre opening before name w1 w2 code sub
                   after post Hok Hpre Hpost Hhd) in Hmain.
    unfold placeholders in Hmain. rewrite Hres in Hmain.
    split; [exact Hmain|].
    exact (proj2 (main_io_written u linesep be prog in_path more fs raw _
                    Hfs Hmain)).
Qed.

Lemma identity_roundtrip_witness :
  let raw := lit "<html lang='it'><!--c--><p>Ciao</p><img alt='Ciao mondo'></html>"
             ++ [10%Z] in
  let fs := fun p => if str_eqb p (lit "a.html") then File raw else Missing in
  let run := It.main_io ascii_db [10%Z] identity_backend
               [lit "translate_html.py"; lit "a.html"; lit "b.html"] fs in
  exists ix iy : list pitem,
    raw = prender_src ix ++ lit "lang='it'" ++ prender_src iy
    /\ written run
       = [(lit "a.html.bak.it.html", raw);
          (lit "b.html", prender_src ix ++ lit "lang='th'" ++ prender_src iy)].
Proof.
  intros raw fs run.
  destruct (proj2 (proj2
              (identity_roundtrip ascii_db identity_backend [10%Z]
                 (lit "translate_html.py") (lit "a.html") [lit "b.html"] fs raw
                 eq_refl (fun l => eq_refl)
                 ltac:(vm_compute; discriminate) eq_refl eq_refl eq_refl
                 eq_refl))
              [] (lit "<html") (lit " ") (lit "lang") [] [] (lit "it") []
              []
              (lit "__PLACEHOLDER_COMMENT_0__<p>Ciao</p><img alt='Ciao mondo'></html>"
               ++ [10%Z]))
    as (ix & iy & _ & _ & _ & Hsrc & _ & Hwr).
  - repeat split; try (repeat constructor; fail); try (vm_compute; reflexivity);
      try (vm_compute; repeat constructor; discriminate).
  - vm_compute. reflexivity.
  - vm_compute. reflexivity.
  - vm_compute. reflexivity.
  - vm_compute. reflexivity.
  - exists ix, iy. split.
    + exact Hsrc.
    + unfold run. rewrite Hwr, !write_text_plain.
      change (fs (lit "a.html" ++ lit ".bak.it.html")) with Missing.
      cbn [app].
      now rewrite (read_text_plain raw)
        by (vm_compute; repeat constructor; discriminate).
Defined.

(** ** C6: margins *)

Lemma re_sub_pure_ext_on (G : Type) (matcher : str -> option (nat * G))
    (r1 r2 : str -> G -> str) (s : str) :
  (forall t n g, matcher t = Some (n, g) -> 1 <= n) ->
  (forall t n g, matcher t = Some (n, g) ->
                 In (firstn n t, g) (finditer matcher s) ->
                 r1 (firstn n t) g = r2 (firstn n t) g) ->
  re_sub_pure matcher r1 s = re_sub_pure matcher r2 s.
Proof.
  intros Hpos.
  remember (List.length s) as k eqn:Hk.
  revert s Hk; induction k as [k IH] using lt_wf_ind; intros s Hk Hid.
  destruct s as [|c s]; [reflexivity|].
  destruct (matcher (c :: s)) as [[n g]|] eqn:Hm.
  - rewrite !(re_sub_pure_some _ _ _ _ _ _ _ Hm).
    rewrite (finditer_some _ _ _ _ _ _ Hm) in Hid.
    rewrite (Hid _ _ _ Hm) by (now left).
    pose proof (Hpos _ _ _ Hm) as Hn. f_equal.
    apply (IH (List.length (skipn (n - 1) s))); [|reflexivity|].
    + rewrite length_skipn. subst k. simpl. lia.
    + intros t n' g' Ht Hin. apply Hid; [exact Ht | now right].
  - rewrite !(re_sub_pure_none _ _ _ _ _ Hm). f_equal.
    rewrite (finditer_none _ _ _ _ Hm) in Hid.
    apply (IH (List.length s)); [subst k; simpl; lia | reflexivity | exact Hid].
Qed.

Lemma core_strip (s : str) : It.core_of s = strip s.
Proof.
  unfold It.core_of, slice.
  destruct (strip s) as [|c0 t0] eqn:E.
  - destruct (spaces_margins s E) as [-> ->].
    replace (List.length s - List.length s - List.length s) with 0 by lia.
    reflexivity.
  - rewrite <- E. assert (Hne : strip s <> []) by (rewrite E; discriminate).
    destruct (margins_split s Hne) as (_ & _ & Hs).
    clear E. revert Hs.
    generalize (leading_ws s), (trailing_ws s), (strip s). intros L T X Hs.
    rewrite <- Hs at 1 2. rewrite !length_app, skipn_exact.
    replace (List.length L + (List.length X + List.length T) - List.length T
             - List.length L) with (List.length X) by lia.
    apply firstn_exact.
Qed.

Lemma has_latin_stripped (s : str) : has_latin (strip s) = has_latin s.
Proof.
  destruct (strip s) as [|c0 t0] eqn:E.
  - destruct (has_latin s) eqn:H; [|reflexivity].
    apply has_latin_strip in H. now rewrite E in H.
  - rewrite <- E. assert (Hne : strip s <> []) by (rewrite E; discriminate).
    destruct (strip_split s Hne) as (L & T & Hs & _ & _ & HL & HT).
    rewrite Hs at 2. rewrite (has_latin_spaces L _ HL).
    unfold has_latin. rewrite existsb_app.
    assert (Ht : existsb latin T = false).
    { clear - HT. induction HT as [|c T Hc _ IH]; [reflexivity|].
      cbn [existsb]. rewrite IH.
      destruct (latin c) eqn:El; [|reflexivity].
      exfalso. revert Hc El. unfold is_space, latin, in_range.
      intros Hc El. repeat (apply Bool.orb_true_iff in Hc as [Hc|Hc]);
        try apply Z.eqb_eq in Hc; subst; try discriminate;
        try (apply Bool.andb_true_iff in Hc as [H1 H2];
             apply Z.leb_le in H1, H2;
             repeat (apply Bool.orb_true_iff in El as [El|El]);
             repeat (apply Bool.andb_true_iff in El as [El ?]);
             try apply Z.leb_le in El; try lia). }
    rewrite Ht. now rewrite Bool.orb_false_r.
Qed.

Lemma collected_stripped (u : unicode_db) (s : str) :
  collected u (strip s) = collected u s.
Proof. unfold collected. now rewrite strip_idem, has_latin_stripped. Qed.

(** The texts [find_text_nodes] returns are the whole texts between the
    brackets that it collects. *)
Lemma text_nodes_collected (u : unicode_db) (html t : str) :
  In t (It.find_text_nodes u html)
  <-> In t (map snd (finditer text_re html)) /\ collected u t = true.
Proof.
  unfold It.find_text_nodes, collected. rewrite in_flat_map, in_map_iff.
  split.
  - intros ([m g] & Hin & Ht). cbn [snd] in Ht.
    destruct (strip g) as [|c0 t0] eqn:E; [destruct Ht|].
    destruct (It.placeholder_fullmatch u (c0 :: t0)) eqn:Ep; [destruct Ht|].
    destruct (has_latin g) eqn:El; cbn [negb] in Ht; [|destruct Ht].
    destruct Ht as [<-|[]]. rewrite E, Ep, El. split; [|reflexivity].
    now exists (m, g).
  - intros [([m g] & <- & Hin) Hc]. exists (m, g). split; [exact Hin|].
    cbn [snd] in *. destruct (strip g) as [|c0 t0]; [discriminate|].
    destruct (It.placeholder_fullmatch u (c0 :: t0)); [discriminate|].
    cbn [negb andb] in Hc. rewrite Hc. now left.
Qed.

Lemma attr_values_collected (u : unicode_db) (html : str) (o : str * Z * str) :
  In o (It.find_attr_values u html) -> collected u (snd o) = true.
Proof.
  unfold It.find_attr_values. rewrite in_flat_map.
  intros (attr & _ & H). apply in_flat_map in H as ([m [[pre q] v]] & _ & H).
  cbn [snd] in H. destruct v as [|v0 vs]; [destruct H|].
  destruct (It.placeholder_fullmatch u (strip (v0 :: vs))) eqn:Ep;
    cbn [negb andb] in H; [destruct H|].
  destruct (has_latin (v0 :: vs)) eqn:El; [|destruct H].
  destruct H as [<-|[]]. cbn [snd]. unfold collected.
  pose proof (has_latin_strip _ El) as Hs.
  destruct (strip (v0 :: vs)) as [|c0 t0]; [discriminate|].
  now rewrite Ep, El.
Qed.

Lemma all_texts_collected (u : unicode_db) (html t : str) :
  In t (all_texts u html) -> collected u t = true.
Proof.
  unfold all_texts. rewrite in_app_iff, in_map_iff.
  intros [H|(o & <- & H)].
  - now apply text_nodes_collected in H.
  - now apply (attr_values_collected u html).
Qed.

(** The mapping of a backend that answers text by text. *)
Lemma pointwise_get (be : backend) (f : str -> str) (texts : list str) (k : str) :
  (forall chunk, translate_batch be chunk = Some (map f chunk)) ->
  dict_get (It.batch_translate be texts) k
  = if existsb (str_eqb k) texts then Some (f k) else None.
Proof.
  intros Hb.
  assert (E : It.batch_translate be texts
              = map (fun s => (s, f s)) (It.dedup [] texts)).
  { unfold It.batch_translate, It.batch_translate_log.
    rewrite (batch_fold_pointwise be f).
    - cbn [fst app]. now rewrite chunks_concat by (unfold It.CHUNK; lia).
    - intros c _. apply Hb.
    - cbn [fst map app]. rewrite chunks_concat by (unfold It.CHUNK; lia).
      apply (dedup_spec texts []). }
  rewrite E.
  assert (Hin : In k (It.dedup [] texts) <-> In k texts).
  { split; [apply dedup_subset|].
    intros H. apply (dedup_spec texts []); [exact H | intros []]. }
  assert (Hget : forall l,
            dict_get (map (fun s => (s, f s)) l) k
            = if existsb (str_eqb k) l then Some (f k) else None).
  { induction l as [|x l IH]; [reflexivity|]. cbn [map dict_get existsb].
    destruct (str_eqb x k) eqn:Ex.
    - apply str_eqb_eq in Ex. subst x. now rewrite str_eqb_refl.
    - assert (Ek : str_eqb k x = false).
      { destruct (str_eqb k x) eqn:Ek; [|reflexivity].
        apply str_eqb_eq in Ek. subst x. now rewrite str_eqb_refl in Ex. }
      now rewrite Ek. }
  rewrite Hget.
  destruct (existsb (str_eqb k) (It.dedup [] texts)) eqn:E1,
           (existsb (str_eqb k) texts) eqn:E2; try reflexivity.
  - apply existsb_str_eqb, Hin, existsb_str_eqb in E1. congruence.
  - apply existsb_str_eqb, Hin, existsb_str_eqb in E2. congruence.
Qed.

(** The text pass of translate_html.py with a backend that answers text by
    text: a collected node becomes its margins around the answer for the
    whole node; any other node stays. *)
Lemma text_pass_pointwise (u : unicode_db) (be : backend) (f : str -> str)
    (html : str) :
  (forall chunk, translate_batch be chunk = Some (map f chunk)) ->
  It.replace_between_tags html (It.batch_translate be (all_texts u html))
  = re_sub_pure text_re
      (fun m original =>
         if collected u original
         then [62%Z] ++ leading_ws original ++ f original
              ++ trailing_ws original ++ [60%Z]
         else m)
      html.
Proof.
  intros Hb. unfold It.replace_between_tags.
  apply re_sub_pure_ext_on.
  - intros t n g H. now apply text_re_shape in H.
  - intros t n g H Hin. apply text_re_shape in H as [_ Hm].
    rewrite core_strip. unfold It.lookup.
    rewrite !(pointwise_get be f _ _ Hb).
    destruct (collected u g) eqn:Hc.
    + assert (Hg : In g (all_texts u html)).
      { unfold all_texts. apply in_or_app. left.
        apply text_nodes_collected. split; [|exact Hc].
        apply in_map_iff. now exists (firstn n t, g). }
      apply existsb_str_eqb in Hg. rewrite Hg.
      unfold collected in Hc. now destruct (strip g).
    + assert (N1 : existsb (str_eqb g) (all_texts u html) = false).
      { destruct (existsb (str_eqb g) (all_texts u html)) eqn:E; [|reflexivity].
        apply existsb_str_eqb, all_texts_collected in E. congruence. }
      assert (N2 : existsb (str_eqb (strip g)) (all_texts u html) = false).
      { destruct (existsb (str_eqb (strip g)) (all_texts u html)) eqn:E;
          [|reflexivity].
        apply existsb_str_eqb, all_texts_collected in E.
        rewrite collected_stripped in E. congruence. }
      rewrite N1, N2.
      destruct (strip g) as [|c0 t0] eqn:E; [reflexivity|].
      rewrite <- E.
      assert (Hne : strip g <> []) by (rewrite E; discriminate).
      destruct (margins_split g Hne) as (_ & _ & Hs).
      rewrite Hm. rewrite <- Hs at 4. now rewrite <- !app_assoc.
Qed.

(** With no Latin letter in a listed attribute, the attribute pass of the
    ru script leaves the document and the translator as they are. *)
Lemma attributes_idle (content : str) (bt : Ru.BatchTranslator) :
  attrs_idle content = true -> Ru._pending bt = [] ->
  Ru.translate_attributes content bt = (content, bt, []).
Proof.
  intros Ha Hp. unfold attrs_idle in Ha. rewrite forallb_forall in Ha.
  unfold Ru.translate_attributes.
  assert (Hpass : forall q attr, q = 34%Z \/ q = 39%Z -> In attr Ru.attrs ->
            re_sub (Ru.attr_re q attr) (Ru.repl_attr q) content bt = (content, bt)).
  { intros q attr Hq Hattr.
    destruct (re_sub_kept _ _ (fun b => b = bt) (Ru.attr_re q attr)
                (Ru.repl_attr q) content) with (st := bt) as [H1 H2];
      [| |reflexivity|].
    - intros t n [pre val] H. now apply ru_attr_re_shape in H.
    - intros t n [pre val] st Hm Hin ->.
      specialize (Ha attr Hattr). cbn [forallb] in Ha.
      apply andb_prop in Ha as [H34 H39]. apply andb_prop in H39 as [H39 _].
      assert (Hl : negb (has_latin val) = true).
      { destruct Hq as [-> | ->].
        - rewrite forallb_forall in H34. exact (H34 _ Hin).
        - rewrite forallb_forall in H39. exact (H39 _ Hin). }
      unfold Ru.repl_attr. rewrite Hl. now split.
    - destruct (re_sub (Ru.attr_re q attr) (Ru.repl_attr q) content bt).
      cbn [fst snd] in *. congruence. }
  assert (Hfold : forall l, (forall a, In a l -> In a Ru.attrs) ->
    fold_left
      (fun (acc : str * Ru.BatchTranslator) attr =>
         let (c1, b1) := re_sub (Ru.attr_re 34 attr) (Ru.repl_attr 34)
                                (fst acc) (snd acc) in
         re_sub (Ru.attr_re 39 attr) (Ru.repl_attr 39) c1 b1)
      l (content, bt)
    = (content, bt)).
  { induction l as [|a l IH]; intros Hl; [reflexivity|].
    cbn [fold_left fst snd].
    rewrite (Hpass 34%Z a (or_introl eq_refl) (Hl a (or_introl eq_refl))).
    rewrite (Hpass 39%Z a (or_intror eq_refl) (Hl a (or_introl eq_refl))).
    apply IH. intros x Hx. apply Hl. now right. }
  rewrite (Hfold Ru.attrs (fun a H => H)).
  unfold Ru.process_batches. now rewrite Hp.
Qed.

(** The text pass of the ru script, from a translator in the state the
    pass keeps: every translatable node ends as its margins around the
    answer for its stripped text. *)
Lemma textnodes_closed_form (f : str -> str) (content : str)
    (bt : Ru.BatchTranslator) :
  text_inv bt ->
  answers bt f ->
  (forall s, Forall (fun c => c <> 64%Z) s -> Forall (fun c => c <> 64%Z) (f s)) ->
  contains (lit "@@T_") content = false ->
  fst (fst (Ru.translate_textnodes content bt))
  = re_sub_pure text_re (fun _ inner => translated_node f inner) content.
Proof.
  intros Hinv Ha Hf Ho. apply contains_false_occurs_not in Ho.
  unfold Ru.translate_textnodes.
  destruct (text_pass f content bt Hinv)
    as (items & more & G1 & G2 & G3 & G4 & G5 & G6 & G7).
  destruct (re_sub text_re Ru.repl_text content bt) as [content1 bt1].
  cbn [fst snd] in *. subst content1.
  assert (HN : forall i x, In (TNode i x) items -> i < List.length (Ru._pending bt1)).
  { intros i x Hin. destruct (G6 i x Hin) as (p & Hn & _).
    apply nth_error_Some. rewrite Hn. discriminate. }
  rewrite (G3 _ HN).
  assert (Ha1 : answers bt1 f) by (unfold answers in *; now rewrite G7).
  unfold Ru.process_batches. clear G5.
  destruct (Ru._pending bt1) as [|p0 ps] eqn:Hp.
  - reflexivity.
  - pose proof (translate_all_pointwise bt1 f (map Ru.p_stripped (p0 :: ps)) Ha1)
      as Ht.
    destruct (Ru.translate_all bt1 (map Ru.p_stripped (p0 :: ps))) as [tall calls].
    cbn [fst] in Ht. subst tall.
    rewrite <- G2 in Ho.
    assert (Hclean : forall i inner, In (TNode i inner) items ->
                       Forall (fun c => c <> 64%Z) (node_final f inner)).
    { intros i inner Hin. apply node_final_clean; [exact Hf|].
      destruct (G6 i inner Hin) as (p & Hn & <-).
      destruct G4 as [Hq _]. exact (proj2 (Hq i p Hn)). }
    pose proof (process_fold f items Ho Hclean (p0 :: ps) 0 (Ru.cache bt1)) as Hfold.
    destruct (fold_left _ (combine (p0 :: ps) _) (render_nodes f 0 items, Ru.cache bt1))
      as [content2 cache2].
    cbn [fst snd Ru._pending] in *.
    apply Hfold. intros j p Hj. rewrite <- Hp in Hj.
    destruct G4 as [Hq _]. split; [exact (proj1 (Hq j p Hj))|].
    intros inner Hin. destruct (G6 j inner Hin) as (p' & Hn & Ho').
    rewrite Hp in Hj, Hn. rewrite Hj in Hn. now injection Hn as <-.
Qed.

(** The ru script as a whole on a document whose listed attributes hold no
    Latin letter. *)
Lemma main_text_closed (u : unicode_db) (be : option backend) (f : str -> str)
    (doc : str) :
  answers (Ru.new_translator be) f ->
  (forall s, Forall (fun c => c <> 64%Z) s -> Forall (fun c => c <> 64%Z) (f s)) ->
  attrs_idle
    (fst (Ru.protect_blocks
            (fst (Ru.protect_blocks (Ru.switch_lang u doc) (lit "style")))
            (lit "script"))) = true ->
  contains (lit "@@T_")
    (fst (Ru.protect_blocks
            (fst (Ru.protect_blocks (Ru.switch_lang u doc) (lit "style")))
            (lit "script"))) = false ->
  fst (Ru.main u be doc)
  = Ru.restore_blocks
      (Ru.restore_blocks
         (re_sub_pure text_re (fun _ inner => translated_node f inner)
            (fst (Ru.protect_blocks
                    (fst (Ru.protect_blocks (Ru.switch_lang u doc) (lit "style")))
                    (lit "script"))))
         (lit "script")
         (snd (Ru.protect_blocks
                 (fst (Ru.protect_blocks (Ru.switch_lang u doc) (lit "style")))
                 (lit "script"))))
      (lit "style")
      (snd (Ru.protect_blocks (Ru.switch_lang u doc) (lit "style"))).
Proof.
  intros Ha Hf Hi Ho. unfold Ru.main.
  destruct (Ru.protect_blocks (Ru.switch_lang u doc) (lit "style"))
    as [h1 styles].
  cbn [fst snd] in *.
  destruct (Ru.protect_blocks h1 (lit "script")) as [h2 scripts].
  cbn [fst snd] in *.
  rewrite (attributes_idle h2 (Ru.new_translator be) Hi eq_refl).
  assert (Hinv : text_inv (Ru.new_translator be)).
  { split.
    - intros i p H. destruct i; discriminate H.
    - intros s v H. discriminate H. }
  pose proof (textnodes_closed_form f h2 (Ru.new_translator be) Hinv Ha Hf Ho)
    as Ht.
  destruct (Ru.translate_textnodes h2 (Ru.new_translator be))
    as [[h4 bt2] calls2].
  cbn [fst snd] in *. now subst h4.
Qed.

(** C6, amended.  The ru script cuts the margins off each segment: what
    it hands to the backend in a run are stripped texts of segments it
    queued, and on a document whose listed attributes hold no Latin letter
    every translatable text node comes out as its leading margin, the
    answer for its stripped text and its trailing margin, each margin as
    it stood.  translate_html.py hands over the whole texts it collected,
    margins included, each once, and a collected text node comes out as its
    leading margin, the answer for the whole node and its trailing margin.
    For the node with two spaces on either side of Hello World, the output
    node has Bonjour le monde between the same margins: in the ru script
    when the backend answers Hello World so, in translate_html.py when it
    answers the whole node so. *)
Theorem margins_kept (u : unicode_db) (be : backend) (f : str -> str)
    (html doc : str) :
  (translate_batch be [lit "  Hello World  "] = Some [lit "Bonjour le monde"] ->
   translate_batch be [lit "Hello World"] = Some [lit "Bonjour le monde"] ->
   It.main u be (lit "<p>  Hello World  </p>")
   = Some (lit "<p>  Bonjour le monde  </p>")
   /\ Ru.main u (Some be) (lit "<p>  Hello World  </p>")
      = (lit "<p>  Bonjour le monde  </p>", [BatchCall [lit "Hello World"]]))
  /\ (let protected_html := fst (It.make_placeholders u html) in
      It.batch_inputs
        (snd (It.batch_translate_log be (all_texts u protected_html)))
      = It.dedup [] (all_texts u protected_html)
      /\ forall t, In t (It.find_text_nodes u protected_html)
                   <-> In t (map snd (finditer text_re protected_html))
                       /\ collected u t = true)
  /\ (exists segs,
        Forall (fun s => sendable s = true) segs
        /\ It.batch_inputs (snd (Ru.main u (Some be) doc)) = map strip segs)
  /\ ((forall chunk, translate_batch be chunk = Some (map f chunk)) ->
      let protected_html := fst (It.make_placeholders u html) in
      let mapping := It.batch_translate be (all_texts u protected_html) in
      let translated :=
        re_sub_pure text_re
          (fun m original =>
             if collected u original
             then [62%Z] ++ leading_ws original ++ f original
                  ++ trailing_ws original ++ [60%Z]
             else m)
          protected_html in
      It.replace_between_tags protected_html mapping = translated
      /\ (all_texts u protected_html <> [] ->
          It.main u be html
          = Some (It.restore_placeholders
                    (It.switch_lang_attr u
                       (It.replace_attr_values translated mapping))
                    (snd (It.make_placeholders u html)))))
  /\ ((forall chunk, translate_batch be chunk = Some (map f chunk)) ->
      (forall s, Forall (fun c => c <> 64%Z) s ->
                 Forall (fun c => c <> 64%Z) (f s)) ->
      let p1 := Ru.protect_blocks (Ru.switch_lang u doc) (lit "style") in
      let p2 := Ru.protect_blocks (fst p1) (lit "script") in
      attrs_idle (fst p2) = true ->
      contains (lit "@@T_") (fst p2) = false ->
      fst (Ru.main u (Some be) doc)
      = Ru.restore_blocks
          (Ru.restore_blocks
             (re_sub_pure text_re
                (fun _ inner =>
                   [62%Z]
                   ++ (if translatable inner
                       then leading_ws inner ++ f (strip inner)
                            ++ trailing_ws inner
                       else inner)
                   ++ [60%Z])
                (fst p2))
             (lit "script") (snd p2))
          (lit "style") (snd p1)).
Proof.
  split; [|split; [|split; [|split]]].
  - intros Hraw Hcore. split.
    + unfold It.main.
      assert (E1 : It.make_placeholders u (lit "<p>  Hello World  </p>")
                   = (lit "<p>  Hello World  </p>", []))
        by (vm_compute; reflexivity).
      rewrite E1.
      assert (E2 : It.find_text_nodes u (lit "<p>  Hello World  </p>")
                   = [lit "  Hello World  "]) by (vm_compute; reflexivity).
      assert (E3 : It.find_attr_values u (lit "<p>  Hello World  </p>") = [])
        by (vm_compute; reflexivity).
      rewrite E2, E3. cbn [map app].
      assert (E4 : It.batch_translate be [lit "  Hello World  "]
                   = [(lit "  Hello World  ", lit "Bonjour le monde")]).
      { unfold It.batch_translate, It.batch_translate_log.
        assert (E : It.chunks It.CHUNK (It.dedup [] [lit "  Hello World  "])
                    = [[lit "  Hello World  "]]) by (vm_compute; reflexivity).
        rewrite E. cbn [fold_left]. unfold It.translate_chunk. rewrite Hraw.
        vm_compute. reflexivity. }
      rewrite E4. vm_compute. reflexivity.
    + unfold Ru.main.
      assert (E1 : Ru.switch_lang u (lit "<p>  Hello World  </p>")
                   = lit "<p>  Hello World  </p>") by (vm_compute; reflexivity).
      rewrite E1.
      assert (E3 : Ru.protect_blocks (lit "<p>  Hello World  </p>") (lit "style")
                   = (lit "<p>  Hello World  </p>", [])) by (vm_compute; reflexivity).
      rewrite E3.
      assert (E4 : Ru.protect_blocks (lit "<p>  Hello World  </p>") (lit "script")
                   = (lit "<p>  Hello World  </p>", [])) by (vm_compute; reflexivity).
      rewrite E4.
      assert (E5 : Ru.translate_attributes (lit "<p>  Hello World  </p>")
                     (Ru.new_translator (Some be))
                   = (lit "<p>  Hello World  </p>", Ru.new_translator (Some be), []))
        by (vm_compute; reflexivity).
      rewrite E5.
      unfold Ru.translate_textnodes.
      assert (E6 : re_sub text_re Ru.repl_text (lit "<p>  Hello World  </p>")
                     (Ru.new_translator (Some be))
                   = (lit "<p>@@T_0@@</p>",
                      {| Ru.cache := [(lit "  Hello World  ", lit "@@T_0@@")];
                         Ru._pending :=
                           [{| Ru.p_placeholder := lit "@@T_0@@";
                               Ru.p_prefix := lit "  ";
                               Ru.p_stripped := lit "Hello World";
                               Ru.p_suffix := lit "  ";
                               Ru.p_original := lit "  Hello World  " |}];
                         Ru.tr := Some be |}))
        by (vm_compute; reflexivity).
      rewrite E6. unfold Ru.process_batches. cbn [Ru._pending map Ru.p_stripped].
      assert (E7 : Ru.translate_all
                     {| Ru.cache := [(lit "  Hello World  ", lit "@@T_0@@")];
                         Ru._pending :=
                           [{| Ru.p_placeholder := lit "@@T_0@@";
                               Ru.p_prefix := lit "  ";
                               Ru.p_stripped := lit "Hello World";
                               Ru.p_suffix := lit "  ";
                               Ru.p_original := lit "  Hello World  " |}];
                         Ru.tr := Some be |} [lit "Hello World"]
                   = ([lit "Bonjour le monde"], [BatchCall [lit "Hello World"]])).
      { unfold Ru.translate_all.
        assert (E : Ru.chunks 80 [lit "Hello World"] = [[lit "Hello World"]])
          by (vm_compute; reflexivity).
        rewrite E. cbn [fold_left]. unfold Ru._translate_list. cbn [Ru.tr].
        rewrite Hcore. reflexivity. }
      rewrite E7. vm_compute. reflexivity.
  - cbn zeta. split; [apply batch_inputs_uniq|].
    intros t. apply text_nodes_collected.
  - destruct (main_ran u (Some be) doc) as (bt & values & content & Hr & Hp & _).
    apply ran_inputs in Hr as (Ha & _ & _).
    rewrite Hp, app_nil_r in Ha.
    exists (filter sendable (It.dedup [] (values ++ latin_nodes content))).
    split; [|exact Ha].
    apply Forall_forall. intros s Hs. now apply filter_In in Hs.
  - intros Hb. cbn zeta.
    pose proof (text_pass_pointwise u be f (fst (It.make_placeholders u html)) Hb)
      as Ht.
    split; [exact Ht|].
    intros Hne. rewrite <- Ht. unfold It.main, all_texts in *.
    destruct (It.make_placeholders u html) as [p ph]. cbn [fst snd] in *.
    destruct (It.find_text_nodes u p
              ++ map (fun o : str * Z * str => snd o) (It.find_attr_values u p))
      as [|t0 ts]; [congruence | reflexivity].
  - intros Hb Hf. cbn zeta. intros Hi Ho.
    apply (main_text_closed u (Some be) f doc); try assumption.
    intros items. left. apply Hb.
Qed.

Lemma margins_kept_witness :
  let be := {| translate_batch := fun l => Some (map (fun _ => lit "Salve") l);
               translate := fun _ => None |} in
  It.main ascii_db be (lit "<p> Ciao   </p>") = Some (lit "<p> Salve   </p>")
  /\ fst (Ru.main ascii_db (Some be) (lit "<p> Ciao   </p>"))
     = lit "<p> Salve   </p>".
Proof.
  intros be.
  destruct (margins_kept ascii_db be (fun _ => lit "Salve")
              (lit "<p> Ciao   </p>") (lit "<p> Ciao   </p>"))
    as (_ & _ & _ & Hit & Hru).
  split.
  - refine (eq_trans (proj2 (Hit (fun chunk => eq_refl)) _) _).
    + vm_compute. discriminate.
    + vm_compute. reflexivity.
  - refine (eq_trans (Hru (fun chunk => eq_refl) _ eq_refl eq_refl) _).
    + intros s _. repeat constructor; discriminate.
    + vm_compute. reflexivity.
Defined.
